(** * LSD agglomeration ([lsd/agglomerate.py]): a shallow embedding

    The development follows the Python class [LsdAgglomeration]:

    - region geometry ([gp.Roi]) on integer coordinates;
    - numpy arrays as a shape with a coordinate-indexed content, views
      obtained by basic slicing as windows into the array they alias, and
      a store of live arrays and per-call temporaries;
    - the region adjacency graph with its node and edge attributes;
    - the methods of the class, written in a state-and-exception monad in
      the order of the source.

    Labels, descriptor values and scores are exact integers: the squared
    differences and their sums are computed without rounding. *)

From Stdlib Require Import ZArith Lia List Bool.
From stdpp Require Import base option list gmap.

Open Scope Z_scope.

(** ** Coordinates *)

Abbreviation coord := (list Z) (only parsing).

(** Component [i] of a coordinate (0 outside its dimension). *)
Definition ax (l : coord) (i : nat) : Z := default 0 (l !! i).

Definition zeros (n : nat) : coord := replicate n 0.

Definition cadd (a b : coord) : coord := zip_with Z.add a b.
Definition csub (a b : coord) : coord := zip_with Z.sub a b.
Definition cmin (a b : coord) : coord := zip_with Z.min a b.
Definition cmax (a b : coord) : coord := zip_with Z.max a b.
Definition cneg (a : coord) : coord := map Z.opp a.

(** ** Region geometry *)

Module Roi.

(** Modelled from the spec: the region type [gp.Roi] (section 4.1), an
    axis-aligned box given by its offset and shape, closed-open per axis,
    with the operations the class calls on it. *)
Record t := mk { offset : coord; shape : coord }.

Definition dims (r : t) : nat := length (shape r).
Definition get_begin (r : t) : coord := offset r.
Definition get_end (r : t) : coord := cadd (offset r) (shape r).

Definition size (r : t) : Z := fold_right Z.mul 1 (shape r).
Definition empty (r : t) : bool := size r =? 0.

(** Modelled from the spec: [grow(neg, pos)] expands the region by the
    given margins per axis. *)
Definition grow (r : t) (amount_neg amount_pos : coord) : t :=
  mk (csub (offset r) amount_neg)
     (cadd (cadd (shape r) amount_neg) amount_pos).

(** Two regions are separated when on some axis one begins at or after the
    end of the other. *)
Definition separated (a b : t) : bool :=
  existsb (fun x => x)
    (zip_with orb
       (zip_with Z.geb (get_begin a) (get_end b))
       (zip_with Z.geb (get_begin b) (get_end a))).

Definition intersects (a b : t) : bool :=
  if empty a || empty b then false else negb (separated a b).

(** Modelled from the spec: [intersect(other)] returns the overlap, which
    may be empty; the empty result is the region of offset 0 and shape 0. *)
Definition intersect (a b : t) : t :=
  if intersects a b then
    let b' := cmax (get_begin a) (get_begin b) in
    let e' := cmin (get_end a) (get_end b) in
    mk b' (csub e' b')
  else mk (zeros (dims a)) (zeros (dims a)).

(** Modelled from the spec: [union(other)] returns the smallest region
    containing both. *)
Definition union (a b : t) : t :=
  let b' := cmin (get_begin a) (get_begin b) in
  let e' := cmax (get_end a) (get_end b) in
  mk b' (csub e' b').

(** Modelled from the spec: [subtract(offset)] translates the region to be
    relative to another origin. *)
Definition sub (r : t) (by_ : coord) : t :=
  mk (csub (offset r) by_) (shape r).

(** Ceiling of the quotient, for a positive divisor. *)
Definition cdiv (a b : Z) : Z := - ((- a) / b).

(** Modelled from the spec: [snapToGrid(cellSize)] rounds the offset down
    and the end up to multiples of the cell size per axis. *)
Definition snap_to_grid (r : t) (voxel_size : coord) : t :=
  let begin_in_voxel := zip_with Z.div (get_begin r) voxel_size in
  let end_in_voxel := zip_with cdiv (get_end r) voxel_size in
  mk (zip_with Z.mul begin_in_voxel voxel_size)
     (zip_with Z.mul (csub end_in_voxel begin_in_voxel) voxel_size).

(** [to_slices()]: one [slice(begin, end)] per axis. *)
Definition to_slices (r : t) : list (option Z * option Z) :=
  zip_with (fun b e => (Some b, Some e)) (get_begin r) (get_end r).

(** A voxel lies in the region. *)
Definition contains (r : t) (p : coord) : Prop :=
  length p = dims r /\
  forall i : nat, (i < dims r)%nat ->
    ax (offset r) i <= ax p i < ax (offset r) i + ax (shape r) i.

Definition containsb (r : t) (p : coord) : bool :=
  (length p =? dims r)%nat &&
  forallb (fun x => x)
    (zip_with (fun q bs => (fst bs <=? q) && (q <? fst bs + snd bs))
       p (zip (offset r) (shape r))).

(** A region of dimension [n] with a positive extent on every axis. *)
Definition proper (n : nat) (r : t) : Prop :=
  length (offset r) = n /\ length (shape r) = n /\
  forall i : nat, (i < n)%nat -> 0 < ax (shape r) i.

End Roi.

(** ** numpy arrays *)

(** An n-dimensional array: its shape and its content by coordinate.  The
    content is only meaningful at the indices inside the shape. *)
Record ndarray := mkArr { ashape : coord; adata : coord -> Z }.

(** Indices of an array of the given shape, in row-major order. *)
Fixpoint indices (s : coord) : list coord :=
  match s with
  | [] => [[]]
  | n :: s' => i ← seqZ 0 n; (fun p => i :: p) <$> indices s'
  end.

Definition zsum (l : list Z) : Z := foldr Z.add 0 l.

Definition in_shape (s : coord) (i : coord) : bool :=
  (length i =? length s)%nat &&
  forallb (fun x => x) (zip_with (fun q n => (0 <=? q) && (q <? n)) i s).

Definition bool_to_Z (b : bool) : Z := if b then 1 else 0.

(** [a == x] elementwise. *)
Definition eq_scalar (a : ndarray) (x : Z) : ndarray :=
  mkArr (ashape a) (fun i => bool_to_Z (adata a i =? x)).

(** [np.isin(a, xs)]. *)
Definition np_isin (a : ndarray) (xs : list Z) : ndarray :=
  mkArr (ashape a) (fun i => bool_to_Z (existsb (Z.eqb (adata a i)) xs)).

(** [np.logical_not(a)]. *)
Definition np_logical_not (a : ndarray) : ndarray :=
  mkArr (ashape a) (fun i => bool_to_Z (adata a i =? 0)).

(** [np.zeros_like(a)]. *)
Definition np_zeros_like (a : ndarray) : ndarray :=
  mkArr (ashape a) (fun _ => 0).

(** Broadcasting of two shapes, aligned at their last axis; the shapes are
    given reversed.  [None] when they are incompatible. *)
Fixpoint broadcast_rev (s1 s2 : coord) : option coord :=
  match s1, s2 with
  | [], s => Some s
  | s, [] => Some s
  | a :: s1', b :: s2' =>
      r ← broadcast_rev s1' s2';
      if a =? b then Some (a :: r)
      else if a =? 1 then Some (b :: r)
      else if b =? 1 then Some (a :: r)
      else None
  end.

Definition broadcast (s1 s2 : coord) : option coord :=
  reverse <$> broadcast_rev (reverse s1) (reverse s2).

(** The index of an operand of shape [s] read at index [i] of the
    broadcast result: leading axes are dropped, axes of extent 1 read
    index 0. *)
Definition bidx (s : coord) (i : coord) : coord :=
  zip_with (fun n q => if n =? 1 then 0 else q) s
           (drop (length i - length s)%nat i).

(** [a - b] with broadcasting; [None] is numpy's [ValueError]. *)
Definition np_sub (a b : ndarray) : option ndarray :=
  s ← broadcast (ashape a) (ashape b);
  Some (mkArr s (fun i => adata a (bidx (ashape a) i) - adata b (bidx (ashape b) i))).

(** [a ** 2]. *)
Definition np_square (a : ndarray) : ndarray :=
  mkArr (ashape a) (fun i => adata a i * adata a i).

(** [np.sum(a)]. *)
Definition np_sum (a : ndarray) : Z :=
  zsum (adata a <$> indices (ashape a)).

(** Normalisation of a slice bound against an axis of length [n], as
    Python's [slice.indices] does for step 1: a negative bound counts from
    the end, and the result is clipped to [0, n]. *)
Definition slice_bound (n : Z) (x : Z) : Z :=
  if x <? 0 then Z.max 0 (x + n) else Z.min x n.

Definition slice_start (n : Z) (sl : option Z * option Z) : Z :=
  from_option (slice_bound n) 0 (fst sl).

Definition slice_stop (n : Z) (sl : option Z * option Z) : Z :=
  from_option (slice_bound n) n (snd sl).

Definition slice_len (n : Z) (sl : option Z * option Z) : Z :=
  Z.max 0 (slice_stop n sl - slice_start n sl).

Definition full_slice : option Z * option Z := (None, None).

(** ** The store: live arrays, temporaries and views *)

Inductive exn :=
  | KeyError | IndexError | ValueError | AssertionError
  | ZeroDivisionError | ExtractorError.

(** The arrays an array reference can alias: the four arrays held by the
    object, and the temporaries of the running call. *)
Inductive obj :=
  | Segmentation | Lsds | TargetLsds | Fragments | Local (n : nat).

(** A reference to an array or to a window of it obtained by basic
    slicing (a numpy view): writes through it reach the base array. *)
Record view := mkView { base : obj; voff : coord; vshape : coord }.

(** ** The descriptor extractor and the graph *)

(** The external descriptor extractor, by its interface: the physical
    context it needs per axis, its downsampling factor, and
    [get_descriptors(segmentation, roi, labels, voxel_size)], a function of
    the values it is given ([None] when it raises). *)
Record LsdExtractor := mkExtractor {
  get_context : coord;
  downsample : Z;
  get_descriptors : ndarray -> option Roi.t -> list Z -> coord -> option ndarray
}.

(** The region adjacency graph: its nodes in insertion order, its edges in
    the order and with the ends with which [add_edge] stored them (from
    this record the adjacency of every node is read, see [neighbours]),
    the node attributes ['roi'], ['score'], ['labels'] and the edge
    attribute ['weight'].  An edge is undirected; its attributes are
    stored under the ordered pair of its ends.  What [rag.edges()] yields
    is [rag_edges] below. *)
Record RAG := mkRAG {
  nodes : list Z;
  edges : list (Z * Z);
  node_roi : gmap Z Roi.t;
  node_score : gmap Z Z;
  node_labels : gmap Z (list Z);
  edge_weight : gmap (Z * Z) Z
}.

Definition ekey (u v : Z) : Z * Z := (Z.min u v, Z.max u v).

Definition has_edge (g : RAG) (u v : Z) : bool :=
  bool_decide ((u, v) ∈ edges g ∨ (v, u) ∈ edges g).

Definition add_node (g : RAG) (u : Z) : RAG :=
  if bool_decide (u ∈ nodes g) then g
  else mkRAG (nodes g ++ [u]) (edges g) (node_roi g) (node_score g)
             (node_labels g) (edge_weight g).

(** [add_edge(u, v)]: both ends become nodes, [u] first, and the edge is
    recorded once, with its ends as given; the direction in which
    [rag.edges()] later yields it is not this one but that of
    [rag_edges]. *)
Definition add_edge (g : RAG) (u v : Z) : RAG :=
  let g1 := add_node (add_node g u) v in
  if has_edge g1 u v then g1
  else mkRAG (nodes g1) (edges g1 ++ [(u, v)]) (node_roi g1) (node_score g1)
             (node_labels g1) (edge_weight g1).

Definition empty_graph : RAG := mkRAG [] [] ∅ ∅ ∅ ∅.

(** The adjacency of a node, [rag.adj[n]]: its neighbours in the order in
    which its edges were added. *)
Definition neighbours (g : RAG) (n : Z) : list Z :=
  e ← edges g;
  if bool_decide (fst e = n) then [snd e]
  else if bool_decide (snd e = n) then [fst e] else [].

(** [rag.edges()]: the nodes are visited in insertion order and every
    node reports the edges to those of its neighbours that have not been
    visited before it; an edge is so yielded once, from its end that
    comes first among the nodes. *)
Fixpoint edges_from (g : RAG) (seen ns : list Z) : list (Z * Z) :=
  match ns with
  | [] => []
  | n :: ns' =>
      ((fun nbr => (n, nbr)) <$> filter (fun nbr => nbr ∉ seen) (neighbours g n))
      ++ edges_from g (n :: seen) ns'
  end.

Definition rag_edges (g : RAG) : list (Z * Z) := edges_from g [] (nodes g).

(** [scipy.ndimage.generate_binary_structure(ndim, connectivity)]: the
    offsets with components in {-1, 0, 1} whose squared distance from the
    centre is at most [connectivity]. *)
Fixpoint offsets (n : nat) : list coord :=
  match n with
  | O => [[]]
  | S n' => d ← [-1; 0; 1]; (fun p => d :: p) <$> offsets n'
  end.

Definition sqdist (d : coord) : Z := zsum ((fun x => x * x) <$> d).

Definition generate_binary_structure (ndim : nat) (connectivity : Z) : list coord :=
  filter (fun d => sqdist d <= connectivity) (offsets ndim).

(** Border mode ['nearest']: a position outside the image reads the
    nearest voxel inside. *)
Definition clamp (s : coord) (p : coord) : coord :=
  zip_with (fun n q => Z.max 0 (Z.min q (n - 1))) s p.

(** [_add_edge_filter]: the centre of the footprint gets an edge to every
    different label under the footprint. *)
Definition add_edge_filter (values : list Z) (center : Z) (graph : RAG) : RAG :=
  fold_left (fun g value =>
               if bool_decide (value ≠ center) && negb (has_edge g center value)
               then add_edge g center value else g)
            values graph.

(** [RAG(label_image, connectivity)]: the filter is run at every voxel. *)
Definition RAG_new (label_image : ndarray) (connectivity : Z) : RAG :=
  let fp := generate_binary_structure (length (ashape label_image)) connectivity in
  fold_left (fun g p =>
               add_edge_filter
                 ((fun d => adata label_image (clamp (ashape label_image) (cadd p d))) <$> fp)
                 (adata label_image p) g)
            (indices (ashape label_image)) empty_graph.

(** [scipy.ndimage.find_objects(mask)[0]]: the bounding slices of the
    non-zero voxels of a boolean array; [None] when there is none (the
    list of objects is empty and indexing it raises). *)
Definition find_objects_first (mask : ndarray) : option (list (Z * Z)) :=
  match filter (fun p => adata mask p ≠ 0) (indices (ashape mask)) with
  | [] => None
  | p0 :: ps =>
      Some (fold_left
              (fun bb p => zip_with (fun lh q => (Z.min (fst lh) q, Z.max (snd lh) (q + 1))) bb p)
              ps ((fun q => (q, q + 1)) <$> p0))
  end.

(** ** The state of the agglomerator and the monad of its methods *)

Record state := mkState {
  segmentation : ndarray;
  lsds : ndarray;
  fragments : ndarray;
  target_lsds : ndarray;
  lsd_extractor : LsdExtractor;
  context : coord;
  voxel_size : coord;
  rag : RAG;
  locals : list ndarray
}.

Definition set_segmentation (a : ndarray) (s : state) : state :=
  mkState a (lsds s) (fragments s) (target_lsds s) (lsd_extractor s)
          (context s) (voxel_size s) (rag s) (locals s).
Definition set_lsds (a : ndarray) (s : state) : state :=
  mkState (segmentation s) a (fragments s) (target_lsds s) (lsd_extractor s)
          (context s) (voxel_size s) (rag s) (locals s).
Definition set_fragments (a : ndarray) (s : state) : state :=
  mkState (segmentation s) (lsds s) a (target_lsds s) (lsd_extractor s)
          (context s) (voxel_size s) (rag s) (locals s).
Definition set_target_lsds (a : ndarray) (s : state) : state :=
  mkState (segmentation s) (lsds s) (fragments s) a (lsd_extractor s)
          (context s) (voxel_size s) (rag s) (locals s).
Definition set_rag (g : RAG) (s : state) : state :=
  mkState (segmentation s) (lsds s) (fragments s) (target_lsds s) (lsd_extractor s)
          (context s) (voxel_size s) g (locals s).
Definition set_locals (l : list ndarray) (s : state) : state :=
  mkState (segmentation s) (lsds s) (fragments s) (target_lsds s) (lsd_extractor s)
          (context s) (voxel_size s) (rag s) l.

Definition read_obj (o : obj) (s : state) : ndarray :=
  match o with
  | Segmentation => segmentation s
  | Lsds => lsds s
  | TargetLsds => target_lsds s
  | Fragments => fragments s
  | Local n => default (mkArr [] (fun _ => 0)) (locals s !! n)
  end.

Definition write_obj (o : obj) (a : ndarray) (s : state) : state :=
  match o with
  | Segmentation => set_segmentation a s
  | Lsds => set_lsds a s
  | TargetLsds => set_target_lsds a s
  | Fragments => set_fragments a s
  | Local n => set_locals (<[n := a]> (locals s)) s
  end.

(** What a method call yields: a result or an exception, and the state it
    leaves (an exception keeps the writes made before it). *)
Inductive outcome (A : Type) :=
  | Done (a : A) (s : state)
  | Raised (e : exn) (s : state).
Arguments Done {A} a s.
Arguments Raised {A} e s.

Definition M (A : Type) : Type := state -> outcome A.

Definition ret {A} (a : A) : M A := fun s => Done a s.
Definition raise {A} (e : exn) : M A := fun s => Raised e s.
Definition bind {A B} (m : M A) (k : A -> M B) : M B :=
  fun s => match m s with
           | Done a s' => k a s'
           | Raised e s' => Raised e s'
           end.
Definition get : M state := fun s => Done s s.
Definition modify (f : state -> state) : M unit := fun s => Done tt (f s).
Definition lift_opt {A} (e : exn) (o : option A) : M A :=
  match o with Some a => ret a | None => raise e end.

Notation "x <- m ;; k" := (bind m (fun x => k))
  (at level 100, m at level 99, right associativity).
Notation "m ;;; k" := (bind m (fun _ => k))
  (at level 100, right associativity).

Fixpoint for_each {A} (l : list A) (body : A -> M unit) : M unit :=
  match l with
  | [] => ret tt
  | x :: l' => body x ;;; for_each l' body
  end.

(** A method call: its temporaries start empty and are dropped when it
    returns or raises. *)
Definition call {A} (m : M A) : M A :=
  fun s =>
    match m (set_locals [] s) with
    | Done a s' => Done a (set_locals (locals s) s')
    | Raised e s' => Raised e (set_locals (locals s) s')
    end.

(** ** Array references *)

(** The window of an array at an offset, as a value. *)
Definition slice_of (a : ndarray) (off shp : coord) : ndarray :=
  mkArr shp (fun i => adata a (cadd off i)).

(** The content seen through a view. *)
Definition view_val (s : state) (v : view) : ndarray :=
  slice_of (read_obj (base v) s) (voff v) (vshape v).

Definition value_of (v : view) : M ndarray := fun s => Done (view_val s v) s.

(** A reference to a whole array. *)
Definition whole (o : obj) : M view :=
  fun s => let sh := ashape (read_obj o s) in
           Done (mkView o (zeros (length sh)) sh) s.

(** Basic slicing [v[sl]] with unit steps: a view on the same base.  Axes
    without a slice are taken whole; more slices than axes is numpy's
    [IndexError]. *)
Definition getitem (v : view) (sl : list (option Z * option Z)) : M view :=
  if (length (vshape v) <? length sl)%nat then raise IndexError
  else
    let sl' := sl ++ replicate (length (vshape v) - length sl) full_slice in
    ret (mkView (base v)
                (cadd (voff v) (zip_with slice_start (vshape v) sl'))
                (zip_with slice_len (vshape v) sl')).

(** A fresh array, as every numpy expression and every copy creates. *)
Definition alloc (a : ndarray) : M view :=
  fun s => Done (mkView (Local (length (locals s))) (zeros (length (ashape a))) (ashape a))
                (set_locals (locals s ++ [a]) s).

(** [np.array(v)]: a copy. *)
Definition np_array (v : view) : M view :=
  a <- value_of v ;; alloc a.

(** The write of [f i] at every index [i] of the view where [f] is
    defined; it lands in the base array at the view's offset. *)
Definition in_window (off shp : coord) (p : coord) : bool :=
  (length p =? length off)%nat && in_shape shp (csub p off).

Definition write_view (v : view) (f : coord -> option Z) (s : state) : state :=
  let a := read_obj (base v) s in
  write_obj (base v)
    (mkArr (ashape a)
       (fun p =>
          if in_window (voff v) (vshape v) p
          then default (adata a p) (f (csub p (voff v))) else adata a p))
    s.

Definition masked (mask : ndarray) (i : coord) (x : Z) : option Z :=
  if adata mask i =? 0 then None else Some x.

(** [v[mask] = x] for a boolean array of the shape of [v]. *)
Definition setitem_mask (v : view) (mask : ndarray) (x : Z) : M unit :=
  if decide (ashape mask = vshape v)
  then modify (write_view v (fun i => masked mask i x))
  else raise IndexError.

(** [v[:, mask] = x]: the mask indexes the axes after the first. *)
Definition setitem_cols_scalar (v : view) (mask : ndarray) (x : Z) : M unit :=
  match vshape v with
  | [] => raise IndexError
  | _ :: sp =>
      if decide (ashape mask = sp)
      then modify (write_view v (fun i => masked mask (tail i) x))
      else raise IndexError
  end.

(** [v[:, mask] = b[:, mask]]: both sides are indexed by the mask, which
    must have the shape of their axes after the first; the selected
    columns of [b] are broadcast along the first axis. *)
Definition setitem_cols (v : view) (mask : ndarray) (b : ndarray) : M unit :=
  match ashape b, vshape v with
  | cb :: spb, cv :: spv =>
      if decide (ashape mask = spb) then
        if decide (ashape mask = spv) then
          if (cb =? cv) || (cb =? 1) then
            modify (write_view v (fun i =>
              masked mask (tail i)
                     (adata b ((if cb =? cv then hd 0 i else 0) :: tail i))))
          else raise ValueError
        else raise IndexError
      else raise IndexError
  | _, _ => raise IndexError
  end.

(** The window that the slices of a region cut from an array of shape
    [sh]: its offset and its shape. *)
Definition window_off (sh : coord) (r : Roi.t) : coord :=
  zip_with slice_start sh (Roi.to_slices r).
Definition window_shape (sh : coord) (r : Roi.t) : coord :=
  zip_with slice_len sh (Roi.to_slices r).

(** [a[r.to_slices()]] as a value. *)
Definition roi_slice (a : ndarray) (r : Roi.t) : ndarray :=
  slice_of a (window_off (ashape a) r) (window_shape (ashape a) r).

(** ** Graph attributes *)

(** [self.rag.node[u][key]]: a missing node or attribute is a [KeyError]. *)
Definition node_get {A} (attr : RAG -> gmap Z A) (u : Z) : M A :=
  fun s => match attr (rag s) !! u with
           | Some x => Done x s
           | None => Raised KeyError s
           end.

Definition set_node_roi (u : Z) (r : Roi.t) : M unit :=
  fun s => let g := rag s in
    if bool_decide (u ∈ nodes g)
    then Done tt (set_rag (mkRAG (nodes g) (edges g) (<[u := r]> (node_roi g))
                                 (node_score g) (node_labels g) (edge_weight g)) s)
    else Raised KeyError s.

Definition set_node_score (u : Z) (x : Z) : M unit :=
  fun s => let g := rag s in
    if bool_decide (u ∈ nodes g)
    then Done tt (set_rag (mkRAG (nodes g) (edges g) (node_roi g)
                                 (<[u := x]> (node_score g)) (node_labels g)
                                 (edge_weight g)) s)
    else Raised KeyError s.

Definition set_node_labels (u : Z) (l : list Z) : M unit :=
  fun s => let g := rag s in
    if bool_decide (u ∈ nodes g)
    then Done tt (set_rag (mkRAG (nodes g) (edges g) (node_roi g) (node_score g)
                                 (<[u := l]> (node_labels g)) (edge_weight g)) s)
    else Raised KeyError s.

(** [self.rag[u][v]['weight']]. *)
Definition edge_get_weight (u v : Z) : M Z :=
  fun s => match edge_weight (rag s) !! ekey u v with
           | Some x => Done x s
           | None => Raised KeyError s
           end.

Definition set_edge_weight (u v : Z) (w : Z) : M unit :=
  fun s => let g := rag s in
    if has_edge g u v
    then Done tt (set_rag (mkRAG (nodes g) (edges g) (node_roi g) (node_score g)
                                 (node_labels g) (<[ekey u v := w]> (edge_weight g))) s)
    else Raised KeyError s.

(** [self.lsd_extractor.get_descriptors(...)] on the values it is given. *)
Definition extract (seg : ndarray) (roi : option Roi.t) (labels : list Z) : M ndarray :=
  fun s => match get_descriptors (lsd_extractor s) seg roi labels (voxel_size s) with
           | Some d => Done d s
           | None => Raised ExtractorError s
           end.

(** ** The methods of [LsdAgglomeration] *)

(** The context of the extractor in voxels: [int(math.ceil(c/vs))] over
    [zip(self.context, self.voxel_size)]; [None] is the division by a
    zero voxel size. *)
Definition voxel_context (ctx vs : coord) : option coord :=
  if existsb (Z.eqb 0) (take (length ctx) vs) then None
  else Some (zip_with Roi.cdiv ctx vs).

(** The region arithmetic of [__get_lsds_edge_rois]. *)
Definition lsds_edge_rois (roi_u roi_v total_roi : Roi.t) (context : coord)
  : Roi.t * Roi.t :=
  let roi_u_grown := Roi.grow roi_u context context in
  let roi_v_grown := Roi.grow roi_v context context in
  let roi_u_grown := Roi.intersect roi_u_grown total_roi in
  let roi_v_grown := Roi.intersect roi_v_grown total_roi in
  let change_roi := Roi.intersect roi_u_grown roi_v_grown in
  let change_roi := Roi.intersect change_roi (Roi.union roi_u roi_v) in
  let context_roi := Roi.grow change_roi context context in
  let context_roi := Roi.intersect context_roi (Roi.union roi_u roi_v) in
  (change_roi, context_roi).

Definition total_roi_of (seg : ndarray) : Roi.t :=
  Roi.mk (zeros (length (ashape seg))) (ashape seg).

(** [__get_lsds_edge_rois(u, v)]. *)
Definition get_lsds_edge_rois (u v : Z) : M (Roi.t * Roi.t) :=
  call (
    roi_u <- node_get node_roi u ;;
    roi_v <- node_get node_roi v ;;
    s <- get ;;
    let total_roi := total_roi_of (segmentation s) in
    context <- lift_opt ZeroDivisionError (voxel_context (context s) (voxel_size s)) ;;
    ret (lsds_edge_rois roi_u roi_v total_roi context)).

(** [__slice_to_roi(slices)]. *)
Definition slice_to_roi (slices : list (Z * Z)) : M Roi.t :=
  call (
    s <- get ;;
    let offset := fst <$> slices in
    let shape := (fun sl => snd sl - fst sl) <$> slices in
    let roi := Roi.mk offset shape in
    ret (Roi.snap_to_grid roi (replicate (Roi.dims roi) (downsample (lsd_extractor s))))).

(** [__compute_node_score(u)]. *)
Definition compute_node_score (u : Z) : M Z :=
  call (
    roi <- node_get node_roi u ;;
    seg0 <- whole Segmentation ;;
    segmentation <- getitem seg0 (Roi.to_slices roi) ;;
    segv <- value_of segmentation ;;
    lsds <- extract segv None [u] ;;
    let u_mask := eq_scalar segv u in
    let lsds_slice := full_slice :: Roi.to_slices roi in
    t0 <- whole TargetLsds ;;
    t <- getitem t0 lsds_slice ;;
    tv <- value_of t ;;
    diff <- (d <- lift_opt ValueError (np_sub tv lsds) ;; alloc d) ;;
    setitem_cols_scalar diff (eq_scalar u_mask 0) 0 ;;;
    l0 <- whole Lsds ;;
    l <- getitem l0 lsds_slice ;;
    setitem_cols l u_mask lsds ;;;
    dv <- value_of diff ;;
    ret (np_sum (np_square dv))).

(** [__merge_segmentation(u, v)]. *)
Definition merge_segmentation (u v : Z) : M unit :=
  call (
    roi_u <- node_get node_roi u ;;
    seg0 <- whole Segmentation ;;
    segmentation_u <- getitem seg0 (Roi.to_slices roi_u) ;;
    segv <- value_of segmentation_u ;;
    setitem_mask segmentation_u (eq_scalar segv u) v).

(** [__compute_edge_score(u, v)]. *)
Definition compute_edge_score (u v : Z) : M Z :=
  call (
    rois <- get_lsds_edge_rois u v ;;
    let change_roi := fst rois in
    let context_roi := snd rois in
    seg0 <- whole Segmentation ;;
    segmentation <- getitem seg0 (Roi.to_slices context_roi) ;;
    segmentation <- np_array segmentation ;;
    let lsds_slice := full_slice :: Roi.to_slices change_roi in
    let change_in_context_roi := Roi.sub change_roi (Roi.get_begin context_roi) in
    m <- getitem segmentation (Roi.to_slices change_in_context_roi) ;;
    mv <- value_of m ;;
    let not_uv_mask := np_logical_not (np_isin mv [u; v]) in
    l0 <- whole Lsds ;;
    lsds_separate <- getitem l0 lsds_slice ;;
    t0 <- whole TargetLsds ;;
    t <- getitem t0 lsds_slice ;;
    tv <- value_of t ;;
    sv <- value_of lsds_separate ;;
    diff <- (d <- lift_opt ValueError (np_sub tv sv) ;; alloc d) ;;
    setitem_cols_scalar diff not_uv_mask 0 ;;;
    dv <- value_of diff ;;
    let score_separate := np_sum (np_square dv) in
    segv <- value_of segmentation ;;
    setitem_mask segmentation (eq_scalar segv u) v ;;;
    segv' <- value_of segmentation ;;
    lsds_merged <- extract segv' (Some change_in_context_roi) [v] ;;
    t' <- getitem t0 lsds_slice ;;
    tv' <- value_of t' ;;
    diff <- (d <- lift_opt ValueError (np_sub tv' lsds_merged) ;; alloc d) ;;
    setitem_cols_scalar diff not_uv_mask 0 ;;;
    dv' <- value_of diff ;;
    let score_merged := np_sum (np_square dv') in
    (if decide (vshape lsds_separate = ashape lsds_merged)
     then ret tt else raise AssertionError) ;;;
    ret (score_merged - score_separate)).

(** [__score_merge(u, v)]: the value under ['weight']. *)
Definition score_merge (u v : Z) : M Z :=
  call (compute_edge_score u v).

(** [__merge_nodes(u, v)]. *)
Definition merge_nodes (u v : Z) : M unit :=
  call (
    merge_segmentation u v ;;;
    rois <- get_lsds_edge_rois u v ;;
    let change_roi := fst rois in
    let context_roi := snd rois in
    seg0 <- whole Segmentation ;;
    segmentation <- getitem seg0 (Roi.to_slices context_roi) ;;
    let lsds_slice := full_slice :: Roi.to_slices change_roi in
    let change_in_context_roi := Roi.sub change_roi (Roi.get_begin context_roi) in
    segv <- value_of segmentation ;;
    lsds_merged <- extract segv (Some change_in_context_roi) [v] ;;
    m <- getitem segmentation (Roi.to_slices change_in_context_roi) ;;
    mv <- value_of m ;;
    let v_mask := eq_scalar mv v in
    l0 <- whole Lsds ;;
    l <- getitem l0 lsds_slice ;;
    setitem_cols l v_mask lsds_merged ;;;
    roi_u <- node_get node_roi u ;;
    roi_v <- node_get node_roi v ;;
    set_node_roi v (Roi.union roi_u roi_v) ;;;
    score_v <- node_get node_score v ;;
    score_u <- node_get node_score u ;;
    weight <- edge_get_weight u v ;;
    set_node_score v (score_v + score_u + weight)).

(** [__initialize_rag()]. *)
Definition initialize_rag : M unit :=
  call (
    f0 <- whole Fragments ;;
    frag <- value_of f0 ;;
    modify (set_rag (RAG_new frag 2)) ;;;
    s <- get ;;
    for_each (nodes (rag s)) (fun u =>
      bb <- lift_opt IndexError (find_objects_first (eq_scalar frag u)) ;;
      roi <- slice_to_roi bb ;;
      set_node_roi u roi ;;;
      score <- compute_node_score u ;;
      set_node_score u score ;;;
      set_node_labels u [u]) ;;;
    for_each (rag_edges (rag s)) (fun e =>
      score <- score_merge (fst e) (snd e) ;;
      set_edge_weight (fst e) (snd e) score)).

(** [__init__(fragments, target_lsds, lsd_extractor, voxel_size)]: the
    object is built from the arguments and the graph is initialised. *)
Definition init (fragments target_lsds : ndarray) (lsd_extractor : LsdExtractor)
    (voxel_size : option coord) : outcome unit :=
  initialize_rag
    (mkState fragments
             (np_zeros_like target_lsds)
             fragments
             target_lsds
             lsd_extractor
             (get_context lsd_extractor)
             (match voxel_size with
              | None => replicate (length (ashape fragments)) 1
              | Some vs => vs
              end)
             empty_graph
             []).

(** [get_segmentation()] and [get_lsds()]. *)
Definition get_segmentation (s : state) : ndarray := segmentation s.
Definition get_lsds (s : state) : ndarray := lsds s.

(** ** Vocabulary of the statements *)

(** A region of dimension [n]. *)
Definition roi_dim (n : nat) (r : Roi.t) : Prop :=
  length (Roi.offset r) = n /\ length (Roi.shape r) = n.

(** Lower and upper bound of a region along axis [i]. *)
Definition lo (r : Roi.t) (i : nat) : Z := ax (Roi.offset r) i.
Definition hi (r : Roi.t) (i : nat) : Z := ax (Roi.offset r) i + ax (Roi.shape r) i.


(** ** A small instance

    A 2x4 volume with two fragments, a two-channel extractor whose
    descriptor of a voxel is [10 + channel] inside the requested labels and
    0 outside, and a constant target. *)

Definition final_state {A} (o : outcome A) : state :=
  match o with Done _ s => s | Raised _ s => s end.

Definition indicator_extractor : LsdExtractor :=
  mkExtractor [1; 1] 1
    (fun seg roi labels vs =>
       let r := match roi with
                | Some r => r
                | None => Roi.mk (zeros (length (ashape seg))) (ashape seg)
                end in
       Some (mkArr (2 :: Roi.shape r)
                   (fun i => let p := cadd (Roi.offset r) (tail i) in
                             if in_shape (ashape seg) p && existsb (Z.eqb (adata seg p)) labels
                             then 10 + hd 0 i else 0))).

(** The array given by the rows of a matrix. *)
Definition matrix (rows : list (list Z)) : ndarray :=
  mkArr [Z.of_nat (length rows); Z.of_nat (length (default [] (rows !! 0%nat)))]
        (fun p => default 0 (default [] (rows !! Z.to_nat (ax p 0)) !! Z.to_nat (ax p 1))).

Definition two_fragments : ndarray := matrix [[1; 1; 2; 2]; [1; 1; 2; 2]].

Definition constant_target : ndarray := mkArr [2; 2; 4] (fun _ => 11).

Definition two_fragments_state : state :=
  final_state (init two_fragments constant_target indicator_extractor None).


(** The state without the temporaries of the running call. *)
Definition nl (s : state) : state := set_locals [] s.

(** [m] writes to temporaries only, whether it returns or raises, and what
    it returns satisfies [Q]. *)
Definition keeps {A} (m : M A) (Q : A -> Prop) : Prop :=
  forall s, match m s with
            | Done a s' => nl s' = nl s /\ Q a
            | Raised _ s' => nl s' = nl s
            end.

Definition is_local (v : view) : Prop := exists n, base v = Local n.


(** Two arrays with the same shape and the same content inside it. *)
Definition arr_equiv (a b : ndarray) : Prop :=
  ashape a = ashape b /\
  forall i, in_shape (ashape a) i = true -> adata a i = adata b i.

(** The extractor is a function of the array it is given: arrays with the
    same content give descriptors with the same content. *)
Definition extractor_respects (ex : LsdExtractor) : Prop :=
  forall a b roi labels vs,
    arr_equiv a b ->
    match get_descriptors ex a roi labels vs, get_descriptors ex b roi labels vs with
    | Some x, Some y => arr_equiv x y
    | None, None => True
    | _, _ => False
    end.

(** The voxels of the volume that lie in a region and carry one of the
    given labels. *)
Definition voxels_labeled (seg : ndarray) (r : Roi.t) (labels : list Z) : list coord :=
  filter (fun p => Roi.containsb r p = true /\ adata seg p ∈ labels)
         (indices (ashape seg)).

(** The sum, over the given voxels and the [C] channels, of the squared
    difference between the target descriptors and descriptors [d] that
    are indexed relative to [origin]. *)
Definition squared_error (target d : ndarray) (origin : coord) (C : Z)
    (voxels : list coord) : Z :=
  zsum (c ← seqZ 0 C;
        (fun p => (adata target (c :: p) - adata d (c :: csub p origin)) ^ 2) <$> voxels).

(** [seg] with every voxel labelled [u] relabelled to [v]. *)
Definition relabel (seg : ndarray) (u v : Z) : ndarray :=
  mkArr (ashape seg) (fun p => if adata seg p =? u then v else adata seg p).


(** The descriptors the extractor returns (the empty array when it raises). *)
Definition descriptors_of (ex : LsdExtractor) (seg : ndarray) (roi : option Roi.t)
    (labels : list Z) (vs : coord) : ndarray :=
  default (mkArr [] (fun _ => 0)) (get_descriptors ex seg roi labels vs).


(** A region without a negative extent. *)
Definition shape_nonneg (n : nat) (r : Roi.t) : Prop :=
  forall k : nat, (k < n)%nat -> 0 <= ax (Roi.shape r) k.

(** The same volume with an extractor whose context is zero. *)
Definition zero_context_extractor : LsdExtractor :=
  mkExtractor [0; 0] 1 (get_descriptors indicator_extractor).
Definition zero_context_state : state :=
  final_state (init two_fragments constant_target zero_context_extractor None).


(** ** Vocabulary of the graph and of the frames *)

(** One visit of [_add_edge_filter]: the centre [c] and a label [x] under
    the footprint. *)
Definition step (g : RAG) (c x : Z) : RAG :=
  if bool_decide (x ≠ c) && negb (has_edge g c x) then add_edge g c x else g.

(** Two different labels of which one was seen from the other. *)
Definition linked (L : list (Z * Z)) (a b : Z) : Prop :=
  a ≠ b /\ ((a, b) ∈ L \/ (b, a) ∈ L).

(** The graph that the visits [L] build: its edges and its nodes. *)
Definition graph_of (L : list (Z * Z)) (g : RAG) : Prop :=
  (forall a b, has_edge g a b = true <-> linked L a b) /\
  (forall w, w ∈ nodes g <-> exists x, linked L w x).

(** The pairs of labels that the filter sees: the label of a voxel and
    the label under each position of the footprint. *)
Definition observations (label_image : ndarray) (connectivity : Z) (ps : list coord)
  : list (Z * Z) :=
  p ← ps;
  (fun d => (adata label_image p,
             adata label_image (clamp (ashape label_image) (cadd p d))))
    <$> generate_binary_structure (length (ashape label_image)) connectivity.

(** A component of an offset of the footprint. *)
Definition unit_step (z : Z) : Prop := -1 <= z <= 1.

(** Two labels touch when a voxel of the first has, under the footprint of
    the given connectivity, a voxel of the second inside the image. *)
Definition touchingb (frag : ndarray) (connectivity a b : Z) : bool :=
  existsb (fun p =>
             (adata frag p =? a) &&
             existsb (fun d => in_shape (ashape frag) (cadd p d) &&
                               (adata frag (cadd p d) =? b))
                     (generate_binary_structure (length (ashape frag)) connectivity))
          (indices (ashape frag)).

(** What scoring and initialisation leave alone: the segmentation, the
    fragments, the target, the extractor and its parameters, the nodes
    and the edges of the graph and the shape of the live descriptors. *)
Definition same_volume (s s' : state) : Prop :=
  segmentation s' = segmentation s /\ fragments s' = fragments s /\
  target_lsds s' = target_lsds s /\ lsd_extractor s' = lsd_extractor s /\
  context s' = context s /\ voxel_size s' = voxel_size s /\
  nodes (rag s') = nodes (rag s) /\ edges (rag s') = edges (rag s) /\
  ashape (lsds s') = ashape (lsds s).

(** The same, and the attributes of the graph. *)
Definition same_graph (s s' : state) : Prop :=
  same_volume s s' /\ rag s' = rag s.

(** Whether [m] returns or raises, the state it leaves is related by [R]
    to the state it started in, and what it returns satisfies [Q]. *)
Definition frames (R : state -> state -> Prop) {A} (m : M A) (Q : A -> Prop) : Prop :=
  forall s, match m s with
            | Done a s' => R s s' /\ Q a
            | Raised _ s' => R s s'
            end.

(** The region that [__initialize_rag] stores for a fragment: the bounding
    slices of its voxels, as a region snapped to the grid of the
    extractor. *)
Definition initial_region (frag : ndarray) (ex : LsdExtractor) (u : Z) (roi : Roi.t) : Prop :=
  exists bb,
    find_objects_first (eq_scalar frag u) = Some bb /\
    let r := Roi.mk (fst <$> bb) ((fun sl => snd sl - fst sl) <$> bb) in
    roi = Roi.snap_to_grid r (replicate (Roi.dims r) (downsample ex)).

(** Every region of the graph was there before or is the initial region
    of its node. *)
Definition regions_good (frag : ndarray) (ex : LsdExtractor) (s s' : state) : Prop :=
  same_volume s s' /\
  (lsd_extractor s = ex ->
   forall u roi, node_roi (rag s') !! u = Some roi ->
     node_roi (rag s) !! u = Some roi \/ initial_region frag ex u roi).

(** The bounds of axis [k] in a list of bounding slices. *)
Definition bx (bb : list (Z * Z)) (k : nat) : Z * Z := default (0, 0) (bb !! k).

(** A new graph has no attributes. *)
Definition bare (g : RAG) : Prop :=
  node_roi g = ∅ /\ node_score g = ∅ /\ node_labels g = ∅ /\ edge_weight g = ∅.

(** When [m] raises, it leaves the state as it found it, temporaries
    apart. *)
Definition raises_clean {A} (m : M A) : Prop :=
  forall s, match m s with
            | Done _ _ => True
            | Raised _ s' => nl s' = nl s
            end.

(** An extractor that returns, for every request, descriptors with [C]
    channels and the shape of the requested region (of the whole array
    when no region is given). *)
Definition well_shaped (ex : LsdExtractor) (C : Z) (vs : coord) : Prop :=
  forall seg roi labels, exists d,
    get_descriptors ex seg roi labels vs = Some d /\
    ashape d = C :: match roi with
                    | Some r => Roi.shape r
                    | None => ashape seg
                    end.

(** A node that has its region and its score. *)
Definition scored (y : Z) (s : state) : Prop :=
  is_Some (node_roi (rag s) !! y) /\ is_Some (node_score (rag s) !! y).

(** An edge that has its weight. *)
Definition weighted (e : Z * Z) (s : state) : Prop :=
  is_Some (edge_weight (rag s) !! ekey (fst e) (snd e)).

(** The state of the loops of [__initialize_rag] that started in [s1],
    for the fragments [frag]: the volumes and the nodes and edges are
    those of [s1] and every stored region is an initial region. *)
Definition initialising (frag : ndarray) (s1 s : state) : Prop :=
  same_volume s1 s /\
  forall y roi, node_roi (rag s) !! y = Some roi ->
    initial_region frag (lsd_extractor s1) y roi.

(** Every region stored for a node is a box of the volume's dimension with a positive
    extent and a non-negative begin that contains every voxel carrying
    the label of its node. *)
Definition regions_bound (n : nat) (s : state) : Prop :=
  forall w r, w ∈ nodes (rag s) -> node_roi (rag s) !! w = Some r ->
    Roi.proper n r /\ (forall k : nat, (k < n)%nat -> 0 <= lo r k) /\
    forall p, in_shape (ashape (segmentation s)) p = true ->
      adata (segmentation s) p = w -> Roi.containsb r p = true.

(** The live descriptors and the regions and scores of the nodes of [s']
    are those of [s]. *)
Definition same_scores (s s' : state) : Prop :=
  lsds s' = lsds s /\ node_roi (rag s') = node_roi (rag s) /\
  node_score (rag s') = node_score (rag s).

(** What [__initialize_rag] has computed for the nodes [done]: for each of
    them, with [d] the descriptors the extractor gives for the fragment
    alone in its region, the score is the squared error of [d] against the
    target over the voxels of the fragment and the live descriptors hold
    [d] at those voxels; at the voxels of every other label the live
    descriptors are zero. *)
Definition described (seg target : ndarray) (ex : LsdExtractor) (vs : coord) (C : Z)
    (done : list Z) (s : state) : Prop :=
  (forall y roi d, y ∈ done -> node_roi (rag s) !! y = Some roi ->
     get_descriptors ex (roi_slice seg roi) None [y] vs = Some d ->
     node_score (rag s) !! y
     = Some (squared_error target d (Roi.get_begin roi) C (voxels_labeled seg roi [y])) /\
     forall ch p, in_shape (C :: ashape seg) (ch :: p) = true -> adata seg p = y ->
       adata (lsds s) (ch :: p) = adata d (ch :: csub p (Roi.get_begin roi))) /\
  (forall ch p, in_shape (C :: ashape seg) (ch :: p) = true -> adata seg p ∉ done ->
     adata (lsds s) (ch :: p) = 0).

(** The nodes of [s'] are those of [s], and a label that is not a node
    has in [s'] the attributes it has in [s]. *)
Definition attrs_kept (s s' : state) : Prop :=
  nodes (rag s') = nodes (rag s) /\
  forall u, u ∉ nodes (rag s) ->
    node_roi (rag s') !! u = node_roi (rag s) !! u /\
    node_score (rag s') !! u = node_score (rag s) !! u /\
    node_labels (rag s') !! u = node_labels (rag s) !! u.

(** Two regions touch in a volume of shape [sh]: a voxel of the volume
    that lies in the first and a voxel of the volume that lies in the
    second are the same voxel or neighbours, at most one step apart on
    every axis.  The regions of two adjacent fragments touch, and so do
    the regions of the two ends of every edge of the graph. *)
Definition regions_touch (sh : coord) (a b : Roi.t) : Prop :=
  exists p q,
    in_shape sh p = true /\ in_shape sh q = true /\
    Roi.containsb a p = true /\ Roi.containsb b q = true /\
    forall i : nat, (i < length sh)%nat -> ax p i - 1 <= ax q i <= ax p i + 1.

(** * Properties *)

(** ** Coordinates, axis by axis *)

Lemma lookup_ax (l : coord) (i : nat) :
  (i < length l)%nat -> l !! i = Some (ax l i).
Proof.
  intros H. unfold ax.
  destruct (lookup_lt_is_Some_2 l i H) as [x Hx]. now rewrite Hx.
Qed.

Lemma ax_zip_with (f : Z -> Z -> Z) (a b : coord) (i : nat) :
  (i < length a)%nat -> (i < length b)%nat ->
  ax (zip_with f a b) i = f (ax a i) (ax b i).
Proof.
  intros Ha Hb. unfold ax at 1.
  rewrite lookup_zip_with, (lookup_ax a i Ha), (lookup_ax b i Hb). reflexivity.
Qed.

Lemma ax_zeros (n i : nat) : ax (zeros n) i = 0.
Proof.
  unfold ax, zeros. destruct (replicate n 0 !! i) eqn:E; [|reflexivity].
  apply lookup_replicate in E. now destruct E as [-> _].
Qed.

Lemma length_zeros (n : nat) : length (zeros n) = n.
Proof. apply length_replicate. Qed.

Lemma length_zip_with_same {A B C} (f : A -> B -> C) (a : list A) (b : list B) (n : nat) :
  length a = n -> length b = n -> length (zip_with f a b) = n.
Proof. intros Ha Hb. rewrite length_zip_with. lia. Qed.

Lemma coord_eq_ax (a b : coord) :
  length a = length b ->
  (forall i : nat, (i < length a)%nat -> ax a i = ax b i) -> a = b.
Proof.
  intros Hl H. apply list_eq. intros i.
  destruct (decide (i < length a)%nat) as [Hi|Hi].
  - rewrite (lookup_ax a i Hi), (lookup_ax b i) by lia. f_equal. now apply H.
  - rewrite !lookup_ge_None_2 by lia. reflexivity.
Qed.

Lemma size_nonzero (l : coord) :
  fold_right Z.mul 1 l <> 0 <-> forall i : nat, (i < length l)%nat -> ax l i <> 0.
Proof.
  induction l as [|x l IH]; simpl.
  - split; [intros _ i Hi; lia | intros _; lia].
  - split.
    + intros H i Hi. destruct i as [|i].
      * unfold ax; simpl. intros ->. lia.
      * apply (proj1 IH); [|lia]. intros E. rewrite E in H. lia.
    + intros H. specialize (H 0%nat ltac:(lia)) as H0. unfold ax in H0; simpl in H0.
      assert (fold_right Z.mul 1 l <> 0).
      { apply IH. intros i Hi. apply (H (S i)). lia. }
      nia.
Qed.

Lemma existsb_id_false (l : list bool) :
  existsb (fun x => x) l = false <->
  forall (i : nat) (x : bool), l !! i = Some x -> x = false.
Proof.
  induction l as [|b l IH]; simpl.
  - split; [intros _ i x H; discriminate | reflexivity].
  - rewrite orb_false_iff, IH. split.
    + intros [Hb H] [|i] x Hx; simpl in Hx; [congruence | eauto].
    + intros H. split; [apply (H 0%nat); reflexivity | intros i x Hx; apply (H (S i)); exact Hx].
Qed.

(** ** Region geometry *)

(** Lower and upper bound of a region along an axis. *)
Lemma roi_empty_false (r : Roi.t) :
  Roi.empty r = false <->
  forall i : nat, (i < length (Roi.shape r))%nat -> ax (Roi.shape r) i <> 0.
Proof.
  unfold Roi.empty, Roi.size. rewrite Z.eqb_neq. apply size_nonzero.
Qed.

Lemma roi_empty_zeros (n : nat) :
  (0 < n)%nat -> Roi.empty (Roi.mk (zeros n) (zeros n)) = true.
Proof.
  intros Hn. destruct (Roi.empty _) eqn:E; [reflexivity|].
  rewrite roi_empty_false in E. simpl in E.
  specialize (E 0%nat). rewrite length_zeros, ax_zeros in E. exfalso. now apply E.
Qed.

Lemma ax_end (r : Roi.t) (n i : nat) :
  length (Roi.offset r) = n -> length (Roi.shape r) = n -> (i < n)%nat ->
  ax (Roi.get_end r) i = ax (Roi.offset r) i + ax (Roi.shape r) i.
Proof.
  intros Ho Hs Hi. unfold Roi.get_end, cadd. apply ax_zip_with; lia.
Qed.

Lemma roi_separated_false (a b : Roi.t) (n : nat) :
  length (Roi.offset a) = n -> length (Roi.shape a) = n ->
  length (Roi.offset b) = n -> length (Roi.shape b) = n ->
  Roi.separated a b = false ->
  forall i : nat, (i < n)%nat ->
    ax (Roi.offset a) i < ax (Roi.offset b) i + ax (Roi.shape b) i /\
    ax (Roi.offset b) i < ax (Roi.offset a) i + ax (Roi.shape a) i.
Proof.
  intros Hoa Hsa Hob Hsb H i Hi.
  unfold Roi.separated in H. rewrite existsb_id_false in H.
  specialize (H i).
  rewrite !lookup_zip_with in H.
  assert (length (Roi.get_end a) = n) by (unfold Roi.get_end, cadd; now apply length_zip_with_same).
  assert (length (Roi.get_end b) = n) by (unfold Roi.get_end, cadd; now apply length_zip_with_same).
  unfold Roi.get_begin in H.
  rewrite (lookup_ax (Roi.offset a) i), (lookup_ax (Roi.offset b) i),
    (lookup_ax (Roi.get_end a) i), (lookup_ax (Roi.get_end b) i) in H by lia.
  simpl in H. specialize (H _ eq_refl).
  apply orb_false_iff in H. destruct H as [Hg1 Hg2].
  rewrite (ax_end a n i), (ax_end b n i) in * by assumption.
  rewrite Z.geb_leb, Z.leb_gt in Hg1, Hg2. lia.
Qed.

Lemma roi_separated_false_intro (a b : Roi.t) (n : nat) :
  length (Roi.offset a) = n -> length (Roi.shape a) = n ->
  length (Roi.offset b) = n -> length (Roi.shape b) = n ->
  (forall i : nat, (i < n)%nat ->
    ax (Roi.offset a) i < ax (Roi.offset b) i + ax (Roi.shape b) i /\
    ax (Roi.offset b) i < ax (Roi.offset a) i + ax (Roi.shape a) i) ->
  Roi.separated a b = false.
Proof.
  intros Hoa Hsa Hob Hsb H.
  unfold Roi.separated. rewrite existsb_id_false. intros i x Hx.
  assert (length (Roi.get_end a) = n) by (unfold Roi.get_end, cadd; now apply length_zip_with_same).
  assert (length (Roi.get_end b) = n) by (unfold Roi.get_end, cadd; now apply length_zip_with_same).
  assert (Hi : (i < n)%nat).
  { apply lookup_lt_Some in Hx. rewrite !length_zip_with in Hx.
    unfold Roi.get_begin in Hx. lia. }
  rewrite !lookup_zip_with in Hx. unfold Roi.get_begin in Hx.
  rewrite (lookup_ax (Roi.offset a) i), (lookup_ax (Roi.offset b) i),
    (lookup_ax (Roi.get_end a) i), (lookup_ax (Roi.get_end b) i) in Hx by lia.
  simpl in Hx. injection Hx as <-.
  rewrite (ax_end a n i), (ax_end b n i) by assumption.
  specialize (H i Hi).
  apply orb_false_iff. rewrite !Z.geb_leb, !Z.leb_gt. lia.
Qed.

Lemma intersect_true (a b : Roi.t) (n : nat) :
  roi_dim n a -> roi_dim n b -> Roi.intersects a b = true ->
  roi_dim n (Roi.intersect a b) /\
  forall i : nat, (i < n)%nat ->
    lo (Roi.intersect a b) i = Z.max (lo a i) (lo b i) /\
    hi (Roi.intersect a b) i = Z.min (hi a i) (hi b i) /\
    lo a i < hi b i /\ lo b i < hi a i /\
    ax (Roi.shape a) i <> 0 /\ ax (Roi.shape b) i <> 0.
Proof.
  intros [Hoa Hsa] [Hob Hsb] H.
  unfold Roi.intersect. rewrite H. unfold Roi.intersects in H.
  destruct (Roi.empty a) eqn:Ea; [discriminate|].
  destruct (Roi.empty b) eqn:Eb; [discriminate|]. simpl in H.
  apply negb_true_iff in H.
  pose proof (roi_separated_false a b n Hoa Hsa Hob Hsb H) as Hsep.
  rewrite roi_empty_false in Ea, Eb.
  assert (Hea : length (Roi.get_end a) = n) by (unfold Roi.get_end, cadd; now apply length_zip_with_same).
  assert (Heb : length (Roi.get_end b) = n) by (unfold Roi.get_end, cadd; now apply length_zip_with_same).
  assert (Hmax : length (cmax (Roi.get_begin a) (Roi.get_begin b)) = n)
    by (unfold cmax, Roi.get_begin; now apply length_zip_with_same).
  assert (Hmin : length (cmin (Roi.get_end a) (Roi.get_end b)) = n)
    by (unfold cmin; now apply length_zip_with_same).
  split.
  - split; simpl; [exact Hmax | unfold csub; now apply length_zip_with_same].
  - intros i Hi. unfold lo, hi; simpl.
    unfold csub. rewrite ax_zip_with by lia.
    unfold cmax, cmin, Roi.get_begin. rewrite !ax_zip_with by lia.
    rewrite (ax_end a n i), (ax_end b n i) by assumption.
    specialize (Hsep i Hi). specialize (Ea i). specialize (Eb i).
    repeat split; try lia; first [apply Ea; lia | apply Eb; lia].
Qed.

Lemma intersect_false (a b : Roi.t) :
  Roi.intersects a b = false ->
  Roi.intersect a b = Roi.mk (zeros (Roi.dims a)) (zeros (Roi.dims a)).
Proof. intros H. unfold Roi.intersect. now rewrite H. Qed.

Lemma intersects_intro (a b : Roi.t) (n : nat) :
  roi_dim n a -> roi_dim n b ->
  (forall i : nat, (i < n)%nat ->
     ax (Roi.shape a) i <> 0 /\ ax (Roi.shape b) i <> 0 /\
     lo a i < hi b i /\ lo b i < hi a i) ->
  Roi.intersects a b = true.
Proof.
  intros [Hoa Hsa] [Hob Hsb] H. unfold Roi.intersects.
  assert (Ea : Roi.empty a = false).
  { apply roi_empty_false. intros i Hi. apply H. lia. }
  assert (Eb : Roi.empty b = false).
  { apply roi_empty_false. intros i Hi. apply H. lia. }
  rewrite Ea, Eb. simpl. apply negb_true_iff.
  apply (roi_separated_false_intro a b n); try assumption.
  intros i Hi. specialize (H i Hi). unfold lo, hi in H. lia.
Qed.

Lemma grow_spec (r : Roi.t) (c : coord) (n : nat) :
  roi_dim n r -> length c = n ->
  roi_dim n (Roi.grow r c c) /\
  forall i : nat, (i < n)%nat ->
    lo (Roi.grow r c c) i = lo r i - ax c i /\
    hi (Roi.grow r c c) i = hi r i + ax c i /\
    ax (Roi.shape (Roi.grow r c c)) i = ax (Roi.shape r) i + 2 * ax c i.
Proof.
  intros [Ho Hs] Hc. unfold Roi.grow, roi_dim, lo, hi; simpl.
  assert (length (cadd (Roi.shape r) c) = n) by (unfold cadd; now apply length_zip_with_same).
  split.
  - unfold csub, cadd. split; now apply length_zip_with_same.
  - intros i Hi. unfold csub, cadd in *. rewrite !ax_zip_with by lia. lia.
Qed.

Lemma union_spec (a b : Roi.t) (n : nat) :
  roi_dim n a -> roi_dim n b ->
  roi_dim n (Roi.union a b) /\
  forall i : nat, (i < n)%nat ->
    lo (Roi.union a b) i = Z.min (lo a i) (lo b i) /\
    hi (Roi.union a b) i = Z.max (hi a i) (hi b i).
Proof.
  intros [Hoa Hsa] [Hob Hsb]. unfold Roi.union, roi_dim, lo, hi; simpl.
  assert (Hea : length (Roi.get_end a) = n) by (unfold Roi.get_end, cadd; now apply length_zip_with_same).
  assert (Heb : length (Roi.get_end b) = n) by (unfold Roi.get_end, cadd; now apply length_zip_with_same).
  assert (Hmin : length (cmin (Roi.get_begin a) (Roi.get_begin b)) = n)
    by (unfold cmin, Roi.get_begin; now apply length_zip_with_same).
  assert (Hmax : length (cmax (Roi.get_end a) (Roi.get_end b)) = n)
    by (unfold cmax; now apply length_zip_with_same).
  split.
  - split; [exact Hmin | unfold csub; now apply length_zip_with_same].
  - intros i Hi. unfold csub. rewrite ax_zip_with by lia.
    unfold cmax, cmin, Roi.get_begin. rewrite !ax_zip_with by lia.
    rewrite (ax_end a n i), (ax_end b n i) by assumption. lia.
Qed.

Lemma intersect_dim (a b : Roi.t) (n : nat) :
  roi_dim n a -> roi_dim n b -> roi_dim n (Roi.intersect a b).
Proof.
  intros Ha Hb. destruct (Roi.intersects a b) eqn:E.
  - now apply intersect_true.
  - rewrite (intersect_false a b E). destruct Ha as [_ Hs].
    unfold Roi.dims. rewrite Hs. split; simpl; apply length_zeros.
Qed.

Lemma intersect_nonempty (a b : Roi.t) (n : nat) :
  (0 < n)%nat -> roi_dim n a ->
  Roi.empty (Roi.intersect a b) = false -> Roi.intersects a b = true.
Proof.
  intros Hn [_ Hs] H. destruct (Roi.intersects a b) eqn:E; [reflexivity|].
  rewrite (intersect_false a b E) in H. unfold Roi.dims in H. rewrite Hs in H.
  rewrite roi_empty_zeros in H by exact Hn. discriminate.
Qed.

(** The regions derived for a pair of nodes, when the region of change is
    not empty: the change lies in the volume and in the union of the node
    regions, and the context is the change grown and cut to that union. *)
Lemma edge_rois_nonempty (n : nat) (roi_u roi_v : Roi.t) (sh c : coord) :
  Roi.proper n roi_u -> Roi.proper n roi_v ->
  length sh = n -> (forall i : nat, (i < n)%nat -> 0 <= ax sh i) ->
  length c = n -> (forall i : nat, (i < n)%nat -> 0 <= ax c i) ->
  let rois := lsds_edge_rois roi_u roi_v (Roi.mk (zeros n) sh) c in
  Roi.empty (fst rois) = false ->
  roi_dim n (fst rois) /\ roi_dim n (snd rois) /\
  forall i : nat, (i < n)%nat ->
    0 <= lo (fst rois) i /\ hi (fst rois) i <= ax sh i /\
    lo (fst rois) i < hi (fst rois) i /\
    Z.min (lo roi_u i) (lo roi_v i) <= lo (fst rois) i /\
    hi (fst rois) i <= Z.max (hi roi_u i) (hi roi_v i) /\
    lo (snd rois) i = Z.max (lo (fst rois) i - ax c i) (Z.min (lo roi_u i) (lo roi_v i)) /\
    hi (snd rois) i = Z.min (hi (fst rois) i + ax c i) (Z.max (hi roi_u i) (hi roi_v i)).
Proof.
  intros (Hou & Hsu & Hpu) (Hov & Hsv & Hpv) Hsh Hsh0 Hc Hc0 rois Hne.
  assert (Hdu : roi_dim n roi_u) by (split; assumption).
  assert (Hdv : roi_dim n roi_v) by (split; assumption).
  assert (Hdt : roi_dim n (Roi.mk (zeros n) sh)) by (split; simpl; [apply length_zeros | assumption]).
  destruct (grow_spec roi_u c n Hdu Hc) as [Hdgu Hgu].
  destruct (grow_spec roi_v c n Hdv Hc) as [Hdgv Hgv].
  destruct (union_spec roi_u roi_v n Hdu Hdv) as [Hdun Hun].
  set (gu := Roi.intersect (Roi.grow roi_u c c) (Roi.mk (zeros n) sh)) in *.
  set (gv := Roi.intersect (Roi.grow roi_v c c) (Roi.mk (zeros n) sh)) in *.
  set (ch0 := Roi.intersect gu gv) in *.
  set (un := Roi.union roi_u roi_v) in *.
  assert (Hch : fst rois = Roi.intersect ch0 un) by reflexivity.
  assert (Hcx : snd rois = Roi.intersect (Roi.grow (fst rois) c c) un) by reflexivity.
  clearbody rois.
  assert (Hdgu' : roi_dim n gu) by (apply intersect_dim; assumption).
  assert (Hdgv' : roi_dim n gv) by (apply intersect_dim; assumption).
  assert (Hdch0 : roi_dim n ch0) by (apply intersect_dim; assumption).
  assert (Hdch : roi_dim n (fst rois)) by (rewrite Hch; apply intersect_dim; assumption).
  destruct (grow_spec (fst rois) c n Hdch Hc) as [Hdgc Hgc].
  assert (Hdcx : roi_dim n (snd rois)) by (rewrite Hcx; apply intersect_dim; assumption).
  split; [exact Hdch|]. split; [exact Hdcx|].
  intros i0 Hi0.
  assert (Hn : (0 < n)%nat) by lia.
  (* every intersection on the way to a non-empty change is a proper one *)
  rewrite Hch in Hne.
  pose proof (intersect_nonempty ch0 un n Hn Hdch0 Hne) as I3.
  destruct (intersect_true ch0 un n Hdch0 Hdun I3) as [_ F3].
  assert (E0 : Roi.empty ch0 = false).
  { apply roi_empty_false. intros j Hj. destruct Hdch0 as [_ Hl]. apply (F3 j). lia. }
  pose proof (intersect_nonempty gu gv n Hn Hdgu' E0) as I2.
  destruct (intersect_true gu gv n Hdgu' Hdgv' I2) as [_ F2].
  assert (Eu : Roi.empty gu = false).
  { apply roi_empty_false. intros j Hj. destruct Hdgu' as [_ Hl]. apply (F2 j). lia. }
  assert (Ev : Roi.empty gv = false).
  { apply roi_empty_false. intros j Hj. destruct Hdgv' as [_ Hl]. apply (F2 j). lia. }
  pose proof (intersect_nonempty _ _ n Hn Hdgu Eu) as I1u.
  pose proof (intersect_nonempty _ _ n Hn Hdgv Ev) as I1v.
  destruct (intersect_true _ _ n Hdgu Hdt I1u) as [_ F1u].
  destruct (intersect_true _ _ n Hdgv Hdt I1v) as [_ F1v].
  fold gu in F1u. fold gv in F1v. fold ch0 in F2.
  rewrite <- Hch in F3.
  (* the facts of one axis *)
  assert (Hax : forall i : nat, (i < n)%nat ->
    0 <= lo (fst rois) i /\ hi (fst rois) i <= ax sh i /\
    lo (fst rois) i < hi (fst rois) i /\
    lo un i <= lo (fst rois) i /\ hi (fst rois) i <= hi un i /\
    lo un i = Z.min (lo roi_u i) (lo roi_v i) /\
    hi un i = Z.max (hi roi_u i) (hi roi_v i) /\
    lo un i < hi un i /\ 0 <= ax c i).
  { intros i Hi.
    specialize (F1u i Hi). specialize (F1v i Hi). specialize (F2 i Hi).
    specialize (F3 i Hi).
    specialize (Hgu i Hi). specialize (Hgv i Hi).
    specialize (Hun i Hi). specialize (Hpu i Hi). specialize (Hpv i Hi).
    specialize (Hc0 i Hi). specialize (Hsh0 i Hi).
    destruct F1u as (B1 & B2 & B3 & B4 & B5 & B6).
    destruct F1v as (C1 & C2 & C3 & C4 & C5 & C6).
    destruct F2 as (D1 & D2 & D3 & D4 & _).
    destruct F3 as (A1 & A2 & A3 & A4 & _).
    destruct Hgu as (G1 & G2 & _). destruct Hgv as (G3 & G4 & _).
    destruct Hun as (U1 & U2).
    assert (T1 : lo (Roi.mk (zeros n) sh) i = 0) by (unfold lo; simpl; apply ax_zeros).
    assert (T2 : hi (Roi.mk (zeros n) sh) i = ax sh i) by (unfold hi; simpl; rewrite ax_zeros; lia).
    simpl in B6.
    assert (P1 : hi roi_u i = lo roi_u i + ax (Roi.shape roi_u) i) by reflexivity.
    assert (P2 : hi roi_v i = lo roi_v i + ax (Roi.shape roi_v) i) by reflexivity.
    assert (Q1 : lo gu i < hi gu i) by (clear - B1 B2 B3 B4 B6 T1 T2 G1 G2 P1 Hpu Hc0 Hsh0; lia).
    assert (Q2 : lo gv i < hi gv i) by (clear - C1 C2 C3 C4 B6 T1 T2 G3 G4 P2 Hpv Hc0 Hsh0; lia).
    assert (Q3 : lo ch0 i < hi ch0 i) by (clear - D1 D2 D3 D4 Q1 Q2; lia).
    assert (Q4 : lo un i < hi un i) by (clear - U1 U2 P1 P2 Hpu Hpv; lia).
    split; [clear - A1 D1 B1 T1; lia|].
    split; [clear - A2 D2 B2 T2; lia|].
    split; [clear - A1 A2 A3 A4 Q3 Q4; lia|].
    split; [clear - A1; lia|].
    split; [clear - A2; lia|].
    split; [exact U1|]. split; [exact U2|]. split; [exact Q4|exact Hc0]. }
  (* the context is a proper intersection as well *)
  assert (I4 : Roi.intersects (Roi.grow (fst rois) c c) un = true).
  { apply (intersects_intro _ _ n Hdgc Hdun).
    intros j Hj.
    specialize (Hgc j Hj). specialize (Hax j Hj).
    destruct Hgc as (G1 & G2 & G3).
    assert (P1 : hi (fst rois) j = lo (fst rois) j + ax (Roi.shape (fst rois)) j) by reflexivity.
    assert (P2 : hi un j = lo un j + ax (Roi.shape un) j) by reflexivity.
    repeat split; lia. }
  destruct (intersect_true _ _ n Hdgc Hdun I4) as [_ F4].
  rewrite <- Hcx in F4.
  specialize (F4 i0 Hi0). specialize (Hgc i0 Hi0). specialize (Hax i0 Hi0).
  destruct F4 as (K1 & K2 & _). destruct Hgc as (G5 & G6 & _).
  repeat split; lia.
Qed.

Lemma slice_bound_inside (n x : Z) : 0 <= x <= n -> slice_bound n x = x.
Proof. intros H. unfold slice_bound. destruct (x <? 0) eqn:E; lia. Qed.

(** For node regions with a positive extent, a non-negative context and a
    non-empty region of change, the region of change lies inside the
    context region; relative to the begin of the context region it has
    non-negative offsets and ends within the shape of the context
    region. *)
Lemma change_roi_inside_nonempty (n : nat) (roi_u roi_v : Roi.t) (sh c : coord) :
  Roi.proper n roi_u -> Roi.proper n roi_v ->
  length sh = n -> (forall i : nat, (i < n)%nat -> 0 <= ax sh i) ->
  length c = n -> (forall i : nat, (i < n)%nat -> 0 <= ax c i) ->
  let rois := lsds_edge_rois roi_u roi_v (Roi.mk (zeros n) sh) c in
  let rel := Roi.sub (fst rois) (Roi.get_begin (snd rois)) in
  Roi.empty (fst rois) = false ->
  forall i : nat, (i < n)%nat ->
    (lo (snd rois) i <= lo (fst rois) i /\ hi (fst rois) i <= hi (snd rois) i) /\
    (0 <= lo rel i /\ hi rel i <= ax (Roi.shape (snd rois)) i) /\
    (slice_bound (ax (Roi.shape (snd rois)) i) (lo rel i) = lo rel i /\
     slice_bound (ax (Roi.shape (snd rois)) i) (hi rel i) = hi rel i).
Proof.
  intros Hu Hv Hsh Hsh0 Hc Hc0 rois rel Hne i Hi.
  destruct (edge_rois_nonempty n roi_u roi_v sh c Hu Hv Hsh Hsh0 Hc Hc0 Hne)
    as ((Hco & Hcs) & (Hxo & Hxs) & Hax).
  fold rois in Hco, Hcs, Hxo, Hxs, Hax. clearbody rois.
  specialize (Hax i Hi). specialize (Hc0 i Hi).
  destruct Hax as (A1 & A2 & A3 & A4 & A5 & A6 & A7).
  assert (Hlo : lo rel i = lo (fst rois) i - lo (snd rois) i).
  { unfold rel, lo, Roi.sub, Roi.get_begin; simpl. unfold csub.
    rewrite ax_zip_with by lia. reflexivity. }
  assert (Hhi : hi rel i = hi (fst rois) i - lo (snd rois) i).
  { unfold hi. fold (lo rel i). rewrite Hlo. unfold rel, Roi.sub; simpl.
    unfold lo. lia. }
  assert (Hsx : ax (Roi.shape (snd rois)) i = hi (snd rois) i - lo (snd rois) i).
  { unfold hi, lo. lia. }
  assert (B1 : lo (snd rois) i <= lo (fst rois) i) by lia.
  assert (B2 : hi (fst rois) i <= hi (snd rois) i) by lia.
  split; [split; assumption|].
  split; [split; lia|].
  split; apply slice_bound_inside; lia.
Qed.


(** ** Running the monad *)

Lemma bind_inv {A B} (m : M A) (k : A -> M B) (s s' : state) (b : B) :
  bind m k s = Done b s' ->
  exists a s1, m s = Done a s1 /\ k a s1 = Done b s'.
Proof.
  unfold bind. destruct (m s) as [a s1|e s1]; [eauto | discriminate].
Qed.

Lemma bind_done {A B} (m : M A) (k : A -> M B) (s s1 : state) (a : A) :
  m s = Done a s1 -> bind m k s = k a s1.
Proof. intros H. unfold bind. now rewrite H. Qed.

Lemma call_inv {A} (m : M A) (s s' : state) (a : A) :
  call m s = Done a s' ->
  exists s1, m (set_locals [] s) = Done a s1 /\ s' = set_locals (locals s) s1.
Proof.
  unfold call. destruct (m (set_locals [] s)) as [x s1|e s1]; [|discriminate].
  intros H. injection H as -> <-. eauto.
Qed.

Lemma call_done {A} (m : M A) (s s1 : state) (a : A) :
  m (set_locals [] s) = Done a s1 -> call m s = Done a (set_locals (locals s) s1).
Proof. intros H. unfold call. now rewrite H. Qed.

Lemma ret_inv {A} (a b : A) (s s' : state) : ret a s = Done b s' -> b = a /\ s' = s.
Proof. unfold ret. intros H. now injection H as -> ->. Qed.

Lemma get_inv (x s s' : state) : get s = Done x s' -> x = s /\ s' = s.
Proof. unfold get. intros H. now injection H as -> ->. Qed.

Lemma modify_inv (f : state -> state) (s s' : state) (x : unit) :
  modify f s = Done x s' -> s' = f s.
Proof. unfold modify. intros H. now injection H as _ ->. Qed.

Lemma lift_opt_inv {A} (e : exn) (o : option A) (a : A) (s s' : state) :
  lift_opt e o s = Done a s' -> o = Some a /\ s' = s.
Proof.
  destruct o as [x|]; simpl; [|discriminate]. unfold ret.
  intros H. now injection H as -> ->.
Qed.

Lemma node_get_inv {A} (attr : RAG -> gmap Z A) (u : Z) (x : A) (s s' : state) :
  node_get attr u s = Done x s' -> attr (rag s) !! u = Some x /\ s' = s.
Proof.
  unfold node_get. destruct (attr (rag s) !! u); [|discriminate].
  intros H. now injection H as -> ->.
Qed.

Lemma edge_get_weight_inv (u v x : Z) (s s' : state) :
  edge_get_weight u v s = Done x s' -> edge_weight (rag s) !! ekey u v = Some x /\ s' = s.
Proof.
  unfold edge_get_weight. destruct (edge_weight (rag s) !! ekey u v); [|discriminate].
  intros H. now injection H as -> ->.
Qed.

Lemma whole_inv (o : obj) (v : view) (s s' : state) :
  whole o s = Done v s' ->
  v = mkView o (zeros (length (ashape (read_obj o s)))) (ashape (read_obj o s)) /\ s' = s.
Proof. unfold whole. intros H. now injection H as <- <-. Qed.

Lemma value_of_inv (v : view) (a : ndarray) (s s' : state) :
  value_of v s = Done a s' -> a = view_val s v /\ s' = s.
Proof. unfold value_of. intros H. now injection H as <- <-. Qed.

Lemma getitem_inv (v v' : view) (sl : list (option Z * option Z)) (s s' : state) :
  getitem v sl s = Done v' s' ->
  (length sl <= length (vshape v))%nat /\
  v' = (let sl' := sl ++ replicate (length (vshape v) - length sl) full_slice in
        mkView (base v)
               (cadd (voff v) (zip_with slice_start (vshape v) sl'))
               (zip_with slice_len (vshape v) sl')) /\
  s' = s.
Proof.
  unfold getitem. destruct (length (vshape v) <? length sl)%nat eqn:E; [discriminate|].
  apply Nat.ltb_ge in E. unfold ret. intros H. now injection H as <- <-.
Qed.

Lemma alloc_inv (a : ndarray) (v : view) (s s' : state) :
  alloc a s = Done v s' ->
  v = mkView (Local (length (locals s))) (zeros (length (ashape a))) (ashape a) /\
  s' = set_locals (locals s ++ [a]) s.
Proof. unfold alloc. intros H. now injection H as <- <-. Qed.

Lemma extract_inv (seg : ndarray) (roi : option Roi.t) (labels : list Z)
    (d : ndarray) (s s' : state) :
  extract seg roi labels s = Done d s' ->
  get_descriptors (lsd_extractor s) seg roi labels (voxel_size s) = Some d /\ s' = s.
Proof.
  unfold extract. destruct (get_descriptors _ _ _ _ _); [|discriminate].
  intros H. now injection H as -> ->.
Qed.

Lemma setitem_mask_inv (v : view) (mask : ndarray) (x : Z) (r : unit) (s s' : state) :
  setitem_mask v mask x s = Done r s' ->
  ashape mask = vshape v /\ s' = write_view v (fun i => masked mask i x) s.
Proof.
  unfold setitem_mask. destruct (decide _); [|discriminate].
  intros H. apply modify_inv in H. auto.
Qed.

Lemma setitem_cols_scalar_inv (v : view) (mask : ndarray) (x : Z) (r : unit) (s s' : state) :
  setitem_cols_scalar v mask x s = Done r s' ->
  (exists c, vshape v = c :: ashape mask) /\
  s' = write_view v (fun i => masked mask (tail i) x) s.
Proof.
  unfold setitem_cols_scalar. destruct (vshape v) as [|c sp]; [discriminate|].
  destruct (decide _) as [->|]; [|discriminate].
  intros H. apply modify_inv in H. eauto.
Qed.

Lemma setitem_cols_inv (v : view) (mask b : ndarray) (r : unit) (s s' : state) :
  setitem_cols v mask b s = Done r s' ->
  exists cb cv,
    ashape b = cb :: ashape mask /\ vshape v = cv :: ashape mask /\
    (cb = cv \/ cb = 1) /\
    s' = write_view v (fun i =>
           masked mask (tail i)
                  (adata b ((if cb =? cv then hd 0 i else 0) :: tail i))) s.
Proof.
  unfold setitem_cols. destruct (ashape b) as [|cb spb]; [discriminate|].
  destruct (vshape v) as [|cv spv]; [discriminate|].
  destruct (decide _) as [->|]; [|discriminate].
  destruct (decide _) as [E|]; [|discriminate].
  destruct ((cb =? cv) || (cb =? 1)) eqn:Ec; [|discriminate].
  intros H. apply modify_inv in H. exists cb, cv. rewrite <- E.
  repeat split; [|exact H].
  apply orb_true_iff in Ec. destruct Ec as [Ec|Ec]; apply Z.eqb_eq in Ec; auto.
Qed.

Lemma set_node_roi_inv (u : Z) (r : Roi.t) (x : unit) (s s' : state) :
  set_node_roi u r s = Done x s' ->
  u ∈ nodes (rag s) /\
  s' = set_rag (mkRAG (nodes (rag s)) (edges (rag s)) (<[u := r]> (node_roi (rag s)))
                      (node_score (rag s)) (node_labels (rag s)) (edge_weight (rag s))) s.
Proof.
  unfold set_node_roi. destruct (bool_decide _) eqn:E; [|discriminate].
  apply bool_decide_eq_true in E. intros H. now injection H as <-.
Qed.

Lemma set_node_score_inv (u w : Z) (x : unit) (s s' : state) :
  set_node_score u w s = Done x s' ->
  u ∈ nodes (rag s) /\
  s' = set_rag (mkRAG (nodes (rag s)) (edges (rag s)) (node_roi (rag s))
                      (<[u := w]> (node_score (rag s))) (node_labels (rag s))
                      (edge_weight (rag s))) s.
Proof.
  unfold set_node_score. destruct (bool_decide _) eqn:E; [|discriminate].
  apply bool_decide_eq_true in E. intros H. now injection H as <-.
Qed.

Lemma set_node_labels_inv (u : Z) (l : list Z) (x : unit) (s s' : state) :
  set_node_labels u l s = Done x s' ->
  u ∈ nodes (rag s) /\
  s' = set_rag (mkRAG (nodes (rag s)) (edges (rag s)) (node_roi (rag s))
                      (node_score (rag s)) (<[u := l]> (node_labels (rag s)))
                      (edge_weight (rag s))) s.
Proof.
  unfold set_node_labels. destruct (bool_decide _) eqn:E; [|discriminate].
  apply bool_decide_eq_true in E. intros H. now injection H as <-.
Qed.

Lemma set_edge_weight_inv (u v w : Z) (x : unit) (s s' : state) :
  set_edge_weight u v w s = Done x s' ->
  has_edge (rag s) u v = true /\
  s' = set_rag (mkRAG (nodes (rag s)) (edges (rag s)) (node_roi (rag s))
                      (node_score (rag s)) (node_labels (rag s))
                      (<[ekey u v := w]> (edge_weight (rag s)))) s.
Proof.
  unfold set_edge_weight. destruct (has_edge _ _ _) eqn:E; [|discriminate].
  intros H. now injection H as <-.
Qed.

(** One step of a run that ends normally. *)
Ltac minv1 :=
  match goal with
  | H : bind _ _ _ = Done _ _ |- _ =>
      apply bind_inv in H; destruct H as (? & ? & ? & H)
  | H : call _ _ = Done _ _ |- _ =>
      apply call_inv in H; destruct H as (? & H & ?)
  | H : ret _ _ = Done _ _ |- _ => apply ret_inv in H; destruct H as [? ?]
  | H : get _ = Done _ _ |- _ => apply get_inv in H; destruct H as [? ?]
  | H : raise _ _ = Done _ _ |- _ => discriminate H
  | H : modify _ _ = Done _ _ |- _ => apply modify_inv in H
  | H : lift_opt _ _ _ = Done _ _ |- _ => apply lift_opt_inv in H; destruct H as [? ?]
  | H : node_get _ _ _ = Done _ _ |- _ => apply node_get_inv in H; destruct H as [? ?]
  | H : edge_get_weight _ _ _ = Done _ _ |- _ =>
      apply edge_get_weight_inv in H; destruct H as [? ?]
  | H : whole _ _ = Done _ _ |- _ => apply whole_inv in H; destruct H as [? ?]
  | H : value_of _ _ = Done _ _ |- _ => apply value_of_inv in H; destruct H as [? ?]
  | H : getitem _ _ _ = Done _ _ |- _ => apply getitem_inv in H; destruct H as (? & ? & ?)
  | H : alloc _ _ = Done _ _ |- _ => apply alloc_inv in H; destruct H as [? ?]
  | H : np_array _ _ = Done _ _ |- _ => unfold np_array in H
  | H : extract _ _ _ _ = Done _ _ |- _ => apply extract_inv in H; destruct H as [? ?]
  | H : setitem_mask _ _ _ _ = Done _ _ |- _ =>
      apply setitem_mask_inv in H; destruct H as [? ?]
  | H : setitem_cols_scalar _ _ _ _ = Done _ _ |- _ =>
      apply setitem_cols_scalar_inv in H; destruct H as [[? ?] ?]
  | H : setitem_cols _ _ _ _ = Done _ _ |- _ =>
      apply setitem_cols_inv in H; destruct H as (? & ? & ? & ? & ? & ?)
  | H : set_node_roi _ _ _ = Done _ _ |- _ => apply set_node_roi_inv in H; destruct H as [? ?]
  | H : set_node_score _ _ _ = Done _ _ |- _ =>
      apply set_node_score_inv in H; destruct H as [? ?]
  | H : set_node_labels _ _ _ = Done _ _ |- _ =>
      apply set_node_labels_inv in H; destruct H as [? ?]
  | H : set_edge_weight _ _ _ _ = Done _ _ |- _ =>
      apply set_edge_weight_inv in H; destruct H as [? ?]
  end.

Ltac minv := repeat minv1.

(** ** The graph under the array operations *)

Lemma rag_write_view (v : view) (f : coord -> option Z) (s : state) :
  rag (write_view v f s) = rag s.
Proof. unfold write_view, write_obj. now destruct (base v). Qed.

Lemma rag_set_locals (l : list ndarray) (s : state) : rag (set_locals l s) = rag s.
Proof. reflexivity. Qed.

Lemma merge_segmentation_rag (u v : Z) (x : unit) (s s' : state) :
  merge_segmentation u v s = Done x s' -> rag s' = rag s.
Proof.
  unfold merge_segmentation. intros H. minv. subst.
  rewrite rag_set_locals, rag_write_view. reflexivity.
Qed.

Lemma get_lsds_edge_rois_inv (u v : Z) (rois : Roi.t * Roi.t) (s s' : state) :
  get_lsds_edge_rois u v s = Done rois s' ->
  exists roi_u roi_v c,
    node_roi (rag s) !! u = Some roi_u /\ node_roi (rag s) !! v = Some roi_v /\
    voxel_context (context s) (voxel_size s) = Some c /\
    rois = lsds_edge_rois roi_u roi_v (total_roi_of (segmentation s)) c /\
    s' = s.
Proof.
  unfold get_lsds_edge_rois. intros H. minv. subst.
  simpl in *. eexists _, _, _. repeat split; try eassumption.
  now destruct s.
Qed.

(** ** Merging two nodes: the score *)

(** C1: when [merge_nodes u v] completes, the score of the surviving node
    [v] is the score of [u] plus the score of [v] plus the weight stored
    for the edge [(u, v)], all read before the merge. *)
Theorem merge_nodes_score_additive (u v su sv w : Z) (s s' : state) :
  node_score (rag s) !! u = Some su ->
  node_score (rag s) !! v = Some sv ->
  edge_weight (rag s) !! ekey u v = Some w ->
  merge_nodes u v s = Done tt s' ->
  node_score (rag s') !! v = Some (su + sv + w).
Proof.
  intros Hu Hv Hw H. unfold merge_nodes in H.
  apply call_inv in H. destruct H as (s1 & H & ->).
  apply bind_inv in H. destruct H as (? & s2 & Hms & H).
  apply merge_segmentation_rag in Hms.
  apply bind_inv in H. destruct H as (rois & s3 & Hr & H).
  apply get_lsds_edge_rois_inv in Hr.
  destruct Hr as (ru & rv & c & Hru & Hrv & Hc & -> & ->).
  minv. subst.
  repeat match goal with H : (_ <= _)%nat |- _ => clear H end.
  repeat match goal with H : get_descriptors _ _ _ _ _ = _ |- _ => clear H end.
  repeat match goal with H : ashape _ = _ |- _ => clear H end.
  repeat match goal with H : vshape _ = _ |- _ => clear H end.
  simpl in *. rewrite Hms in *.
  rewrite lookup_insert_eq. f_equal.
  assert (x24 = sv) by congruence. assert (x26 = su) by congruence.
  assert (x28 = w) by congruence. lia.
Qed.

Lemma merge_nodes_score_additive_witness :
  node_score (rag (final_state (merge_nodes 1 2 two_fragments_state))) !! 2 = Some (4 + 4 + 0).
Proof.
  apply (merge_nodes_score_additive 1 2 4 4 0 two_fragments_state).
  - vm_compute. reflexivity.
  - vm_compute. reflexivity.
  - vm_compute. reflexivity.
  - vm_compute. reflexivity.
Defined.

(** ** Computations that write to temporaries only *)

Lemma state_eq_nl (s s' : state) :
  nl s' = nl s -> locals s' = locals s -> s' = s.
Proof.
  destruct s, s'. unfold nl, set_locals. simpl. intros H ->.
  now injection H as -> -> -> -> -> -> -> ->.
Qed.

Lemma nl_set_locals (l : list ndarray) (s : state) : nl (set_locals l s) = nl s.
Proof. reflexivity. Qed.

Lemma nl_write_local (v : view) (f : coord -> option Z) (s : state) :
  is_local v -> nl (write_view v f s) = nl s.
Proof. intros [n Hn]. unfold write_view. rewrite Hn. reflexivity. Qed.

Lemma keeps_bind {A B} (m : M A) (k : A -> M B) (Q : A -> Prop) (Q' : B -> Prop) :
  keeps m Q -> (forall a, Q a -> keeps (k a) Q') -> keeps (bind m k) Q'.
Proof.
  intros Hm Hk s. unfold bind. specialize (Hm s).
  destruct (m s) as [a s1|e s1]; [|exact Hm].
  destruct Hm as [E Ha]. specialize (Hk a Ha s1).
  destruct (k a s1) as [b s2|e s2]; [destruct Hk; split; congruence | congruence].
Qed.

Lemma keeps_weaken {A} (m : M A) (Q Q' : A -> Prop) :
  keeps m Q -> (forall a, Q a -> Q' a) -> keeps m Q'.
Proof.
  intros Hm HQ s. specialize (Hm s). destruct (m s); [|exact Hm].
  destruct Hm. split; auto.
Qed.

Lemma keeps_call {A} (m : M A) (Q : A -> Prop) : keeps m Q -> keeps (call m) Q.
Proof.
  intros Hm s. unfold call. specialize (Hm (set_locals [] s)).
  destruct (m (set_locals [] s)) as [a s1|e s1]; rewrite nl_set_locals;
    rewrite nl_set_locals in Hm; exact Hm.
Qed.

Lemma keeps_ret {A} (a : A) (Q : A -> Prop) : Q a -> keeps (ret a) Q.
Proof. intros H s. simpl. auto. Qed.

Lemma keeps_raise {A} (e : exn) (Q : A -> Prop) : keeps (raise e) Q.
Proof. intros s. reflexivity. Qed.

Lemma keeps_get : keeps get (fun _ => True).
Proof. intros s. simpl. auto. Qed.

Lemma keeps_lift_opt {A} (e : exn) (o : option A) : keeps (lift_opt e o) (fun _ => True).
Proof. destruct o; intros s; simpl; auto. Qed.

Lemma keeps_node_get {A} (attr : RAG -> gmap Z A) (u : Z) :
  keeps (node_get attr u) (fun _ => True).
Proof. intros s. unfold node_get. destruct (attr (rag s) !! u); auto. Qed.

Lemma keeps_whole (o : obj) : keeps (whole o) (fun v => base v = o).
Proof. intros s. simpl. auto. Qed.

Lemma keeps_value_of (v : view) : keeps (value_of v) (fun _ => True).
Proof. intros s. simpl. auto. Qed.

Lemma keeps_getitem (v : view) (sl : list (option Z * option Z)) :
  keeps (getitem v sl) (fun v' => base v' = base v).
Proof.
  intros s. unfold getitem. destruct (_ <? _)%nat; simpl; auto.
Qed.

Lemma keeps_alloc (a : ndarray) : keeps (alloc a) is_local.
Proof. intros s. simpl. split; [reflexivity | eexists; reflexivity]. Qed.

Lemma keeps_np_array (v : view) : keeps (np_array v) is_local.
Proof.
  unfold np_array. eapply keeps_bind; [apply keeps_value_of|].
  intros a _. apply keeps_alloc.
Qed.

Lemma keeps_extract (seg : ndarray) (roi : option Roi.t) (labels : list Z) :
  keeps (extract seg roi labels) (fun _ => True).
Proof. intros s. unfold extract. destruct (get_descriptors _ _ _ _ _); auto. Qed.

Lemma keeps_setitem_mask (v : view) (mask : ndarray) (x : Z) :
  is_local v -> keeps (setitem_mask v mask x) (fun _ => True).
Proof.
  intros Hv s. unfold setitem_mask. destruct (decide _); simpl; [|reflexivity].
  split; [now apply nl_write_local | exact I].
Qed.

Lemma keeps_setitem_cols_scalar (v : view) (mask : ndarray) (x : Z) :
  is_local v -> keeps (setitem_cols_scalar v mask x) (fun _ => True).
Proof.
  intros Hv s. unfold setitem_cols_scalar. destruct (vshape v); [reflexivity|].
  destruct (decide _); simpl; [|reflexivity].
  split; [now apply nl_write_local | exact I].
Qed.

Lemma keeps_get_lsds_edge_rois (u v : Z) :
  keeps (get_lsds_edge_rois u v) (fun _ => True).
Proof.
  unfold get_lsds_edge_rois. apply keeps_call.
  eapply keeps_bind; [apply keeps_node_get|]. intros roi_u _.
  eapply keeps_bind; [apply keeps_node_get|]. intros roi_v _.
  eapply keeps_bind; [apply keeps_get|]. intros s0 _.
  eapply keeps_bind; [apply keeps_lift_opt|]. intros c _.
  now apply keeps_ret.
Qed.

Lemma is_local_base (v v' : view) : is_local v -> base v' = base v -> is_local v'.
Proof. intros [n Hn] E. exists n. congruence. Qed.

Lemma keeps_compute_edge_score (u v : Z) :
  keeps (compute_edge_score u v) (fun _ => True).
Proof.
  unfold compute_edge_score. apply keeps_call.
  eapply keeps_bind; [apply keeps_get_lsds_edge_rois|]. intros rois _.
  eapply keeps_bind; [apply keeps_whole|]. intros seg0 _.
  eapply keeps_bind; [apply keeps_getitem|]. intros seg1 _.
  eapply keeps_bind; [apply keeps_np_array|]. intros segmentation Hseg.
  eapply keeps_bind; [apply keeps_getitem|]. intros m _.
  eapply keeps_bind; [apply keeps_value_of|]. intros mv _.
  eapply keeps_bind; [apply keeps_whole|]. intros l0 _.
  eapply keeps_bind; [apply keeps_getitem|]. intros lsds_separate _.
  eapply keeps_bind; [apply keeps_whole|]. intros t0 _.
  eapply keeps_bind; [apply keeps_getitem|]. intros t _.
  eapply keeps_bind; [apply keeps_value_of|]. intros tv _.
  eapply keeps_bind; [apply keeps_value_of|]. intros sv _.
  eapply keeps_bind.
  { eapply keeps_bind; [apply keeps_lift_opt|]. intros d _. apply keeps_alloc. }
  intros diff Hdiff.
  eapply keeps_bind; [now apply keeps_setitem_cols_scalar|]. intros _ _.
  eapply keeps_bind; [apply keeps_value_of|]. intros dv _.
  eapply keeps_bind; [apply keeps_value_of|]. intros segv _.
  eapply keeps_bind; [now apply keeps_setitem_mask|]. intros _ _.
  eapply keeps_bind; [apply keeps_value_of|]. intros segv' _.
  eapply keeps_bind; [apply keeps_extract|]. intros lsds_merged _.
  eapply keeps_bind; [apply keeps_getitem|]. intros t' _.
  eapply keeps_bind; [apply keeps_value_of|]. intros tv' _.
  eapply keeps_bind.
  { eapply keeps_bind; [apply keeps_lift_opt|]. intros d _. apply keeps_alloc. }
  intros diff' Hdiff'.
  eapply keeps_bind; [now apply keeps_setitem_cols_scalar|]. intros _ _.
  eapply keeps_bind; [apply keeps_value_of|]. intros dv' _.
  eapply keeps_bind.
  { instantiate (1 := fun _ => True). destruct (decide _);
      [now apply keeps_ret | apply keeps_raise]. }
  intros _ _. now apply keeps_ret.
Qed.

Lemma call_locals {A} (m : M A) (s : state) :
  locals (final_state (call m s)) = locals s.
Proof. unfold call. now destruct (m (set_locals [] s)). Qed.

(** ** Scoring an edge reads only *)

(** C4: [compute_edge_score u v] leaves the whole state as it found it:
    the live segmentation, the live descriptors, the target descriptors and
    the graph with its node and edge attributes, whether it returns or
    raises; hence a second call right after the first has the same
    outcome. *)
Theorem compute_edge_score_pure (u v : Z) (s : state) :
  final_state (compute_edge_score u v s) = s /\
  compute_edge_score u v (final_state (compute_edge_score u v s))
  = compute_edge_score u v s.
Proof.
  assert (E : final_state (compute_edge_score u v s) = s).
  { apply state_eq_nl.
    - pose proof (keeps_compute_edge_score u v s) as H.
      destruct (compute_edge_score u v s); simpl; [apply H | exact H].
    - unfold compute_edge_score. apply call_locals. }
  split; [exact E | now rewrite E].
Qed.

(** ** Indices and sums *)

Lemma forallb_id_true (l : list bool) :
  forallb (fun x => x) l = true <->
  forall (i : nat) (x : bool), l !! i = Some x -> x = true.
Proof.
  induction l as [|b l IH]; simpl.
  - split; [intros _ i x H; discriminate | reflexivity].
  - rewrite andb_true_iff, IH. split.
    + intros [Hb H] [|i] x Hx; simpl in Hx; [congruence | eauto].
    + intros H. split; [apply (H 0%nat); reflexivity | intros i x Hx; apply (H (S i)); exact Hx].
Qed.

Lemma in_shape_spec (s i : coord) :
  in_shape s i = true <->
  length i = length s /\
  forall k : nat, (k < length s)%nat -> 0 <= ax i k < ax s k.
Proof.
  unfold in_shape. rewrite andb_true_iff, Nat.eqb_eq, forallb_id_true. split.
  - intros [Hl H]. split; [exact Hl|]. intros k Hk.
    specialize (H k). rewrite lookup_zip_with in H.
    rewrite (lookup_ax i k), (lookup_ax s k) in H by lia. simpl in H.
    specialize (H _ eq_refl). apply andb_true_iff in H. lia.
  - intros [Hl H]. split; [exact Hl|]. intros k x Hx.
    assert (Hk : (k < length s)%nat).
    { apply lookup_lt_Some in Hx. rewrite length_zip_with in Hx. lia. }
    rewrite lookup_zip_with in Hx.
    rewrite (lookup_ax i k), (lookup_ax s k) in Hx by lia. simpl in Hx.
    injection Hx as <-. specialize (H k Hk). apply andb_true_iff. lia.
Qed.

Lemma ax_cons_0 (x : Z) (l : coord) : ax (x :: l) 0 = x.
Proof. reflexivity. Qed.

Lemma ax_cons_S (x : Z) (l : coord) (k : nat) : ax (x :: l) (S k) = ax l k.
Proof. reflexivity. Qed.

Lemma in_shape_cons (n x : Z) (s i : coord) :
  in_shape (n :: s) (x :: i) = (0 <=? x) && (x <? n) && in_shape s i.
Proof.
  unfold in_shape. simpl.
  destruct (length i =? length s)%nat; simpl; [reflexivity|].
  now rewrite andb_false_r.
Qed.

Lemma in_shape_nil_l (i : coord) : in_shape [] i = true <-> i = [].
Proof.
  unfold in_shape. destruct i; simpl; split; try reflexivity; discriminate.
Qed.

Lemma elem_of_indices (s i : coord) :
  i ∈ indices s <-> in_shape s i = true.
Proof.
  revert i. induction s as [|n s IH]; intros i; simpl.
  - rewrite in_shape_nil_l. rewrite list_elem_of_singleton. reflexivity.
  - rewrite list_elem_of_bind. split.
    + intros (x & Hi & Hx). apply list_elem_of_fmap in Hi.
      destruct Hi as (p & -> & Hp). apply elem_of_seqZ in Hx.
      rewrite in_shape_cons. apply IH in Hp. rewrite Hp.
      apply andb_true_iff. split; [|reflexivity]. apply andb_true_iff. lia.
    + intros H. destruct i as [|x i]; [discriminate|].
      rewrite in_shape_cons in H. apply andb_true_iff in H. destruct H as [H1 H2].
      apply andb_true_iff in H1. exists x. split.
      * apply list_elem_of_fmap. exists i. split; [reflexivity | now apply IH].
      * apply elem_of_seqZ. lia.
Qed.
Lemma zsum_app (l1 l2 : list Z) : zsum (l1 ++ l2) = zsum l1 + zsum l2.
Proof. unfold zsum. induction l1 as [|x l1 IH]; simpl; [reflexivity | rewrite IH; lia]. Qed.

Lemma zsum_cons (x : Z) (l : list Z) : zsum (x :: l) = x + zsum l.
Proof. reflexivity. Qed.

Lemma zsum_map_ext {A} (f g : A -> Z) (l : list A) :
  (forall x, x ∈ l -> f x = g x) -> zsum (f <$> l) = zsum (g <$> l).
Proof.
  induction l as [|x l IH]; intros H; [reflexivity|]. simpl.
  rewrite (H x) by constructor. unfold zsum in *. simpl. f_equal.
  apply IH. intros y Hy. apply H. now constructor.
Qed.

Lemma zsum_filter {A} (P : A -> Prop) `{forall x, Decision (P x)} (f : A -> Z) (l : list A) :
  zsum ((fun x => if decide (P x) then f x else 0) <$> l) = zsum (f <$> filter P l).
Proof.
  induction l as [|x l IH]; [reflexivity|].
  rewrite filter_cons, fmap_cons, zsum_cons, IH.
  destruct (decide (P x)); [now rewrite fmap_cons, zsum_cons | lia].
Qed.

Lemma zsum_bind {A} (f : A -> list Z) (l : list A) :
  zsum (l ≫= f) = zsum ((fun x => zsum (f x)) <$> l).
Proof.
  induction l as [|x l IH]; [reflexivity|].
  rewrite bind_cons, zsum_app, IH. reflexivity.
Qed.

Lemma broadcast_rev_same (s : coord) : broadcast_rev s s = Some s.
Proof.
  induction s as [|a s IH]; simpl; [reflexivity|].
  rewrite IH. simpl. now rewrite Z.eqb_refl.
Qed.

Lemma broadcast_same (s : coord) : broadcast s s = Some s.
Proof.
  unfold broadcast. rewrite broadcast_rev_same. simpl. now rewrite reverse_involutive.
Qed.

Lemma bidx_in_shape (s i : coord) : in_shape s i = true -> bidx s i = i.
Proof.
  intros H. apply in_shape_spec in H. destruct H as [Hl H].
  unfold bidx. rewrite Hl, Nat.sub_diag, drop_0.
  apply coord_eq_ax; [rewrite length_zip_with; lia|].
  intros k Hk. rewrite length_zip_with in Hk.
  rewrite ax_zip_with by lia.
  destruct (ax s k =? 1) eqn:E; [|reflexivity].
  apply Z.eqb_eq in E. specialize (H k ltac:(lia)). lia.
Qed.

Lemma cadd_zeros_l (p : coord) (n : nat) : length p = n -> cadd (zeros n) p = p.
Proof.
  intros H. apply coord_eq_ax.
  - unfold cadd. rewrite length_zip_with, length_zeros. lia.
  - intros k Hk. unfold cadd in *. rewrite length_zip_with, length_zeros in Hk.
    rewrite ax_zip_with by (rewrite ?length_zeros; lia). now rewrite ax_zeros.
Qed.

Lemma csub_zeros_r (p : coord) (n : nat) : length p = n -> csub p (zeros n) = p.
Proof.
  intros H. apply coord_eq_ax.
  - unfold csub. rewrite length_zip_with, length_zeros. lia.
  - intros k Hk. unfold csub in *. rewrite length_zip_with, length_zeros in Hk.
    rewrite ax_zip_with by (rewrite ?length_zeros; lia). rewrite ax_zeros. lia.
Qed.

Lemma in_shape_length (s i : coord) : in_shape s i = true -> length i = length s.
Proof. intros H. now apply in_shape_spec in H. Qed.
Lemma bind_intro {A B} (m : M A) (k : A -> M B) (s s1 : state) (a : A) (r : outcome B) :
  m s = Done a s1 -> k a s1 = r -> bind m k s = r.
Proof. intros H <-. now apply bind_done. Qed.

Lemma length_to_slices (r : Roi.t) (n : nat) :
  roi_dim n r -> length (Roi.to_slices r) = n.
Proof.
  intros [Ho Hs]. unfold Roi.to_slices, Roi.get_begin, Roi.get_end, cadd.
  rewrite !length_zip_with. lia.
Qed.

Lemma length_window_off (sh : coord) (r : Roi.t) (n : nat) :
  length sh = n -> roi_dim n r -> length (window_off sh r) = n.
Proof.
  intros Hsh Hr. unfold window_off. rewrite length_zip_with, (length_to_slices r n Hr). lia.
Qed.

Lemma length_window_shape (sh : coord) (r : Roi.t) (n : nat) :
  length sh = n -> roi_dim n r -> length (window_shape sh r) = n.
Proof.
  intros Hsh Hr. unfold window_shape. rewrite length_zip_with, (length_to_slices r n Hr). lia.
Qed.

(** Slicing a whole array by the slices of a region. *)
Lemma getitem_roi (o : obj) (sh : coord) (r : Roi.t) (n : nat) (s : state) :
  length sh = n -> roi_dim n r ->
  getitem (mkView o (zeros n) sh) (Roi.to_slices r) s
  = Done (mkView o (window_off sh r) (window_shape sh r)) s.
Proof.
  intros Hsh Hr. unfold getitem. simpl.
  rewrite (length_to_slices r n Hr), Hsh, Nat.ltb_irrefl, Nat.sub_diag. simpl.
  rewrite app_nil_r. fold (window_off sh r). fold (window_shape sh r).
  rewrite cadd_zeros_l by (now apply length_window_off). reflexivity.
Qed.

(** Slicing a whole array with a leading channel axis. *)
Lemma getitem_roi_channels (o : obj) (C : Z) (sh : coord) (r : Roi.t) (n : nat) (s : state) :
  0 <= C -> length sh = n -> roi_dim n r ->
  getitem (mkView o (zeros (S n)) (C :: sh)) (full_slice :: Roi.to_slices r) s
  = Done (mkView o (0 :: window_off sh r) (C :: window_shape sh r)) s.
Proof.
  intros HC Hsh Hr. unfold getitem. simpl.
  rewrite (length_to_slices r n Hr), Hsh, Nat.ltb_irrefl, Nat.sub_diag. simpl.
  rewrite app_nil_r. fold (window_off sh r). fold (window_shape sh r).
  change (zeros (S n)) with (0 :: zeros n). unfold cadd. simpl.
  change (zip_with Z.add (replicate n 0) (window_off sh r)) with (cadd (zeros n) (window_off sh r)).
  rewrite cadd_zeros_l by (now apply length_window_off).
  unfold slice_len, slice_start, slice_stop, full_slice. simpl.
  replace (Z.max 0 (C - 0)) with C by lia. reflexivity.
Qed.
(** ** Windows of an array *)

Lemma filter_all {A} (P : A -> Prop) `{forall x, Decision (P x)} (l : list A) :
  (forall x, x ∈ l -> P x) -> filter P l = l.
Proof.
  induction l as [|x l IH]; intros Hl; [reflexivity|].
  rewrite filter_cons. destruct (decide (P x)) as [|n].
  - f_equal. apply IH. intros y Hy. apply Hl. now constructor.
  - exfalso. apply n, Hl. constructor.
Qed.

Lemma filter_none {A} (P : A -> Prop) `{forall x, Decision (P x)} (l : list A) :
  (forall x, x ∈ l -> ~ P x) -> filter P l = [].
Proof.
  induction l as [|x l IH]; intros Hl; [reflexivity|].
  rewrite filter_cons. destruct (decide (P x)) as [p|].
  - exfalso. apply (Hl x); [constructor | exact p].
  - apply IH. intros y Hy. apply Hl. now constructor.
Qed.

Lemma filter_bind {A B} (P : B -> Prop) `{forall x, Decision (P x)}
    (f : A -> list B) (l : list A) :
  filter P (l ≫= f) = l ≫= (fun x => filter P (f x)).
Proof.
  induction l as [|x l IH]; [reflexivity|].
  rewrite !bind_cons, filter_app, IH. reflexivity.
Qed.

Lemma bind_filter_guard {A B} (R : A -> Prop) `{forall x, Decision (R x)}
    (g : A -> list B) (l : list A) :
  l ≫= (fun x => if decide (R x) then g x else []) = filter R l ≫= g.
Proof.
  induction l as [|x l IH]; [reflexivity|].
  rewrite bind_cons, filter_cons, IH.
  destruct (decide (R x)); [now rewrite bind_cons | reflexivity].
Qed.

Lemma fmap_bind_list {A B C} (f : B -> C) (g : A -> list B) (l : list A) :
  f <$> (l ≫= g) = l ≫= (fun x => f <$> g x).
Proof.
  induction l as [|x l IH]; [reflexivity|].
  rewrite !bind_cons, fmap_app, IH. reflexivity.
Qed.

Lemma filter_range_seqZ (a l n : Z) :
  0 <= a -> 0 <= l -> a + l <= n ->
  filter (fun i => a <= i < a + l) (seqZ 0 n) = seqZ a l.
Proof.
  intros Ha Hl Hn.
  replace n with (a + (l + (n - a - l))) by lia.
  rewrite (seqZ_app 0 a) by lia. rewrite (seqZ_app (0 + a) l) by lia.
  rewrite !filter_app.
  rewrite (filter_none _ (seqZ 0 a)), (filter_all _ (seqZ (0 + a) l)), filter_none.
  - rewrite app_nil_r. reflexivity.
  - intros x Hx. apply elem_of_seqZ in Hx. lia.
  - intros x Hx. apply elem_of_seqZ in Hx. lia.
  - intros x Hx. apply elem_of_seqZ in Hx. lia.
Qed.

Lemma in_window_cons (a l x : Z) (off shp p : coord) :
  in_window (a :: off) (l :: shp) (x :: p)
  = (a <=? x) && (x <? a + l) && in_window off shp p.
Proof.
  unfold in_window. simpl. unfold csub. simpl. rewrite in_shape_cons.
  destruct (length p =? length off)%nat; simpl.
  - replace (0 <=? x - a) with (a <=? x) by lia.
    replace (x - a <? l) with (x <? a + l) by lia. reflexivity.
  - now rewrite andb_false_r.
Qed.

Lemma in_window_nil (p : coord) : in_window [] [] p = true <-> p = [].
Proof. unfold in_window. destruct p; simpl; split; try reflexivity; discriminate. Qed.

Lemma filter_window_cons (a l i : Z) (woff wsh : coord) (ps : list coord) :
  a <= i < a + l ->
  filter (fun p => in_window (a :: woff) (l :: wsh) p = true) ((fun p => i :: p) <$> ps)
  = (fun p => i :: p) <$> filter (fun p => in_window woff wsh p = true) ps.
Proof.
  intros Hi. induction ps as [|p ps IHp]; [reflexivity|].
  rewrite fmap_cons, !filter_cons, in_window_cons.
  replace (a <=? i) with true by lia. replace (i <? a + l) with true by lia. simpl.
  destruct (decide (in_window woff wsh p = true)); [rewrite fmap_cons|]; now rewrite IHp.
Qed.

Lemma indices_window (sh woff wsh : coord) :
  length woff = length sh -> length wsh = length sh ->
  (forall k : nat, (k < length sh)%nat ->
     0 <= ax woff k /\ 0 <= ax wsh k /\ ax woff k + ax wsh k <= ax sh k) ->
  cadd woff <$> indices wsh
  = filter (fun p => in_window woff wsh p = true) (indices sh).
Proof.
  revert woff wsh. induction sh as [|n sh IH]; intros woff wsh Ho Hs H.
  - destruct woff; [|discriminate]. destruct wsh; [|discriminate]. reflexivity.
  - destruct woff as [|a woff]; [discriminate|]. destruct wsh as [|l wsh]; [discriminate|].
    simpl in Ho, Hs. injection Ho as Ho. injection Hs as Hs.
    pose proof (H 0%nat ltac:(simpl; lia)) as H0. rewrite !ax_cons_0 in H0.
    assert (H' : forall k : nat, (k < length sh)%nat ->
               0 <= ax woff k /\ 0 <= ax wsh k /\ ax woff k + ax wsh k <= ax sh k).
    { intros k Hk. apply (H (S k)). simpl. lia. }
    specialize (IH woff wsh Ho Hs H').
    simpl indices. rewrite filter_bind, fmap_bind_list.
    transitivity (seqZ 0 n ≫= (fun i =>
        if decide (a <= i < a + l)
        then (fun p => i :: p) <$> filter (fun p => in_window woff wsh p = true) (indices sh)
        else [])).
    2:{ apply list_bind_ext; [|reflexivity]. intros i.
        destruct (decide (a <= i < a + l)) as [Hi|Hi].
        - symmetry. now apply filter_window_cons.
        - symmetry. apply filter_none. intros x Hx. apply list_elem_of_fmap in Hx.
          destruct Hx as (p & -> & _). rewrite in_window_cons.
          intros Hc. apply andb_true_iff in Hc. destruct Hc as [Hc _].
          apply andb_true_iff in Hc. lia. }
    rewrite (bind_filter_guard (fun i => a <= i < a + l)).
    rewrite filter_range_seqZ by lia.
    rewrite <- IH.
    replace (seqZ a l) with (Z.add a <$> seqZ 0 l) by (rewrite fmap_add_seqZ; f_equal; lia).
    rewrite list_fmap_bind. apply list_bind_ext; [|reflexivity]. intros j. simpl.
    rewrite <- !list_fmap_compose. reflexivity.
Qed.
Lemma filter_ext_elem {A} (P Q : A -> Prop) `{forall x, Decision (P x)}
    `{forall x, Decision (Q x)} (l : list A) :
  (forall x, x ∈ l -> P x <-> Q x) -> filter P l = filter Q l.
Proof.
  induction l as [|x l IH]; intros Hl; [reflexivity|].
  rewrite !filter_cons.
  assert (Hx : P x <-> Q x) by (apply Hl; constructor).
  assert (E : filter P l = filter Q l).
  { apply IH. intros y Hy. apply Hl. now constructor. }
  destruct (decide (P x)), (decide (Q x)); rewrite ?E; tauto.
Qed.

Lemma csub_cadd (off q : coord) : length q = length off -> csub (cadd off q) off = q.
Proof.
  intros H. apply coord_eq_ax.
  - unfold csub, cadd. rewrite !length_zip_with. lia.
  - intros k Hk. unfold csub, cadd in *. rewrite !length_zip_with in Hk.
    rewrite !ax_zip_with by (rewrite ?length_zip_with; lia). lia.
Qed.

Lemma cadd_csub (off p : coord) : length p = length off -> cadd off (csub p off) = p.
Proof.
  intros H. apply coord_eq_ax.
  - unfold csub, cadd. rewrite !length_zip_with. lia.
  - intros k Hk. unfold csub, cadd in *. rewrite !length_zip_with in Hk.
    rewrite !ax_zip_with by (rewrite ?length_zip_with; lia). lia.
Qed.

Lemma lookup_to_slices (r : Roi.t) (n k : nat) :
  roi_dim n r -> (k < n)%nat ->
  Roi.to_slices r !! k = Some (Some (lo r k), Some (hi r k)).
Proof.
  intros [Ho Hs] Hk. unfold Roi.to_slices. rewrite lookup_zip_with.
  unfold Roi.get_begin.
  assert (He : length (Roi.get_end r) = n)
    by (unfold Roi.get_end, cadd; now apply length_zip_with_same).
  rewrite (lookup_ax (Roi.offset r) k), (lookup_ax (Roi.get_end r) k) by lia.
  simpl. rewrite (ax_end r n k) by assumption. reflexivity.
Qed.

Lemma ax_window_off (sh : coord) (r : Roi.t) (n k : nat) :
  length sh = n -> roi_dim n r -> (k < n)%nat ->
  ax (window_off sh r) k = slice_bound (ax sh k) (lo r k).
Proof.
  intros Hsh Hr Hk. unfold window_off, ax at 1.
  rewrite lookup_zip_with, (lookup_ax sh k), (lookup_to_slices r n k) by (assumption || lia).
  reflexivity.
Qed.

Lemma ax_window_shape (sh : coord) (r : Roi.t) (n k : nat) :
  length sh = n -> roi_dim n r -> (k < n)%nat ->
  ax (window_shape sh r) k
  = Z.max 0 (slice_bound (ax sh k) (hi r k) - slice_bound (ax sh k) (lo r k)).
Proof.
  intros Hsh Hr Hk. unfold window_shape, ax at 1.
  rewrite lookup_zip_with, (lookup_ax sh k), (lookup_to_slices r n k) by (assumption || lia).
  reflexivity.
Qed.

Lemma in_window_spec (off shp p : coord) :
  length off = length shp ->
  in_window off shp p = true <->
  length p = length off /\
  forall k : nat, (k < length off)%nat -> ax off k <= ax p k < ax off k + ax shp k.
Proof.
  intros Hl. unfold in_window. rewrite andb_true_iff, Nat.eqb_eq, in_shape_spec.
  unfold csub. rewrite length_zip_with. split.
  - intros (Hp & _ & H). split; [exact Hp|]. intros k Hk.
    specialize (H k ltac:(lia)). rewrite ax_zip_with in H by lia. lia.
  - intros (Hp & H). split; [exact Hp|]. split; [lia|]. intros k Hk.
    specialize (H k ltac:(lia)). rewrite ax_zip_with by lia. lia.
Qed.

Lemma containsb_spec (r : Roi.t) (p : coord) (n : nat) :
  roi_dim n r ->
  Roi.containsb r p = true <->
  length p = n /\ forall k : nat, (k < n)%nat -> lo r k <= ax p k < hi r k.
Proof.
  intros [Ho Hs]. unfold Roi.containsb, Roi.dims.
  rewrite andb_true_iff, Nat.eqb_eq, forallb_id_true, Hs. split.
  - intros [Hp H]. split; [exact Hp|]. intros k Hk. specialize (H k).
    rewrite lookup_zip_with, lookup_zip_with in H.
    rewrite (lookup_ax p k), (lookup_ax (Roi.offset r) k), (lookup_ax (Roi.shape r) k) in H by lia.
    simpl in H. specialize (H _ eq_refl). apply andb_true_iff in H.
    unfold lo, hi. lia.
  - intros [Hp H]. split; [exact Hp|]. intros k x Hx.
    assert (Hk : (k < n)%nat).
    { apply lookup_lt_Some in Hx. rewrite !length_zip_with in Hx. lia. }
    rewrite lookup_zip_with, lookup_zip_with in Hx.
    rewrite (lookup_ax p k), (lookup_ax (Roi.offset r) k), (lookup_ax (Roi.shape r) k) in Hx by lia.
    simpl in Hx. injection Hx as <-. specialize (H k Hk). unfold lo, hi in H.
    apply andb_true_iff. lia.
Qed.

(** The window cut by the slices of a region that begins at non-negative
    coordinates holds the voxels of the array that lie in the region. *)
Lemma window_bounds (sh : coord) (r : Roi.t) (n : nat) :
  length sh = n -> roi_dim n r ->
  (forall k : nat, (k < n)%nat -> 0 <= ax sh k /\ 0 <= lo r k /\ 0 <= ax (Roi.shape r) k) ->
  forall k : nat, (k < n)%nat ->
    0 <= ax (window_off sh r) k /\ 0 <= ax (window_shape sh r) k /\
    ax (window_off sh r) k + ax (window_shape sh r) k <= ax sh k.
Proof.
  intros Hsh Hr H k Hk. specialize (H k Hk).
  rewrite (ax_window_off sh r n k), (ax_window_shape sh r n k) by assumption.
  assert (Hhi : hi r k = lo r k + ax (Roi.shape r) k) by reflexivity.
  unfold slice_bound.
  destruct (lo r k <? 0) eqn:E1; destruct (hi r k <? 0) eqn:E2; lia.
Qed.

Lemma in_window_roi (sh : coord) (r : Roi.t) (n : nat) (p : coord) :
  length sh = n -> roi_dim n r ->
  (forall k : nat, (k < n)%nat -> 0 <= ax sh k /\ 0 <= lo r k /\ 0 <= ax (Roi.shape r) k) ->
  in_shape sh p = true ->
  in_window (window_off sh r) (window_shape sh r) p = true <-> Roi.containsb r p = true.
Proof.
  intros Hsh Hr H Hp. apply in_shape_spec in Hp. destruct Hp as [Hlp Hp].
  rewrite in_window_spec
    by (rewrite (length_window_off sh r n), (length_window_shape sh r n); auto).
  rewrite (containsb_spec r p n Hr), (length_window_off sh r n) by assumption.
  split; intros [Hl Hc]; (split; [lia|]); intros k Hk; specialize (Hc k Hk);
    specialize (H k Hk); specialize (Hp k ltac:(lia));
    assert (Hhi : hi r k = lo r k + ax (Roi.shape r) k) by reflexivity;
    rewrite (ax_window_off sh r n k), (ax_window_shape sh r n k) in * by assumption;
    unfold slice_bound in *;
    destruct (lo r k <? 0) eqn:E1; destruct (hi r k <? 0) eqn:E2; lia.
Qed.

(** ** Running the methods forward *)

Lemma node_get_done {A} (attr : RAG -> gmap Z A) (u : Z) (x : A) (s : state) :
  attr (rag s) !! u = Some x -> node_get attr u s = Done x s.
Proof. intros H. unfold node_get. now rewrite H. Qed.

Lemma whole_done (o : obj) (s : state) (sh : coord) :
  ashape (read_obj o s) = sh ->
  whole o s = Done (mkView o (zeros (length sh)) sh) s.
Proof. intros <-. reflexivity. Qed.

Lemma extract_done (seg : ndarray) (roi : option Roi.t) (labels : list Z)
    (d : ndarray) (s : state) :
  get_descriptors (lsd_extractor s) seg roi labels (voxel_size s) = Some d ->
  extract seg roi labels s = Done d s.
Proof. intros H. unfold extract. now rewrite H. Qed.
Lemma setitem_cols_scalar_done (v : view) (mask : ndarray) (x c : Z) (s : state) :
  vshape v = c :: ashape mask ->
  setitem_cols_scalar v mask x s
  = Done tt (write_view v (fun i => masked mask (tail i) x) s).
Proof.
  intros H. unfold setitem_cols_scalar. rewrite H.
  destruct (decide _) as [_|E]; [reflexivity | now destruct E].
Qed.

Lemma setitem_cols_done (v : view) (mask b : ndarray) (c : Z) (s : state) :
  ashape b = c :: ashape mask -> vshape v = c :: ashape mask ->
  setitem_cols v mask b s
  = Done tt (write_view v (fun i => masked mask (tail i) (adata b (hd 0 i :: tail i))) s).
Proof.
  intros Hb Hv. unfold setitem_cols. rewrite Hb, Hv.
  destruct (decide _) as [_|E]; [|now destruct E].
  rewrite Z.eqb_refl. reflexivity.
Qed.

Lemma setitem_mask_done (v : view) (mask : ndarray) (x : Z) (s : state) :
  ashape mask = vshape v ->
  setitem_mask v mask x s = Done tt (write_view v (fun i => masked mask i x) s).
Proof.
  intros H. unfold setitem_mask.
  destruct (decide _) as [_|E]; [reflexivity | now destruct E].
Qed.

Lemma masked_eq_scalar (a : ndarray) (u : Z) (i : coord) (x : Z) :
  masked (eq_scalar a u) i x = if adata a i =? u then Some x else None.
Proof. unfold masked, eq_scalar. simpl. now destruct (adata a i =? u). Qed.

Lemma masked_not_eq_scalar (a : ndarray) (u : Z) (i : coord) (x : Z) :
  masked (eq_scalar (eq_scalar a u) 0) i x = if adata a i =? u then None else Some x.
Proof. unfold masked, eq_scalar. simpl. now destruct (adata a i =? u). Qed.

Lemma window_off_begin (sh : coord) (r : Roi.t) (n : nat) (p : coord) :
  length sh = n -> roi_dim n r ->
  (forall k : nat, (k < n)%nat -> 0 <= lo r k) ->
  in_shape sh p = true -> Roi.containsb r p = true ->
  window_off sh r = Roi.offset r.
Proof.
  intros Hsh Hr H Hp Hc. apply in_shape_spec in Hp. destruct Hp as [Hlp Hp].
  apply (containsb_spec r p n Hr) in Hc. destruct Hc as [_ Hc].
  apply coord_eq_ax.
  - rewrite (length_window_off sh r n) by assumption. now destruct Hr.
  - intros k Hk. rewrite (length_window_off sh r n) in Hk by assumption.
    rewrite (ax_window_off sh r n k) by assumption.
    specialize (H k Hk). specialize (Hp k ltac:(lia)). specialize (Hc k Hk).
    unfold slice_bound. fold (lo r k). destruct (lo r k <? 0) eqn:E; lia.
Qed.
Lemma in_window_zeros (shp i : coord) :
  in_shape shp i = true -> in_window (zeros (length shp)) shp i = true.
Proof.
  intros H. pose proof (in_shape_length _ _ H) as Hl.
  unfold in_window. rewrite length_zeros, Hl, Nat.eqb_refl. simpl.
  now rewrite csub_zeros_r.
Qed.

(** Reading a temporary through the reference it was written through. *)
Lemma read_written_local (k : nat) (shp : coord) (f : coord -> option Z)
    (s : state) (a : ndarray) (i : coord) :
  locals s !! k = Some a -> in_shape shp i = true ->
  adata (view_val (write_view (mkView (Local k) (zeros (length shp)) shp) f s)
                  (mkView (Local k) (zeros (length shp)) shp)) i
  = default (adata a i) (f i).
Proof.
  intros Hk Hi. pose proof (in_shape_length _ _ Hi) as Hl.
  unfold view_val, write_view, slice_of. simpl.
  rewrite list_lookup_insert_eq by (now apply lookup_lt_Some in Hk). simpl.
  rewrite Hk. simpl.
  rewrite cadd_zeros_l by exact Hl.
  rewrite in_window_zeros by exact Hi.
  now rewrite csub_zeros_r.
Qed.

Lemma view_val_write_lsds_local (v : view) (f : coord -> option Z) (s : state)
    (k : nat) (off shp : coord) :
  base v = Lsds ->
  view_val (write_view v f s) (mkView (Local k) off shp)
  = view_val s (mkView (Local k) off shp).
Proof. intros H. unfold view_val, write_view. rewrite H. reflexivity. Qed.

(** From here on the array operations are unfolded by name only. *)
Arguments zeros : simpl never.
Arguments cadd : simpl never.
Arguments csub : simpl never.
Arguments in_shape : simpl never.
Arguments in_window : simpl never.
Arguments bidx : simpl never.
Arguments window_off : simpl never.
Arguments window_shape : simpl never.
Arguments masked : simpl never.
Arguments eq_scalar : simpl never.
Arguments slice_of : simpl never.

(** ** Scoring a node *)

(** C8: for a node [u] whose region begins at non-negative coordinates and
    bounds the voxels labelled [u], with descriptor volumes of the shape of
    the segmentation and an extractor answering [d] of the shape of the
    slice, [compute_node_score u] returns the sum, over the voxels of the
    region labelled [u] and over the channels, of the squared difference
    between the target and [d]; the only field of the state it changes is
    the live descriptor volume, which receives [d] exactly at the voxels
    labelled [u] and keeps its value everywhere else. *)
Theorem compute_node_score_spec (u : Z) (s : state) (roi : Roi.t) (sh : coord)
    (C : Z) (d : ndarray) (n : nat) :
  node_roi (rag s) !! u = Some roi ->
  ashape (segmentation s) = sh -> length sh = n -> roi_dim n roi ->
  (forall k : nat, (k < n)%nat -> 0 <= ax sh k /\ 0 <= lo roi k /\ 0 <= ax (Roi.shape roi) k) ->
  (forall p, in_shape sh p = true -> adata (segmentation s) p = u ->
             Roi.containsb roi p = true) ->
  0 <= C -> ashape (target_lsds s) = C :: sh -> ashape (lsds s) = C :: sh ->
  get_descriptors (lsd_extractor s) (roi_slice (segmentation s) roi) None [u] (voxel_size s)
  = Some d ->
  ashape d = C :: ashape (roi_slice (segmentation s) roi) ->
  exists s',
    compute_node_score u s
    = Done (squared_error (target_lsds s) d (Roi.get_begin roi) C
              (voxels_labeled (segmentation s) roi [u])) s' /\
    s' = set_lsds (lsds s') s /\
    ashape (lsds s') = ashape (lsds s) /\
    forall c p, in_shape (C :: sh) (c :: p) = true ->
      adata (lsds s') (c :: p)
      = if adata (segmentation s) p =? u
        then adata d (c :: csub p (Roi.get_begin roi))
        else adata (lsds s) (c :: p).
Proof.
  intros Hroi Hsh Hn Hr Hb Hbb HC Ht Hl Hd Hds.
  unfold roi_slice in Hd, Hds. rewrite Hsh in Hd, Hds. simpl in Hds.
  assert (Hwo : length (window_off sh roi) = n) by (now apply length_window_off).
  assert (Hws : length (window_shape sh roi) = n) by (now apply length_window_shape).
  eexists. split; [|split; [|split]].
  - unfold compute_node_score. apply call_done.
    eapply bind_intro; [apply node_get_done; exact Hroi|].
    eapply bind_intro; [apply whole_done; simpl; exact Hsh|]. rewrite Hn.
    eapply bind_intro; [apply getitem_roi; assumption|].
    eapply bind_intro; [reflexivity|].
    eapply bind_intro; [apply extract_done; exact Hd|].
    eapply bind_intro; [apply whole_done; simpl; exact Ht|]. simpl length. rewrite Hn.
    eapply bind_intro; [apply getitem_roi_channels; assumption|].
    eapply bind_intro; [reflexivity|].
    eapply bind_intro.
    { eapply bind_intro. { unfold np_sub. simpl. rewrite Hds, broadcast_same. simpl. reflexivity. }
      reflexivity. }
    eapply bind_intro; [ eapply setitem_cols_scalar_done; reflexivity |].
    eapply bind_intro; [apply whole_done; simpl; exact Hl|]. simpl length. rewrite Hn.
    eapply bind_intro; [apply getitem_roi_channels; assumption|].
    eapply bind_intro; [ eapply setitem_cols_done; [exact Hds | reflexivity] |].
    eapply bind_intro; [reflexivity|].
    unfold ret. f_equal.
    (* the value *)
    unfold np_sum, np_square, squared_error. simpl ashape. simpl indices.
    rewrite fmap_bind_list, !zsum_bind. apply zsum_map_ext. intros c Hc.
    apply elem_of_seqZ in Hc.
    transitivity (zsum ((fun p => if decide (adata (segmentation s) p = u)
                          then (adata (target_lsds s) (c :: p) - adata d (c :: csub p (window_off sh roi))) ^ 2
                          else 0) <$> (cadd (window_off sh roi) <$> indices (window_shape sh roi)))).
    { rewrite <- !list_fmap_compose. apply zsum_map_ext. intros q Hq.
      apply elem_of_indices in Hq.
      assert (Hcq : in_shape (C :: window_shape sh roi) (c :: q) = true).
      { rewrite in_shape_cons, Hq. replace (0 <=? c) with true by lia.
        replace (c <? C) with true by lia. reflexivity. }
      pose proof (in_shape_length _ _ Hq) as Hlq.
      unfold compose. cbn [adata ashape].
      rewrite view_val_write_lsds_local by reflexivity.
      replace (S (length (window_shape sh roi))) with (length (C :: window_shape sh roi)) by reflexivity.
      rewrite read_written_local with (a := mkArr (C :: window_shape sh roi) (fun i =>
         adata (target_lsds s) (cadd (0 :: window_off sh roi) (bidx (C :: window_shape sh roi) i)) -
         adata d (bidx (C :: window_shape sh roi) i))); [|reflexivity|exact Hcq].
      cbn [adata tail]. rewrite masked_not_eq_scalar, bidx_in_shape by exact Hcq.
      change (adata (view_val (set_locals [] s)
                (mkView Segmentation (window_off sh roi) (window_shape sh roi))) q)
        with (adata (segmentation s) (cadd (window_off sh roi) q)).
      change (cadd (0 :: window_off sh roi) (c :: q))
        with ((0 + c) :: cadd (window_off sh roi) q).
      rewrite csub_cadd by lia. rewrite Z.add_0_l.
      destruct (decide _) as [E|E].
      - apply Z.eqb_eq in E. rewrite E. simpl. lia.
      - apply Z.eqb_neq in E. rewrite E. reflexivity. }
    rewrite (indices_window sh); [ | lia | lia | rewrite Hn; apply window_bounds; assumption ].
    rewrite (zsum_filter (fun p => adata (segmentation s) p = u)).
    rewrite list_filter_filter.
    unfold voxels_labeled. rewrite Hsh.
    rewrite (filter_ext_elem _ (fun p => Roi.containsb roi p = true /\ adata (segmentation s) p ∈ [u])).
    2:{ intros p Hp. apply elem_of_indices in Hp.
        rewrite (in_window_roi sh roi n p) by assumption.
        rewrite list_elem_of_singleton. tauto. }
    apply zsum_map_ext. intros p Hp. apply list_elem_of_filter in Hp.
    destruct Hp as [[Hc1 _] Hp]. apply elem_of_indices in Hp.
    rewrite (window_off_begin sh roi n p); try assumption; [reflexivity|].
    intros k Hk. apply Hb. exact Hk.
  - destruct s; reflexivity.
  - reflexivity.
  - intros c p Hcp.
    rewrite in_shape_cons in Hcp. apply andb_true_iff in Hcp. destruct Hcp as [Hc Hp].
    apply andb_true_iff in Hc.
    pose proof (in_shape_length _ _ Hp) as Hlp.
    cbn [lsds set_locals write_view write_obj base read_obj set_lsds voff vshape adata].
    change (csub (c :: p) (0 :: window_off sh roi))
      with ((c - 0) :: csub p (window_off sh roi)).
    cbn [hd tail]. rewrite masked_eq_scalar, in_window_cons, Z.sub_0_r.
    change (adata (view_val (set_locals [] s)
              (mkView Segmentation (window_off sh roi) (window_shape sh roi)))
              (csub p (window_off sh roi)))
      with (adata (segmentation s) (cadd (window_off sh roi) (csub p (window_off sh roi)))).
    rewrite cadd_csub by lia.
    replace (0 <=? c) with true by lia. replace (c <? 0 + C) with true by lia.
    cbn [andb].
    destruct (adata (segmentation s) p =? u) eqn:E.
    + apply Z.eqb_eq in E. pose proof (Hbb p Hp E) as Hin.
      rewrite (proj2 (in_window_roi sh roi n p Hn Hr Hb Hp) Hin). cbn [default].
      rewrite (window_off_begin sh roi n p); try assumption; [reflexivity|].
      intros k Hk. apply Hb. exact Hk.
    + now destruct (in_window _ _ p).
Qed.

Ltac enum_indices H :=
  apply elem_of_indices in H; cbv in H;
  repeat (apply elem_of_cons in H; destruct H as [->|H]);
  [..| now apply elem_of_nil in H].

Lemma compute_node_score_spec_witness :
  let d := descriptors_of indicator_extractor
             (roi_slice two_fragments (Roi.mk [0; 0] [2; 2])) None [1] [1; 1] in
  exists s',
    compute_node_score 1 two_fragments_state
    = Done (squared_error constant_target d [0; 0] 2
              (voxels_labeled two_fragments (Roi.mk [0; 0] [2; 2]) [1])) s'.
Proof.
  intros d.
  destruct (compute_node_score_spec 1 two_fragments_state (Roi.mk [0; 0] [2; 2]) [2; 4] 2
              d 2) as (s' & H & _).
  - vm_compute. reflexivity.
  - reflexivity.
  - reflexivity.
  - split; reflexivity.
  - intros [|[|k]] Hk; vm_compute; repeat split; try discriminate; lia.
  - intros p Hp E. enum_indices Hp; vm_compute in E; try discriminate; reflexivity.
  - lia.
  - reflexivity.
  - reflexivity.
  - reflexivity.
  - reflexivity.
  - exists s'. exact H.
Defined.
(** ** The regions of an edge, empty or not *)

Lemma proper_dim (n : nat) (r : Roi.t) : Roi.proper n r -> roi_dim n r.
Proof. intros (Ho & Hs & _). now split. Qed.

Lemma proper_nonempty (n : nat) (r : Roi.t) : Roi.proper n r -> Roi.empty r = false.
Proof.
  intros (Ho & Hs & Hp). apply roi_empty_false. intros k Hk.
  specialize (Hp k ltac:(lia)). lia.
Qed.

Lemma intersect_cases (a b : Roi.t) (n : nat) :
  roi_dim n a -> roi_dim n b -> shape_nonneg n a -> shape_nonneg n b ->
  (Roi.intersects a b = false /\ Roi.intersect a b = Roi.mk (zeros n) (zeros n)) \/
  (Roi.intersects a b = true /\ Roi.proper n (Roi.intersect a b)).
Proof.
  intros Ha Hb Hna Hnb. destruct (Roi.intersects a b) eqn:E.
  - right. split; [reflexivity|].
    destruct (intersect_true a b n Ha Hb E) as [[Ho Hs] F].
    split; [exact Ho|]. split; [exact Hs|]. intros k Hk.
    specialize (F k Hk). specialize (Hna k Hk). specialize (Hnb k Hk).
    destruct F as (F1 & F2 & F3 & F4 & F5 & F6).
    assert (P : hi (Roi.intersect a b) k
                = lo (Roi.intersect a b) k + ax (Roi.shape (Roi.intersect a b)) k)
      by reflexivity.
    unfold hi, lo in *. lia.
  - left. split; [reflexivity|]. rewrite (intersect_false a b E).
    destruct Ha as [_ Hs]. unfold Roi.dims. now rewrite Hs.
Qed.

Lemma zeros_or_proper_nonneg (n : nat) (r : Roi.t) :
  r = Roi.mk (zeros n) (zeros n) \/ Roi.proper n r -> shape_nonneg n r.
Proof.
  intros [->|(_ & _ & H)] k Hk; simpl.
  - rewrite ax_zeros. lia.
  - specialize (H k Hk). lia.
Qed.

Lemma zeros_or_proper_dim (n : nat) (r : Roi.t) :
  r = Roi.mk (zeros n) (zeros n) \/ Roi.proper n r -> roi_dim n r.
Proof.
  intros [->|H]; [split; apply length_zeros | now apply proper_dim].
Qed.

Lemma intersect_zeros_or_proper (a b : Roi.t) (n : nat) :
  roi_dim n a -> roi_dim n b -> shape_nonneg n a -> shape_nonneg n b ->
  Roi.intersect a b = Roi.mk (zeros n) (zeros n) \/ Roi.proper n (Roi.intersect a b).
Proof.
  intros Ha Hb Hna Hnb.
  destruct (intersect_cases a b n Ha Hb Hna Hnb) as [[_ H]|[_ H]]; auto.
Qed.

(** The region of change is the empty region at the origin or has a
    positive extent on every axis. *)
Lemma change_roi_cases (n : nat) (roi_u roi_v : Roi.t) (sh c : coord) :
  Roi.proper n roi_u -> Roi.proper n roi_v ->
  length sh = n -> (forall i : nat, (i < n)%nat -> 0 <= ax sh i) ->
  length c = n -> (forall i : nat, (i < n)%nat -> 0 <= ax c i) ->
  let rois := lsds_edge_rois roi_u roi_v (Roi.mk (zeros n) sh) c in
  fst rois = Roi.mk (zeros n) (zeros n) \/ Roi.proper n (fst rois).
Proof.
  intros Hu Hv Hsh Hsh0 Hc Hc0 rois.
  pose proof (proper_dim _ _ Hu) as Hdu. pose proof (proper_dim _ _ Hv) as Hdv.
  assert (Hdt : roi_dim n (Roi.mk (zeros n) sh)) by (split; simpl; [apply length_zeros | assumption]).
  assert (Hnt : shape_nonneg n (Roi.mk (zeros n) sh)) by (intros k Hk; simpl; auto).
  destruct (grow_spec roi_u c n Hdu Hc) as [Hdgu Hgu].
  destruct (grow_spec roi_v c n Hdv Hc) as [Hdgv Hgv].
  destruct (union_spec roi_u roi_v n Hdu Hdv) as [Hdun Hun].
  assert (Hngu : shape_nonneg n (Roi.grow roi_u c c)).
  { intros k Hk. destruct (Hgu k Hk) as (_ & _ & ->). destruct Hu as (_ & _ & Hp).
    specialize (Hp k Hk). specialize (Hc0 k Hk). lia. }
  assert (Hngv : shape_nonneg n (Roi.grow roi_v c c)).
  { intros k Hk. destruct (Hgv k Hk) as (_ & _ & ->). destruct Hv as (_ & _ & Hp).
    specialize (Hp k Hk). specialize (Hc0 k Hk). lia. }
  assert (Hnun : shape_nonneg n (Roi.union roi_u roi_v)).
  { intros k Hk. destruct (Hun k Hk) as (U1 & U2). destruct Hu as (_ & _ & Hp).
    specialize (Hp k Hk).
    assert (P : hi (Roi.union roi_u roi_v) k
                = lo (Roi.union roi_u roi_v) k + ax (Roi.shape (Roi.union roi_u roi_v)) k)
      by reflexivity.
    unfold hi, lo in *. lia. }
  pose proof (intersect_zeros_or_proper _ _ n Hdgu Hdt Hngu Hnt) as Cu.
  pose proof (intersect_zeros_or_proper _ _ n Hdgv Hdt Hngv Hnt) as Cv.
  pose proof (intersect_zeros_or_proper _ _ n
                (zeros_or_proper_dim _ _ Cu) (zeros_or_proper_dim _ _ Cv)
                (zeros_or_proper_nonneg _ _ Cu) (zeros_or_proper_nonneg _ _ Cv)) as C0.
  exact (intersect_zeros_or_proper _ _ n
           (zeros_or_proper_dim _ _ C0) Hdun (zeros_or_proper_nonneg _ _ C0) Hnun).
Qed.
Lemma sub_spec (r : Roi.t) (b : coord) (n : nat) :
  roi_dim n r -> length b = n ->
  roi_dim n (Roi.sub r b) /\
  forall k : nat, (k < n)%nat ->
    lo (Roi.sub r b) k = lo r k - ax b k /\
    hi (Roi.sub r b) k = hi r k - ax b k /\
    ax (Roi.shape (Roi.sub r b)) k = ax (Roi.shape r) k.
Proof.
  intros [Ho Hs] Hb. unfold Roi.sub, roi_dim, lo, hi; simpl. split.
  - split; [unfold csub; now apply length_zip_with_same | exact Hs].
  - intros k Hk. unfold csub. rewrite ax_zip_with by lia. lia.
Qed.

Lemma slice_bound_same_len (m b : Z) :
  Z.max 0 (slice_bound m (b + 0) - slice_bound m b) = 0.
Proof. rewrite Z.add_0_r. lia. Qed.

(** The windows that scoring and merging cut for a pair of nodes. *)
Lemma edge_windows (n : nat) (roi_u roi_v : Roi.t) (sh c : coord) :
  Roi.proper n roi_u -> Roi.proper n roi_v ->
  (forall k : nat, (k < n)%nat -> 0 <= lo roi_u k /\ 0 <= lo roi_v k) ->
  length sh = n -> (forall i : nat, (i < n)%nat -> 0 <= ax sh i) ->
  length c = n -> (forall i : nat, (i < n)%nat -> 0 <= ax c i) ->
  let rois := lsds_edge_rois roi_u roi_v (Roi.mk (zeros n) sh) c in
  let rel := Roi.sub (fst rois) (Roi.get_begin (snd rois)) in
  let csh := window_shape sh (snd rois) in
  roi_dim n (fst rois) /\ roi_dim n (snd rois) /\ roi_dim n rel /\
  (forall k : nat, (k < n)%nat ->
     0 <= lo (fst rois) k /\ 0 <= ax (Roi.shape (fst rois)) k) /\
  (forall k : nat, (k < n)%nat ->
     0 <= lo (snd rois) k /\ 0 <= ax (Roi.shape (snd rois)) k) /\
  window_shape csh rel = window_shape sh (fst rois) /\
  window_shape sh (fst rois) = Roi.shape (fst rois) /\
  (forall q, in_shape (window_shape sh (fst rois)) q = true ->
     cadd (window_off sh (snd rois)) (cadd (window_off csh rel) q)
     = cadd (window_off sh (fst rois)) q).
Proof.
  intros Hu Hv Hlo Hsh Hsh0 Hc Hc0 rois rel csh.
  pose proof (proper_dim _ _ Hu) as Hdu. pose proof (proper_dim _ _ Hv) as Hdv.
  destruct (union_spec roi_u roi_v n Hdu Hdv) as [Hdun Hun].
  assert (Hnun : shape_nonneg n (Roi.union roi_u roi_v)).
  { intros k Hk. destruct (Hun k Hk) as (U1 & U2). destruct Hu as (_ & _ & Hp).
    specialize (Hp k Hk).
    assert (P : hi (Roi.union roi_u roi_v) k
                = lo (Roi.union roi_u roi_v) k + ax (Roi.shape (Roi.union roi_u roi_v)) k)
      by reflexivity.
    unfold hi, lo in *. lia. }
  pose proof (change_roi_cases n roi_u roi_v sh c Hu Hv Hsh Hsh0 Hc Hc0) as Hcases.
  fold rois in Hcases.
  assert (Hcx : snd rois = Roi.intersect (Roi.grow (fst rois) c c) (Roi.union roi_u roi_v))
    by reflexivity.
  pose proof (edge_rois_nonempty n roi_u roi_v sh c Hu Hv Hsh Hsh0 Hc Hc0) as Hnonempty.
  cbv zeta in Hnonempty. fold rois in Hnonempty.
  subst rel csh. clearbody rois.
  set (rel := Roi.sub (fst rois) (Roi.get_begin (snd rois))).
  set (csh := window_shape sh (snd rois)).
  pose proof (zeros_or_proper_dim _ _ Hcases) as Hdch.
  destruct (grow_spec (fst rois) c n Hdch Hc) as [Hdgc Hgc].
  assert (Hdcx : roi_dim n (snd rois)) by (rewrite Hcx; now apply intersect_dim).
  assert (Hbl : length (Roi.get_begin (snd rois)) = n) by (now destruct Hdcx).
  destruct (sub_spec (fst rois) (Roi.get_begin (snd rois)) n Hdch Hbl) as [Hdrel Hrel].
  fold rel in Hdrel, Hrel.
  assert (Hlcsh : length csh = n) by (now apply length_window_shape).
  destruct Hcases as [Hz|Hp].
  - (* the empty region of change *)
    assert (Hngc : shape_nonneg n (Roi.grow (fst rois) c c)).
    { intros k Hk. destruct (Hgc k Hk) as (_ & _ & ->). rewrite Hz. simpl.
      rewrite ax_zeros. specialize (Hc0 k Hk). lia. }
    assert (Hctx : forall k : nat, (k < n)%nat ->
              0 <= lo (snd rois) k /\ 0 <= ax (Roi.shape (snd rois)) k).
    { intros k Hk. rewrite Hcx.
      destruct (intersect_cases _ _ n Hdgc Hdun Hngc Hnun) as [[_ E]|[I P]].
      - rewrite E. unfold lo. simpl. rewrite !ax_zeros. lia.
      - destruct (intersect_true _ _ n Hdgc Hdun I) as [_ F].
        destruct (F k Hk) as (F1 & _). destruct P as (_ & _ & P). specialize (P k Hk).
        destruct (Hun k Hk) as (U1 & _). destruct (Hlo k Hk). lia. }
    assert (Hwz : forall k : nat, (k < n)%nat -> ax (window_shape sh (fst rois)) k = 0).
    { intros k Hk. rewrite (ax_window_shape sh _ n k) by assumption.
      rewrite Hz. unfold hi, lo. cbn [Roi.offset Roi.shape]. rewrite !ax_zeros.
      apply (slice_bound_same_len (ax sh k) 0). }
    refine (conj Hdch (conj Hdcx (conj Hdrel (conj _ (conj Hctx (conj _ (conj _ _))))))).
    + intros k Hk. rewrite Hz. unfold lo. cbn [Roi.offset Roi.shape].
      rewrite !ax_zeros. lia.
    + apply coord_eq_ax.
      * rewrite (length_window_shape csh rel n), (length_window_shape sh _ n); auto.
      * intros k Hk. rewrite (length_window_shape csh rel n) in Hk by assumption.
        rewrite Hwz by exact Hk.
        rewrite (ax_window_shape csh rel n k) by assumption.
        destruct (Hrel k Hk) as (R1 & R2 & R3).
        assert (E : hi rel k = lo rel k + 0).
        { unfold hi. fold (lo rel k). rewrite R3, Hz. simpl. now rewrite ax_zeros. }
        rewrite E. apply slice_bound_same_len.
    + apply coord_eq_ax.
      * rewrite (length_window_shape sh _ n) by assumption. now destruct Hdch.
      * intros k Hk. rewrite (length_window_shape sh _ n) in Hk by assumption.
        rewrite Hwz by exact Hk. rewrite Hz. simpl. now rewrite ax_zeros.
    + intros q Hq. apply in_shape_spec in Hq. destruct Hq as [Hlq Hq].
      rewrite (length_window_shape sh _ n) in Hlq, Hq by assumption.
      destruct n as [|n'].
      * destruct q; [|discriminate]. unfold cadd. now rewrite !zip_with_nil_r.
      * specialize (Hq 0%nat ltac:(lia)). rewrite Hwz in Hq by lia. lia.
  - (* a region of change with an extent *)
    pose proof (proper_nonempty _ _ Hp) as Hne.
    destruct (Hnonempty Hne) as (_ & _ & Hax).
    assert (Hall : forall k : nat, (k < n)%nat ->
              0 <= lo (snd rois) k /\ lo (snd rois) k <= lo (fst rois) k /\
              lo (fst rois) k < hi (fst rois) k /\ hi (fst rois) k <= hi (snd rois) k /\
              hi (fst rois) k <= ax sh k /\
              hi (snd rois) k = lo (snd rois) k + ax (Roi.shape (snd rois)) k /\
              hi (fst rois) k = lo (fst rois) k + ax (Roi.shape (fst rois)) k).
    { intros k Hk. destruct (Hax k Hk) as (A1 & A2 & A3 & A4 & A5 & A6 & A7).
      destruct (Hlo k Hk). specialize (Hc0 k Hk).
      repeat split; try reflexivity; lia. }
    assert (Hoff_ctx : forall k : nat, (k < n)%nat ->
              ax (window_off sh (snd rois)) k = lo (snd rois) k).
    { intros k Hk. rewrite (ax_window_off sh _ n k) by assumption.
      destruct (Hall k Hk) as (B1 & B2 & B3 & B4 & B5 & B6 & B7).
      apply slice_bound_inside. lia. }
    assert (Hcsh : forall k : nat, (k < n)%nat ->
              hi (fst rois) k - lo (snd rois) k <= ax csh k).
    { intros k Hk. unfold csh. rewrite (ax_window_shape sh _ n k) by assumption.
      destruct (Hall k Hk) as (B1 & B2 & B3 & B4 & B5 & B6 & B7).
      rewrite (slice_bound_inside (ax sh k) (lo (snd rois) k)) by lia.
      unfold slice_bound. destruct (hi (snd rois) k <? 0) eqn:E; lia. }
    assert (Hoff_rel : forall k : nat, (k < n)%nat ->
              ax (window_off csh rel) k = lo (fst rois) k - lo (snd rois) k).
    { intros k Hk. rewrite (ax_window_off csh rel n k) by assumption.
      destruct (Hall k Hk) as (B1 & B2 & B3 & B4 & B5 & B6 & B7).
      destruct (Hrel k Hk) as (R1 & R2 & R3). specialize (Hcsh k Hk).
      rewrite R1. fold (lo (snd rois) k).
      apply slice_bound_inside. unfold Roi.get_begin. fold (lo (snd rois) k). lia. }
    assert (Hoff_ch : forall k : nat, (k < n)%nat ->
              ax (window_off sh (fst rois)) k = lo (fst rois) k).
    { intros k Hk. rewrite (ax_window_off sh _ n k) by assumption.
      destruct (Hall k Hk) as (B1 & B2 & B3 & B4 & B5 & B6 & B7).
      apply slice_bound_inside. lia. }
    refine (conj Hdch (conj Hdcx (conj Hdrel (conj _ (conj _ (conj _ (conj _ _))))))).
    + intros k Hk. destruct (Hall k Hk) as (B1 & B2 & B3 & B4 & B5 & B6 & B7). lia.
    + intros k Hk. destruct (Hall k Hk) as (B1 & B2 & B3 & B4 & B5 & B6 & B7). lia.
    + apply coord_eq_ax.
      * rewrite (length_window_shape csh rel n), (length_window_shape sh _ n); auto.
      * intros k Hk. rewrite (length_window_shape csh rel n) in Hk by assumption.
        rewrite (ax_window_shape csh rel n k), (ax_window_shape sh _ n k) by assumption.
        destruct (Hall k Hk) as (B1 & B2 & B3 & B4 & B5 & B6 & B7).
        destruct (Hrel k Hk) as (R1 & R2 & R3). specialize (Hcsh k Hk).
        unfold Roi.get_begin in R1, R2. fold (lo (snd rois) k) in R1, R2.
        rewrite !slice_bound_inside by lia. lia.
    + apply coord_eq_ax.
      * rewrite (length_window_shape sh _ n) by assumption. now destruct Hdch.
      * intros k Hk. rewrite (length_window_shape sh _ n) in Hk by assumption.
        rewrite (ax_window_shape sh _ n k) by assumption.
        destruct (Hall k Hk) as (B1 & B2 & B3 & B4 & B5 & B6 & B7).
        rewrite !slice_bound_inside by lia. lia.
    + intros q Hq. pose proof (in_shape_length _ _ Hq) as Hlq.
      rewrite (length_window_shape sh _ n) in Hlq by assumption.
      assert (L1 : length (window_off sh (snd rois)) = n) by (now apply length_window_off).
      assert (L2 : length (window_off csh rel) = n) by (now apply length_window_off).
      assert (L3 : length (window_off sh (fst rois)) = n) by (now apply length_window_off).
      apply coord_eq_ax.
      * unfold cadd. rewrite !length_zip_with. lia.
      * intros k Hk. unfold cadd in Hk |- *. rewrite !length_zip_with in Hk.
        rewrite !ax_zip_with by (rewrite ?length_zip_with; lia).
        rewrite Hoff_ctx, Hoff_rel, Hoff_ch by lia. lia.
Qed.
Lemma existsb_eqb_elem (x : Z) (l : list Z) : existsb (Z.eqb x) l = true <-> x ∈ l.
Proof.
  induction l as [|y l IH]; simpl.
  - split; [discriminate | intros H; now apply elem_of_nil in H].
  - rewrite orb_true_iff, IH, elem_of_cons, Z.eqb_eq. tauto.
Qed.

(** The sum that the scoring methods compute over a window, as the squared
    error over the labelled voxels of the region. *)
Lemma labeled_window_sum (seg target d : ndarray) (r : Roi.t) (sh : coord) (n : nat)
    (C : Z) (labels : list Z) :
  ashape seg = sh -> length sh = n -> roi_dim n r ->
  (forall k : nat, (k < n)%nat -> 0 <= ax sh k /\ 0 <= lo r k /\ 0 <= ax (Roi.shape r) k) ->
  zsum ((fun i =>
           if existsb (Z.eqb (adata seg (cadd (window_off sh r) (tail i)))) labels
           then (adata target (hd 0 i :: cadd (window_off sh r) (tail i)) - adata d i) ^ 2
           else 0) <$> indices (C :: window_shape sh r))
  = squared_error target d (Roi.get_begin r) C (voxels_labeled seg r labels).
Proof.
  intros Hsh Hn Hr Hb.
  assert (Hwo : length (window_off sh r) = n) by (now apply length_window_off).
  unfold squared_error. simpl indices.
  rewrite fmap_bind_list, !zsum_bind. apply zsum_map_ext. intros c Hc.
  transitivity (zsum ((fun p => if decide (adata seg p ∈ labels)
                        then (adata target (c :: p) - adata d (c :: csub p (window_off sh r))) ^ 2
                        else 0) <$> (cadd (window_off sh r) <$> indices (window_shape sh r)))).
  { rewrite <- !list_fmap_compose. apply zsum_map_ext. intros q Hq.
    apply elem_of_indices in Hq. pose proof (in_shape_length _ _ Hq) as Hlq.
    rewrite (length_window_shape sh r n) in Hlq by assumption.
    unfold compose. cbn [hd tail]. rewrite csub_cadd by lia.
    destruct (decide _) as [E|E].
    - apply existsb_eqb_elem in E. now rewrite E.
    - destruct (existsb _ _) eqn:E'; [|reflexivity].
      apply existsb_eqb_elem in E'. contradiction. }
  rewrite (indices_window sh); [ | lia | rewrite (length_window_shape sh r n); auto
                               | rewrite Hn; apply window_bounds; assumption ].
  rewrite (zsum_filter (fun p => adata seg p ∈ labels)).
  rewrite list_filter_filter.
  unfold voxels_labeled. rewrite Hsh.
  rewrite (filter_ext_elem _ (fun p => Roi.containsb r p = true /\ adata seg p ∈ labels)).
  2:{ intros p Hp. apply elem_of_indices in Hp.
      rewrite (in_window_roi sh r n p) by assumption. tauto. }
  apply zsum_map_ext. intros p Hp. apply list_elem_of_filter in Hp.
  destruct Hp as [[Hc1 _] Hp]. apply elem_of_indices in Hp.
  rewrite (window_off_begin sh r n p); try assumption; [reflexivity|].
  intros k Hk. apply Hb. exact Hk.
Qed.

Lemma squared_error_ext (target d1 d2 : ndarray) (o1 o2 : coord) (C : Z)
    (voxels : list coord) :
  (forall c p, p ∈ voxels -> adata d1 (c :: csub p o1) = adata d2 (c :: csub p o2)) ->
  squared_error target d1 o1 C voxels = squared_error target d2 o2 C voxels.
Proof.
  intros H. unfold squared_error. rewrite !zsum_bind.
  apply zsum_map_ext. intros c _. apply zsum_map_ext. intros p Hp.
  now rewrite (H c p Hp).
Qed.

Lemma get_lsds_edge_rois_done (u v : Z) (roi_u roi_v : Roi.t) (c : coord) (s : state) :
  node_roi (rag s) !! u = Some roi_u -> node_roi (rag s) !! v = Some roi_v ->
  voxel_context (context s) (voxel_size s) = Some c ->
  get_lsds_edge_rois u v s
  = Done (lsds_edge_rois roi_u roi_v (total_roi_of (segmentation s)) c) s.
Proof.
  intros Hu Hv Hc. unfold get_lsds_edge_rois.
  erewrite call_done.
  2:{ eapply bind_intro; [apply node_get_done; exact Hu|].
      eapply bind_intro; [apply node_get_done; exact Hv|].
      eapply bind_intro; [reflexivity|].
      eapply bind_intro; [cbn [context voxel_size set_locals]; rewrite Hc; reflexivity|].
      reflexivity. }
  f_equal. now destruct s.
Qed.

Lemma masked_not_isin (a : ndarray) (l : list Z) (i : coord) (x : Z) :
  masked (np_logical_not (np_isin a l)) i x
  = if existsb (Z.eqb (adata a i)) l then None else Some x.
Proof.
  unfold masked, np_logical_not, np_isin. cbn [adata].
  now destruct (existsb _ _).
Qed.

Lemma ashape_view_val (s : state) (v : view) : ashape (view_val s v) = vshape v.
Proof. reflexivity. Qed.

Lemma ashape_slice_of (a : ndarray) (off shp : coord) : ashape (slice_of a off shp) = shp.
Proof. reflexivity. Qed.

(** Reading a temporary through a reference to the whole of it. *)
Lemma read_local_whole (k : nat) (shp : coord) (s : state) (a : ndarray) (i : coord) :
  locals s !! k = Some a -> in_shape shp i = true ->
  adata (view_val s (mkView (Local k) (zeros (length shp)) shp)) i = adata a i.
Proof.
  intros Hk Hi. pose proof (in_shape_length _ _ Hi) as Hl.
  unfold view_val, slice_of. cbn [read_obj base voff vshape adata]. rewrite Hk.
  cbn [default]. now rewrite cadd_zeros_l.
Qed.

(** ** The score of an edge *)

(** C2: for nodes [u] and [v] with stored regions, [compute_edge_score u v]
    returns the merged score minus the separate score and leaves the state
    as it was.  Both scores are sums, over the channels and over the voxels
    of the change region that are labelled [u] or [v] in the live
    segmentation, of the squared difference to the target descriptors: the
    separate score takes the live descriptors, the merged score takes the
    descriptors [d] that the extractor gives for label [v] on the context
    slice of the segmentation with [u] relabelled to [v] (they are indexed
    relative to the begin of the change region). *)
Theorem compute_edge_score_spec (u v : Z) (s : state) (roi_u roi_v : Roi.t)
    (sh c : coord) (C : Z) (d : ndarray) (n : nat) :
  node_roi (rag s) !! u = Some roi_u -> node_roi (rag s) !! v = Some roi_v ->
  Roi.proper n roi_u -> Roi.proper n roi_v ->
  (forall k : nat, (k < n)%nat -> 0 <= lo roi_u k /\ 0 <= lo roi_v k) ->
  ashape (segmentation s) = sh -> length sh = n ->
  (forall k : nat, (k < n)%nat -> 0 <= ax sh k) ->
  voxel_context (context s) (voxel_size s) = Some c -> length c = n ->
  (forall k : nat, (k < n)%nat -> 0 <= ax c k) ->
  0 <= C -> ashape (target_lsds s) = C :: sh -> ashape (lsds s) = C :: sh ->
  let rois := lsds_edge_rois roi_u roi_v (total_roi_of (segmentation s)) c in
  let rel := Roi.sub (fst rois) (Roi.get_begin (snd rois)) in
  extractor_respects (lsd_extractor s) ->
  get_descriptors (lsd_extractor s)
    (relabel (roi_slice (segmentation s) (snd rois)) u v) (Some rel) [v] (voxel_size s)
  = Some d ->
  ashape d = C :: Roi.shape rel ->
  let voxels := voxels_labeled (segmentation s) (fst rois) [u; v] in
  compute_edge_score u v s
  = Done (squared_error (target_lsds s) d (Roi.get_begin (fst rois)) C voxels
          - squared_error (target_lsds s) (lsds s) (zeros n) C voxels) s.
Proof.
  intros Hu Hv Hpu Hpv Hlo Hsh Hn Hsh0 Hc Hcl Hc0 HC Ht Hl rois rel Hresp Hd Hds voxels.
  unfold total_roi_of in rois. 
  pose proof (edge_windows n roi_u roi_v sh c Hpu Hpv Hlo Hn Hsh0 Hcl Hc0) as W.
  cbv zeta in W. 
  assert (Hrois : rois = lsds_edge_rois roi_u roi_v (Roi.mk (zeros n) sh) c).
  { unfold rois. now rewrite Hsh, Hn. }
  rewrite <- Hrois in W. fold rel in W.
  destruct W as (Hdch & Hdcx & Hdrel & Hch & Hcx & W1 & W2 & W3).
  unfold compute_edge_score.
  assert (Hlcsh : length (window_shape sh (snd rois)) = n) by (now apply length_window_shape).
  (* the copy of the context slice, before and after the relabelling *)
  set (copy := slice_of (segmentation s) (window_off sh (snd rois)) (window_shape sh (snd rois))).
  unfold call at 1.
  erewrite bind_done.
  2:{ rewrite (get_lsds_edge_rois_done u v roi_u roi_v c) by assumption.
      unfold total_roi_of. cbn [segmentation set_locals]. fold rois. reflexivity. }
  erewrite bind_done; [|apply whole_done; simpl; exact Hsh]. rewrite Hn.
  erewrite bind_done; [|apply getitem_roi; assumption].
  erewrite bind_done; [|reflexivity].
  rewrite !ashape_view_val. cbn [vshape]. fold rel. rewrite Hlcsh.
  erewrite bind_done; [|apply getitem_roi; assumption].
  rewrite W1.
  erewrite bind_done; [|reflexivity].
  erewrite bind_done; [|apply whole_done; simpl; exact Hl]. simpl length. rewrite Hn.
  erewrite bind_done; [|apply getitem_roi_channels; assumption].
  erewrite bind_done; [|apply whole_done; simpl; exact Ht]. simpl length. rewrite Hn.
  erewrite bind_done; [|apply getitem_roi_channels; assumption].
  erewrite bind_done; [|reflexivity].
  erewrite bind_done; [|reflexivity].
  erewrite bind_done.
  2:{ eapply bind_intro.
      { unfold np_sub. rewrite !ashape_view_val. cbn [vshape].
        rewrite broadcast_same. reflexivity. }
      reflexivity. }
  erewrite bind_done; [|eapply setitem_cols_scalar_done; reflexivity].
  erewrite bind_done; [|reflexivity].
  erewrite bind_done; [|reflexivity].
  erewrite bind_done; [|apply setitem_mask_done; reflexivity].
  erewrite bind_done; [|reflexivity].
  match goal with
  | |- context [bind (extract ?a _ _) _ ?S] =>
      assert (Heq : arr_equiv (relabel (roi_slice (segmentation s) (snd rois)) u v) a)
  end.
  { split.
    - cbn [relabel ashape]. unfold roi_slice. rewrite ashape_slice_of, Hsh. reflexivity.
    - cbn [relabel ashape]. unfold roi_slice. rewrite ashape_slice_of, Hsh.
      intros i Hi. rewrite <- Hlcsh.
      rewrite read_written_local with (a := copy); [|reflexivity|exact Hi].
      rewrite masked_eq_scalar.
      rewrite read_local_whole with (a := copy); [|reflexivity|exact Hi].
      fold copy. unfold relabel. cbn [adata].
      now destruct (adata copy i =? u). }
  pose proof (Hresp _ _ (Some rel) [v] (voxel_size s) Heq) as Hr.
  rewrite Hd in Hr.
  match type of Hr with
  | match ?g with _ => _ end => destruct g as [d'|] eqn:Hd'; [|contradiction]
  end.
  destruct Hr as [Hshape Hdata]. rewrite Hds in Hshape, Hdata.
  assert (Hds' : ashape d' = C :: window_shape sh (fst rois)).
  { rewrite <- Hshape, W2. reflexivity. }
  erewrite bind_done; [|apply extract_done; exact Hd'].
  erewrite bind_done; [|apply getitem_roi_channels; assumption].
  erewrite bind_done; [|reflexivity].
  erewrite bind_done.
  2:{ eapply bind_intro.
      { unfold np_sub. rewrite !ashape_view_val. cbn [vshape].
        rewrite Hds', broadcast_same. reflexivity. }
      reflexivity. }
  erewrite bind_done; [|eapply setitem_cols_scalar_done; reflexivity].
  erewrite bind_done; [|reflexivity].
  erewrite bind_done.
  2:{ cbn [vshape]. rewrite Hds'. destruct (decide _) as [_|E]; [reflexivity|now destruct E]. }
  unfold ret. f_equal; [|now destruct s].
  assert (Hb : forall k : nat, (k < n)%nat ->
             0 <= ax sh k /\ 0 <= lo (fst rois) k /\ 0 <= ax (Roi.shape (fst rois)) k).
  { intros k Hk. specialize (Hch k Hk). specialize (Hsh0 k Hk). lia. }
  subst voxels. f_equal.
  - rewrite <- (labeled_window_sum (segmentation s) (target_lsds s) d (fst rois) sh n C [u; v])
      by assumption.
    unfold np_sum, np_square. cbn [ashape adata vshape].
    apply zsum_map_ext. intros i Hi. apply elem_of_indices in Hi.
    destruct i as [|ch q]; [discriminate|].
    assert (Hq : in_shape (window_shape sh (fst rois)) q = true).
    { rewrite in_shape_cons in Hi. apply andb_true_iff in Hi. now destruct Hi. }
    erewrite (read_written_local 2 (C :: window_shape sh (fst rois))); [|reflexivity|exact Hi].
    rewrite masked_not_isin. cbn [adata hd tail].
    rewrite bidx_in_shape by exact Hi.
    repeat match goal with
    | |- context [adata (view_val ?S (mkView TargetLsds ?o ?shp)) ?j] =>
        change (adata (view_val S (mkView TargetLsds o shp)) j)
          with (adata (target_lsds s) (cadd o j))
    | |- context [adata (view_val ?S (mkView Lsds ?o ?shp)) ?j] =>
        change (adata (view_val S (mkView Lsds o shp)) j)
          with (adata (lsds s) (cadd o j))
    | |- context [adata (view_val ?S (mkView (Local 0) ?o ?shp)) ?j] =>
        change (adata (view_val S (mkView (Local 0) o shp)) j)
          with (adata (segmentation s)
                  (cadd (window_off sh (snd rois)) (cadd o j)))
    end.
    rewrite W3 by exact Hq.
    change (cadd (0 :: window_off sh (fst rois)) (ch :: q))
      with ((0 + ch) :: cadd (window_off sh (fst rois)) q).
    rewrite Z.add_0_l.
    rewrite <- (Hdata (ch :: q)) by (change (Roi.shape rel) with (Roi.shape (fst rois)); rewrite <- W2; exact Hi).
    destruct (existsb _ _); cbn [default]; unfold id; lia.
  - rewrite (squared_error_ext (target_lsds s) (lsds s)
               (slice_of (lsds s) (0 :: window_off sh (fst rois)) (C :: window_shape sh (fst rois)))
               (zeros n) (Roi.get_begin (fst rois)) C).
    2:{ intros ch p Hp. unfold voxels_labeled in Hp. apply list_elem_of_filter in Hp.
        destruct Hp as [[Hin _] Hp]. rewrite Hsh in Hp. apply elem_of_indices in Hp.
        pose proof (in_shape_length _ _ Hp) as Hlp.
        assert (Hwo : window_off sh (fst rois) = Roi.get_begin (fst rois)).
        { apply (window_off_begin sh (fst rois) n p); try assumption.
          intros k Hk. apply Hch. exact Hk. }
        unfold slice_of. cbn [adata]. rewrite Hwo.
        change (cadd (0 :: Roi.get_begin (fst rois)) (ch :: csub p (Roi.get_begin (fst rois))))
          with ((0 + ch) :: cadd (Roi.get_begin (fst rois)) (csub p (Roi.get_begin (fst rois)))).
        rewrite cadd_csub by (destruct Hdch as [Ho _]; unfold Roi.get_begin; lia).
        rewrite csub_zeros_r by lia. reflexivity. }
    rewrite <- (labeled_window_sum (segmentation s) (target_lsds s)
                  (slice_of (lsds s) (0 :: window_off sh (fst rois)) (C :: window_shape sh (fst rois)))
                  (fst rois) sh n C [u; v])
      by assumption.
    unfold np_sum, np_square. cbn [ashape adata vshape].
    apply zsum_map_ext. intros i Hi. apply elem_of_indices in Hi.
    destruct i as [|ch q]; [discriminate|].
    assert (Hq : in_shape (window_shape sh (fst rois)) q = true).
    { rewrite in_shape_cons in Hi. apply andb_true_iff in Hi. now destruct Hi. }
    erewrite (read_written_local 1 (C :: window_shape sh (fst rois))); [|reflexivity|exact Hi].
    rewrite masked_not_isin. cbn [adata hd tail].
    rewrite bidx_in_shape by exact Hi.
    repeat match goal with
    | |- context [adata (view_val ?S (mkView TargetLsds ?o ?shp)) ?j] =>
        change (adata (view_val S (mkView TargetLsds o shp)) j)
          with (adata (target_lsds s) (cadd o j))
    | |- context [adata (view_val ?S (mkView Lsds ?o ?shp)) ?j] =>
        change (adata (view_val S (mkView Lsds o shp)) j)
          with (adata (lsds s) (cadd o j))
    | |- context [adata (view_val ?S (mkView (Local 0) ?o ?shp)) ?j] =>
        change (adata (view_val S (mkView (Local 0) o shp)) j)
          with (adata (segmentation s)
                  (cadd (window_off sh (snd rois)) (cadd o j)))
    end.
    rewrite W3 by exact Hq.
    change (cadd (0 :: window_off sh (fst rois)) (ch :: q))
      with ((0 + ch) :: cadd (window_off sh (fst rois)) q).
    rewrite Z.add_0_l.
    unfold slice_of. cbn [adata].
    change (cadd (0 :: window_off sh (fst rois)) (ch :: q))
      with ((0 + ch) :: cadd (window_off sh (fst rois)) q).
    rewrite Z.add_0_l.
    destruct (existsb _ _); cbn [default]; unfold id; lia.
Qed.

(** The example extractor reads the array it is given inside its shape only. *)
Lemma indicator_extractor_respects : extractor_respects indicator_extractor.
Proof.
  intros a b roi labels vs [Hs Hd]. cbn [get_descriptors indicator_extractor].
  rewrite <- Hs. split; [reflexivity|].
  intros i _. cbn [adata]. 
  destruct (in_shape (ashape a) _) eqn:E; [|reflexivity].
  rewrite (Hd _ E). reflexivity.
Qed.

Lemma compute_edge_score_spec_witness :
  let rois := lsds_edge_rois (Roi.mk [0; 0] [2; 2]) (Roi.mk [0; 2] [2; 2])
                (total_roi_of two_fragments) [1; 1] in
  let rel := Roi.sub (fst rois) (Roi.get_begin (snd rois)) in
  let d := descriptors_of indicator_extractor
             (relabel (roi_slice two_fragments (snd rois)) 1 2) (Some rel) [2] [1; 1] in
  let voxels := voxels_labeled two_fragments (fst rois) [1; 2] in
  compute_edge_score 1 2 two_fragments_state
  = Done (squared_error constant_target d (Roi.get_begin (fst rois)) 2 voxels
          - squared_error constant_target (lsds two_fragments_state) [0; 0] 2 voxels)
         two_fragments_state.
Proof.
  intros rois rel d voxels.
  apply (compute_edge_score_spec 1 2 two_fragments_state (Roi.mk [0; 0] [2; 2])
           (Roi.mk [0; 2] [2; 2]) [2; 4] [1; 1] 2 d 2).
  - vm_compute. reflexivity.
  - vm_compute. reflexivity.
  - repeat split; intros [|[|k]] Hk; vm_compute; try discriminate; try reflexivity; lia.
  - repeat split; intros [|[|k]] Hk; vm_compute; try discriminate; try reflexivity; lia.
  - intros [|[|k]] Hk; vm_compute; repeat split; try discriminate; lia.
  - reflexivity.
  - reflexivity.
  - intros [|[|k]] Hk; vm_compute; try discriminate; lia.
  - reflexivity.
  - reflexivity.
  - intros [|[|k]] Hk; vm_compute; try discriminate; lia.
  - lia.
  - reflexivity.
  - reflexivity.
  - exact indicator_extractor_respects.
  - reflexivity.
  - reflexivity.
Defined.

(** ** Merging two nodes *)

Lemma merge_segmentation_done (u v : Z) (s : state) (roi_u : Roi.t) (sh : coord) (n : nat) :
  node_roi (rag s) !! u = Some roi_u ->
  ashape (segmentation s) = sh -> length sh = n -> roi_dim n roi_u ->
  merge_segmentation u v s
  = Done tt (write_view (mkView Segmentation (window_off sh roi_u) (window_shape sh roi_u))
               (fun i => masked (eq_scalar (slice_of (segmentation s) (window_off sh roi_u)
                                                (window_shape sh roi_u)) u) i v) s).
Proof.
  intros Hu Hsh Hn Hr. unfold merge_segmentation, call.
  erewrite bind_done; [|apply node_get_done; exact Hu].
  erewrite bind_done; [|apply whole_done; simpl; exact Hsh]. rewrite Hn.
  erewrite bind_done; [|apply getitem_roi; assumption].
  erewrite bind_done; [|reflexivity].
  rewrite setitem_mask_done by reflexivity.
  destruct s; reflexivity.
Qed.

(** The segmentation after [merge_segmentation]: [u] becomes [v] inside
    the region of [u], nothing else changes. *)
Lemma merge_segmentation_spec (u v : Z) (s : state) (roi_u : Roi.t) (sh : coord) (n : nat) :
  node_roi (rag s) !! u = Some roi_u ->
  ashape (segmentation s) = sh -> length sh = n -> roi_dim n roi_u ->
  (forall k : nat, (k < n)%nat ->
     0 <= ax sh k /\ 0 <= lo roi_u k /\ 0 <= ax (Roi.shape roi_u) k) ->
  let s1 := final_state (merge_segmentation u v s) in
  s1 = set_segmentation (segmentation s1) s /\
  ashape (segmentation s1) = sh /\
  forall p, in_shape sh p = true ->
    adata (segmentation s1) p
    = if Roi.containsb roi_u p && (adata (segmentation s) p =? u)
      then v else adata (segmentation s) p.
Proof.
  intros Hu Hsh Hn Hr Hb s1. unfold s1.
  rewrite (merge_segmentation_done u v s roi_u sh n) by assumption.
  cbn [final_state]. split; [now destruct s|]. split; [exact Hsh|].
  intros p Hp. pose proof (in_shape_length _ _ Hp) as Hlp.
  cbn [segmentation write_view write_obj base read_obj set_segmentation voff vshape adata].
  rewrite masked_eq_scalar.
  destruct (Roi.containsb roi_u p) eqn:Ec.
  - rewrite (proj2 (in_window_roi sh roi_u n p Hn Hr Hb Hp) Ec).
    unfold slice_of. cbn [adata].
    rewrite cadd_csub by (rewrite (length_window_off sh roi_u n); [lia|assumption|assumption]).
    cbn [andb]. now destruct (adata (segmentation s) p =? u).
  - destruct (in_window _ _ p) eqn:Ew; [|reflexivity].
    apply (in_window_roi sh roi_u n p Hn Hr Hb Hp) in Ew. congruence.
Qed.

(** Slicing a view by the slices of a region. *)
Lemma getitem_roi_view (o : obj) (off sh : coord) (r : Roi.t) (n : nat) (s : state) :
  length sh = n -> roi_dim n r ->
  getitem (mkView o off sh) (Roi.to_slices r) s
  = Done (mkView o (cadd off (window_off sh r)) (window_shape sh r)) s.
Proof.
  intros Hsh Hr. unfold getitem. cbn [vshape voff base].
  rewrite (length_to_slices r n Hr), Hsh, Nat.ltb_irrefl, Nat.sub_diag.
  cbn [replicate]. rewrite app_nil_r. reflexivity.
Qed.

Lemma cadd_assoc (a b q : coord) : cadd (cadd a b) q = cadd a (cadd b q).
Proof.
  unfold cadd. revert b q.
  induction a as [|x a IH]; intros [|y b] [|z q]; try reflexivity.
  cbn [zip_with]. now rewrite IH, Z.add_assoc.
Qed.

Lemma set_node_roi_done (u : Z) (r : Roi.t) (s : state) :
  u ∈ nodes (rag s) ->
  set_node_roi u r s
  = Done tt (set_rag (mkRAG (nodes (rag s)) (edges (rag s)) (<[u := r]> (node_roi (rag s)))
                            (node_score (rag s)) (node_labels (rag s)) (edge_weight (rag s))) s).
Proof. intros H. unfold set_node_roi. now rewrite bool_decide_eq_true_2. Qed.

Lemma set_node_score_done (u x : Z) (s : state) :
  u ∈ nodes (rag s) ->
  set_node_score u x s
  = Done tt (set_rag (mkRAG (nodes (rag s)) (edges (rag s)) (node_roi (rag s))
                            (<[u := x]> (node_score (rag s))) (node_labels (rag s))
                            (edge_weight (rag s))) s).
Proof. intros H. unfold set_node_score. now rewrite bool_decide_eq_true_2. Qed.

Lemma edge_get_weight_done (u v w : Z) (s : state) :
  edge_weight (rag s) !! ekey u v = Some w -> edge_get_weight u v s = Done w s.
Proof. intros H. unfold edge_get_weight. now rewrite H. Qed.

Lemma merge_nodes_done (u v su sv w : Z) (s : state) (roi_u roi_v : Roi.t)
    (sh c : coord) (C : Z) (d : ndarray) (n : nat) :
  node_roi (rag s) !! u = Some roi_u -> node_roi (rag s) !! v = Some roi_v ->
  Roi.proper n roi_u -> Roi.proper n roi_v ->
  (forall k : nat, (k < n)%nat -> 0 <= lo roi_u k /\ 0 <= lo roi_v k) ->
  ashape (segmentation s) = sh -> length sh = n ->
  (forall k : nat, (k < n)%nat -> 0 <= ax sh k) ->
  voxel_context (context s) (voxel_size s) = Some c -> length c = n ->
  (forall k : nat, (k < n)%nat -> 0 <= ax c k) ->
  0 <= C -> ashape (lsds s) = C :: sh ->
  v ∈ nodes (rag s) ->
  node_score (rag s) !! u = Some su -> node_score (rag s) !! v = Some sv ->
  edge_weight (rag s) !! ekey u v = Some w ->
  let rois := lsds_edge_rois roi_u roi_v (total_roi_of (segmentation s)) c in
  let rel := Roi.sub (fst rois) (Roi.get_begin (snd rois)) in
  let seg1 := segmentation (final_state (merge_segmentation u v s)) in
  get_descriptors (lsd_extractor s) (roi_slice seg1 (snd rois)) (Some rel) [v] (voxel_size s)
  = Some d ->
  ashape d = C :: Roi.shape rel ->
  exists s',
    merge_nodes u v s = Done tt s' /\
    segmentation s' = seg1 /\
    ashape (lsds s') = C :: sh /\
    (forall ch p, in_shape (C :: sh) (ch :: p) = true ->
       adata (lsds s') (ch :: p)
       = if Roi.containsb (fst rois) p && (adata seg1 p =? v)
         then adata d (ch :: csub p (Roi.get_begin (fst rois)))
         else adata (lsds s) (ch :: p)) /\
    rag s' = mkRAG (nodes (rag s)) (edges (rag s))
               (<[v := Roi.union roi_u roi_v]> (node_roi (rag s)))
               (<[v := sv + su + w]> (node_score (rag s)))
               (node_labels (rag s)) (edge_weight (rag s)) /\
    s' = set_rag (rag s') (set_lsds (lsds s') (set_segmentation (segmentation s') s)).
Proof.
  intros Hu Hv Hpu Hpv Hlo Hsh Hn Hsh0 Hc Hcl Hc0 HC Hl Hvn Hsu Hsv Hw rois rel seg1 Hd Hds.
  unfold total_roi_of in rois.
  pose proof (edge_windows n roi_u roi_v sh c Hpu Hpv Hlo Hn Hsh0 Hcl Hc0) as W.
  cbv zeta in W.
  assert (Hrois : rois = lsds_edge_rois roi_u roi_v (Roi.mk (zeros n) sh) c).
  { unfold rois. now rewrite Hsh, Hn. }
  rewrite <- Hrois in W. fold rel in W.
  destruct W as (Hdch & Hdcx & Hdrel & Hch & Hcx & W1 & W2 & W3).
  assert (Hlcsh : length (window_shape sh (snd rois)) = n) by (now apply length_window_shape).
  pose proof (proper_dim _ _ Hpu) as Hdu.
  subst seg1.
  rewrite (merge_segmentation_done u v s roi_u sh n) in * by assumption.
  cbn [final_state] in *.
  unfold roi_slice in Hd.
  change (ashape (segmentation (write_view ?V ?f s))) with (ashape (segmentation s)) in Hd.
  eexists. split.
  { unfold merge_nodes. unfold call at 1.
    erewrite bind_done; [|apply (merge_segmentation_done u v _ roi_u sh n); assumption].
    match goal with |- context [bind (get_lsds_edge_rois u v) _ ?S] => set (S1 := S) end.
    rewrite (bind_done (get_lsds_edge_rois u v) _ S1 S1 rois).
    2:{ rewrite (get_lsds_edge_rois_done u v roi_u roi_v c) by assumption. reflexivity. }
    erewrite bind_done; [|apply whole_done; simpl; exact Hsh]. rewrite Hn.
    erewrite bind_done; [|apply getitem_roi; assumption].
    erewrite bind_done; [|reflexivity].
    erewrite bind_done; [|apply extract_done; rewrite Hsh in Hd; exact Hd].
    cbn [vshape]. fold rel.
    erewrite bind_done.
    2:{ apply (getitem_roi_view _ _ _ _ n); assumption. }
    rewrite W1.
    erewrite bind_done; [|reflexivity].
    erewrite bind_done; [|apply whole_done; simpl; exact Hl]. simpl length. rewrite Hn.
    erewrite bind_done; [|apply getitem_roi_channels; assumption].
    erewrite bind_done.
    2:{ apply (setitem_cols_done _ _ _ C); [|reflexivity].
        rewrite Hds. unfold eq_scalar, view_val, slice_of. cbn [ashape vshape].
        rewrite W2. reflexivity. }
    erewrite bind_done; [|apply node_get_done; exact Hu].
    erewrite bind_done; [|apply node_get_done; exact Hv].
    erewrite bind_done; [|apply set_node_roi_done; exact Hvn].
    erewrite bind_done; [|apply node_get_done; exact Hsv].
    erewrite bind_done; [|apply node_get_done; exact Hsu].
    erewrite bind_done; [|apply edge_get_weight_done; exact Hw].
    rewrite set_node_score_done by exact Hvn.
    reflexivity. }
  split; [reflexivity|]. split; [exact Hl|].
  split; [|split; [reflexivity|now destruct s]].
  intros ch p Hcp.
  rewrite in_shape_cons in Hcp. apply andb_true_iff in Hcp. destruct Hcp as [Hch0 Hp].
  apply andb_true_iff in Hch0.
  pose proof (in_shape_length _ _ Hp) as Hlp.
  assert (Hb : forall k : nat, (k < n)%nat ->
             0 <= ax sh k /\ 0 <= lo (fst rois) k /\ 0 <= ax (Roi.shape (fst rois)) k).
  { intros k Hk. specialize (Hch k Hk). specialize (Hsh0 k Hk). lia. }
  cbn [lsds set_locals set_rag write_view write_obj base read_obj set_lsds voff vshape adata].
  change (csub (ch :: p) (0 :: window_off sh (fst rois)))
    with ((ch - 0) :: csub p (window_off sh (fst rois))).
  cbn [hd tail]. rewrite masked_eq_scalar, in_window_cons, Z.sub_0_r.
  replace (0 <=? ch) with true by lia. replace (ch <? 0 + C) with true by lia.
  cbn [andb].
  match goal with
  | |- _ = (if _ && (adata ?A p =? v) then _ else _) => set (seg1 := A)
  end.
  repeat match goal with
  | |- context [lsds (set_segmentation ?A ?S)] =>
      change (lsds (set_segmentation A S)) with (lsds s)
  | |- context [adata (view_val ?S (mkView Segmentation ?o ?shp)) ?j] =>
      change (adata (view_val S (mkView Segmentation o shp)) j) with (adata seg1 (cadd o j))
  end.
  destruct (Roi.containsb (fst rois) p) eqn:Ec.
  - pose proof (proj2 (in_window_roi sh (fst rois) n p Hn Hdch Hb Hp) Ec) as Ew.
    rewrite Ew. unfold in_window in Ew. apply andb_true_iff in Ew. destruct Ew as [_ Ew].
    rewrite cadd_assoc, W3 by exact Ew.
    rewrite cadd_csub by (rewrite (length_window_off sh (fst rois) n); [lia|assumption|assumption]).
    rewrite (window_off_begin sh (fst rois) n p); try assumption.
    2:{ intros k Hk. apply Hch. exact Hk. }
    cbn [andb]. now destruct (adata seg1 p =? v).
  - destruct (in_window _ _ p) eqn:Ew; [|reflexivity].
    apply (in_window_roi sh (fst rois) n p Hn Hdch Hb Hp) in Ew. congruence.
Qed.

Lemma change_roi_contained (n : nat) (roi_u roi_v : Roi.t) (sh c : coord) :
  Roi.proper n roi_u -> Roi.proper n roi_v ->
  length sh = n -> (forall i : nat, (i < n)%nat -> 0 <= ax sh i) ->
  length c = n -> (forall i : nat, (i < n)%nat -> 0 <= ax c i) ->
  let rois := lsds_edge_rois roi_u roi_v (Roi.mk (zeros n) sh) c in
  forall p, Roi.containsb (fst rois) p = true -> Roi.containsb (snd rois) p = true.
Proof.
  intros Hu Hv Hsh Hsh0 Hc Hc0 rois p Hp.
  destruct (Roi.empty (fst rois)) eqn:E.
  - exfalso.
    destruct (change_roi_cases n roi_u roi_v sh c Hu Hv Hsh Hsh0 Hc Hc0) as [Hz|Hpr];
      fold rois in Hz || fold rois in Hpr.
    + rewrite Hz in Hp, E. destruct n as [|n]; [discriminate|].
      apply (containsb_spec _ p (S n)) in Hp; [|split; apply length_zeros].
      destruct Hp as [_ Hp]. specialize (Hp 0%nat ltac:(lia)).
      unfold lo, hi in Hp. cbn [Roi.offset Roi.shape] in Hp. rewrite !ax_zeros in Hp. lia.
    + rewrite (proper_nonempty _ _ Hpr) in E. discriminate.
  - destruct (edge_rois_nonempty n roi_u roi_v sh c Hu Hv Hsh Hsh0 Hc Hc0 E) as (Hd1 & Hd2 & Hax).
    fold rois in Hd1, Hd2, Hax.
    apply (containsb_spec _ p n Hd1) in Hp. apply (containsb_spec _ p n Hd2).
    destruct Hp as [Hl Hp]. split; [exact Hl|]. intros k Hk.
    specialize (Hp k Hk). specialize (Hax k Hk). specialize (Hc0 k Hk). lia.
Qed.

(** C3: a merge of [u] into [v] is local.  Under the conditions in which
    [merge_nodes u v] runs to its end (stored regions and scores, volumes
    of matching shape, an extractor that returns descriptors of the shape
    of the change region) it returns, and in the state it leaves the live
    descriptors differ from the ones before at no voxel outside the
    context region and at no voxel outside the change region, and the
    live segmentation differs at no voxel outside the region that [u] had
    before the merge. *)
Theorem merge_nodes_local (u v su sv w : Z) (s : state) (roi_u roi_v : Roi.t)
    (sh c : coord) (C : Z) (d : ndarray) (n : nat) :
  node_roi (rag s) !! u = Some roi_u -> node_roi (rag s) !! v = Some roi_v ->
  Roi.proper n roi_u -> Roi.proper n roi_v ->
  (forall k : nat, (k < n)%nat -> 0 <= lo roi_u k /\ 0 <= lo roi_v k) ->
  ashape (segmentation s) = sh -> length sh = n ->
  (forall k : nat, (k < n)%nat -> 0 <= ax sh k) ->
  voxel_context (context s) (voxel_size s) = Some c -> length c = n ->
  (forall k : nat, (k < n)%nat -> 0 <= ax c k) ->
  0 <= C -> ashape (lsds s) = C :: sh ->
  v ∈ nodes (rag s) ->
  node_score (rag s) !! u = Some su -> node_score (rag s) !! v = Some sv ->
  edge_weight (rag s) !! ekey u v = Some w ->
  let rois := lsds_edge_rois roi_u roi_v (total_roi_of (segmentation s)) c in
  let rel := Roi.sub (fst rois) (Roi.get_begin (snd rois)) in
  let seg1 := segmentation (final_state (merge_segmentation u v s)) in
  get_descriptors (lsd_extractor s) (roi_slice seg1 (snd rois)) (Some rel) [v] (voxel_size s)
  = Some d ->
  ashape d = C :: Roi.shape rel ->
  exists s',
    merge_nodes u v s = Done tt s' /\
    (forall ch p, in_shape (C :: sh) (ch :: p) = true ->
       Roi.containsb (snd rois) p = false ->
       adata (lsds s') (ch :: p) = adata (lsds s) (ch :: p)) /\
    (forall ch p, in_shape (C :: sh) (ch :: p) = true ->
       Roi.containsb (fst rois) p = false ->
       adata (lsds s') (ch :: p) = adata (lsds s) (ch :: p)) /\
    (forall p, in_shape sh p = true ->
       Roi.containsb roi_u p = false ->
       adata (segmentation s') p = adata (segmentation s) p).
Proof.
  intros Hu Hv Hpu Hpv Hlo Hsh Hn Hsh0 Hc Hcl Hc0 HC Hl Hvn Hsu Hsv Hw rois rel seg1 Hd Hds.
  destruct (merge_nodes_done u v su sv w s roi_u roi_v sh c C d n) as
    (s' & Hrun & Hseg & _ & Hlsds & _); try assumption.
  fold rois in Hlsds. fold seg1 in Hseg, Hlsds.
  assert (Hchange : forall ch p, in_shape (C :: sh) (ch :: p) = true ->
            Roi.containsb (fst rois) p = false ->
            adata (lsds s') (ch :: p) = adata (lsds s) (ch :: p)).
  { intros ch p Hp Hout. rewrite (Hlsds ch p Hp), Hout. reflexivity. }
  exists s'. split; [exact Hrun|]. split; [|split; [exact Hchange|]].
  - intros ch p Hp Hout. apply Hchange; [exact Hp|].
    destruct (Roi.containsb (fst rois) p) eqn:E; [|reflexivity].
    pose proof (change_roi_contained n roi_u roi_v sh c Hpu Hpv Hn Hsh0 Hcl Hc0) as Hin.
    cbv zeta in Hin. unfold rois, total_roi_of in E, Hout. rewrite Hsh, Hn in E, Hout.
    rewrite (Hin p E) in Hout. discriminate.
  - intros p Hp Hout. rewrite Hseg. unfold seg1.
    pose proof (proper_dim _ _ Hpu) as Hdu.
    destruct (merge_segmentation_spec u v s roi_u sh n Hu Hsh Hn Hdu) as (_ & _ & Hpt).
    { intros k Hk. specialize (Hlo k Hk). specialize (Hsh0 k Hk).
      destruct Hpu as (_ & _ & Hpos). specialize (Hpos k Hk). lia. }
    rewrite (Hpt p Hp), Hout. reflexivity.
Qed.

Lemma merge_nodes_local_witness :
  let rois := lsds_edge_rois (Roi.mk [0; 0] [2; 2]) (Roi.mk [0; 2] [2; 2])
                (total_roi_of two_fragments) [1; 1] in
  exists s',
    merge_nodes 1 2 two_fragments_state = Done tt s' /\
    (forall ch p, in_shape [2; 2; 4] (ch :: p) = true ->
       Roi.containsb (snd rois) p = false ->
       adata (lsds s') (ch :: p) = adata (lsds two_fragments_state) (ch :: p)) /\
    (forall ch p, in_shape [2; 2; 4] (ch :: p) = true ->
       Roi.containsb (fst rois) p = false ->
       adata (lsds s') (ch :: p) = adata (lsds two_fragments_state) (ch :: p)) /\
    (forall p, in_shape [2; 4] p = true ->
       Roi.containsb (Roi.mk [0; 0] [2; 2]) p = false ->
       adata (segmentation s') p = adata two_fragments p).
Proof.
  intros rois.
  pose (seg1 := segmentation (final_state (merge_segmentation 1 2 two_fragments_state))).
  pose (rel := Roi.sub (fst rois) (Roi.get_begin (snd rois))).
  apply (merge_nodes_local 1 2 4 4 0 two_fragments_state (Roi.mk [0; 0] [2; 2])
           (Roi.mk [0; 2] [2; 2]) [2; 4] [1; 1] 2
           (descriptors_of indicator_extractor (roi_slice seg1 (snd rois)) (Some rel)
              [2] [1; 1]) 2).
  - vm_compute. reflexivity.
  - vm_compute. reflexivity.
  - repeat split; intros [|[|k]] Hk; vm_compute; try discriminate; try reflexivity; lia.
  - repeat split; intros [|[|k]] Hk; vm_compute; try discriminate; try reflexivity; lia.
  - intros [|[|k]] Hk; vm_compute; repeat split; try discriminate; lia.
  - reflexivity.
  - reflexivity.
  - intros [|[|k]] Hk; vm_compute; try discriminate; lia.
  - reflexivity.
  - reflexivity.
  - intros [|[|k]] Hk; vm_compute; try discriminate; lia.
  - lia.
  - reflexivity.
  - vm_compute. repeat constructor.
  - vm_compute. reflexivity.
  - vm_compute. reflexivity.
  - vm_compute. reflexivity.
  - reflexivity.
  - reflexivity.
Defined.

(** ** A merge with an empty change region *)

Lemma empty_change_roi_contains_nothing (n : nat) (roi_u roi_v : Roi.t) (sh c : coord) :
  Roi.proper n roi_u -> Roi.proper n roi_v ->
  length sh = n -> (forall i : nat, (i < n)%nat -> 0 <= ax sh i) ->
  length c = n -> (forall i : nat, (i < n)%nat -> 0 <= ax c i) ->
  let rois := lsds_edge_rois roi_u roi_v (Roi.mk (zeros n) sh) c in
  Roi.empty (fst rois) = true ->
  forall p, Roi.containsb (fst rois) p = false.
Proof.
  intros Hu Hv Hsh Hsh0 Hc Hc0 rois E p.
  destruct (Roi.containsb (fst rois) p) eqn:Hp; [exfalso|reflexivity].
  destruct (change_roi_cases n roi_u roi_v sh c Hu Hv Hsh Hsh0 Hc Hc0) as [Hz|Hpr];
    fold rois in Hz || fold rois in Hpr.
  - rewrite Hz in Hp, E. destruct n as [|n]; [discriminate|].
    apply (containsb_spec _ p (S n)) in Hp; [|split; apply length_zeros].
    destruct Hp as [_ Hp]. specialize (Hp 0%nat ltac:(lia)).
    unfold lo, hi in Hp. cbn [Roi.offset Roi.shape] in Hp. rewrite !ax_zeros in Hp. lia.
  - rewrite (proper_nonempty _ _ Hpr) in E. discriminate.
Qed.

(** C7 (as the code behaves): there is no check of the regions.  When the
    change region of [u] and [v] is empty and the extractor returns
    descriptors for the empty request, [merge_nodes u v] does not raise:
    it returns, the live descriptors are what they were, and the region
    and the score of [v] are updated as in every merge. *)
Theorem merge_nodes_empty_change_roi (u v su sv w : Z) (s : state) (roi_u roi_v : Roi.t)
    (sh c : coord) (C : Z) (d : ndarray) (n : nat) :
  node_roi (rag s) !! u = Some roi_u -> node_roi (rag s) !! v = Some roi_v ->
  Roi.proper n roi_u -> Roi.proper n roi_v ->
  (forall k : nat, (k < n)%nat -> 0 <= lo roi_u k /\ 0 <= lo roi_v k) ->
  ashape (segmentation s) = sh -> length sh = n ->
  (forall k : nat, (k < n)%nat -> 0 <= ax sh k) ->
  voxel_context (context s) (voxel_size s) = Some c -> length c = n ->
  (forall k : nat, (k < n)%nat -> 0 <= ax c k) ->
  0 <= C -> ashape (lsds s) = C :: sh ->
  v ∈ nodes (rag s) ->
  node_score (rag s) !! u = Some su -> node_score (rag s) !! v = Some sv ->
  edge_weight (rag s) !! ekey u v = Some w ->
  let rois := lsds_edge_rois roi_u roi_v (total_roi_of (segmentation s)) c in
  let rel := Roi.sub (fst rois) (Roi.get_begin (snd rois)) in
  let seg1 := segmentation (final_state (merge_segmentation u v s)) in
  get_descriptors (lsd_extractor s) (roi_slice seg1 (snd rois)) (Some rel) [v] (voxel_size s)
  = Some d ->
  ashape d = C :: Roi.shape rel ->
  Roi.empty (fst rois) = true ->
  exists s',
    merge_nodes u v s = Done tt s' /\
    (forall ch p, in_shape (C :: sh) (ch :: p) = true ->
       adata (lsds s') (ch :: p) = adata (lsds s) (ch :: p)) /\
    node_roi (rag s') !! v = Some (Roi.union roi_u roi_v) /\
    node_score (rag s') !! v = Some (sv + su + w).
Proof.
  intros Hu Hv Hpu Hpv Hlo Hsh Hn Hsh0 Hc Hcl Hc0 HC Hl Hvn Hsu Hsv Hw rois rel seg1 Hd Hds E.
  destruct (merge_nodes_done u v su sv w s roi_u roi_v sh c C d n) as
    (s' & Hrun & _ & _ & Hlsds & Hrag & _); try assumption.
  fold rois in Hlsds.
  exists s'. split; [exact Hrun|]. split; [|rewrite Hrag; cbn [node_roi node_score];
                                             split; apply lookup_insert_eq].
  intros ch p Hp. rewrite (Hlsds ch p Hp).
  pose proof (empty_change_roi_contains_nothing n roi_u roi_v sh c Hpu Hpv Hn Hsh0 Hcl Hc0) as Hout.
  cbv zeta in Hout. unfold rois, total_roi_of in E |- *. rewrite Hsh, Hn in E |- *.
  rewrite (Hout E p). reflexivity.
Qed.

Lemma merge_nodes_empty_change_roi_witness :
  exists s',
    merge_nodes 1 2 zero_context_state = Done tt s' /\
    (forall ch p, in_shape [2; 2; 4] (ch :: p) = true ->
       adata (lsds s') (ch :: p) = adata (lsds zero_context_state) (ch :: p)) /\
    node_roi (rag s') !! 2 = Some (Roi.union (Roi.mk [0; 0] [2; 2]) (Roi.mk [0; 2] [2; 2])) /\
    node_score (rag s') !! 2 = Some (4 + 4 + 0).
Proof.
  pose (rois := lsds_edge_rois (Roi.mk [0; 0] [2; 2]) (Roi.mk [0; 2] [2; 2])
                  (total_roi_of two_fragments) [0; 0]).
  pose (seg1 := segmentation (final_state (merge_segmentation 1 2 zero_context_state))).
  pose (rel := Roi.sub (fst rois) (Roi.get_begin (snd rois))).
  apply (merge_nodes_empty_change_roi 1 2 4 4 0 zero_context_state (Roi.mk [0; 0] [2; 2])
           (Roi.mk [0; 2] [2; 2]) [2; 4] [0; 0] 2
           (descriptors_of zero_context_extractor (roi_slice seg1 (snd rois)) (Some rel)
              [2] [1; 1]) 2).
  - vm_compute. reflexivity.
  - vm_compute. reflexivity.
  - repeat split; intros [|[|k]] Hk; vm_compute; try discriminate; try reflexivity; lia.
  - repeat split; intros [|[|k]] Hk; vm_compute; try discriminate; try reflexivity; lia.
  - intros [|[|k]] Hk; vm_compute; repeat split; try discriminate; lia.
  - reflexivity.
  - reflexivity.
  - intros [|[|k]] Hk; vm_compute; try discriminate; lia.
  - reflexivity.
  - reflexivity.
  - intros [|[|k]] Hk; vm_compute; try discriminate; lia.
  - lia.
  - reflexivity.
  - vm_compute. repeat constructor.
  - vm_compute. reflexivity.
  - vm_compute. reflexivity.
  - vm_compute. reflexivity.
  - reflexivity.
  - reflexivity.
  - vm_compute. reflexivity.
Defined.

(** C7 (as stated) does not hold: with a context of zero the change and
    context regions of the two adjacent fragments are empty, the regions
    are returned as they are and the merge runs to its end. *)
Lemma empty_region_merge_completes :
  exists rois s',
    get_lsds_edge_rois 1 2 zero_context_state = Done rois zero_context_state /\
    Roi.empty (fst rois) = true /\ Roi.empty (snd rois) = true /\
    merge_nodes 1 2 zero_context_state = Done tt s'.
Proof.
  eexists. eexists. split; [vm_compute; reflexivity|].
  split; [vm_compute; reflexivity|]. split; [vm_compute; reflexivity|].
  vm_compute. reflexivity.
Qed.

(** ** The adjacency graph of a label image *)

Lemma has_edge_spec (g : RAG) (a b : Z) :
  has_edge g a b = true <-> (a, b) ∈ edges g \/ (b, a) ∈ edges g.
Proof. unfold has_edge. apply bool_decide_eq_true. Qed.

Lemma nodes_add_node (g : RAG) (u w : Z) :
  w ∈ nodes (add_node g u) <-> w ∈ nodes g \/ w = u.
Proof.
  unfold add_node. destruct (bool_decide (u ∈ nodes g)) eqn:E.
  - apply bool_decide_eq_true in E. split; [auto|]. intros [H| ->]; assumption.
  - cbn [nodes]. rewrite elem_of_app, list_elem_of_singleton. reflexivity.
Qed.

Lemma edges_add_node (g : RAG) (u : Z) : edges (add_node g u) = edges g.
Proof. unfold add_node. now destruct (bool_decide _). Qed.

Lemma nodes_add_edge (g : RAG) (u v w : Z) :
  w ∈ nodes (add_edge g u v) <-> w ∈ nodes g \/ w = u \/ w = v.
Proof.
  unfold add_edge. destruct (has_edge _ u v); cbn [nodes];
    rewrite !nodes_add_node; tauto.
Qed.

Lemma has_edge_add_edge (g : RAG) (u v a b : Z) :
  has_edge (add_edge g u v) a b = true
  <-> has_edge g a b = true \/ (a = u /\ b = v) \/ (a = v /\ b = u).
Proof.
  unfold add_edge. destruct (has_edge (add_node (add_node g u) v) u v) eqn:E.
  - rewrite !has_edge_spec, !edges_add_node in *.
    split; [tauto|]. intros [H|[[-> ->]|[-> ->]]]; tauto.
  - rewrite !has_edge_spec. cbn [edges]. rewrite !edges_add_node, !elem_of_app,
      !list_elem_of_singleton.
    split.
    + intros [[H|H]|[H|H]]; try tauto; injection H as -> ->; tauto.
    + intros [[H|H]|[[-> ->]|[-> ->]]]; tauto.
Qed.

Lemma linked_sym (L : list (Z * Z)) (a b : Z) : linked L a b -> linked L b a.
Proof. intros [H1 H2]. split; [congruence|tauto]. Qed.

Lemma graph_of_step (L : list (Z * Z)) (g : RAG) (c x : Z) :
  graph_of L g -> graph_of (L ++ [(c, x)]) (step g c x).
Proof.
  intros [He Hn].
  assert (Hl : forall a b, linked (L ++ [(c, x)]) a b
                           <-> linked L a b \/ (c <> x /\ ((a = c /\ b = x) \/ (a = x /\ b = c)))).
  { intros a b. unfold linked. rewrite !elem_of_app, !list_elem_of_singleton. split.
    - intros [Hab [[H|H]|[H|H]]]; try tauto; injection H as -> ->; right;
        (split; [congruence|tauto]).
    - intros [[Hab H]|[Hcx [[-> ->]|[-> ->]]]]; try tauto; split; auto. }
  unfold step. destruct (bool_decide (x ≠ c)) eqn:Ex; cbn [andb].
  - apply bool_decide_eq_true in Ex. destruct (has_edge g c x) eqn:Eh; cbn [negb].
    + apply He in Eh. split.
      * intros a b. rewrite He, Hl. split; [tauto|].
        intros [H|[_ [[-> ->]|[-> ->]]]]; [exact H|exact Eh|now apply linked_sym].
      * intros w. rewrite Hn. split.
        -- intros [y Hy]. exists y. apply Hl. tauto.
        -- intros [y Hy]. apply Hl in Hy.
           destruct Hy as [H|[_ [[-> ->]|[-> ->]]]].
           ++ now exists y.
           ++ now exists x.
           ++ exists c. now apply linked_sym.
    + split.
      * intros a b. rewrite has_edge_add_edge, He, Hl.
        split; intros [H|H]; try tauto. right. split; [congruence|tauto].
      * intros w. rewrite nodes_add_edge, Hn. split.
        -- intros [[y Hy]|[->| ->]].
           ++ exists y. apply Hl. tauto.
           ++ exists x. apply Hl. right. split; [congruence|tauto].
           ++ exists c. apply Hl. right. split; [congruence|tauto].
        -- intros [y Hy]. apply Hl in Hy.
           destruct Hy as [H|[_ [[-> ->]|[-> ->]]]]; [left; now exists y|tauto|tauto].
  - apply bool_decide_eq_false in Ex. assert (x = c) as -> by (destruct (decide (x = c)); tauto).
    split.
    + intros a b. rewrite He, Hl. tauto.
    + intros w. rewrite Hn. split.
      * intros [y Hy]. exists y. apply Hl. tauto.
      * intros [y Hy]. apply Hl in Hy. exists y. tauto.
Qed.

Lemma graph_of_add_edge_filter (L : list (Z * Z)) (g : RAG) (values : list Z) (c : Z) :
  graph_of L g ->
  graph_of (L ++ ((fun x => (c, x)) <$> values)) (add_edge_filter values c g).
Proof.
  unfold add_edge_filter. revert L g.
  induction values as [|x values IH]; intros L g H.
  - cbn. now rewrite app_nil_r.
  - cbn [fold_left fmap list_fmap]. 
    replace (L ++ (c, x) :: ((fun x => (c, x)) <$> values))
      with ((L ++ [(c, x)]) ++ ((fun x => (c, x)) <$> values))
      by (now rewrite <- app_assoc).
    apply IH. apply (graph_of_step L g c x H).
Qed.

Lemma graph_of_RAG_new (label_image : ndarray) (connectivity : Z) :
  graph_of (observations label_image connectivity (indices (ashape label_image)))
           (RAG_new label_image connectivity).
Proof.
  unfold RAG_new.
  assert (H0 : graph_of [] empty_graph).
  { split.
    - intros a b. rewrite has_edge_spec. cbn [edges empty_graph]. unfold linked.
      rewrite !elem_of_nil. tauto.
    - intros w. cbn [nodes empty_graph]. unfold linked. rewrite elem_of_nil. split; [tauto|].
      intros [x [_ [H|H]]]; now apply elem_of_nil in H. }
  revert H0.
  change (observations label_image connectivity (indices (ashape label_image)))
    with ([] ++ observations label_image connectivity (indices (ashape label_image))).
  generalize (@nil (Z * Z)) as L. generalize empty_graph as g.
  induction (indices (ashape label_image)) as [|p ps IH]; intros g L H.
  - cbn. now rewrite app_nil_r.
  - cbn [fold_left]. unfold observations. cbn [mbind list_bind]. fold (observations label_image connectivity ps).
    rewrite app_assoc. apply IH.
    pose proof (graph_of_add_edge_filter L g
                  ((fun d => adata label_image (clamp (ashape label_image) (cadd p d))) <$>
                   generate_binary_structure (length (ashape label_image)) connectivity)
                  (adata label_image p) H) as H'.
    rewrite <- list_fmap_compose in H'. exact H'.
Qed.

Lemma elem_of_offsets (n : nat) (d : coord) :
  d ∈ offsets n <-> length d = n /\ Forall unit_step d.
Proof.
  revert d. induction n as [|n IH]; intros d; cbn [offsets].
  - rewrite list_elem_of_singleton. split.
    + intros ->. split; [reflexivity|constructor].
    + intros [H _]. now destruct d.
  - rewrite list_elem_of_bind. split.
    + intros (z & Hd & Hz). apply list_elem_of_fmap in Hd. destruct Hd as (q & -> & Hq).
      apply IH in Hq. destruct Hq as [Hl Hf]. split; [cbn; lia|].
      constructor; [|exact Hf]. unfold unit_step.
      repeat (apply elem_of_cons in Hz; destruct Hz as [->|Hz]); try lia.
      now apply elem_of_nil in Hz.
    + intros [Hl Hf]. destruct d as [|z q]; [discriminate|].
      apply Forall_cons in Hf. destruct Hf as [Hz Hf]. exists z. split.
      * apply list_elem_of_fmap. exists q. split; [reflexivity|]. apply IH.
        split; [cbn in Hl; lia|exact Hf].
      * unfold unit_step in Hz.
        assert (z = -1 \/ z = 0 \/ z = 1) as [->|[->| ->]] by lia;
          repeat constructor.
Qed.

Lemma elem_of_generate_binary_structure (n : nat) (connectivity : Z) (d : coord) :
  d ∈ generate_binary_structure n connectivity
  <-> length d = n /\ Forall unit_step d /\ sqdist d <= connectivity.
Proof.
  unfold generate_binary_structure. rewrite list_elem_of_filter, elem_of_offsets. tauto.
Qed.

Lemma sqdist_cons (z : Z) (d : coord) : sqdist (z :: d) = z * z + sqdist d.
Proof. reflexivity. Qed.

Lemma sqdist_cneg (d : coord) : sqdist (cneg d) = sqdist d.
Proof.
  induction d as [|z d IH]; [reflexivity|].
  change (cneg (z :: d)) with (- z :: cneg d). rewrite !sqdist_cons, IH. lia.
Qed.

Lemma cadd_cons (x y : Z) (p q : coord) : cadd (x :: p) (y :: q) = (x + y) :: cadd p q.
Proof. reflexivity. Qed.

Lemma clamp_cons (m x : Z) (sh p : coord) :
  clamp (m :: sh) (x :: p) = Z.max 0 (Z.min x (m - 1)) :: clamp sh p.
Proof. reflexivity. Qed.

Lemma cadd_cneg (p d : coord) :
  length d = length p -> cadd (cadd p d) (cneg d) = p.
Proof.
  revert d. induction p as [|x p IH]; intros [|z d] H; try discriminate; [reflexivity|].
  change (cneg (z :: d)) with (- z :: cneg d). rewrite !cadd_cons, IH by (cbn in H; lia).
  f_equal. lia.
Qed.

(** Under border mode nearest a position of the footprint reads a voxel
    of the image that is itself under the footprint. *)
Lemma clamp_neighbour (sh p d : coord) :
  in_shape sh p = true -> length d = length sh -> Forall unit_step d ->
  exists d',
    length d' = length sh /\ Forall unit_step d' /\ sqdist d' <= sqdist d /\
    clamp sh (cadd p d) = cadd p d' /\ in_shape sh (cadd p d') = true.
Proof.
  revert p d. induction sh as [|m sh IH]; intros p d Hp Hl Hf.
  - destruct d; [|discriminate]. exists []. 
    pose proof (in_shape_length _ _ Hp) as Hlp. destruct p; [|discriminate].
    split; [reflexivity|]. split; [constructor|]. split; [apply Z.le_refl|].
    split; reflexivity.
  - destruct d as [|z d]; [discriminate|].
    pose proof (in_shape_length _ _ Hp) as Hlp. destruct p as [|x p]; [discriminate|].
    rewrite in_shape_cons in Hp. apply andb_true_iff in Hp. destruct Hp as [Hx Hp].
    apply andb_true_iff in Hx. destruct Hx as [Hx0 Hx1].
    apply Z.leb_le in Hx0. apply Z.ltb_lt in Hx1.
    apply Forall_cons in Hf. destruct Hf as [Hz Hf]. unfold unit_step in Hz.
    destruct (IH p d Hp ltac:(cbn in Hl; lia) Hf) as (d' & Hl' & Hf' & Hs' & Hc' & Hi').
    exists ((Z.max 0 (Z.min (x + z) (m - 1)) - x) :: d').
    split; [cbn; lia|]. split; [constructor; [unfold unit_step; lia|exact Hf']|].
    split; [rewrite !sqdist_cons; nia|].
    rewrite !cadd_cons, clamp_cons, Hc', in_shape_cons, Hi'.
    split; [f_equal; lia|].
    apply andb_true_iff. split; [|reflexivity].
    apply andb_true_iff. split; [apply Z.leb_le|apply Z.ltb_lt]; lia.
Qed.

Lemma clamp_in_shape (sh q : coord) : in_shape sh q = true -> clamp sh q = q.
Proof.
  revert q. induction sh as [|m sh IH]; intros q Hq;
    pose proof (in_shape_length _ _ Hq) as Hl.
  - now destruct q.
  - destruct q as [|x q]; [discriminate|].
    rewrite in_shape_cons in Hq. apply andb_true_iff in Hq. destruct Hq as [Hx Hq].
    apply andb_true_iff in Hx. destruct Hx as [Hx0 Hx1].
    apply Z.leb_le in Hx0. apply Z.ltb_lt in Hx1.
    rewrite clamp_cons, IH by exact Hq. f_equal. lia.
Qed.

Lemma touchingb_spec (frag : ndarray) (connectivity a b : Z) :
  touchingb frag connectivity a b = true <->
  exists p d,
    in_shape (ashape frag) p = true /\
    d ∈ generate_binary_structure (length (ashape frag)) connectivity /\
    in_shape (ashape frag) (cadd p d) = true /\
    adata frag p = a /\ adata frag (cadd p d) = b.
Proof.
  unfold touchingb. rewrite existsb_exists. split.
  - intros (p & Hp & H). apply andb_true_iff in H. destruct H as [Ha H].
    apply existsb_exists in H. destruct H as (d & Hd & H).
    apply andb_true_iff in H. destruct H as [Hq Hb].
    exists p, d. apply list_elem_of_In, elem_of_indices in Hp.
    apply list_elem_of_In in Hd. apply Z.eqb_eq in Ha, Hb. tauto.
  - intros (p & d & Hp & Hd & Hq & Ha & Hb). exists p. split.
    + now apply list_elem_of_In, elem_of_indices.
    + apply andb_true_iff. split; [now apply Z.eqb_eq|].
      apply existsb_exists. exists d. split; [now apply list_elem_of_In|].
      apply andb_true_iff. split; [exact Hq|now apply Z.eqb_eq].
Qed.

Lemma observations_spec (frag : ndarray) (connectivity a b : Z) :
  (a, b) ∈ observations frag connectivity (indices (ashape frag)) <->
  touchingb frag connectivity a b = true.
Proof.
  rewrite touchingb_spec. unfold observations. rewrite list_elem_of_bind. split.
  - intros (p & H & Hp). apply elem_of_indices in Hp.
    apply list_elem_of_fmap in H. destruct H as (d & H & Hd). injection H as -> ->.
    apply elem_of_generate_binary_structure in Hd. destruct Hd as (Hl & Hf & Hs).
    destruct (clamp_neighbour (ashape frag) p d Hp Hl Hf) as (d' & Hl' & Hf' & Hs' & Hc & Hi).
    exists p, d'. rewrite Hc. repeat split; try assumption.
    apply elem_of_generate_binary_structure. repeat split; try assumption. lia.
  - intros (p & d & Hp & Hd & Hq & Ha & Hb). exists p. split; [|now apply elem_of_indices].
    apply list_elem_of_fmap. exists d. split; [|exact Hd].
    rewrite (clamp_in_shape _ _ Hq). congruence.
Qed.

Lemma touchingb_sym (frag : ndarray) (connectivity a b : Z) :
  touchingb frag connectivity a b = true -> touchingb frag connectivity b a = true.
Proof.
  rewrite !touchingb_spec. intros (p & d & Hp & Hd & Hq & Ha & Hb).
  apply elem_of_generate_binary_structure in Hd. destruct Hd as (Hl & Hf & Hs).
  pose proof (in_shape_length _ _ Hp) as Hlp.
  exists (cadd p d), (cneg d).
  rewrite cadd_cneg by lia. repeat split; try assumption.
  apply elem_of_generate_binary_structure. split; [|split].
  - unfold cneg. now rewrite length_map.
  - unfold cneg. apply Forall_map. eapply Forall_impl; [exact Hf|].
    intros z Hz. unfold unit_step in *. cbn. lia.
  - now rewrite sqdist_cneg.
Qed.

(** The edges and the nodes of the graph of a label image. *)
Lemma has_edge_RAG_new (frag : ndarray) (connectivity a b : Z) :
  has_edge (RAG_new frag connectivity) a b = true
  <-> a <> b /\ touchingb frag connectivity a b = true.
Proof.
  destruct (graph_of_RAG_new frag connectivity) as [He _].
  rewrite He. unfold linked. rewrite !observations_spec. split.
  - intros [Hab [H|H]]; split; try assumption. now apply touchingb_sym.
  - intros [Hab H]. tauto.
Qed.

Lemma nodes_RAG_new (frag : ndarray) (connectivity w : Z) :
  w ∈ nodes (RAG_new frag connectivity)
  <-> exists x, w <> x /\ touchingb frag connectivity w x = true.
Proof.
  destruct (graph_of_RAG_new frag connectivity) as [_ Hn].
  rewrite Hn. split; intros [x H]; exists x.
  - apply has_edge_RAG_new. destruct (graph_of_RAG_new frag connectivity) as [He _].
    now apply He.
  - destruct (graph_of_RAG_new frag connectivity) as [He _].
    apply He. now apply has_edge_RAG_new.
Qed.

(** ** Frames of the methods *)

Section Frames.
Variable R : state -> state -> Prop.
Hypothesis R_trans : forall s1 s2 s3, R s1 s2 -> R s2 s3 -> R s1 s3.
Hypothesis R_nl : forall s s', nl s' = nl s -> R s s'.

Lemma frames_of_keeps {A} (m : M A) (Q : A -> Prop) : keeps m Q -> frames R m Q.
Proof.
  intros H s. specialize (H s). destruct (m s) as [a s'|e s'].
  - destruct H as [H HQ]. split; [now apply R_nl|exact HQ].
  - now apply R_nl.
Qed.

Lemma frames_bind {A B} (m : M A) (k : A -> M B) (Q : A -> Prop) (Q' : B -> Prop) :
  frames R m Q -> (forall a, Q a -> frames R (k a) Q') -> frames R (bind m k) Q'.
Proof.
  intros Hm Hk s. unfold bind. specialize (Hm s).
  destruct (m s) as [a s1|e s1]; [|exact Hm].
  destruct Hm as [E Ha]. specialize (Hk a Ha s1).
  destruct (k a s1) as [b s2|e s2].
  - destruct Hk as [E' Hb]. split; [eapply R_trans; eassumption|exact Hb].
  - eapply R_trans; eassumption.
Qed.

Lemma frames_call {A} (m : M A) (Q : A -> Prop) : frames R m Q -> frames R (call m) Q.
Proof.
  intros Hm s. unfold call. specialize (Hm (set_locals [] s)).
  assert (H0 : R s (set_locals [] s)) by (now apply R_nl).
  destruct (m (set_locals [] s)) as [a s1|e s1].
  - destruct Hm as [Hm HQ]. split; [|exact HQ].
    eapply R_trans; [exact H0|]. eapply R_trans; [exact Hm|]. now apply R_nl.
  - eapply R_trans; [exact H0|]. eapply R_trans; [exact Hm|]. now apply R_nl.
Qed.

Lemma frames_for_each {A} (l : list A) (body : A -> M unit) :
  (forall x, x ∈ l -> frames R (body x) (fun _ => True)) ->
  frames R (for_each l body) (fun _ => True).
Proof.
  induction l as [|x l IH]; intros H; cbn [for_each].
  - intros s. cbn. split; [now apply R_nl|exact I].
  - eapply frames_bind; [apply H; left|].
    intros _ _. apply IH. intros y Hy. apply H. now right.
Qed.
End Frames.

Lemma frames_mono (R R' : state -> state -> Prop) {A} (m : M A) (Q : A -> Prop) :
  (forall s s', R s s' -> R' s s') -> frames R m Q -> frames R' m Q.
Proof.
  intros HR H s. specialize (H s). destruct (m s) as [a s'|e s'].
  - destruct H. split; auto.
  - auto.
Qed.

Lemma same_volume_trans (s1 s2 s3 : state) :
  same_volume s1 s2 -> same_volume s2 s3 -> same_volume s1 s3.
Proof.
  unfold same_volume. intros (A1 & A2 & A3 & A4 & A5 & A6 & A7 & A8 & A9)
    (B1 & B2 & B3 & B4 & B5 & B6 & B7 & B8 & B9).
  repeat split; congruence.
Qed.

Lemma same_volume_nl (s s' : state) : nl s' = nl s -> same_volume s s'.
Proof.
  destruct s, s'. unfold nl, set_locals. cbn. intros H.
  injection H as -> -> -> -> -> -> -> ->. repeat split.
Qed.

Lemma same_graph_trans (s1 s2 s3 : state) :
  same_graph s1 s2 -> same_graph s2 s3 -> same_graph s1 s3.
Proof.
  intros [A1 A2] [B1 B2]. split; [eapply same_volume_trans; eassumption|congruence].
Qed.

Lemma same_graph_nl (s s' : state) : nl s' = nl s -> same_graph s s'.
Proof.
  intros H. split; [now apply same_volume_nl|].
  destruct s, s'. unfold nl, set_locals in H. cbn in *. now injection H.
Qed.

Lemma frames_setitem_cols_lsds (v : view) (mask b : ndarray) :
  base v = Lsds -> frames same_graph (setitem_cols v mask b) (fun _ => True).
Proof.
  intros Hv s. unfold setitem_cols.
  assert (H0 : same_graph s s) by (now apply same_graph_nl).
  destruct (ashape b) as [|cb spb]; [exact H0|].
  destruct (vshape v) as [|cv spv]; [exact H0|].
  destruct (decide _); [|exact H0].
  destruct (decide _); [|exact H0].
  destruct (_ || _); [|exact H0].
  cbn. unfold write_view. rewrite Hv. repeat split.
Qed.

(** Scoring a node changes nothing but the values of the live
    descriptors. *)
Lemma frames_compute_node_score (u : Z) :
  frames same_graph (compute_node_score u) (fun _ => True).
Proof.
  pose proof same_graph_trans as T. pose proof same_graph_nl as N.
  unfold compute_node_score. apply frames_call; [exact T|exact N|].
  eapply frames_bind; [exact T|apply frames_of_keeps, keeps_node_get; exact N|]. intros roi _.
  eapply frames_bind; [exact T|apply frames_of_keeps, keeps_whole; exact N|]. intros seg0 _.
  eapply frames_bind; [exact T|apply frames_of_keeps, keeps_getitem; exact N|]. intros seg1 _.
  eapply frames_bind; [exact T|apply frames_of_keeps, keeps_value_of; exact N|]. intros segv _.
  eapply frames_bind; [exact T|apply frames_of_keeps, keeps_extract; exact N|]. intros d _.
  eapply frames_bind; [exact T|apply frames_of_keeps, keeps_whole; exact N|]. intros t0 _.
  eapply frames_bind; [exact T|apply frames_of_keeps, keeps_getitem; exact N|]. intros t _.
  eapply frames_bind; [exact T|apply frames_of_keeps, keeps_value_of; exact N|]. intros tv _.
  eapply frames_bind; [exact T| |].
  { apply frames_of_keeps; [exact N|]. eapply keeps_bind; [apply keeps_lift_opt|].
    intros x _. apply keeps_alloc. }
  intros diff Hdiff.
  eapply frames_bind;
    [exact T|apply frames_of_keeps; [exact N|now apply keeps_setitem_cols_scalar]|].
  intros _ _.
  eapply frames_bind; [exact T|apply frames_of_keeps, keeps_whole; exact N|]. intros l0 Hl0.
  eapply frames_bind; [exact T|apply frames_of_keeps, keeps_getitem; exact N|]. intros l Hl.
  eapply frames_bind; [exact T|apply frames_setitem_cols_lsds; congruence|]. intros _ _.
  eapply frames_bind; [exact T|apply frames_of_keeps, keeps_value_of; exact N|]. intros dv _.
  apply frames_of_keeps; [exact N|]. now apply keeps_ret.
Qed.

Lemma regions_good_trans (frag : ndarray) (ex : LsdExtractor) (s1 s2 s3 : state) :
  regions_good frag ex s1 s2 -> regions_good frag ex s2 s3 -> regions_good frag ex s1 s3.
Proof.
  intros [A1 A2] [B1 B2]. split; [eapply same_volume_trans; eassumption|].
  intros E u roi H.
  assert (E2 : lsd_extractor s2 = ex).
  { destruct A1 as (_ & _ & _ & A & _). congruence. }
  destruct (B2 E2 u roi H) as [H2|H2]; [|now right].
  exact (A2 E u roi H2).
Qed.

Lemma regions_good_same_graph (frag : ndarray) (ex : LsdExtractor) (s s' : state) :
  same_graph s s' -> regions_good frag ex s s'.
Proof.
  intros [H1 H2]. split; [exact H1|]. intros _ u roi H. left. now rewrite <- H2.
Qed.

Lemma regions_good_nl (frag : ndarray) (ex : LsdExtractor) (s s' : state) :
  nl s' = nl s -> regions_good frag ex s s'.
Proof. intros H. now apply regions_good_same_graph, same_graph_nl. Qed.

Lemma frames_set_node_score (frag : ndarray) (ex : LsdExtractor) (u x : Z) :
  frames (regions_good frag ex) (set_node_score u x) (fun _ => True).
Proof.
  intros s. unfold set_node_score.
  destruct (bool_decide _); [split; [|exact I]|]; (split; [repeat split|]);
    intros _ u' roi H; left; exact H.
Qed.

Lemma frames_set_node_labels (frag : ndarray) (ex : LsdExtractor) (u : Z) (l : list Z) :
  frames (regions_good frag ex) (set_node_labels u l) (fun _ => True).
Proof.
  intros s. unfold set_node_labels.
  destruct (bool_decide _); [split; [|exact I]|]; (split; [repeat split|]);
    intros _ u' roi H; left; exact H.
Qed.

Lemma frames_set_edge_weight (frag : ndarray) (ex : LsdExtractor) (u v w : Z) :
  frames (regions_good frag ex) (set_edge_weight u v w) (fun _ => True).
Proof.
  intros s. unfold set_edge_weight.
  destruct (has_edge _ _ _); [split; [|exact I]|]; (split; [repeat split|]);
    intros _ u' roi H; left; exact H.
Qed.

Lemma slice_to_roi_done (bb : list (Z * Z)) (s : state) :
  slice_to_roi bb s
  = Done (let r := Roi.mk (fst <$> bb) ((fun sl => snd sl - fst sl) <$> bb) in
          Roi.snap_to_grid r (replicate (Roi.dims r) (downsample (lsd_extractor s)))) s.
Proof. unfold slice_to_roi, call, bind, get, ret. cbn. now destruct s. Qed.

Lemma frames_from (R : state -> state -> Prop) {A} (m : M A) (Q : A -> Prop)
    (s s1 : state) :
  (forall a b c, R a b -> R b c -> R a c) ->
  frames R m Q -> R s s1 ->
  match m s1 with
  | Done a s' => R s s' /\ Q a
  | Raised _ s' => R s s'
  end.
Proof.
  intros T H H1. specialize (H s1). destruct (m s1) as [a s'|e s'].
  - destruct H. split; eauto.
  - eauto.
Qed.

(** One round of the loop over the nodes. *)
Lemma frames_initialize_node (frag : ndarray) (ex : LsdExtractor) (u : Z) :
  frames (regions_good frag ex)
    (bb <- lift_opt IndexError (find_objects_first (eq_scalar frag u)) ;;
     roi <- slice_to_roi bb ;;
     set_node_roi u roi ;;;
     score <- compute_node_score u ;;
     set_node_score u score ;;;
     set_node_labels u [u])
    (fun _ => True).
Proof.
  pose proof (regions_good_trans frag ex) as T.
  pose proof (regions_good_nl frag ex) as N.
  intros s. unfold bind at 1.
  destruct (find_objects_first (eq_scalar frag u)) as [bb|] eqn:Ebb; cbn [lift_opt ret raise];
    [|now apply N].
  unfold bind at 1. rewrite slice_to_roi_done.
  unfold bind at 1. unfold set_node_roi.
  destruct (bool_decide (u ∈ nodes (rag s))); [|now apply N].
  apply (frames_from (regions_good frag ex) _ (fun _ => True)); [exact T| |].
  - eapply frames_bind; [exact T| |].
    + eapply frames_mono; [|apply frames_compute_node_score].
      apply regions_good_same_graph.
    + intros score _. eapply frames_bind; [exact T|apply frames_set_node_score|].
      intros _ _. apply frames_set_node_labels.
  - split; [repeat split|]. intros E u' roi H. cbn [rag set_rag node_roi] in H.
    destruct (decide (u' = u)) as [->|Hne].
    + rewrite lookup_insert_eq in H. injection H as <-. right.
      exists bb. split; [exact Ebb|]. rewrite E. reflexivity.
    + rewrite lookup_insert_ne in H by congruence. now left.
Qed.

Lemma find_objects_first_ext (a b : ndarray) :
  arr_equiv a b -> find_objects_first a = find_objects_first b.
Proof.
  intros [Hs Hd]. unfold find_objects_first. rewrite <- Hs.
  rewrite (filter_ext_elem (fun p => adata a p <> 0) (fun p => adata b p <> 0)); [reflexivity|].
  intros p Hp. apply elem_of_indices in Hp. now rewrite (Hd p Hp).
Qed.

Lemma eq_scalar_equiv (a b : ndarray) (u : Z) :
  arr_equiv a b -> arr_equiv (eq_scalar a u) (eq_scalar b u).
Proof.
  intros [Hs Hd]. split; [exact Hs|]. intros i Hi. unfold eq_scalar in *. cbn in *.
  now rewrite (Hd i Hi).
Qed.

Lemma initial_region_ext (a b : ndarray) (ex : LsdExtractor) (u : Z) (roi : Roi.t) :
  arr_equiv a b -> initial_region a ex u roi -> initial_region b ex u roi.
Proof.
  intros H (bb & Hbb & Hr). exists bb. split; [|exact Hr].
  now rewrite <- (find_objects_first_ext _ _ (eq_scalar_equiv a b u H)).
Qed.

Lemma keeps_slice_to_roi (bb : list (Z * Z)) : keeps (slice_to_roi bb) (fun _ => True).
Proof.
  unfold slice_to_roi. apply keeps_call.
  eapply keeps_bind; [apply keeps_get|]. intros s0 _. now apply keeps_ret.
Qed.

Lemma keeps_score_merge (u v : Z) : keeps (score_merge u v) (fun _ => True).
Proof. unfold score_merge. apply keeps_call, keeps_compute_edge_score. Qed.

Lemma fold_left_ext_elem {A B} (f g : A -> B -> A) (l : list B) (a : A) :
  (forall x y, y ∈ l -> f x y = g x y) -> fold_left f l a = fold_left g l a.
Proof.
  revert a. induction l as [|y l IH]; intros a H; [reflexivity|].
  cbn [fold_left]. rewrite (H a y) by left. apply IH. intros x z Hz. apply H. now right.
Qed.

(** The graph depends on the labels inside the image only. *)
Lemma RAG_new_ext (a b : ndarray) (connectivity : Z) :
  arr_equiv a b -> RAG_new a connectivity = RAG_new b connectivity.
Proof.
  intros [Hs Hd]. unfold RAG_new. rewrite <- Hs.
  apply fold_left_ext_elem. intros g p Hp. apply elem_of_indices in Hp.
  rewrite (Hd p Hp). f_equal. apply list_fmap_ext. intros k d Hd'.
  apply list_elem_of_lookup_2 in Hd'.
  apply elem_of_generate_binary_structure in Hd'. destruct Hd' as (Hl & Hf & _).
  destruct (clamp_neighbour (ashape a) p d Hp Hl Hf) as (d' & _ & _ & _ & Hc & Hi).
  rewrite Hc. apply Hd. exact Hi.
Qed.

Lemma whole_equiv (a : ndarray) :
  arr_equiv (slice_of a (zeros (length (ashape a))) (ashape a)) a.
Proof.
  split; [reflexivity|]. intros i Hi. unfold slice_of. cbn [adata ashape] in *.
  now rewrite cadd_zeros_l by (now apply in_shape_length).
Qed.

Lemma bare_add_edge (g : RAG) (u v : Z) : bare g -> bare (add_edge g u v).
Proof.
  unfold bare, add_edge, add_node.
  destruct (bool_decide (u ∈ nodes g)); cbn;
    repeat (match goal with |- context [bool_decide ?P] => destruct (bool_decide P) end; cbn);
    repeat (match goal with |- context [has_edge ?a ?b ?c] => destruct (has_edge a b c) end; cbn);
    tauto.
Qed.

Lemma bare_add_edge_filter (values : list Z) (c : Z) (g : RAG) :
  bare g -> bare (add_edge_filter values c g).
Proof.
  unfold add_edge_filter. revert g. induction values as [|x values IH]; intros g H; [exact H|].
  cbn [fold_left]. apply IH. destruct (_ && _); [now apply bare_add_edge|exact H].
Qed.

Lemma bare_RAG_new (a : ndarray) (connectivity : Z) : bare (RAG_new a connectivity).
Proof.
  unfold RAG_new. assert (H : bare empty_graph) by (repeat split). revert H.
  generalize empty_graph as g.
  induction (indices (ashape a)) as [|p ps IH]; intros g H; [exact H|].
  cbn [fold_left]. apply IH. now apply bare_add_edge_filter.
Qed.

(** Initialising the graph: whatever happens, the volumes are the ones
    given, the graph has the nodes and the edges of the adjacency graph
    of the fragments, and every region it stores is the initial region
    of its node. *)
Lemma initialize_rag_frame (s : state) :
  let s' := final_state (initialize_rag s) in
  same_volume (set_rag (RAG_new (fragments s) 2) s) s' /\
  locals s' = locals s /\
  forall u roi, node_roi (rag s') !! u = Some roi ->
    initial_region (fragments s) (lsd_extractor s) u roi.
Proof.
  intros s'. split; [|split; [apply call_locals|]]; subst s'.
  all: unfold initialize_rag, call;
    rewrite (bind_done _ _ _ _ _ (whole_done Fragments _ _ eq_refl));
    do 3 (erewrite bind_done; [|reflexivity]);
    match goal with
    | |- context [RAG_new (view_val ?S ?V) 2 ] =>
        set (frag := view_val S V);
        assert (E : RAG_new frag 2 = RAG_new (fragments s) 2)
          by (apply RAG_new_ext, whole_equiv)
    end;
    match goal with
    | |- context [final_state (match ?m ?S with _ => _ end)] =>
        assert (H : frames (regions_good frag (lsd_extractor s)) m (fun _ => True));
          [|specialize (H S);
            assert (H' : regions_good frag (lsd_extractor s) S
                           (final_state
                              match m S with
                              | Done a s' => Done a (set_locals (locals s) s')
                              | Raised e s' => Raised e (set_locals (locals s) s')
                              end))
              by (destruct (m S) as [a s1|e s1]; [destruct H as [H _]|]; exact H);
            clear H]
    end.
  1,3: pose proof (regions_good_trans frag (lsd_extractor s)) as T;
       pose proof (regions_good_nl frag (lsd_extractor s)) as N;
       (eapply frames_bind; [exact T| |]);
       [ apply frames_for_each; [exact T|exact N|]; intros u _;
         apply frames_initialize_node
       | intros _ _; apply frames_for_each; [exact T|exact N|]; intros e _;
         (eapply frames_bind; [exact T|apply frames_of_keeps, keeps_score_merge; exact N|]);
         intros score _; apply frames_set_edge_weight ].
  - destruct H' as [H' _]. eapply same_volume_trans; [|exact H'].
    unfold same_volume.
    cbn [rag set_rag set_locals segmentation lsds fragments target_lsds lsd_extractor
         context voxel_size].
    rewrite E. repeat split.
  - destruct H' as [_ H']. intros u roi Hu.
    apply (initial_region_ext frag); [apply whole_equiv|].
    destruct (H' eq_refl u roi Hu) as [H0|H0]; [|exact H0].
    cbn [rag set_rag node_roi] in H0.
    destruct (bare_RAG_new frag 2) as [B _]. rewrite B in H0.
    now rewrite lookup_empty in H0.
Qed.

(** ** Bounding slices *)

Lemma bx_zip_with (f : Z * Z -> Z -> Z * Z) (bb : list (Z * Z)) (p : coord) (k : nat) :
  (k < length bb)%nat -> (k < length p)%nat ->
  bx (zip_with f bb p) k = f (bx bb k) (ax p k).
Proof.
  intros Hb Hp. unfold bx, ax. rewrite lookup_zip_with.
  destruct (lookup_lt_is_Some_2 bb k Hb) as [x ->].
  destruct (lookup_lt_is_Some_2 p k Hp) as [y ->]. reflexivity.
Qed.

Lemma bbox_fold (n : nat) (ps : list coord) (bb : list (Z * Z)) :
  length bb = n -> (forall q, q ∈ ps -> length q = n) ->
  let bb' := fold_left
               (fun bb p => zip_with (fun lh q => (Z.min (fst lh) q, Z.max (snd lh) (q + 1))) bb p)
               ps bb in
  length bb' = n /\
  forall k : nat, (k < n)%nat ->
    fst (bx bb' k) <= fst (bx bb k) /\ snd (bx bb k) <= snd (bx bb' k) /\
    (forall q, q ∈ ps -> fst (bx bb' k) <= ax q k < snd (bx bb' k)) /\
    (fst (bx bb' k) = fst (bx bb k) \/ exists q, q ∈ ps /\ ax q k = fst (bx bb' k)) /\
    (snd (bx bb' k) = snd (bx bb k) \/ exists q, q ∈ ps /\ ax q k + 1 = snd (bx bb' k)).
Proof.
  revert bb. induction ps as [|p ps IH]; intros bb Hl Hps; cbn [fold_left].
  - split; [exact Hl|]. intros k Hk. split; [lia|]. split; [lia|].
    split; [intros q Hq; now apply elem_of_nil in Hq|]. split; now left.
  - assert (Hp : length p = n) by (apply Hps; left).
    set (bb1 := zip_with (fun lh q => (Z.min (fst lh) q, Z.max (snd lh) (q + 1))) bb p).
    assert (Hl1 : length bb1 = n) by (unfold bb1; rewrite length_zip_with; lia).
    destruct (IH bb1 Hl1 ltac:(intros q Hq; apply Hps; now right)) as [Hl' H'].
    split; [exact Hl'|]. intros k Hk.
    destruct (H' k Hk) as (A1 & A2 & A3 & A4 & A5).
    assert (E : bx bb1 k = (Z.min (fst (bx bb k)) (ax p k), Z.max (snd (bx bb k)) (ax p k + 1))).
    { unfold bb1. rewrite bx_zip_with by lia. reflexivity. }
    rewrite E in A1, A2, A4, A5. cbn [fst snd] in A1, A2, A4, A5.
    split; [lia|]. split; [lia|]. split; [|split].
    + intros q Hq. apply elem_of_cons in Hq. destruct Hq as [->|Hq]; [lia|now apply A3].
    + destruct A4 as [A4|(q & Hq & A4)]; [|right; exists q; split; [now right|exact A4]].
      destruct (Z.le_gt_cases (fst (bx bb k)) (ax p k)).
      * left. lia.
      * right. exists p. split; [left|lia].
    + destruct A5 as [A5|(q & Hq & A5)]; [|right; exists q; split; [now right|exact A5]].
      destruct (Z.le_gt_cases (ax p k + 1) (snd (bx bb k))).
      * left. lia.
      * right. exists p. split; [left|lia].
Qed.

(** [find_objects_first]: the bounding slices contain every marked
    voxel and touch one on every side. *)
Lemma find_objects_first_spec (mask : ndarray) (bb : list (Z * Z)) :
  find_objects_first mask = Some bb ->
  let n := length (ashape mask) in
  let marked p := in_shape (ashape mask) p = true /\ adata mask p <> 0 in
  length bb = n /\
  forall k : nat, (k < n)%nat ->
    (forall p, marked p -> fst (bx bb k) <= ax p k < snd (bx bb k)) /\
    (exists p, marked p /\ ax p k = fst (bx bb k)) /\
    (exists p, marked p /\ ax p k + 1 = snd (bx bb k)).
Proof.
  intros H n marked. unfold find_objects_first in H.
  destruct (filter _ _) as [|p0 ps] eqn:E; [discriminate|]. injection H as <-.
  assert (Hm : forall p, p ∈ p0 :: ps <-> marked p).
  { intros p. rewrite <- E, list_elem_of_filter, elem_of_indices. unfold marked. tauto. }
  assert (Hlen : forall q, q ∈ p0 :: ps -> length q = n).
  { intros q Hq. apply Hm in Hq. destruct Hq as [Hq _]. now apply in_shape_length. }
  set (bb0 := (fun q => (q, q + 1)) <$> p0).
  assert (Hl0 : length bb0 = n) by (unfold bb0; rewrite length_fmap; apply Hlen; left).
  destruct (bbox_fold n ps bb0 Hl0 ltac:(intros q Hq; apply Hlen; now right)) as [Hl H].
  split; [exact Hl|]. intros k Hk.
  destruct (H k Hk) as (A1 & A2 & A3 & A4 & A5).
  assert (E0 : bx bb0 k = (ax p0 k, ax p0 k + 1)).
  { unfold bx, ax, bb0. rewrite list_lookup_fmap.
    destruct (lookup_lt_is_Some_2 p0 k) as [x ->]; [|reflexivity].
    rewrite (Hlen p0) by left. exact Hk. }
  rewrite E0 in A1, A2, A4, A5. cbn [fst snd] in A1, A2, A4, A5.
  split; [|split].
  - intros p Hp. apply Hm in Hp. apply elem_of_cons in Hp.
    destruct Hp as [->|Hp]; [lia|now apply A3].
  - destruct A4 as [A4|(q & Hq & A4)].
    + exists p0. split; [apply Hm; left|lia].
    + exists q. split; [apply Hm; now right|exact A4].
  - destruct A5 as [A5|(q & Hq & A5)].
    + exists p0. split; [apply Hm; left|lia].
    + exists q. split; [apply Hm; now right|exact A5].
Qed.

Lemma find_objects_first_none (mask : ndarray) :
  find_objects_first mask = None <->
  forall p, in_shape (ashape mask) p = true -> adata mask p = 0.
Proof.
  unfold find_objects_first. split.
  - destruct (filter _ _) as [|p0 ps] eqn:E; [|discriminate]. intros _ p Hp.
    destruct (decide (adata mask p = 0)) as [H|H]; [exact H|].
    assert (Hin : p ∈ filter (fun p => adata mask p <> 0) (indices (ashape mask))).
    { apply list_elem_of_filter. split; [exact H|now apply elem_of_indices]. }
    rewrite E in Hin. now apply elem_of_nil in Hin.
  - intros H. destruct (filter _ _) as [|p0 ps] eqn:E; [reflexivity|].
    assert (Hin : p0 ∈ filter (fun p => adata mask p <> 0) (indices (ashape mask))).
    { rewrite E. left. }
    apply list_elem_of_filter in Hin. destruct Hin as [Hn Hin].
    apply elem_of_indices in Hin. now rewrite (H p0 Hin) in Hn.
Qed.

Lemma ax_replicate (n k : nat) (d : Z) : (k < n)%nat -> ax (replicate n d) k = d.
Proof. intros H. unfold ax. now rewrite lookup_replicate_2. Qed.

(** [snap_to_grid] with one cell size [d] on every axis: the begin is
    rounded down and the end is rounded up to a multiple of [d]. *)
Lemma snap_to_grid_spec (r : Roi.t) (d : Z) (n : nat) :
  roi_dim n r ->
  let r' := Roi.snap_to_grid r (replicate n d) in
  roi_dim n r' /\
  forall k : nat, (k < n)%nat ->
    lo r' k = lo r k / d * d /\ hi r' k = Roi.cdiv (hi r k) d * d.
Proof.
  intros [Ho Hs] r'. unfold r', Roi.snap_to_grid, Roi.get_begin, Roi.get_end, roi_dim.
  cbn [Roi.offset Roi.shape]. unfold csub, cadd.
  split; [rewrite !length_zip_with, !length_replicate; split; lia|].
  intros k Hk. unfold lo, hi. cbn [Roi.offset Roi.shape].
  rewrite !ax_zip_with, !ax_replicate
    by (rewrite ?length_zip_with, ?length_replicate; lia).
  split; [reflexivity|lia].
Qed.

Lemma snap_bounds (b e d : Z) :
  0 < d ->
  b / d * d <= b < b / d * d + d /\ e <= Roi.cdiv e d * d < e + d /\
  (b / d * d) mod d = 0 /\ (Roi.cdiv e d * d) mod d = 0.
Proof.
  intros Hd. unfold Roi.cdiv.
  pose proof (Z.div_mod b d ltac:(lia)) as B. pose proof (Z.mod_pos_bound b d Hd) as B'.
  pose proof (Z.div_mod (- e) d ltac:(lia)) as E. pose proof (Z.mod_pos_bound (- e) d Hd) as E'.
  rewrite !Z.mod_mul by lia. repeat split; nia.
Qed.

Lemma ax_fmap_bx (f : Z * Z -> Z) (bb : list (Z * Z)) (k : nat) :
  (k < length bb)%nat -> ax (f <$> bb) k = f (bx bb k).
Proof.
  intros H. unfold ax, bx. rewrite list_lookup_fmap.
  destruct (lookup_lt_is_Some_2 bb k H) as [x ->]. reflexivity.
Qed.

(** The initial region of a fragment: its bounding box, widened to the
    grid by less than one cell on each side. *)
Lemma initial_region_spec (frag : ndarray) (ex : LsdExtractor) (u : Z) (roi : Roi.t) :
  initial_region frag ex u roi -> 0 < downsample ex ->
  let n := length (ashape frag) in
  let labelled p := in_shape (ashape frag) p = true /\ adata frag p = u in
  roi_dim n roi /\
  forall k : nat, (k < n)%nat ->
    (forall p, labelled p -> lo roi k <= ax p k < hi roi k) /\
    (exists p, labelled p /\ ax p k < lo roi k + downsample ex) /\
    (exists p, labelled p /\ hi roi k - downsample ex < ax p k + 1) /\
    lo roi k mod downsample ex = 0 /\ hi roi k mod downsample ex = 0 /\
    0 <= lo roi k < hi roi k.
Proof.
  intros (bb & Hbb & Hr) Hd n labelled. cbv zeta in Hr. subst n.
  set (n := length (ashape frag)).
  destruct (find_objects_first_spec _ _ Hbb) as [Hl H].
  change (ashape (eq_scalar frag u)) with (ashape frag) in Hl, H.
  fold n in Hl, H.
  assert (Hlab : forall p, in_shape (ashape frag) p = true /\ adata (eq_scalar frag u) p <> 0
                           <-> labelled p).
  { intros p. unfold labelled, eq_scalar, bool_to_Z. cbn [adata].
    destruct (adata frag p =? u) eqn:E; [apply Z.eqb_eq in E|apply Z.eqb_neq in E];
      split; intros [H1 H2]; split; auto; try lia; congruence. }
  assert (Hn : n = length (ashape frag)) by reflexivity. clearbody n.
  set (r := Roi.mk (fst <$> bb) ((fun sl => snd sl - fst sl) <$> bb)) in Hr.
  assert (Hdr : roi_dim n r) by (split; cbn; rewrite length_fmap; exact Hl).
  assert (Hdims : Roi.dims r = n) by (destruct Hdr as [_ Hs]; exact Hs).
  rewrite Hdims in Hr.
  destruct (snap_to_grid_spec r (downsample ex) n Hdr) as [Hd' Hs]. rewrite <- Hr in Hd', Hs.
  split; [exact Hd'|]. intros k Hk.
  destruct (Hs k Hk) as [Hlo Hhi]. destruct (H k Hk) as (A1 & (p1 & P1 & A2) & (p2 & P2 & A3)).
  assert (Elo : lo r k = fst (bx bb k)).
  { unfold lo, r. cbn [Roi.offset]. apply ax_fmap_bx. lia. }
  assert (Ehi : hi r k = snd (bx bb k)).
  { unfold hi, r. cbn [Roi.offset Roi.shape]. rewrite !ax_fmap_bx by lia. lia. }
  pose proof (snap_bounds (lo r k) (hi r k) (downsample ex) Hd) as (B1 & B2 & B3 & B4).
  rewrite <- Hlo in B1, B3. rewrite <- Hhi in B2, B4.
  assert (P1' := proj1 (A1 p1 P1)). assert (P1'' := proj2 (A1 p1 P1)).
  assert (Hp1 : 0 <= ax p1 k).
  { destruct P1 as [P1 _]. apply in_shape_spec in P1. destruct P1 as [_ P1].
    specialize (P1 k ltac:(lia)). lia. }
  split; [|split; [|split; [|split; [|split]]]].
  - intros p Hp. apply Hlab in Hp. specialize (A1 p Hp). lia.
  - exists p1. split; [now apply Hlab|lia].
  - exists p2. split; [now apply Hlab|lia].
  - exact B3.
  - exact B4.
  - split; [|lia].
    (* a multiple of d that is greater than -d is not negative *)
    rewrite Hlo. apply Z.mul_nonneg_nonneg; [|lia]. apply Z.div_pos; lia.
Qed.

(** ** The agglomerator after its construction *)

Lemma init_frame (frag target : ndarray) (ex : LsdExtractor) (vs : option coord) :
  let s' := final_state (init frag target ex vs) in
  (segmentation s' = frag /\ fragments s' = frag /\ target_lsds s' = target /\
   ashape (lsds s') = ashape target /\ lsd_extractor s' = ex /\
   context s' = get_context ex /\ locals s' = []) /\
  nodes (rag s') = nodes (RAG_new frag 2) /\
  edges (rag s') = edges (RAG_new frag 2) /\
  forall u roi, node_roi (rag s') !! u = Some roi -> initial_region frag ex u roi.
Proof.
  intros s'. unfold s', init.
  match goal with |- context [initialize_rag ?S] => set (s0 := S) end.
  destruct (initialize_rag_frame s0) as ((A1 & A2 & A3 & A4 & A5 & A6 & A7 & A8 & A9) & B & C).
  repeat split; assumption.
Qed.

(** X1: constructing the agglomerator, whether it completes or raises,
    leaves the segmentation equal to the fragments it was given, keeps the
    fragments and the target as given, gives the live descriptors the
    shape of the target, and leaves no temporaries behind. *)
Theorem init_keeps_volumes (frag target : ndarray) (ex : LsdExtractor) (vs : option coord) :
  let s' := final_state (init frag target ex vs) in
  get_segmentation s' = frag /\ fragments s' = frag /\ target_lsds s' = target /\
  ashape (get_lsds s') = ashape target /\ lsd_extractor s' = ex /\
  context s' = get_context ex /\ locals s' = [].
Proof. intros s'. exact (proj1 (init_frame frag target ex vs)). Qed.

(** X2: in the graph of the constructed agglomerator two labels are joined
    by an edge exactly when they differ and a voxel of one has a voxel of
    the other among its neighbours of connectivity 2, that is at an offset
    in {-1,0,1} per axis with at most two non-zero components; this holds
    whether the construction completes or raises. *)
Theorem init_edges (frag target : ndarray) (ex : LsdExtractor) (vs : option coord)
    (a b : Z) :
  has_edge (rag (final_state (init frag target ex vs))) a b = true
  <-> a <> b /\ touchingb frag 2 a b = true.
Proof.
  destruct (init_frame frag target ex vs) as (_ & _ & He & _).
  rewrite <- has_edge_RAG_new, !has_edge_spec, He. reflexivity.
Qed.

(** ** Attributes are given to nodes only *)

Lemma attrs_kept_trans (s1 s2 s3 : state) :
  attrs_kept s1 s2 -> attrs_kept s2 s3 -> attrs_kept s1 s3.
Proof.
  intros [A1 A2] [B1 B2]. split; [congruence|].
  intros u Hu. destruct (A2 u Hu) as (A3 & A4 & A5).
  destruct (B2 u) as (B3 & B4 & B5); [now rewrite A1|].
  repeat split; congruence.
Qed.

Lemma attrs_kept_same_graph (s s' : state) : same_graph s s' -> attrs_kept s s'.
Proof.
  intros [_ H]. unfold attrs_kept. rewrite H. split; [reflexivity|].
  intros u _. repeat split.
Qed.

Lemma attrs_kept_nl (s s' : state) : nl s' = nl s -> attrs_kept s s'.
Proof. intros H. now apply attrs_kept_same_graph, same_graph_nl. Qed.

Lemma attrs_set_node_roi (u : Z) (r : Roi.t) :
  frames attrs_kept (set_node_roi u r) (fun _ => True).
Proof.
  intros s. unfold set_node_roi.
  destruct (bool_decide (u ∈ nodes (rag s))) eqn:E; [|now apply attrs_kept_nl].
  apply bool_decide_eq_true in E.
  split; [|exact I]. split; [reflexivity|]. intros u' Hu'.
  cbn [rag set_rag node_roi node_score node_labels].
  rewrite lookup_insert_ne by congruence. repeat split.
Qed.

Lemma attrs_set_node_score (u x : Z) :
  frames attrs_kept (set_node_score u x) (fun _ => True).
Proof.
  intros s. unfold set_node_score.
  destruct (bool_decide (u ∈ nodes (rag s))) eqn:E; [|now apply attrs_kept_nl].
  apply bool_decide_eq_true in E.
  split; [|exact I]. split; [reflexivity|]. intros u' Hu'.
  cbn [rag set_rag node_roi node_score node_labels].
  rewrite lookup_insert_ne by congruence. repeat split.
Qed.

Lemma attrs_set_node_labels (u : Z) (l : list Z) :
  frames attrs_kept (set_node_labels u l) (fun _ => True).
Proof.
  intros s. unfold set_node_labels.
  destruct (bool_decide (u ∈ nodes (rag s))) eqn:E; [|now apply attrs_kept_nl].
  apply bool_decide_eq_true in E.
  split; [|exact I]. split; [reflexivity|]. intros u' Hu'.
  cbn [rag set_rag node_roi node_score node_labels].
  rewrite lookup_insert_ne by congruence. repeat split.
Qed.

Lemma attrs_set_edge_weight (u v w : Z) :
  frames attrs_kept (set_edge_weight u v w) (fun _ => True).
Proof.
  intros s. unfold set_edge_weight.
  destruct (has_edge _ _ _); [split; [|exact I]|]; (split; [reflexivity|]);
    intros u' _; repeat split.
Qed.

(** Both loops of [__initialize_rag] give attributes to nodes only. *)
Lemma attrs_initialize_loops (frag : ndarray) (ns : list Z) (es : list (Z * Z)) :
  frames attrs_kept
    (for_each ns (fun u =>
       bb <- lift_opt IndexError (find_objects_first (eq_scalar frag u)) ;;
       roi <- slice_to_roi bb ;;
       set_node_roi u roi ;;;
       score <- compute_node_score u ;;
       set_node_score u score ;;;
       set_node_labels u [u]) ;;;
     for_each es (fun e =>
       score <- score_merge (fst e) (snd e) ;;
       set_edge_weight (fst e) (snd e) score))
    (fun _ => True).
Proof.
  pose proof attrs_kept_trans as T. pose proof attrs_kept_nl as N.
  eapply frames_bind; [exact T| |].
  - apply frames_for_each; [exact T|exact N|]. intros u _.
    eapply frames_bind; [exact T|apply frames_of_keeps, keeps_lift_opt; exact N|].
    intros bb _.
    eapply frames_bind; [exact T|apply frames_of_keeps, keeps_slice_to_roi; exact N|].
    intros roi _.
    eapply frames_bind; [exact T|apply attrs_set_node_roi|]. intros _ _.
    eapply frames_bind; [exact T| |].
    { eapply frames_mono; [|apply frames_compute_node_score].
      apply attrs_kept_same_graph. }
    intros score _.
    eapply frames_bind; [exact T|apply attrs_set_node_score|]. intros _ _.
    apply attrs_set_node_labels.
  - intros _ _. apply frames_for_each; [exact T|exact N|]. intros e _.
    eapply frames_bind; [exact T|apply frames_of_keeps, keeps_score_merge; exact N|].
    intros score _. apply attrs_set_edge_weight.
Qed.

(** In the constructed graph a label that is not a node has no
    attribute. *)
Lemma init_attrs (frag target : ndarray) (ex : LsdExtractor) (vs : option coord) (u : Z) :
  let s' := final_state (init frag target ex vs) in
  u ∉ nodes (rag s') ->
  node_roi (rag s') !! u = None /\ node_score (rag s') !! u = None /\
  node_labels (rag s') !! u = None.
Proof.
  intros s'. subst s'. unfold init, initialize_rag, call.
  rewrite (bind_done _ _ _ _ _ (whole_done Fragments _ _ eq_refl)).
  do 3 (erewrite bind_done; [|reflexivity]).
  match goal with
  | |- context [RAG_new (view_val ?S ?V) 2 ] => set (frag' := view_val S V)
  end.
  match goal with
  | |- context [bind (for_each _ _) _ ?S] => set (s1 := S)
  end.
  pose proof (attrs_initialize_loops frag' (nodes (rag s1)) (rag_edges (rag s1)) s1) as H.
  match goal with
  | H : match ?m with _ => _ end |- _ =>
      destruct m as [a s2|e s2]; [destruct H as [H _]|]
  end.
  all: cbn [final_state rag set_locals].
  all: destruct H as [Hn Ha]; rewrite Hn; intros Hu; destruct (Ha u Hu) as (A1 & A2 & A3).
  all: rewrite A1, A2, A3; cbn [s1 rag set_rag].
  all: destruct (bare_RAG_new frag' 2) as (B1 & B2 & B3 & _); rewrite B1, B2, B3.
  all: now rewrite !lookup_empty.
Qed.

(** X3: a label is a node of the graph of the constructed agglomerator
    exactly when one of its voxels has a voxel of another label among its
    neighbours of connectivity 2; a fragment that touches no other
    fragment is not a node, and a label that is not a node has no region,
    no score and no list of labels, whether the construction completes or
    raises. *)
Theorem init_nodes (frag target : ndarray) (ex : LsdExtractor) (vs : option coord) (u : Z) :
  let s' := final_state (init frag target ex vs) in
  (u ∈ nodes (rag s') <-> exists x, u <> x /\ touchingb frag 2 u x = true) /\
  (u ∉ nodes (rag s') ->
   node_roi (rag s') !! u = None /\ node_score (rag s') !! u = None /\
   node_labels (rag s') !! u = None).
Proof.
  intros s'. split; [|apply init_attrs].
  destruct (init_frame frag target ex vs) as (_ & Hn & _ & _).
  subst s'. rewrite Hn. apply nodes_RAG_new.
Qed.

(** X4: every region that the constructed agglomerator stores for a node
    is the bounding box of the voxels of that label, widened to the grid
    of the extractor: it contains every voxel of the label, its begin and
    end are multiples of the downsampling factor, it starts at a
    non-negative position, has a positive extent, and on each side it
    reaches less than one grid cell beyond a voxel of the label. *)
Theorem init_regions (frag target : ndarray) (ex : LsdExtractor) (vs : option coord)
    (u : Z) (roi : Roi.t) :
  0 < downsample ex ->
  node_roi (rag (final_state (init frag target ex vs))) !! u = Some roi ->
  let n := length (ashape frag) in
  let labelled p := in_shape (ashape frag) p = true /\ adata frag p = u in
  roi_dim n roi /\
  (forall p, labelled p -> Roi.containsb roi p = true) /\
  forall k : nat, (k < n)%nat ->
    (exists p, labelled p /\ ax p k < lo roi k + downsample ex) /\
    (exists p, labelled p /\ hi roi k - downsample ex < ax p k + 1) /\
    lo roi k mod downsample ex = 0 /\ hi roi k mod downsample ex = 0 /\
    0 <= lo roi k < hi roi k.
Proof.
  intros Hd Hroi n labelled.
  destruct (init_frame frag target ex vs) as (_ & _ & _ & Hr).
  destruct (initial_region_spec frag ex u roi (Hr u roi Hroi) Hd) as [Hdim H].
  split; [exact Hdim|]. split.
  - intros p Hp. apply (containsb_spec roi p n Hdim). split.
    + destruct Hp as [Hp _]. now apply in_shape_length.
    + intros k Hk. destruct (H k Hk) as (A & _). now apply A.
  - intros k Hk. destruct (H k Hk) as (_ & A). exact A.
Qed.

Lemma init_regions_witness :
  let labelled p := in_shape [2; 4] p = true /\ adata two_fragments p = 1 in
  let roi := Roi.mk [0; 0] [2; 2] in
  roi_dim 2 roi /\
  (forall p, labelled p -> Roi.containsb roi p = true) /\
  forall k : nat, (k < 2)%nat ->
    (exists p, labelled p /\ ax p k < lo roi k + 1) /\
    (exists p, labelled p /\ hi roi k - 1 < ax p k + 1) /\
    lo roi k mod 1 = 0 /\ hi roi k mod 1 = 0 /\
    0 <= lo roi k < hi roi k.
Proof.
  apply (init_regions two_fragments constant_target indicator_extractor None 1
           (Roi.mk [0; 0] [2; 2])).
  - reflexivity.
  - vm_compute. reflexivity.
Defined.

Lemma touchingb_labels (frag : ndarray) (connectivity a b : Z) :
  touchingb frag connectivity a b = true ->
  exists p q, in_shape (ashape frag) p = true /\ in_shape (ashape frag) q = true /\
              adata frag p = a /\ adata frag q = b.
Proof.
  rewrite touchingb_spec. intros (p & d & Hp & _ & Hq & Ha & Hb).
  exists p, (cadd p d). tauto.
Qed.

Lemma RAG_new_single_label (frag : ndarray) (connectivity : Z) :
  (forall p q, in_shape (ashape frag) p = true -> in_shape (ashape frag) q = true ->
               adata frag p = adata frag q) ->
  RAG_new frag connectivity = empty_graph.
Proof.
  intros H.
  assert (Hn : nodes (RAG_new frag connectivity) = []).
  { destruct (nodes (RAG_new frag connectivity)) as [|w l] eqn:E; [reflexivity|exfalso].
    assert (Hw : w ∈ nodes (RAG_new frag connectivity)) by (rewrite E; left).
    apply nodes_RAG_new in Hw. destruct Hw as (x & Hwx & Ht).
    apply touchingb_labels in Ht. destruct Ht as (p & q & Hp & Hq & <- & <-).
    apply Hwx. now apply H. }
  assert (He : edges (RAG_new frag connectivity) = []).
  { destruct (edges (RAG_new frag connectivity)) as [|[a b] l] eqn:E; [reflexivity|exfalso].
    assert (Hab : has_edge (RAG_new frag connectivity) a b = true).
    { apply has_edge_spec. left. rewrite E. left. }
    apply has_edge_RAG_new in Hab. destruct Hab as [Hab Ht].
    apply touchingb_labels in Ht. destruct Ht as (p & q & Hp & Hq & <- & <-).
    apply Hab. now apply H. }
  destruct (bare_RAG_new frag connectivity) as (B1 & B2 & B3 & B4).
  destruct (RAG_new frag connectivity). cbn in *. subst. reflexivity.
Qed.

(** X5: on a volume that carries one label only the construction always
    completes, with a graph that has no node and no edge; no descriptor
    is extracted, the live descriptors stay zero and nothing is scored. *)
Theorem init_single_fragment (frag target : ndarray) (ex : LsdExtractor)
    (vs : option coord) :
  (forall p q, in_shape (ashape frag) p = true -> in_shape (ashape frag) q = true ->
               adata frag p = adata frag q) ->
  init frag target ex vs
  = Done tt (mkState frag (np_zeros_like target) frag target ex (get_context ex)
               (match vs with
                | None => replicate (length (ashape frag)) 1
                | Some vs => vs
                end)
               empty_graph []).
Proof.
  intros H. unfold init, initialize_rag, call.
  rewrite (bind_done _ _ _ _ _ (whole_done Fragments _ _ eq_refl)).
  do 3 (erewrite bind_done; [|reflexivity]).
  match goal with
  | |- context [RAG_new (view_val ?S ?V) 2 ] =>
      assert (E : RAG_new (view_val S V) 2 = empty_graph)
  end.
  { rewrite (RAG_new_ext _ frag 2) by apply whole_equiv. now apply RAG_new_single_label. }
  rewrite E. reflexivity.
Qed.

Lemma init_single_fragment_witness :
  init (matrix [[7; 7]; [7; 7]]) constant_target indicator_extractor None
  = Done tt (mkState (matrix [[7; 7]; [7; 7]]) (np_zeros_like constant_target)
               (matrix [[7; 7]; [7; 7]]) constant_target indicator_extractor [1; 1]
               [1; 1] empty_graph []).
Proof.
  apply (init_single_fragment (matrix [[7; 7]; [7; 7]]) constant_target
           indicator_extractor None).
  intros p q Hp Hq. enum_indices Hp; enum_indices Hq; reflexivity.
Defined.

(** ** More on merges *)

(** X6: [merge_segmentation u v] on a node with a stored region returns
    and changes the segmentation only: a voxel inside the region of [u]
    that carries [u] now carries [v], every other voxel keeps its label;
    descriptors, target and graph are untouched. *)
Theorem merge_segmentation_relabels (u v : Z) (s : state) (roi_u : Roi.t)
    (sh : coord) (n : nat) :
  node_roi (rag s) !! u = Some roi_u ->
  ashape (segmentation s) = sh -> length sh = n -> roi_dim n roi_u ->
  (forall k : nat, (k < n)%nat ->
     0 <= ax sh k /\ 0 <= lo roi_u k /\ 0 <= ax (Roi.shape roi_u) k) ->
  exists s',
    merge_segmentation u v s = Done tt s' /\
    s' = set_segmentation (segmentation s') s /\
    ashape (segmentation s') = sh /\
    forall p, in_shape sh p = true ->
      adata (segmentation s') p
      = if Roi.containsb roi_u p && (adata (segmentation s) p =? u)
        then v else adata (segmentation s) p.
Proof.
  intros Hu Hsh Hn Hr Hb.
  pose proof (merge_segmentation_spec u v s roi_u sh n Hu Hsh Hn Hr Hb) as H.
  cbv zeta in H. rewrite (merge_segmentation_done u v s roi_u sh n) in * by assumption.
  cbn [final_state] in H. eexists. split; [reflexivity|exact H].
Qed.

Lemma merge_segmentation_relabels_witness :
  exists s',
    merge_segmentation 1 2 two_fragments_state = Done tt s' /\
    s' = set_segmentation (segmentation s') two_fragments_state /\
    ashape (segmentation s') = [2; 4] /\
    forall p, in_shape [2; 4] p = true ->
      adata (segmentation s') p
      = if Roi.containsb (Roi.mk [0; 0] [2; 2]) p && (adata two_fragments p =? 1)
        then 2 else adata two_fragments p.
Proof.
  apply (merge_segmentation_relabels 1 2 two_fragments_state (Roi.mk [0; 0] [2; 2]) [2; 4] 2).
  - vm_compute. reflexivity.
  - reflexivity.
  - reflexivity.
  - split; reflexivity.
  - intros [|[|k]] Hk; vm_compute; repeat split; try discriminate; lia.
Defined.

Lemma frames_merge_segmentation (u v : Z) :
  frames (fun s s' => s' = set_locals (locals s') (set_segmentation (segmentation s') s))
         (merge_segmentation u v) (fun _ => True).
Proof.
  intros s. unfold merge_segmentation, call, bind, node_get.
  destruct (node_roi (rag (set_locals [] s)) !! u) as [roi|]; [|now destruct s].
  cbn [whole]. unfold getitem. destruct (_ <? _)%nat; [now destruct s|].
  cbn [ret raise value_of]. unfold setitem_mask.
  destruct (decide _); cbn [modify raise]; [|now destruct s].
  split; [|exact I]. now destruct s.
Qed.

(** The part of [merge_nodes] after the relabelling: it changes at most
    the values of the live descriptors and the attributes of the graph. *)
Lemma frames_merge_nodes_rest (u v : Z) :
  frames same_volume
    (rois <- get_lsds_edge_rois u v ;;
     let change_roi := fst rois in
     let context_roi := snd rois in
     seg0 <- whole Segmentation ;;
     segmentation <- getitem seg0 (Roi.to_slices context_roi) ;;
     let lsds_slice := full_slice :: Roi.to_slices change_roi in
     let change_in_context_roi := Roi.sub change_roi (Roi.get_begin context_roi) in
     segv <- value_of segmentation ;;
     lsds_merged <- extract segv (Some change_in_context_roi) [v] ;;
     m <- getitem segmentation (Roi.to_slices change_in_context_roi) ;;
     mv <- value_of m ;;
     let v_mask := eq_scalar mv v in
     l0 <- whole Lsds ;;
     l <- getitem l0 lsds_slice ;;
     setitem_cols l v_mask lsds_merged ;;;
     roi_u <- node_get node_roi u ;;
     roi_v <- node_get node_roi v ;;
     set_node_roi v (Roi.union roi_u roi_v) ;;;
     score_v <- node_get node_score v ;;
     score_u <- node_get node_score u ;;
     weight <- edge_get_weight u v ;;
     set_node_score v (score_v + score_u + weight))
    (fun _ => True).
Proof.
  pose proof same_volume_trans as T. pose proof same_volume_nl as N.
  assert (G : forall s s', same_graph s s' -> same_volume s s') by (now intros s s' [H _]).
  assert (Hrag : forall (f : RAG -> RAG) s,
             nodes (f (rag s)) = nodes (rag s) -> edges (f (rag s)) = edges (rag s) ->
             same_volume s (set_rag (f (rag s)) s)) by (intros f s H1 H2; repeat split; assumption).
  eapply frames_bind; [exact T|apply frames_of_keeps, keeps_get_lsds_edge_rois; exact N|].
  intros rois _. cbv zeta.
  eapply frames_bind; [exact T|apply frames_of_keeps, keeps_whole; exact N|]. intros seg0 _.
  eapply frames_bind; [exact T|apply frames_of_keeps, keeps_getitem; exact N|]. intros seg1 _.
  eapply frames_bind; [exact T|apply frames_of_keeps, keeps_value_of; exact N|]. intros segv _.
  eapply frames_bind; [exact T|apply frames_of_keeps, keeps_extract; exact N|]. intros d _.
  eapply frames_bind; [exact T|apply frames_of_keeps, keeps_getitem; exact N|]. intros m _.
  eapply frames_bind; [exact T|apply frames_of_keeps, keeps_value_of; exact N|]. intros mv _.
  eapply frames_bind; [exact T|apply frames_of_keeps, keeps_whole; exact N|]. intros l0 Hl0.
  eapply frames_bind; [exact T|apply frames_of_keeps, keeps_getitem; exact N|]. intros l Hl.
  eapply frames_bind; [exact T| |].
  { eapply frames_mono; [exact G|]. apply frames_setitem_cols_lsds. congruence. }
  intros _ _.
  eapply frames_bind; [exact T|apply frames_of_keeps, keeps_node_get; exact N|]. intros roi_u _.
  eapply frames_bind; [exact T|apply frames_of_keeps, keeps_node_get; exact N|]. intros roi_v _.
  eapply frames_bind; [exact T| |].
  { instantiate (1 := fun _ => True). intros s. unfold set_node_roi.
    destruct (bool_decide _); repeat split. }
  intros _ _.
  eapply frames_bind; [exact T|apply frames_of_keeps, keeps_node_get; exact N|]. intros sv _.
  eapply frames_bind; [exact T|apply frames_of_keeps, keeps_node_get; exact N|]. intros su _.
  eapply frames_bind; [exact T| |].
  { instantiate (1 := fun _ => True). intros s. unfold edge_get_weight.
    destruct (_ !! _); repeat split. }
  intros w _. intros s. unfold set_node_score. destruct (bool_decide _); repeat split.
Qed.

Lemma call_set_locals {A} (m : M A) (l : list ndarray) (s : state) :
  call m (set_locals l s)
  = match call m s with
    | Done a s' => Done a (set_locals l s')
    | Raised e s' => Raised e (set_locals l s')
    end.
Proof.
  unfold call. change (set_locals [] (set_locals l s)) with (set_locals [] s).
  now destruct (m (set_locals [] s)).
Qed.

Lemma merge_nodes_steps (u v : Z) (s : state) :
  exists rest : M unit,
    frames same_volume rest (fun _ => True) /\
    merge_nodes u v s
    = match merge_segmentation u v s with
      | Done _ s2 =>
          match rest (set_locals [] s2) with
          | Done a s3 => Done a (set_locals (locals s) s3)
          | Raised e s3 => Raised e (set_locals (locals s) s3)
          end
      | Raised e s2 => Raised e (set_locals (locals s) s2)
      end.
Proof.
  eexists. split; [apply (frames_merge_nodes_rest u v)|].
  unfold merge_nodes, call. unfold bind at 1.
  unfold merge_segmentation at 1. rewrite call_set_locals. fold (merge_segmentation u v).
  destruct (merge_segmentation u v s) as [[] s2|e s2]; reflexivity.
Qed.

(** X7: whether [merge_nodes u v] returns or raises, it adds or removes
    no node and no edge of the graph, keeps the fragments, the target and
    the shape of the live descriptors, and leaves the segmentation exactly
    as [merge_segmentation u v] leaves it: when a later step raises, the
    relabelling is not undone. *)
Theorem merge_nodes_frame (u v : Z) (s : state) :
  let s' := final_state (merge_nodes u v s) in
  segmentation s' = segmentation (final_state (merge_segmentation u v s)) /\
  nodes (rag s') = nodes (rag s) /\ edges (rag s') = edges (rag s) /\
  fragments s' = fragments s /\ target_lsds s' = target_lsds s /\
  ashape (lsds s') = ashape (lsds s) /\ locals s' = locals s.
Proof.
  intros s'. subst s'.
  destruct (merge_nodes_steps u v s) as (rest & Hrest & ->).
  pose proof (frames_merge_segmentation u v s) as H2.
  destruct (merge_segmentation u v s) as [[] s2|e2 s2]; cbn [final_state] in *.
  - destruct H2 as [H2 _]. specialize (Hrest (set_locals [] s2)).
    assert (H : same_volume (set_locals [] s2)
                  (final_state (rest (set_locals [] s2)))).
    { destruct (rest (set_locals [] s2)); [now destruct Hrest|exact Hrest]. }
    assert (E : forall o : outcome unit,
              final_state match o with
                          | Done a s3 => Done a (set_locals (locals s) s3)
                          | Raised e s3 => Raised e (set_locals (locals s) s3)
                          end = set_locals (locals s) (final_state o))
      by (now intros []).
    rewrite E. destruct H as (A1 & A2 & A3 & A4 & A5 & A6 & A7 & A8 & A9).
    assert (F : fragments s2 = fragments s /\ target_lsds s2 = target_lsds s /\
                rag s2 = rag s /\ lsds s2 = lsds s) by (rewrite H2; repeat split).
    destruct F as (F1 & F2 & F3 & F4).
    cbn [set_locals segmentation rag fragments target_lsds lsds locals] in *.
    repeat split; congruence.
  - rewrite H2.
    cbn [set_locals set_segmentation segmentation rag fragments target_lsds lsds locals].
    repeat split.
Qed.

(** X8: a merge that runs to its end, in full.  The segmentation has [u]
    replaced by [v] inside the region of [u]; the live descriptors take
    the extractor's output at the voxels of the change region that now
    carry [v] and keep their value elsewhere; in the graph only the region
    of [v] (now the union of both regions) and the score of [v] change:
    the attributes of [u] and of every other node, the labels and the
    edge weights are as before. *)
Theorem merge_nodes_spec (u v su sv w : Z) (s : state) (roi_u roi_v : Roi.t)
    (sh c : coord) (C : Z) (d : ndarray) (n : nat) :
  node_roi (rag s) !! u = Some roi_u -> node_roi (rag s) !! v = Some roi_v ->
  Roi.proper n roi_u -> Roi.proper n roi_v ->
  (forall k : nat, (k < n)%nat -> 0 <= lo roi_u k /\ 0 <= lo roi_v k) ->
  ashape (segmentation s) = sh -> length sh = n ->
  (forall k : nat, (k < n)%nat -> 0 <= ax sh k) ->
  voxel_context (context s) (voxel_size s) = Some c -> length c = n ->
  (forall k : nat, (k < n)%nat -> 0 <= ax c k) ->
  0 <= C -> ashape (lsds s) = C :: sh ->
  v ∈ nodes (rag s) ->
  node_score (rag s) !! u = Some su -> node_score (rag s) !! v = Some sv ->
  edge_weight (rag s) !! ekey u v = Some w ->
  let rois := lsds_edge_rois roi_u roi_v (total_roi_of (segmentation s)) c in
  let rel := Roi.sub (fst rois) (Roi.get_begin (snd rois)) in
  let seg1 := segmentation (final_state (merge_segmentation u v s)) in
  get_descriptors (lsd_extractor s) (roi_slice seg1 (snd rois)) (Some rel) [v] (voxel_size s)
  = Some d ->
  ashape d = C :: Roi.shape rel ->
  exists s',
    merge_nodes u v s = Done tt s' /\
    (forall p, in_shape sh p = true ->
       adata (segmentation s') p
       = if Roi.containsb roi_u p && (adata (segmentation s) p =? u)
         then v else adata (segmentation s) p) /\
    (forall ch p, in_shape (C :: sh) (ch :: p) = true ->
       adata (lsds s') (ch :: p)
       = if Roi.containsb (fst rois) p && (adata (segmentation s') p =? v)
         then adata d (ch :: csub p (Roi.get_begin (fst rois)))
         else adata (lsds s) (ch :: p)) /\
    node_roi (rag s') = <[v := Roi.union roi_u roi_v]> (node_roi (rag s)) /\
    node_score (rag s') = <[v := sv + su + w]> (node_score (rag s)) /\
    node_labels (rag s') = node_labels (rag s) /\
    edge_weight (rag s') = edge_weight (rag s).
Proof.
  intros Hu Hv Hpu Hpv Hlo Hsh Hn Hsh0 Hc Hcl Hc0 HC Hl Hvn Hsu Hsv Hw rois rel seg1 Hd Hds.
  destruct (merge_nodes_done u v su sv w s roi_u roi_v sh c C d n) as
    (s' & Hrun & Hseg & _ & Hlsds & Hrag & _); try assumption.
  fold rois in Hlsds. fold seg1 in Hseg, Hlsds.
  exists s'. split; [exact Hrun|]. split; [|split].
  - intros p Hp. rewrite Hseg. unfold seg1.
    pose proof (proper_dim _ _ Hpu) as Hdu.
    destruct (merge_segmentation_spec u v s roi_u sh n Hu Hsh Hn Hdu) as (_ & _ & Hpt).
    { intros k Hk. specialize (Hlo k Hk). specialize (Hsh0 k Hk).
      destruct Hpu as (_ & _ & Hpos). specialize (Hpos k Hk). lia. }
    exact (Hpt p Hp).
  - intros ch p Hp. rewrite Hseg. exact (Hlsds ch p Hp).
  - rewrite Hrag. repeat split.
Qed.

Lemma merge_nodes_spec_witness :
  let rois := lsds_edge_rois (Roi.mk [0; 0] [2; 2]) (Roi.mk [0; 2] [2; 2])
                (total_roi_of two_fragments) [1; 1] in
  let rel := Roi.sub (fst rois) (Roi.get_begin (snd rois)) in
  let seg1 := segmentation (final_state (merge_segmentation 1 2 two_fragments_state)) in
  let d := descriptors_of indicator_extractor (roi_slice seg1 (snd rois)) (Some rel)
             [2] [1; 1] in
  exists s',
    merge_nodes 1 2 two_fragments_state = Done tt s' /\
    (forall p, in_shape [2; 4] p = true ->
       adata (segmentation s') p
       = if Roi.containsb (Roi.mk [0; 0] [2; 2]) p && (adata two_fragments p =? 1)
         then 2 else adata two_fragments p) /\
    (forall ch p, in_shape [2; 2; 4] (ch :: p) = true ->
       adata (lsds s') (ch :: p)
       = if Roi.containsb (fst rois) p && (adata (segmentation s') p =? 2)
         then adata d (ch :: csub p (Roi.get_begin (fst rois)))
         else adata (lsds two_fragments_state) (ch :: p)) /\
    node_roi (rag s')
    = <[2 := Roi.union (Roi.mk [0; 0] [2; 2]) (Roi.mk [0; 2] [2; 2])]>
        (node_roi (rag two_fragments_state)) /\
    node_score (rag s') = <[2 := 4 + 4 + 0]> (node_score (rag two_fragments_state)) /\
    node_labels (rag s') = node_labels (rag two_fragments_state) /\
    edge_weight (rag s') = edge_weight (rag two_fragments_state).
Proof.
  intros rois rel seg1 d.
  apply (merge_nodes_spec 1 2 4 4 0 two_fragments_state (Roi.mk [0; 0] [2; 2])
           (Roi.mk [0; 2] [2; 2]) [2; 4] [1; 1] 2 d 2).
  - vm_compute. reflexivity.
  - vm_compute. reflexivity.
  - repeat split; intros [|[|k]] Hk; vm_compute; try discriminate; try reflexivity; lia.
  - repeat split; intros [|[|k]] Hk; vm_compute; try discriminate; try reflexivity; lia.
  - intros [|[|k]] Hk; vm_compute; repeat split; try discriminate; lia.
  - reflexivity.
  - reflexivity.
  - intros [|[|k]] Hk; vm_compute; try discriminate; lia.
  - reflexivity.
  - reflexivity.
  - intros [|[|k]] Hk; vm_compute; try discriminate; lia.
  - lia.
  - reflexivity.
  - vm_compute. repeat constructor.
  - vm_compute. reflexivity.
  - vm_compute. reflexivity.
  - vm_compute. reflexivity.
  - reflexivity.
  - reflexivity.
Defined.

(** X9: when the region of [u] bounds every voxel that carries [u] and
    [v] is another label, [merge_segmentation u v] leaves no voxel with
    label [u]: a voxel carries [v] afterwards exactly when it carried [u]
    or [v] before, and every other voxel keeps its label. *)
Theorem merge_segmentation_removes_label (u v : Z) (s : state) (roi_u : Roi.t)
    (sh : coord) (n : nat) :
  node_roi (rag s) !! u = Some roi_u ->
  ashape (segmentation s) = sh -> length sh = n -> roi_dim n roi_u ->
  (forall k : nat, (k < n)%nat ->
     0 <= ax sh k /\ 0 <= lo roi_u k /\ 0 <= ax (Roi.shape roi_u) k) ->
  u <> v ->
  (forall p, in_shape sh p = true -> adata (segmentation s) p = u ->
             Roi.containsb roi_u p = true) ->
  let seg' := segmentation (final_state (merge_segmentation u v s)) in
  forall p, in_shape sh p = true ->
    adata seg' p <> u /\
    (adata seg' p = v <-> adata (segmentation s) p = u \/ adata (segmentation s) p = v) /\
    (adata (segmentation s) p <> u -> adata seg' p = adata (segmentation s) p).
Proof.
  intros Hu Hsh Hn Hr Hb Huv Hbound seg' p Hp. unfold seg'.
  destruct (merge_segmentation_spec u v s roi_u sh n Hu Hsh Hn Hr Hb) as (_ & _ & Hpt).
  rewrite (Hpt p Hp).
  destruct (adata (segmentation s) p =? u) eqn:E.
  - apply Z.eqb_eq in E. rewrite (Hbound p Hp E). cbn [andb]. repeat split; auto; congruence.
  - apply Z.eqb_neq in E. rewrite andb_false_r. repeat split; tauto.
Qed.

Lemma merge_segmentation_removes_label_witness :
  let seg' := segmentation (final_state (merge_segmentation 1 2 two_fragments_state)) in
  adata seg' [0; 0] <> 1 /\
  (adata seg' [0; 0] = 2 <-> adata two_fragments [0; 0] = 1 \/ adata two_fragments [0; 0] = 2) /\
  (adata two_fragments [0; 0] <> 1 -> adata seg' [0; 0] = adata two_fragments [0; 0]).
Proof.
  apply (merge_segmentation_removes_label 1 2 two_fragments_state (Roi.mk [0; 0] [2; 2])
           [2; 4] 2).
  - vm_compute. reflexivity.
  - reflexivity.
  - reflexivity.
  - split; reflexivity.
  - intros [|[|k]] Hk; vm_compute; repeat split; try discriminate; lia.
  - discriminate.
  - intros p Hp E. enum_indices Hp; vm_compute in E; try discriminate; reflexivity.
  - reflexivity.
Defined.

(** ** What a failed call leaves behind *)

Lemma raises_clean_of_keeps {A} (m : M A) (Q : A -> Prop) : keeps m Q -> raises_clean m.
Proof. intros H s. specialize (H s). now destruct (m s). Qed.

Lemma raises_clean_bind {A B} (m : M A) (k : A -> M B) (Q : A -> Prop) :
  keeps m Q -> (forall a, Q a -> raises_clean (k a)) -> raises_clean (bind m k).
Proof.
  intros Hm Hk s. unfold bind. specialize (Hm s).
  destruct (m s) as [a s1|e s1]; [|exact Hm].
  destruct Hm as [E Ha]. specialize (Hk a Ha s1).
  destruct (k a s1) as [b s2|e s2]; [exact I|congruence].
Qed.

Lemma raises_clean_call {A} (m : M A) (s : state) :
  raises_clean m ->
  match call m s with
  | Done _ _ => True
  | Raised _ s' => s' = s
  end.
Proof.
  intros H. unfold call. specialize (H (set_locals [] s)).
  destruct (m (set_locals [] s)) as [a s1|e s1]; [exact I|].
  apply state_eq_nl; [|reflexivity]. rewrite nl_set_locals. exact H.
Qed.

Lemma raises_clean_compute_node_score_body (u : Z) :
  raises_clean (
    roi <- node_get node_roi u ;;
    seg0 <- whole Segmentation ;;
    segmentation <- getitem seg0 (Roi.to_slices roi) ;;
    segv <- value_of segmentation ;;
    lsds <- extract segv None [u] ;;
    let u_mask := eq_scalar segv u in
    let lsds_slice := full_slice :: Roi.to_slices roi in
    t0 <- whole TargetLsds ;;
    t <- getitem t0 lsds_slice ;;
    tv <- value_of t ;;
    diff <- (d <- lift_opt ValueError (np_sub tv lsds) ;; alloc d) ;;
    setitem_cols_scalar diff (eq_scalar u_mask 0) 0 ;;;
    l0 <- whole Lsds ;;
    l <- getitem l0 lsds_slice ;;
    setitem_cols l u_mask lsds ;;;
    dv <- value_of diff ;;
    ret (np_sum (np_square dv))).
Proof.
  eapply raises_clean_bind; [apply keeps_node_get|]. intros roi _.
  eapply raises_clean_bind; [apply keeps_whole|]. intros seg0 _.
  eapply raises_clean_bind; [apply keeps_getitem|]. intros seg1 _.
  eapply raises_clean_bind; [apply keeps_value_of|]. intros segv _.
  eapply raises_clean_bind; [apply keeps_extract|]. intros d _. cbv zeta.
  eapply raises_clean_bind; [apply keeps_whole|]. intros t0 _.
  eapply raises_clean_bind; [apply keeps_getitem|]. intros t _.
  eapply raises_clean_bind; [apply keeps_value_of|]. intros tv _.
  eapply raises_clean_bind.
  { eapply keeps_bind; [apply keeps_lift_opt|]. intros x _. apply keeps_alloc. }
  intros diff Hdiff.
  eapply raises_clean_bind; [now apply keeps_setitem_cols_scalar|]. intros _ _.
  eapply raises_clean_bind; [apply keeps_whole|]. intros l0 _.
  eapply raises_clean_bind; [apply keeps_getitem|]. intros l _.
  (* the write to the live descriptors is the last step that can raise *)
  intros s. unfold bind at 1. unfold setitem_cols.
  destruct (ashape d) as [|cb spb]; [reflexivity|].
  destruct (vshape l) as [|cv spv]; [reflexivity|].
  destruct (decide _); [|reflexivity].
  destruct (decide _); [|reflexivity].
  destruct (_ || _); [|reflexivity].
  exact I.
Qed.

(** X10: [compute_node_score] either raises and leaves the whole state
    as it was, or returns and has changed nothing but the values of the
    live descriptors, whose shape it keeps. *)
Theorem compute_node_score_outcome (u : Z) (s : state) :
  match compute_node_score u s with
  | Done _ s' => s' = set_lsds (lsds s') s /\ ashape (lsds s') = ashape (lsds s)
  | Raised _ s' => s' = s
  end.
Proof.
  pose proof (frames_compute_node_score u s) as F.
  assert (L : locals (final_state (compute_node_score u s)) = locals s)
    by apply call_locals.
  assert (R : match compute_node_score u s with
              | Done _ _ => True
              | Raised _ s' => s' = s
              end)
    by (apply raises_clean_call, raises_clean_compute_node_score_body).
  destruct (compute_node_score u s) as [x s'|e s']; [|exact R].
  destruct F as [[(A1 & A2 & A3 & A4 & A5 & A6 & _ & _ & A9) A10] _].
  split; [|exact A9]. cbn [final_state] in L.
  destruct s, s'. unfold set_lsds. cbn in *. subst. reflexivity.
Qed.

(** ** The regions of an edge do not depend on its orientation *)

Lemma zip_with_comm {A B} (f : A -> A -> B) (a b : list A) :
  (forall x y, f x y = f y x) -> zip_with f a b = zip_with f b a.
Proof.
  intros H. revert b. induction a as [|x a IH]; intros [|y b]; try reflexivity.
  cbn [zip_with]. now rewrite H, IH.
Qed.

Lemma separated_comm (a b : Roi.t) : Roi.separated a b = Roi.separated b a.
Proof. unfold Roi.separated. f_equal. apply zip_with_comm. apply orb_comm. Qed.

Lemma intersects_comm (a b : Roi.t) : Roi.intersects a b = Roi.intersects b a.
Proof. unfold Roi.intersects. now rewrite orb_comm, separated_comm. Qed.

Lemma intersect_comm (a b : Roi.t) :
  Roi.dims a = Roi.dims b -> Roi.intersect a b = Roi.intersect b a.
Proof.
  intros H. unfold Roi.intersect. rewrite (intersects_comm b a), H.
  destruct (Roi.intersects a b); [|reflexivity].
  unfold cmax, cmin.
  now rewrite (zip_with_comm Z.max (Roi.get_begin a)), (zip_with_comm Z.min (Roi.get_end a))
    by (intros; lia).
Qed.

Lemma union_comm (a b : Roi.t) : Roi.union a b = Roi.union b a.
Proof.
  unfold Roi.union, cmax, cmin.
  now rewrite (zip_with_comm Z.max (Roi.get_end a)), (zip_with_comm Z.min (Roi.get_begin a))
    by (intros; lia).
Qed.

Lemma lsds_edge_rois_comm (roi_u roi_v total : Roi.t) (c : coord) (n : nat) :
  roi_dim n roi_u -> roi_dim n roi_v -> roi_dim n total -> length c = n ->
  lsds_edge_rois roi_u roi_v total c = lsds_edge_rois roi_v roi_u total c.
Proof.
  intros Hu Hv Ht Hc. unfold lsds_edge_rois.
  destruct (grow_spec roi_u c n Hu Hc) as [Hgu _].
  destruct (grow_spec roi_v c n Hv Hc) as [Hgv _].
  pose proof (intersect_dim _ _ n Hgu Ht) as [_ Hdu].
  pose proof (intersect_dim _ _ n Hgv Ht) as [_ Hdv].
  rewrite (union_comm roi_v roi_u).
  rewrite (intersect_comm (Roi.intersect (Roi.grow roi_v c c) total)
                          (Roi.intersect (Roi.grow roi_u c c) total))
    by (unfold Roi.dims; congruence).
  reflexivity.
Qed.

Lemma get_lsds_edge_rois_zero_voxel (u v : Z) (roi_u roi_v : Roi.t) (s : state) :
  node_roi (rag s) !! u = Some roi_u -> node_roi (rag s) !! v = Some roi_v ->
  voxel_context (context s) (voxel_size s) = None ->
  get_lsds_edge_rois u v s = Raised ZeroDivisionError s.
Proof.
  intros Hu Hv E. unfold get_lsds_edge_rois, call.
  erewrite bind_done; [|apply node_get_done; exact Hu].
  erewrite bind_done; [|apply node_get_done; exact Hv].
  erewrite bind_done; [|reflexivity].
  unfold bind. cbn [context voxel_size set_locals]. rewrite E. cbn [lift_opt raise].
  now destruct s.
Qed.

(** X11: the change and context regions of an edge do not depend on the
    order in which its two nodes are given: for nodes with stored regions
    of the dimension of the volume, [get_lsds_edge_rois u v] and
    [get_lsds_edge_rois v u] have the same outcome. *)
Theorem get_lsds_edge_rois_symmetric (u v : Z) (s : state) (roi_u roi_v : Roi.t) (n : nat) :
  node_roi (rag s) !! u = Some roi_u -> node_roi (rag s) !! v = Some roi_v ->
  roi_dim n roi_u -> roi_dim n roi_v ->
  length (ashape (segmentation s)) = n ->
  length (context s) = n -> length (voxel_size s) = n ->
  get_lsds_edge_rois u v s = get_lsds_edge_rois v u s.
Proof.
  intros Hu Hv Hdu Hdv Hn Hc Hvs.
  destruct (voxel_context (context s) (voxel_size s)) as [c|] eqn:E.
  - rewrite (get_lsds_edge_rois_done u v roi_u roi_v c),
      (get_lsds_edge_rois_done v u roi_v roi_u c) by assumption.
    f_equal. apply (lsds_edge_rois_comm roi_u roi_v _ _ n); try assumption.
    + unfold total_roi_of. split; cbn; [rewrite length_zeros|]; exact Hn.
    + unfold voxel_context in E. destruct (existsb _ _); [discriminate|].
      injection E as <-. rewrite length_zip_with. lia.
  - now rewrite (get_lsds_edge_rois_zero_voxel u v roi_u roi_v),
      (get_lsds_edge_rois_zero_voxel v u roi_v roi_u).
Qed.

Lemma get_lsds_edge_rois_symmetric_witness :
  get_lsds_edge_rois 1 2 two_fragments_state = get_lsds_edge_rois 2 1 two_fragments_state.
Proof.
  apply (get_lsds_edge_rois_symmetric 1 2 two_fragments_state (Roi.mk [0; 0] [2; 2])
           (Roi.mk [0; 2] [2; 2]) 2).
  - vm_compute. reflexivity.
  - vm_compute. reflexivity.
  - split; reflexivity.
  - split; reflexivity.
  - reflexivity.
  - reflexivity.
  - reflexivity.
Defined.

(** X12: a non-empty change region lies inside the volume and inside the
    bounding box of the two node regions; the context region lies inside
    that bounding box too and reaches at most the context radius beyond
    the change region. *)
Theorem edge_rois_bounded (n : nat) (roi_u roi_v : Roi.t) (sh c : coord) :
  Roi.proper n roi_u -> Roi.proper n roi_v ->
  length sh = n -> (forall i : nat, (i < n)%nat -> 0 <= ax sh i) ->
  length c = n -> (forall i : nat, (i < n)%nat -> 0 <= ax c i) ->
  let rois := lsds_edge_rois roi_u roi_v (Roi.mk (zeros n) sh) c in
  Roi.empty (fst rois) = false ->
  forall i : nat, (i < n)%nat ->
    (0 <= lo (fst rois) i /\ hi (fst rois) i <= ax sh i) /\
    (Z.min (lo roi_u i) (lo roi_v i) <= lo (fst rois) i /\
     hi (fst rois) i <= Z.max (hi roi_u i) (hi roi_v i)) /\
    (Z.min (lo roi_u i) (lo roi_v i) <= lo (snd rois) i /\
     hi (snd rois) i <= Z.max (hi roi_u i) (hi roi_v i)) /\
    (lo (fst rois) i - ax c i <= lo (snd rois) i /\
     hi (snd rois) i <= hi (fst rois) i + ax c i).
Proof.
  intros Hu Hv Hsh Hsh0 Hc Hc0 rois Hne i Hi.
  destruct (edge_rois_nonempty n roi_u roi_v sh c Hu Hv Hsh Hsh0 Hc Hc0 Hne) as (_ & _ & H).
  fold rois in H. destruct (H i Hi) as (A1 & A2 & A3 & A4 & A5 & A6 & A7).
  specialize (Hc0 i Hi). repeat split; lia.
Qed.

Lemma edge_rois_bounded_witness :
  let roi_u := Roi.mk [0; 0] [2; 2] in
  let roi_v := Roi.mk [0; 2] [2; 2] in
  let rois := lsds_edge_rois roi_u roi_v (Roi.mk (zeros 2) [2; 4]) [1; 1] in
  (0 <= lo (fst rois) 1 /\ hi (fst rois) 1 <= ax [2; 4] 1) /\
  (Z.min (lo roi_u 1) (lo roi_v 1) <= lo (fst rois) 1 /\
   hi (fst rois) 1 <= Z.max (hi roi_u 1) (hi roi_v 1)) /\
  (Z.min (lo roi_u 1) (lo roi_v 1) <= lo (snd rois) 1 /\
   hi (snd rois) 1 <= Z.max (hi roi_u 1) (hi roi_v 1)) /\
  (lo (fst rois) 1 - ax [1; 1] 1 <= lo (snd rois) 1 /\
   hi (snd rois) 1 <= hi (fst rois) 1 + ax [1; 1] 1).
Proof.
  apply (edge_rois_bounded 2 (Roi.mk [0; 0] [2; 2]) (Roi.mk [0; 2] [2; 2]) [2; 4] [1; 1]).
  - repeat split; intros [|[|k]] Hk; vm_compute; try discriminate; try reflexivity; lia.
  - repeat split; intros [|[|k]] Hk; vm_compute; try discriminate; try reflexivity; lia.
  - reflexivity.
  - intros [|[|k]] Hk; vm_compute; try discriminate; lia.
  - reflexivity.
  - intros [|[|k]] Hk; vm_compute; try discriminate; lia.
  - vm_compute. reflexivity.
  - lia.
Defined.

(** ** The region of change inside the context region *)

Lemma intersect_contains (a b : Roi.t) (n : nat) (q : coord) :
  roi_dim n a -> roi_dim n b ->
  Roi.containsb a q = true -> Roi.containsb b q = true ->
  Roi.containsb (Roi.intersect a b) q = true.
Proof.
  intros Ha Hb Hqa Hqb.
  apply (containsb_spec a q n Ha) in Hqa. apply (containsb_spec b q n Hb) in Hqb.
  destruct Hqa as [Hl Hqa]. destruct Hqb as [_ Hqb].
  assert (Hi : Roi.intersects a b = true).
  { apply (intersects_intro a b n Ha Hb). intros i Hi.
    specialize (Hqa i Hi). specialize (Hqb i Hi). unfold lo, hi in *. lia. }
  destruct (intersect_true a b n Ha Hb Hi) as [Hd Hax].
  apply (containsb_spec _ q n Hd). split; [exact Hl|].
  intros k Hk. destruct (Hax k Hk) as (E1 & E2 & _).
  specialize (Hqa k Hk). specialize (Hqb k Hk). lia.
Qed.

(** With a context of at least one voxel on every axis, the region of
    change of two regions that touch contains the voxel in which they
    touch. *)
Lemma touching_change_contains (n : nat) (roi_u roi_v : Roi.t) (sh c p q : coord) :
  roi_dim n roi_u -> roi_dim n roi_v -> length sh = n -> length c = n ->
  (forall i : nat, (i < n)%nat -> 1 <= ax c i) ->
  in_shape sh q = true ->
  Roi.containsb roi_u p = true -> Roi.containsb roi_v q = true ->
  (forall i : nat, (i < n)%nat -> ax p i - 1 <= ax q i <= ax p i + 1) ->
  Roi.containsb (fst (lsds_edge_rois roi_u roi_v (Roi.mk (zeros n) sh) c)) q = true.
Proof.
  intros Hu Hv Hsh Hc Hc1 Hq Hpu Hqv Hpq.
  apply (containsb_spec roi_u p n Hu) in Hpu. destruct Hpu as [Hlp Hpu].
  pose proof (proj1 (containsb_spec roi_v q n Hv) Hqv) as [Hlq Hqv'].
  apply in_shape_spec in Hq. destruct Hq as [_ Hq]. rewrite Hsh in Hq.
  destruct (grow_spec roi_u c n Hu Hc) as [Hgu Hgu'].
  destruct (grow_spec roi_v c n Hv Hc) as [Hgv Hgv'].
  destruct (union_spec roi_u roi_v n Hu Hv) as [Hun Hun'].
  assert (Ht : roi_dim n (Roi.mk (zeros n) sh))
    by (split; [apply length_zeros|exact Hsh]).
  assert (Q1 : Roi.containsb (Roi.grow roi_u c c) q = true).
  { apply (containsb_spec _ q n Hgu). split; [exact Hlq|]. intros k Hk.
    destruct (Hgu' k Hk) as (E1 & E2 & _).
    specialize (Hpu k Hk). specialize (Hpq k Hk). specialize (Hc1 k Hk). lia. }
  assert (Q2 : Roi.containsb (Roi.grow roi_v c c) q = true).
  { apply (containsb_spec _ q n Hgv). split; [exact Hlq|]. intros k Hk.
    destruct (Hgv' k Hk) as (E1 & E2 & _).
    specialize (Hqv' k Hk). specialize (Hc1 k Hk). lia. }
  assert (Q3 : Roi.containsb (Roi.mk (zeros n) sh) q = true).
  { apply (containsb_spec _ q n Ht). split; [exact Hlq|]. intros k Hk.
    specialize (Hq k Hk). unfold lo, hi. cbn [Roi.offset Roi.shape]. rewrite ax_zeros. lia. }
  assert (Q4 : Roi.containsb (Roi.union roi_u roi_v) q = true).
  { apply (containsb_spec _ q n Hun). split; [exact Hlq|]. intros k Hk.
    destruct (Hun' k Hk) as (E1 & E2). specialize (Hqv' k Hk). lia. }
  unfold lsds_edge_rois. cbv zeta. cbn [fst].
  apply (intersect_contains _ _ n); [| exact Hun | | exact Q4].
  - apply intersect_dim; apply intersect_dim; assumption.
  - apply (intersect_contains _ _ n); try (apply intersect_dim; assumption);
      apply (intersect_contains _ _ n); assumption.
Qed.

(** Without a context on some axis, the context region of the empty
    region of change is the empty region too. *)
Lemma context_of_empty_change (n k : nat) (c : coord) (r : Roi.t) :
  length c = n -> (k < n)%nat -> ax c k = 0 ->
  Roi.intersect (Roi.grow (Roi.mk (zeros n) (zeros n)) c c) r
  = Roi.mk (zeros n) (zeros n).
Proof.
  intros Hc Hk H0.
  assert (Hz : roi_dim n (Roi.mk (zeros n) (zeros n)))
    by (split; apply length_zeros).
  destruct (grow_spec _ c n Hz Hc) as [[_ Hd] Hg].
  assert (E : Roi.empty (Roi.grow (Roi.mk (zeros n) (zeros n)) c c) = true).
  { destruct (Roi.empty _) eqn:E; [reflexivity|exfalso].
    pose proof (proj1 (roi_empty_false _) E k) as Hne. rewrite Hd in Hne.
    apply (Hne Hk). destruct (Hg k Hk) as (_ & _ & ->).
    cbn [Roi.shape]. rewrite ax_zeros, H0. reflexivity. }
  rewrite intersect_false; [|unfold Roi.intersects; now rewrite E].
  unfold Roi.dims. now rewrite Hd.
Qed.

(** C10: for the regions of two nodes that touch, as the regions of the
    two ends of every edge do, each with a positive extent and a
    non-negative begin, and a non-negative context, the region of change
    lies inside the context region; relative to the begin of the context
    region it has non-negative offsets and ends within the shape of the
    context region.  The slice of the volume at the context region begins
    at the begin of that region, and the relative region is in bounds of
    that slice as the volume clips it; the region of change itself is in
    bounds of the volume, so that every slice taken with either is taken
    as it is, without clipping or wrap-around. *)
Theorem change_roi_inside_context_roi (n : nat) (roi_u roi_v : Roi.t) (sh c : coord) :
  Roi.proper n roi_u -> Roi.proper n roi_v ->
  (forall i : nat, (i < n)%nat -> 0 <= lo roi_u i /\ 0 <= lo roi_v i) ->
  length sh = n -> (forall i : nat, (i < n)%nat -> 0 <= ax sh i) ->
  length c = n -> (forall i : nat, (i < n)%nat -> 0 <= ax c i) ->
  regions_touch sh roi_u roi_v ->
  let rois := lsds_edge_rois roi_u roi_v (Roi.mk (zeros n) sh) c in
  let rel := Roi.sub (fst rois) (Roi.get_begin (snd rois)) in
  let csh := window_shape sh (snd rois) in
  forall i : nat, (i < n)%nat ->
    (lo (snd rois) i <= lo (fst rois) i /\ hi (fst rois) i <= hi (snd rois) i) /\
    (0 <= lo rel i /\ hi rel i <= ax (Roi.shape (snd rois)) i) /\
    (slice_bound (ax (Roi.shape (snd rois)) i) (lo rel i) = lo rel i /\
     slice_bound (ax (Roi.shape (snd rois)) i) (hi rel i) = hi rel i) /\
    (ax (window_off sh (snd rois)) i = lo (snd rois) i /\
     slice_bound (ax csh i) (lo rel i) = lo rel i /\
     slice_bound (ax csh i) (hi rel i) = hi rel i) /\
    (slice_bound (ax sh i) (lo (fst rois) i) = lo (fst rois) i /\
     slice_bound (ax sh i) (hi (fst rois) i) = hi (fst rois) i).
Proof.
  intros Hu Hv Hlo Hsh Hsh0 Hc Hc0 (p & q & Hp & Hq & Hpu & Hqv & Hpq) rois rel csh i Hi.
  rewrite Hsh in Hpq.
  assert (Hs : snd rois
               = Roi.intersect (Roi.grow (fst rois) c c) (Roi.union roi_u roi_v))
    by reflexivity.
  destruct (change_roi_cases n roi_u roi_v sh c Hu Hv Hsh Hsh0 Hc Hc0) as [Hz|Hp'].
  - (* the region of change is empty: so is the context region *)
    fold rois in Hz.
    assert (Hx : snd rois = Roi.mk (zeros n) (zeros n)).
    { destruct (decide (Forall (fun x => 1 <= x) c)) as [Hall|Hnot].
      - exfalso.
        assert (Hin : Roi.containsb (fst rois) q = true).
        { apply (touching_change_contains n roi_u roi_v sh c p q); try assumption;
            try (now apply proper_dim).
          intros k Hk. rewrite Forall_lookup in Hall. apply (Hall k).
          apply lookup_ax. lia. }
        rewrite Hz in Hin.
        apply (containsb_spec _ q n) in Hin; [|split; apply length_zeros].
        destruct Hin as [_ Hin]. specialize (Hin i Hi).
        unfold lo, hi in Hin. cbn [Roi.offset Roi.shape] in Hin.
        rewrite ax_zeros in Hin. lia.
      - apply not_Forall_Exists in Hnot; [|intros x; apply _].
        apply Exists_exists in Hnot. destruct Hnot as (x & Hx & Hx1).
        apply list_elem_of_lookup_1 in Hx. destruct Hx as [k Hk].
        assert (Hkn : (k < n)%nat) by (rewrite <- Hc; eapply lookup_lt_Some; exact Hk).
        rewrite Hs, Hz. apply (context_of_empty_change n k c _ Hc Hkn).
        assert (Hxk : ax c k = x) by (unfold ax; now rewrite Hk).
        specialize (Hc0 k Hkn). rewrite Hxk in *. unfold compose in Hx1. lia. }
    assert (Hr : forall k : nat, (k < n)%nat -> lo rel k = 0 /\ hi rel k = 0).
    { intros k Hk. unfold rel. rewrite Hz, Hx. unfold lo, hi, Roi.sub, Roi.get_begin.
      cbn [Roi.offset Roi.shape]. unfold csub.
      rewrite ax_zip_with by (rewrite length_zeros; exact Hk). rewrite ax_zeros. lia. }
    destruct (Hr i Hi) as [-> ->].
    assert (Hdz : roi_dim n (Roi.mk (zeros n) (zeros n))) by (split; apply length_zeros).
    unfold csh. rewrite Hx, Hz.
    rewrite (ax_window_off sh _ n i Hsh Hdz Hi), (ax_window_shape sh _ n i Hsh Hdz Hi).
    unfold lo, hi. cbn [Roi.offset Roi.shape]. rewrite !ax_zeros.
    specialize (Hsh0 i Hi). unfold slice_bound. rewrite !Z.add_0_l.
    change (0 <? 0) with false. cbv iota.
    repeat split; lia.
  - (* the region of change is not empty *)
    fold rois in Hp'. pose proof (proper_nonempty n _ Hp') as Hne.
    destruct (change_roi_inside_nonempty n roi_u roi_v sh c Hu Hv Hsh Hsh0 Hc Hc0 Hne i Hi)
      as (B1 & B2 & B3).
    fold rois in B1, B2, B3. fold rel in B2, B3.
    split; [exact B1|]. split; [exact B2|]. split; [exact B3|].
    destruct (edge_rois_nonempty n roi_u roi_v sh c Hu Hv Hsh Hsh0 Hc Hc0 Hne)
      as (Hdc & Hdx & Hax).
    fold rois in Hdc, Hdx, Hax.
    destruct (Hax i Hi) as (A1 & A2 & A3 & A4 & A5 & A6 & A7).
    specialize (Hlo i Hi). specialize (Hc0 i Hi). specialize (Hsh0 i Hi).
    unfold csh.
    rewrite (ax_window_off sh _ n i Hsh Hdx Hi), (ax_window_shape sh _ n i Hsh Hdx Hi).
    destruct B1 as [B1 B1']. destruct B2 as [B2 B2'].
    assert (Hlr : lo rel i = lo (fst rois) i - lo (snd rois) i).
    { unfold rel, lo, Roi.sub, Roi.get_begin. cbn [Roi.offset]. unfold csub.
      destruct Hdc as [Hdc _]. destruct Hdx as [Hdx _].
      rewrite ax_zip_with by lia. reflexivity. }
    assert (Hhr : hi rel i = hi (fst rois) i - lo (snd rois) i).
    { unfold hi. fold (lo rel i). rewrite Hlr. unfold rel, Roi.sub. cbn [Roi.shape].
      unfold lo. lia. }
    assert (L0 : 0 <= lo (snd rois) i) by lia.
    assert (S1 : slice_bound (ax sh i) (lo (snd rois) i) = lo (snd rois) i)
      by (apply slice_bound_inside; lia).
    assert (S2 : slice_bound (ax sh i) (hi (snd rois) i)
                 = Z.min (hi (snd rois) i) (ax sh i)).
    { unfold slice_bound. destruct (hi (snd rois) i <? 0) eqn:E; [lia|reflexivity]. }
    rewrite S1, S2.
    split; [split; [reflexivity|split; apply slice_bound_inside; lia]|].
    split; apply slice_bound_inside; lia.
Qed.

Lemma change_roi_inside_context_roi_witness :
  let rois := lsds_edge_rois (Roi.mk [0; 0] [2; 2]) (Roi.mk [0; 2] [2; 2])
                (Roi.mk (zeros 2) [2; 4]) [1; 1] in
  let rel := Roi.sub (fst rois) (Roi.get_begin (snd rois)) in
  let csh := window_shape [2; 4] (snd rois) in
  (lo (snd rois) 1 <= lo (fst rois) 1 /\ hi (fst rois) 1 <= hi (snd rois) 1) /\
  (0 <= lo rel 1 /\ hi rel 1 <= ax (Roi.shape (snd rois)) 1) /\
  (slice_bound (ax (Roi.shape (snd rois)) 1) (lo rel 1) = lo rel 1 /\
   slice_bound (ax (Roi.shape (snd rois)) 1) (hi rel 1) = hi rel 1) /\
  (ax (window_off [2; 4] (snd rois)) 1 = lo (snd rois) 1 /\
   slice_bound (ax csh 1) (lo rel 1) = lo rel 1 /\
   slice_bound (ax csh 1) (hi rel 1) = hi rel 1) /\
  (slice_bound (ax [2; 4] 1) (lo (fst rois) 1) = lo (fst rois) 1 /\
   slice_bound (ax [2; 4] 1) (hi (fst rois) 1) = hi (fst rois) 1).
Proof.
  apply (change_roi_inside_context_roi 2 (Roi.mk [0; 0] [2; 2]) (Roi.mk [0; 2] [2; 2])
           [2; 4] [1; 1]).
  - repeat split; intros [|[|i]] Hi; vm_compute; try reflexivity; lia.
  - repeat split; intros [|[|i]] Hi; vm_compute; try reflexivity; lia.
  - intros [|[|i]] Hi; vm_compute; try lia; split; discriminate.
  - reflexivity.
  - intros [|[|i]] Hi; vm_compute; try discriminate; lia.
  - reflexivity.
  - intros [|[|i]] Hi; vm_compute; try discriminate; lia.
  - exists [0; 1], [0; 2]. repeat split; try reflexivity;
      destruct i as [|[|i]]; vm_compute; try discriminate; cbn in H; lia.
  - lia.
Defined.

(** The regions that the construction stores for the two ends of an edge
    touch: they hold the two neighbouring voxels that made the edge. *)
Lemma init_edge_regions_touch (frag target : ndarray) (ex : LsdExtractor)
    (vs : option coord) (a b : Z) (ra rb : Roi.t) :
  0 < downsample ex ->
  let s' := final_state (init frag target ex vs) in
  has_edge (rag s') a b = true ->
  node_roi (rag s') !! a = Some ra -> node_roi (rag s') !! b = Some rb ->
  regions_touch (ashape frag) ra rb.
Proof.
  intros Hd s' He Ha Hb.
  destruct (init_frame frag target ex vs) as (_ & _ & Hedges & Hreg).
  fold s' in Hedges, Hreg.
  assert (Ht : touchingb frag 2 a b = true).
  { apply (has_edge_RAG_new frag 2 a b). rewrite has_edge_spec in *. now rewrite <- Hedges. }
  apply touchingb_spec in Ht. destruct Ht as (p & d & Hp & Hdd & Hq & Hpa & Hqb).
  apply elem_of_generate_binary_structure in Hdd. destruct Hdd as (Hld & Hu & _).
  destruct (initial_region_spec frag ex a ra (Hreg a ra Ha) Hd) as [Hda Hba].
  destruct (initial_region_spec frag ex b rb (Hreg b rb Hb) Hd) as [Hdb Hbb].
  pose proof (in_shape_length _ _ Hp) as Hlp. pose proof (in_shape_length _ _ Hq) as Hlq.
  exists p, (cadd p d). split; [exact Hp|]. split; [exact Hq|]. split; [|split].
  - apply (containsb_spec ra p _ Hda). split; [exact Hlp|].
    intros k Hk. destruct (Hba k Hk) as [H _]. apply H. now split.
  - apply (containsb_spec rb _ _ Hdb). split; [exact Hlq|].
    intros k Hk. destruct (Hbb k Hk) as [H _]. apply H. now split.
  - intros i Hi. unfold cadd. rewrite ax_zip_with by lia.
    rewrite Forall_lookup in Hu.
    assert (Hs : unit_step (ax d i)) by (apply (Hu i), lookup_ax; lia).
    unfold unit_step in Hs. lia.
Qed.



(** X13: the two ends of every edge of the graph of the constructed
    agglomerator are different labels and both are nodes of the graph,
    so the loops that score the edges find both nodes. *)
Theorem init_edge_ends (frag target : ndarray) (ex : LsdExtractor) (vs : option coord)
    (a b : Z) :
  let g := rag (final_state (init frag target ex vs)) in
  (a, b) ∈ edges g -> a <> b /\ a ∈ nodes g /\ b ∈ nodes g.
Proof.
  intros g Hab. destruct (init_frame frag target ex vs) as (_ & Hn & He & _).
  fold g in Hn, He. rewrite Hn. rewrite He in Hab.
  assert (H : has_edge (RAG_new frag 2) a b = true) by (apply has_edge_spec; now left).
  apply has_edge_RAG_new in H. destruct H as [Hne Ht].
  split; [exact Hne|]. split; apply nodes_RAG_new.
  - exists b. now split.
  - exists a. split; [congruence|now apply touchingb_sym].
Qed.

Lemma init_edge_ends_witness :
  let g := rag two_fragments_state in
  1 <> 2 /\ 1 ∈ nodes g /\ 2 ∈ nodes g.
Proof.
  apply (init_edge_ends two_fragments constant_target indicator_extractor None 1 2).
  vm_compute. repeat constructor.
Defined.

(** X14: a node without a stored region.  Scoring it, scoring an edge
    that starts at it, relabelling it and merging it all raise
    [KeyError], and none of them changes the state. *)
Theorem missing_region_raises (u v : Z) (s : state) :
  node_roi (rag s) !! u = None ->
  compute_node_score u s = Raised KeyError s /\
  compute_edge_score u v s = Raised KeyError s /\
  merge_segmentation u v s = Raised KeyError s /\
  merge_nodes u v s = Raised KeyError s.
Proof.
  intros H.
  assert (Hs : set_locals (locals s) (set_locals [] s) = s) by (now destruct s).
  assert (Hm : merge_segmentation u v s = Raised KeyError s).
  { unfold merge_segmentation, call, bind, node_get. cbn [rag set_locals]. rewrite H.
    now rewrite Hs. }
  split; [|split; [|split; [exact Hm|]]].
  - unfold compute_node_score, call, bind, node_get. cbn [rag set_locals]. rewrite H.
    now rewrite Hs.
  - unfold compute_edge_score, call. unfold bind at 1.
    unfold get_lsds_edge_rois, call, bind, node_get. cbn [rag set_locals]. rewrite H.
    cbn [set_locals locals]. now destruct s.
  - unfold merge_nodes, call. unfold bind at 1.
    unfold merge_segmentation at 1. rewrite call_set_locals.
    fold (merge_segmentation u v). rewrite Hm. now rewrite Hs.
Qed.

Lemma missing_region_raises_witness :
  compute_node_score 5 two_fragments_state = Raised KeyError two_fragments_state /\
  compute_edge_score 5 1 two_fragments_state = Raised KeyError two_fragments_state /\
  merge_segmentation 5 1 two_fragments_state = Raised KeyError two_fragments_state /\
  merge_nodes 5 1 two_fragments_state = Raised KeyError two_fragments_state.
Proof.
  apply (missing_region_raises 5 1 two_fragments_state).
  vm_compute. reflexivity.
Defined.

(** ** Conditions under which the methods return *)

Lemma compute_node_score_returns (u : Z) (s : state) (roi : Roi.t) (sh : coord) (C : Z)
    (d : ndarray) (n : nat) :
  node_roi (rag s) !! u = Some roi ->
  ashape (segmentation s) = sh -> length sh = n -> roi_dim n roi ->
  0 <= C -> ashape (target_lsds s) = C :: sh -> ashape (lsds s) = C :: sh ->
  get_descriptors (lsd_extractor s)
    (slice_of (segmentation s) (window_off sh roi) (window_shape sh roi)) None [u] (voxel_size s)
  = Some d ->
  ashape d = C :: window_shape sh roi ->
  exists x s', compute_node_score u s = Done x s'.
Proof.
  intros Hroi Hsh Hn Hr HC Ht Hl Hd Hds.
  unfold compute_node_score, call.
  erewrite bind_done; [|apply node_get_done; exact Hroi].
  erewrite bind_done; [|apply whole_done; simpl; exact Hsh]. rewrite Hn.
  erewrite bind_done; [|apply getitem_roi; assumption].
  erewrite bind_done; [|reflexivity].
  erewrite bind_done; [|apply extract_done; exact Hd].
  erewrite bind_done; [|apply whole_done; simpl; exact Ht]. simpl length. rewrite Hn.
  erewrite bind_done; [|apply getitem_roi_channels; assumption].
  erewrite bind_done; [|reflexivity].
  erewrite bind_done.
  2:{ eapply bind_intro.
      { unfold np_sub. rewrite !ashape_view_val. cbn [vshape].
        rewrite Hds, broadcast_same. reflexivity. }
      reflexivity. }
  erewrite bind_done; [|eapply setitem_cols_scalar_done; reflexivity].
  erewrite bind_done; [|apply whole_done; simpl; exact Hl]. simpl length. rewrite Hn.
  erewrite bind_done; [|apply getitem_roi_channels; assumption].
  erewrite bind_done; [|eapply setitem_cols_done; [exact Hds|reflexivity]].
  erewrite bind_done; [|reflexivity].
  unfold ret. eexists. eexists. reflexivity.
Qed.

Lemma compute_edge_score_returns (u v : Z) (s : state) (roi_u roi_v : Roi.t)
    (sh c : coord) (C : Z) (n : nat) :
  node_roi (rag s) !! u = Some roi_u -> node_roi (rag s) !! v = Some roi_v ->
  Roi.proper n roi_u -> Roi.proper n roi_v ->
  (forall k : nat, (k < n)%nat -> 0 <= lo roi_u k /\ 0 <= lo roi_v k) ->
  ashape (segmentation s) = sh -> length sh = n ->
  (forall k : nat, (k < n)%nat -> 0 <= ax sh k) ->
  voxel_context (context s) (voxel_size s) = Some c -> length c = n ->
  (forall k : nat, (k < n)%nat -> 0 <= ax c k) ->
  0 <= C -> ashape (target_lsds s) = C :: sh -> ashape (lsds s) = C :: sh ->
  (forall seg r, exists d,
      get_descriptors (lsd_extractor s) seg (Some r) [v] (voxel_size s) = Some d /\
      ashape d = C :: Roi.shape r) ->
  exists x, compute_edge_score u v s = Done x s.
Proof.
  intros Hu Hv Hpu Hpv Hlo Hsh Hn Hsh0 Hc Hcl Hc0 HC Ht Hl Hex.
  set (rois := lsds_edge_rois roi_u roi_v (total_roi_of (segmentation s)) c).
  set (rel := Roi.sub (fst rois) (Roi.get_begin (snd rois))).
  unfold total_roi_of in rois.
  pose proof (edge_windows n roi_u roi_v sh c Hpu Hpv Hlo Hn Hsh0 Hcl Hc0) as W.
  cbv zeta in W.
  assert (Hrois : rois = lsds_edge_rois roi_u roi_v (Roi.mk (zeros n) sh) c).
  { unfold rois. now rewrite Hsh, Hn. }
  rewrite <- Hrois in W. fold rel in W.
  destruct W as (Hdch & Hdcx & Hdrel & Hch & Hcx & W1 & W2 & W3).
  assert (Hlcsh : length (window_shape sh (snd rois)) = n) by (now apply length_window_shape).
  assert (Hst : final_state (compute_edge_score u v s) = s).
  { apply state_eq_nl; [|apply call_locals].
    pose proof (keeps_compute_edge_score u v s) as K.
    destruct (compute_edge_score u v s); [now destruct K|exact K]. }
  revert Hst. unfold compute_edge_score.
  unfold call at 1 2.
  erewrite bind_done.
  2:{ rewrite (get_lsds_edge_rois_done u v roi_u roi_v c) by assumption.
      unfold total_roi_of. cbn [segmentation set_locals]. fold rois. reflexivity. }
  erewrite bind_done; [|apply whole_done; simpl; exact Hsh]. rewrite Hn.
  erewrite bind_done; [|apply getitem_roi; assumption].
  erewrite bind_done; [|reflexivity].
  rewrite !ashape_view_val. cbn [vshape]. fold rel. rewrite Hlcsh.
  erewrite bind_done; [|apply getitem_roi; assumption].
  rewrite W1.
  erewrite bind_done; [|reflexivity].
  erewrite bind_done; [|apply whole_done; simpl; exact Hl]. simpl length. rewrite Hn.
  erewrite bind_done; [|apply getitem_roi_channels; assumption].
  erewrite bind_done; [|apply whole_done; simpl; exact Ht]. simpl length. rewrite Hn.
  erewrite bind_done; [|apply getitem_roi_channels; assumption].
  erewrite bind_done; [|reflexivity].
  erewrite bind_done; [|reflexivity].
  erewrite bind_done.
  2:{ eapply bind_intro.
      { unfold np_sub. rewrite !ashape_view_val. cbn [vshape].
        rewrite broadcast_same. reflexivity. }
      reflexivity. }
  erewrite bind_done; [|eapply setitem_cols_scalar_done; reflexivity].
  erewrite bind_done; [|reflexivity].
  erewrite bind_done; [|reflexivity].
  erewrite bind_done; [|apply setitem_mask_done; reflexivity].
  erewrite bind_done; [|reflexivity].
  match goal with
  | |- context [bind (extract ?a _ _) _ ?S] =>
      destruct (Hex a rel) as (d' & Hd' & Hshape)
  end.
  assert (Hds' : ashape d' = C :: window_shape sh (fst rois)).
  { rewrite Hshape, W2. reflexivity. }
  erewrite bind_done; [|apply extract_done; exact Hd'].
  erewrite bind_done; [|apply getitem_roi_channels; assumption].
  erewrite bind_done; [|reflexivity].
  erewrite bind_done.
  2:{ eapply bind_intro.
      { unfold np_sub. rewrite !ashape_view_val. cbn [vshape].
        rewrite Hds', broadcast_same. reflexivity. }
      reflexivity. }
  erewrite bind_done; [|eapply setitem_cols_scalar_done; reflexivity].
  erewrite bind_done; [|reflexivity].
  erewrite bind_done.
  2:{ cbn [vshape]. rewrite Hds'. destruct (decide _) as [_|E]; [reflexivity|now destruct E]. }
  unfold ret. cbn [final_state]. intros ->. eexists. reflexivity.
Qed.

Lemma for_each_returns {A} (I : list A -> state -> Prop) (body : A -> M unit) (l : list A) :
  (forall done x s, x ∈ l -> I done s ->
     exists s', body x s = Done tt s' /\ I (x :: done) s') ->
  forall done s, I done s ->
    exists s', for_each l body s = Done tt s' /\ I (reverse l ++ done) s'.
Proof.
  induction l as [|x l IH]; intros H done s HI; cbn [for_each].
  - exists s. split; [reflexivity|exact HI].
  - destruct (H done x s ltac:(left) HI) as (s1 & E1 & H1).
    destruct (IH ltac:(intros d y t Hy; apply H; now right) (x :: done) s1 H1)
      as (s2 & E2 & H2).
    exists s2. split.
    + unfold bind. now rewrite E1.
    + rewrite reverse_cons, <- app_assoc. exact H2.
Qed.

Lemma set_node_labels_done (u : Z) (l : list Z) (s : state) :
  u ∈ nodes (rag s) ->
  set_node_labels u l s
  = Done tt (set_rag (mkRAG (nodes (rag s)) (edges (rag s)) (node_roi (rag s))
                            (node_score (rag s)) (<[u := l]> (node_labels (rag s)))
                            (edge_weight (rag s))) s).
Proof. intros H. unfold set_node_labels. now rewrite bool_decide_eq_true_2. Qed.

Lemma set_edge_weight_done (u v w : Z) (s : state) :
  has_edge (rag s) u v = true ->
  set_edge_weight u v w s
  = Done tt (set_rag (mkRAG (nodes (rag s)) (edges (rag s)) (node_roi (rag s))
                            (node_score (rag s)) (node_labels (rag s))
                            (<[ekey u v := w]> (edge_weight (rag s)))) s).
Proof. intros H. unfold set_edge_weight. now rewrite H. Qed.

Lemma initial_region_proper (frag : ndarray) (ex : LsdExtractor) (u : Z) (roi : Roi.t) :
  initial_region frag ex u roi -> 0 < downsample ex ->
  Roi.proper (length (ashape frag)) roi /\
  forall k : nat, (k < length (ashape frag))%nat -> 0 <= lo roi k.
Proof.
  intros H Hd. destruct (initial_region_spec frag ex u roi H Hd) as [[Ho Hs] Hk].
  split; [split; [exact Ho|split; [exact Hs|]]|].
  - intros k Hlt. destruct (Hk k Hlt) as (_ & _ & _ & _ & _ & A). unfold lo, hi in A. lia.
  - intros k Hlt. destruct (Hk k Hlt) as (_ & _ & _ & _ & _ & A). lia.
Qed.

Lemma label_of_node (frag : ndarray) (connectivity u : Z) :
  u ∈ nodes (RAG_new frag connectivity) ->
  exists p, in_shape (ashape frag) p = true /\ adata frag p = u.
Proof.
  intros H. apply nodes_RAG_new in H. destruct H as (x & _ & H).
  apply touchingb_labels in H. destruct H as (p & q & Hp & _ & Ha & _). now exists p.
Qed.

Lemma edge_ends_RAG_new (frag : ndarray) (connectivity a b : Z) :
  (a, b) ∈ edges (RAG_new frag connectivity) ->
  a ∈ nodes (RAG_new frag connectivity) /\ b ∈ nodes (RAG_new frag connectivity).
Proof.
  intros Hab.
  assert (H : has_edge (RAG_new frag connectivity) a b = true)
    by (apply has_edge_spec; now left).
  apply has_edge_RAG_new in H. destruct H as [Hne Ht].
  split; apply nodes_RAG_new.
  - exists b. now split.
  - exists a. split; [congruence|now apply touchingb_sym].
Qed.

(** The outcome of scoring a node, in full. *)
Lemma compute_node_score_done (u : Z) (s : state) (roi : Roi.t) (sh : coord)
    (C : Z) (d : ndarray) (n : nat) :
  node_roi (rag s) !! u = Some roi ->
  ashape (segmentation s) = sh -> length sh = n -> roi_dim n roi ->
  (forall k : nat, (k < n)%nat -> 0 <= ax sh k /\ 0 <= lo roi k /\ 0 <= ax (Roi.shape roi) k) ->
  (forall p, in_shape sh p = true -> adata (segmentation s) p = u ->
             Roi.containsb roi p = true) ->
  0 <= C -> ashape (target_lsds s) = C :: sh -> ashape (lsds s) = C :: sh ->
  get_descriptors (lsd_extractor s) (roi_slice (segmentation s) roi) None [u] (voxel_size s)
  = Some d ->
  ashape d = C :: ashape (roi_slice (segmentation s) roi) ->
  exists s',
    compute_node_score u s
    = Done (squared_error (target_lsds s) d (Roi.get_begin roi) C
              (voxels_labeled (segmentation s) roi [u])) s' /\
    s' = set_lsds (lsds s') s /\
    ashape (lsds s') = ashape (lsds s) /\
    forall c p, in_shape (C :: sh) (c :: p) = true ->
      adata (lsds s') (c :: p)
      = if adata (segmentation s) p =? u
        then adata d (c :: csub p (Roi.get_begin roi))
        else adata (lsds s) (c :: p).
Proof.
  intros Hroi Hsh Hn Hr Hb Hbb HC Ht Hl Hd Hds.
  unfold roi_slice in Hd, Hds. rewrite Hsh in Hd, Hds. simpl in Hds.
  assert (Hwo : length (window_off sh roi) = n) by (now apply length_window_off).
  assert (Hws : length (window_shape sh roi) = n) by (now apply length_window_shape).
  eexists. split; [|split; [|split]].
  - unfold compute_node_score. apply call_done.
    eapply bind_intro; [apply node_get_done; exact Hroi|].
    eapply bind_intro; [apply whole_done; simpl; exact Hsh|]. rewrite Hn.
    eapply bind_intro; [apply getitem_roi; assumption|].
    eapply bind_intro; [reflexivity|].
    eapply bind_intro; [apply extract_done; exact Hd|].
    eapply bind_intro; [apply whole_done; simpl; exact Ht|]. simpl length. rewrite Hn.
    eapply bind_intro; [apply getitem_roi_channels; assumption|].
    eapply bind_intro; [reflexivity|].
    eapply bind_intro.
    { eapply bind_intro. { unfold np_sub. simpl. rewrite Hds, broadcast_same. simpl. reflexivity. }
      reflexivity. }
    eapply bind_intro; [ eapply setitem_cols_scalar_done; reflexivity |].
    eapply bind_intro; [apply whole_done; simpl; exact Hl|]. simpl length. rewrite Hn.
    eapply bind_intro; [apply getitem_roi_channels; assumption|].
    eapply bind_intro; [ eapply setitem_cols_done; [exact Hds | reflexivity] |].
    eapply bind_intro; [reflexivity|].
    unfold ret. f_equal.
    (* the value *)
    unfold np_sum, np_square, squared_error. simpl ashape. simpl indices.
    rewrite fmap_bind_list, !zsum_bind. apply zsum_map_ext. intros c Hc.
    apply elem_of_seqZ in Hc.
    transitivity (zsum ((fun p => if decide (adata (segmentation s) p = u)
                          then (adata (target_lsds s) (c :: p) - adata d (c :: csub p (window_off sh roi))) ^ 2
                          else 0) <$> (cadd (window_off sh roi) <$> indices (window_shape sh roi)))).
    { rewrite <- !list_fmap_compose. apply zsum_map_ext. intros q Hq.
      apply elem_of_indices in Hq.
      assert (Hcq : in_shape (C :: window_shape sh roi) (c :: q) = true).
      { rewrite in_shape_cons, Hq. replace (0 <=? c) with true by lia.
        replace (c <? C) with true by lia. reflexivity. }
      pose proof (in_shape_length _ _ Hq) as Hlq.
      unfold compose. cbn [adata ashape].
      rewrite view_val_write_lsds_local by reflexivity.
      replace (S (length (window_shape sh roi))) with (length (C :: window_shape sh roi)) by reflexivity.
      rewrite read_written_local with (a := mkArr (C :: window_shape sh roi) (fun i =>
         adata (target_lsds s) (cadd (0 :: window_off sh roi) (bidx (C :: window_shape sh roi) i)) -
         adata d (bidx (C :: window_shape sh roi) i))); [|reflexivity|exact Hcq].
      cbn [adata tail]. rewrite masked_not_eq_scalar, bidx_in_shape by exact Hcq.
      change (adata (view_val (set_locals [] s)
                (mkView Segmentation (window_off sh roi) (window_shape sh roi))) q)
        with (adata (segmentation s) (cadd (window_off sh roi) q)).
      change (cadd (0 :: window_off sh roi) (c :: q))
        with ((0 + c) :: cadd (window_off sh roi) q).
      rewrite csub_cadd by lia. rewrite Z.add_0_l.
      destruct (decide _) as [E|E].
      - apply Z.eqb_eq in E. rewrite E. simpl. lia.
      - apply Z.eqb_neq in E. rewrite E. reflexivity. }
    rewrite (indices_window sh); [ | lia | lia | rewrite Hn; apply window_bounds; assumption ].
    rewrite (zsum_filter (fun p => adata (segmentation s) p = u)).
    rewrite list_filter_filter.
    unfold voxels_labeled. rewrite Hsh.
    rewrite (filter_ext_elem _ (fun p => Roi.containsb roi p = true /\ adata (segmentation s) p ∈ [u])).
    2:{ intros p Hp. apply elem_of_indices in Hp.
        rewrite (in_window_roi sh roi n p) by assumption.
        rewrite list_elem_of_singleton. tauto. }
    apply zsum_map_ext. intros p Hp. apply list_elem_of_filter in Hp.
    destruct Hp as [[Hc1 _] Hp]. apply elem_of_indices in Hp.
    rewrite (window_off_begin sh roi n p); try assumption; [reflexivity|].
    intros k Hk. apply Hb. exact Hk.
  - destruct s; reflexivity.
  - reflexivity.
  - intros c p Hcp.
    rewrite in_shape_cons in Hcp. apply andb_true_iff in Hcp. destruct Hcp as [Hc Hp].
    apply andb_true_iff in Hc.
    pose proof (in_shape_length _ _ Hp) as Hlp.
    cbn [lsds set_locals write_view write_obj base read_obj set_lsds voff vshape adata].
    change (csub (c :: p) (0 :: window_off sh roi))
      with ((c - 0) :: csub p (window_off sh roi)).
    cbn [hd tail]. rewrite masked_eq_scalar, in_window_cons, Z.sub_0_r.
    change (adata (view_val (set_locals [] s)
              (mkView Segmentation (window_off sh roi) (window_shape sh roi)))
              (csub p (window_off sh roi)))
      with (adata (segmentation s) (cadd (window_off sh roi) (csub p (window_off sh roi)))).
    rewrite cadd_csub by lia.
    replace (0 <=? c) with true by lia. replace (c <? 0 + C) with true by lia.
    cbn [andb].
    destruct (adata (segmentation s) p =? u) eqn:E.
    + apply Z.eqb_eq in E. pose proof (Hbb p Hp E) as Hin.
      rewrite (proj2 (in_window_roi sh roi n p Hn Hr Hb Hp) Hin). cbn [default].
      rewrite (window_off_begin sh roi n p); try assumption; [reflexivity|].
      intros k Hk. apply Hb. exact Hk.
    + now destruct (in_window _ _ p).
Qed.

Lemma same_scores_trans (s1 s2 s3 : state) :
  same_scores s1 s2 -> same_scores s2 s3 -> same_scores s1 s3.
Proof. intros (A1 & A2 & A3) (B1 & B2 & B3). repeat split; congruence. Qed.

Lemma same_scores_nl (s s' : state) : nl s' = nl s -> same_scores s s'.
Proof.
  destruct s, s'. unfold nl, set_locals. cbn. intros H.
  injection H as -> -> -> -> -> -> -> ->. repeat split.
Qed.

(** Scoring an edge and storing its weight touches neither the live
    descriptors nor the attributes of the nodes. *)
Lemma frames_score_edge (e : Z * Z) :
  frames same_scores (score <- score_merge (fst e) (snd e) ;;
                      set_edge_weight (fst e) (snd e) score) (fun _ => True).
Proof.
  eapply frames_bind; [exact same_scores_trans| |].
  - apply frames_of_keeps; [exact same_scores_nl|apply keeps_score_merge].
  - intros x _ s. unfold set_edge_weight.
    destruct (has_edge _ _ _); repeat split.
Qed.

Lemma described_ext (seg target : ndarray) (ex : LsdExtractor) (vs : coord) (C : Z)
    (l l' : list Z) (s s' : state) :
  (forall y, y ∈ l' <-> y ∈ l) -> same_scores s s' ->
  described seg target ex vs C l s -> described seg target ex vs C l' s'.
Proof.
  intros Hl (E1 & E2 & E3) [H1 H0]. unfold described. rewrite E1, E2, E3. split.
  - intros y roi d Hy. apply H1. now apply Hl.
  - intros ch p Hp Hn. apply H0; [exact Hp|]. intros Hin. apply Hn. now apply Hl.
Qed.


(** ** The edges that the graph yields *)

Lemma ekey_eq (a b u v : Z) :
  ekey a b = ekey u v -> (a = u /\ b = v) \/ (a = v /\ b = u).
Proof. unfold ekey. intros H. injection H as H1 H2. lia. Qed.

Lemma ekey_comm (a b : Z) : ekey a b = ekey b a.
Proof. unfold ekey. now rewrite Z.min_comm, Z.max_comm. Qed.

Lemma elem_of_neighbours (g : RAG) (n m : Z) :
  m ∈ neighbours g n <-> (n, m) ∈ edges g \/ (m, n) ∈ edges g.
Proof.
  unfold neighbours. rewrite list_elem_of_bind. split.
  - intros ([a b] & H & He). cbn [fst snd] in H.
    destruct (bool_decide (a = n)) eqn:E1.
    + apply bool_decide_eq_true in E1. apply list_elem_of_singleton in H. subst. now left.
    + destruct (bool_decide (b = n)) eqn:E2.
      * apply bool_decide_eq_true in E2. apply list_elem_of_singleton in H. subst. now right.
      * now apply elem_of_nil in H.
  - intros [H|H].
    + exists (n, m). split; [|exact H]. cbn [fst snd].
      rewrite bool_decide_eq_true_2 by reflexivity. left.
    + exists (m, n). split; [|exact H]. cbn [fst snd].
      destruct (bool_decide (m = n)) eqn:E.
      * apply bool_decide_eq_true in E. subst. left.
      * rewrite bool_decide_eq_true_2 by reflexivity. left.
Qed.

(** An edge is yielded from a node of the list, to a neighbour that was
    not visited before. *)
Lemma elem_of_edges_from (g : RAG) (seen ns : list Z) (a b : Z) :
  (a, b) ∈ edges_from g seen ns ->
  a ∈ ns /\ (b ∉ seen) /\ ((a, b) ∈ edges g \/ (b, a) ∈ edges g).
Proof.
  revert seen. induction ns as [|n ns IH]; intros seen H; cbn [edges_from] in H.
  - now apply elem_of_nil in H.
  - apply elem_of_app in H. destruct H as [H|H].
    + apply list_elem_of_fmap in H. destruct H as (m & E & H). injection E as -> ->.
      apply list_elem_of_filter in H. destruct H as [Hs Hm].
      split; [left|]. split; [exact Hs|]. now apply elem_of_neighbours.
    + destruct (IH _ H) as (H1 & H2 & H3). split; [now right|]. split; [|exact H3].
      intros Hb. apply H2. now right.
Qed.

(** Every edge between two nodes that are still to be visited is yielded,
    in one direction or the other. *)
Lemma edges_from_complete (g : RAG) (seen ns : list Z) (a b : Z) :
  (a, b) ∈ edges g \/ (b, a) ∈ edges g -> a ∈ ns -> b ∈ ns -> a ∉ seen -> b ∉ seen ->
  (a, b) ∈ edges_from g seen ns \/ (b, a) ∈ edges_from g seen ns.
Proof.
  intros He. revert seen. induction ns as [|n ns IH]; intros seen Ha Hb Has Hbs.
  - now apply elem_of_nil in Ha.
  - cbn [edges_from]. rewrite !elem_of_app.
    destruct (decide (n = a)) as [->|Hna].
    + left. left. apply list_elem_of_fmap. exists b. split; [reflexivity|].
      apply list_elem_of_filter. split; [exact Hbs|]. now apply elem_of_neighbours.
    + destruct (decide (n = b)) as [->|Hnb].
      * right. left. apply list_elem_of_fmap. exists a. split; [reflexivity|].
        apply list_elem_of_filter. split; [exact Has|]. apply elem_of_neighbours. tauto.
      * apply elem_of_cons in Ha. destruct Ha as [Ha|Ha]; [congruence|].
        apply elem_of_cons in Hb. destruct Hb as [Hb|Hb]; [congruence|].
        destruct (IH (n :: seen) Ha Hb) as [H|H].
        -- intros H. apply elem_of_cons in H. destruct H as [H|H]; [congruence|tauto].
        -- intros H. apply elem_of_cons in H. destruct H as [H|H]; [congruence|tauto].
        -- left. now right.
        -- right. now right.
Qed.

(** No edge is yielded in both directions. *)
Lemma edges_from_one_way (g : RAG) (seen ns : list Z) (a b : Z) :
  (a, b) ∈ edges_from g seen ns -> (b, a) ∈ edges_from g seen ns -> a = b.
Proof.
  revert seen. induction ns as [|n ns IH]; intros seen H1 H2; cbn [edges_from] in H1, H2.
  - now apply elem_of_nil in H1.
  - apply elem_of_app in H1. apply elem_of_app in H2.
    destruct H1 as [H1|H1], H2 as [H2|H2].
    + apply list_elem_of_fmap in H1. destruct H1 as (m & E & _). injection E as -> ->.
      apply list_elem_of_fmap in H2. destruct H2 as (m' & E & _). now injection E as -> _.
    + apply list_elem_of_fmap in H1. destruct H1 as (m & E & _). injection E as -> ->.
      destruct (elem_of_edges_from _ _ _ _ _ H2) as (_ & H & _). exfalso. apply H. left.
    + apply list_elem_of_fmap in H2. destruct H2 as (m & E & _). injection E as -> ->.
      destruct (elem_of_edges_from _ _ _ _ _ H1) as (_ & H & _). exfalso. apply H. left.
    + exact (IH _ H1 H2).
Qed.

(** What [rag.edges()] yields are edges of the graph, from a node. *)
Lemma rag_edges_sound (g : RAG) (a b : Z) :
  (a, b) ∈ rag_edges g -> has_edge g a b = true /\ a ∈ nodes g.
Proof.
  intros H. destruct (elem_of_edges_from _ _ _ _ _ H) as (Ha & _ & He).
  split; [now apply has_edge_spec|exact Ha].
Qed.

(** Every edge between two nodes is yielded, in one direction. *)
Lemma rag_edges_complete (g : RAG) (a b : Z) :
  has_edge g a b = true -> a ∈ nodes g -> b ∈ nodes g ->
  (a, b) ∈ rag_edges g \/ (b, a) ∈ rag_edges g.
Proof.
  intros He Ha Hb. apply has_edge_spec in He.
  apply edges_from_complete; try assumption; intros H; now apply elem_of_nil in H.
Qed.

(** No two of the edges that [rag.edges()] yields join the same nodes. *)
Lemma rag_edges_distinct (g : RAG) (e e' : Z * Z) :
  e ∈ rag_edges g -> e' ∈ rag_edges g ->
  ekey (fst e) (snd e) = ekey (fst e') (snd e') -> e = e'.
Proof.
  destruct e as [a b], e' as [a' b']. cbn [fst snd]. intros H H' Hk.
  destruct (ekey_eq _ _ _ _ Hk) as [[-> ->]|[-> ->]]; [reflexivity|].
  now rewrite (edges_from_one_way _ _ _ _ _ H H').
Qed.

(** The edges that are yielded depend on the nodes and the edges only. *)
Lemma rag_edges_ext (g g' : RAG) :
  nodes g' = nodes g -> edges g' = edges g -> rag_edges g' = rag_edges g.
Proof.
  intros Hn He. unfold rag_edges. rewrite Hn. clear Hn. generalize (@nil Z) as seen.
  induction (nodes g) as [|n ns IH]; intros seen; [reflexivity|].
  cbn [edges_from]. rewrite IH. unfold neighbours. now rewrite He.
Qed.

(** On a line of four voxels labelled 0, 5, 7, 0 the edge between 7 and 0
    is stored as it was found, from the voxel labelled 7, and yielded
    from the node 0, which comes first among the nodes. *)
Example rag_edges_line :
  let g := RAG_new (mkArr [4] (fun p => nth (Z.to_nat (hd 0 p)) [0; 5; 7; 0] 0)) 2 in
  nodes g = [0; 5; 7] /\ edges g = [(0, 5); (5, 7); (7, 0)] /\
  rag_edges g = [(0, 5); (0, 7); (5, 7)].
Proof. vm_compute. repeat split. Qed.


(** The score of an edge, in full. *)
Lemma compute_edge_score_done (u v : Z) (s : state) (roi_u roi_v : Roi.t)
    (sh c : coord) (C : Z) (d : ndarray) (n : nat) :
  node_roi (rag s) !! u = Some roi_u -> node_roi (rag s) !! v = Some roi_v ->
  Roi.proper n roi_u -> Roi.proper n roi_v ->
  (forall k : nat, (k < n)%nat -> 0 <= lo roi_u k /\ 0 <= lo roi_v k) ->
  ashape (segmentation s) = sh -> length sh = n ->
  (forall k : nat, (k < n)%nat -> 0 <= ax sh k) ->
  voxel_context (context s) (voxel_size s) = Some c -> length c = n ->
  (forall k : nat, (k < n)%nat -> 0 <= ax c k) ->
  0 <= C -> ashape (target_lsds s) = C :: sh -> ashape (lsds s) = C :: sh ->
  let rois := lsds_edge_rois roi_u roi_v (total_roi_of (segmentation s)) c in
  let rel := Roi.sub (fst rois) (Roi.get_begin (snd rois)) in
  extractor_respects (lsd_extractor s) ->
  get_descriptors (lsd_extractor s)
    (relabel (roi_slice (segmentation s) (snd rois)) u v) (Some rel) [v] (voxel_size s)
  = Some d ->
  ashape d = C :: Roi.shape rel ->
  let voxels := voxels_labeled (segmentation s) (fst rois) [u; v] in
  compute_edge_score u v s
  = Done (squared_error (target_lsds s) d (Roi.get_begin (fst rois)) C voxels
          - squared_error (target_lsds s) (lsds s) (zeros n) C voxels) s.
Proof.
  intros Hu Hv Hpu Hpv Hlo Hsh Hn Hsh0 Hc Hcl Hc0 HC Ht Hl rois rel Hresp Hd Hds voxels.
  unfold total_roi_of in rois. 
  pose proof (edge_windows n roi_u roi_v sh c Hpu Hpv Hlo Hn Hsh0 Hcl Hc0) as W.
  cbv zeta in W. 
  assert (Hrois : rois = lsds_edge_rois roi_u roi_v (Roi.mk (zeros n) sh) c).
  { unfold rois. now rewrite Hsh, Hn. }
  rewrite <- Hrois in W. fold rel in W.
  destruct W as (Hdch & Hdcx & Hdrel & Hch & Hcx & W1 & W2 & W3).
  unfold compute_edge_score.
  assert (Hlcsh : length (window_shape sh (snd rois)) = n) by (now apply length_window_shape).
  (* the copy of the context slice, before and after the relabelling *)
  set (copy := slice_of (segmentation s) (window_off sh (snd rois)) (window_shape sh (snd rois))).
  unfold call at 1.
  erewrite bind_done.
  2:{ rewrite (get_lsds_edge_rois_done u v roi_u roi_v c) by assumption.
      unfold total_roi_of. cbn [segmentation set_locals]. fold rois. reflexivity. }
  erewrite bind_done; [|apply whole_done; simpl; exact Hsh]. rewrite Hn.
  erewrite bind_done; [|apply getitem_roi; assumption].
  erewrite bind_done; [|reflexivity].
  rewrite !ashape_view_val. cbn [vshape]. fold rel. rewrite Hlcsh.
  erewrite bind_done; [|apply getitem_roi; assumption].
  rewrite W1.
  erewrite bind_done; [|reflexivity].
  erewrite bind_done; [|apply whole_done; simpl; exact Hl]. simpl length. rewrite Hn.
  erewrite bind_done; [|apply getitem_roi_channels; assumption].
  erewrite bind_done; [|apply whole_done; simpl; exact Ht]. simpl length. rewrite Hn.
  erewrite bind_done; [|apply getitem_roi_channels; assumption].
  erewrite bind_done; [|reflexivity].
  erewrite bind_done; [|reflexivity].
  erewrite bind_done.
  2:{ eapply bind_intro.
      { unfold np_sub. rewrite !ashape_view_val. cbn [vshape].
        rewrite broadcast_same. reflexivity. }
      reflexivity. }
  erewrite bind_done; [|eapply setitem_cols_scalar_done; reflexivity].
  erewrite bind_done; [|reflexivity].
  erewrite bind_done; [|reflexivity].
  erewrite bind_done; [|apply setitem_mask_done; reflexivity].
  erewrite bind_done; [|reflexivity].
  match goal with
  | |- context [bind (extract ?a _ _) _ ?S] =>
      assert (Heq : arr_equiv (relabel (roi_slice (segmentation s) (snd rois)) u v) a)
  end.
  { split.
    - cbn [relabel ashape]. unfold roi_slice. rewrite ashape_slice_of, Hsh. reflexivity.
    - cbn [relabel ashape]. unfold roi_slice. rewrite ashape_slice_of, Hsh.
      intros i Hi. rewrite <- Hlcsh.
      rewrite read_written_local with (a := copy); [|reflexivity|exact Hi].
      rewrite masked_eq_scalar.
      rewrite read_local_whole with (a := copy); [|reflexivity|exact Hi].
      fold copy. unfold relabel. cbn [adata].
      now destruct (adata copy i =? u). }
  pose proof (Hresp _ _ (Some rel) [v] (voxel_size s) Heq) as Hr.
  rewrite Hd in Hr.
  match type of Hr with
  | match ?g with _ => _ end => destruct g as [d'|] eqn:Hd'; [|contradiction]
  end.
  destruct Hr as [Hshape Hdata]. rewrite Hds in Hshape, Hdata.
  assert (Hds' : ashape d' = C :: window_shape sh (fst rois)).
  { rewrite <- Hshape, W2. reflexivity. }
  erewrite bind_done; [|apply extract_done; exact Hd'].
  erewrite bind_done; [|apply getitem_roi_channels; assumption].
  erewrite bind_done; [|reflexivity].
  erewrite bind_done.
  2:{ eapply bind_intro.
      { unfold np_sub. rewrite !ashape_view_val. cbn [vshape].
        rewrite Hds', broadcast_same. reflexivity. }
      reflexivity. }
  erewrite bind_done; [|eapply setitem_cols_scalar_done; reflexivity].
  erewrite bind_done; [|reflexivity].
  erewrite bind_done.
  2:{ cbn [vshape]. rewrite Hds'. destruct (decide _) as [_|E]; [reflexivity|now destruct E]. }
  unfold ret. f_equal; [|now destruct s].
  assert (Hb : forall k : nat, (k < n)%nat ->
             0 <= ax sh k /\ 0 <= lo (fst rois) k /\ 0 <= ax (Roi.shape (fst rois)) k).
  { intros k Hk. specialize (Hch k Hk). specialize (Hsh0 k Hk). lia. }
  subst voxels. f_equal.
  - rewrite <- (labeled_window_sum (segmentation s) (target_lsds s) d (fst rois) sh n C [u; v])
      by assumption.
    unfold np_sum, np_square. cbn [ashape adata vshape].
    apply zsum_map_ext. intros i Hi. apply elem_of_indices in Hi.
    destruct i as [|ch q]; [discriminate|].
    assert (Hq : in_shape (window_shape sh (fst rois)) q = true).
    { rewrite in_shape_cons in Hi. apply andb_true_iff in Hi. now destruct Hi. }
    erewrite (read_written_local 2 (C :: window_shape sh (fst rois))); [|reflexivity|exact Hi].
    rewrite masked_not_isin. cbn [adata hd tail].
    rewrite bidx_in_shape by exact Hi.
    repeat match goal with
    | |- context [adata (view_val ?S (mkView TargetLsds ?o ?shp)) ?j] =>
        change (adata (view_val S (mkView TargetLsds o shp)) j)
          with (adata (target_lsds s) (cadd o j))
    | |- context [adata (view_val ?S (mkView Lsds ?o ?shp)) ?j] =>
        change (adata (view_val S (mkView Lsds o shp)) j)
          with (adata (lsds s) (cadd o j))
    | |- context [adata (view_val ?S (mkView (Local 0) ?o ?shp)) ?j] =>
        change (adata (view_val S (mkView (Local 0) o shp)) j)
          with (adata (segmentation s)
                  (cadd (window_off sh (snd rois)) (cadd o j)))
    end.
    rewrite W3 by exact Hq.
    change (cadd (0 :: window_off sh (fst rois)) (ch :: q))
      with ((0 + ch) :: cadd (window_off sh (fst rois)) q).
    rewrite Z.add_0_l.
    rewrite <- (Hdata (ch :: q)) by (change (Roi.shape rel) with (Roi.shape (fst rois)); rewrite <- W2; exact Hi).
    destruct (existsb _ _); cbn [default]; unfold id; lia.
  - rewrite (squared_error_ext (target_lsds s) (lsds s)
               (slice_of (lsds s) (0 :: window_off sh (fst rois)) (C :: window_shape sh (fst rois)))
               (zeros n) (Roi.get_begin (fst rois)) C).
    2:{ intros ch p Hp. unfold voxels_labeled in Hp. apply list_elem_of_filter in Hp.
        destruct Hp as [[Hin _] Hp]. rewrite Hsh in Hp. apply elem_of_indices in Hp.
        pose proof (in_shape_length _ _ Hp) as Hlp.
        assert (Hwo : window_off sh (fst rois) = Roi.get_begin (fst rois)).
        { apply (window_off_begin sh (fst rois) n p); try assumption.
          intros k Hk. apply Hch. exact Hk. }
        unfold slice_of. cbn [adata]. rewrite Hwo.
        change (cadd (0 :: Roi.get_begin (fst rois)) (ch :: csub p (Roi.get_begin (fst rois))))
          with ((0 + ch) :: cadd (Roi.get_begin (fst rois)) (csub p (Roi.get_begin (fst rois)))).
        rewrite cadd_csub by (destruct Hdch as [Ho _]; unfold Roi.get_begin; lia).
        rewrite csub_zeros_r by lia. reflexivity. }
    rewrite <- (labeled_window_sum (segmentation s) (target_lsds s)
                  (slice_of (lsds s) (0 :: window_off sh (fst rois)) (C :: window_shape sh (fst rois)))
                  (fst rois) sh n C [u; v])
      by assumption.
    unfold np_sum, np_square. cbn [ashape adata vshape].
    apply zsum_map_ext. intros i Hi. apply elem_of_indices in Hi.
    destruct i as [|ch q]; [discriminate|].
    assert (Hq : in_shape (window_shape sh (fst rois)) q = true).
    { rewrite in_shape_cons in Hi. apply andb_true_iff in Hi. now destruct Hi. }
    erewrite (read_written_local 1 (C :: window_shape sh (fst rois))); [|reflexivity|exact Hi].
    rewrite masked_not_isin. cbn [adata hd tail].
    rewrite bidx_in_shape by exact Hi.
    repeat match goal with
    | |- context [adata (view_val ?S (mkView TargetLsds ?o ?shp)) ?j] =>
        change (adata (view_val S (mkView TargetLsds o shp)) j)
          with (adata (target_lsds s) (cadd o j))
    | |- context [adata (view_val ?S (mkView Lsds ?o ?shp)) ?j] =>
        change (adata (view_val S (mkView Lsds o shp)) j)
          with (adata (lsds s) (cadd o j))
    | |- context [adata (view_val ?S (mkView (Local 0) ?o ?shp)) ?j] =>
        change (adata (view_val S (mkView (Local 0) o shp)) j)
          with (adata (segmentation s)
                  (cadd (window_off sh (snd rois)) (cadd o j)))
    end.
    rewrite W3 by exact Hq.
    change (cadd (0 :: window_off sh (fst rois)) (ch :: q))
      with ((0 + ch) :: cadd (window_off sh (fst rois)) q).
    rewrite Z.add_0_l.
    unfold slice_of. cbn [adata].
    change (cadd (0 :: window_off sh (fst rois)) (ch :: q))
      with ((0 + ch) :: cadd (window_off sh (fst rois)) q).
    rewrite Z.add_0_l.
    destruct (existsb _ _); cbn [default]; unfold id; lia.
Qed.

Lemma compute_edge_score_locals (a b w : Z) (s : state) (l : list ndarray) :
  compute_edge_score a b s = Done w s ->
  compute_edge_score a b (set_locals l s) = Done w (set_locals l s).
Proof.
  intros H. unfold compute_edge_score. rewrite call_set_locals.
  fold (compute_edge_score a b). now rewrite H.
Qed.

Section Construction.
Variables (frag : ndarray) (s1 : state) (sh : coord) (C : Z) (c : coord) (n : nat).
Hypothesis Hfrag : ashape frag = sh.
Hypothesis Hseg : ashape (segmentation s1) = sh.
Hypothesis Hn : length sh = n.
Hypothesis Hsh0 : forall k : nat, (k < n)%nat -> 0 <= ax sh k.
Hypothesis HC : 0 <= C.
Hypothesis Ht : ashape (target_lsds s1) = C :: sh.
Hypothesis Hl : ashape (lsds s1) = C :: sh.
Hypothesis Hd : 0 < downsample (lsd_extractor s1).
Hypothesis Hc : voxel_context (context s1) (voxel_size s1) = Some c.
Hypothesis Hcl : length c = n.
Hypothesis Hc0 : forall k : nat, (k < n)%nat -> 0 <= ax c k.
Hypothesis Hex : well_shaped (lsd_extractor s1) C (voxel_size s1).
Hypothesis Hnodes : nodes (rag s1) = nodes (RAG_new frag 2).
Hypothesis Hedges : edges (rag s1) = edges (RAG_new frag 2).

(** The ends of an edge that [rag.edges()] yields are nodes. *)
Lemma edge_ends_here (a b : Z) :
  (a, b) ∈ rag_edges (rag s1) ->
  a ∈ nodes (rag s1) /\ b ∈ nodes (rag s1) /\ has_edge (rag s1) a b = true.
Proof.
  intros H. apply rag_edges_sound in H. destruct H as [He _].
  assert (Hab : a ∈ nodes (rag s1) /\ b ∈ nodes (rag s1)).
  { rewrite Hnodes. pose proof He as He'. apply has_edge_spec in He'. rewrite Hedges in He'.
    destruct He' as [He'|He']; apply edge_ends_RAG_new in He'; tauto. }
  tauto.
Qed.

(** One round of the loop over the nodes returns. *)
Lemma initialize_node_returns (done : list Z) (u : Z) (s : state) :
  u ∈ nodes (rag s1) ->
  initialising frag s1 s /\ (forall y, y ∈ done -> scored y s) ->
  exists s',
    (bb <- lift_opt IndexError (find_objects_first (eq_scalar frag u)) ;;
     roi <- slice_to_roi bb ;;
     set_node_roi u roi ;;;
     score <- compute_node_score u ;;
     set_node_score u score ;;;
     set_node_labels u [u]) s = Done tt s' /\
    (initialising frag s1 s' /\ (forall y, y ∈ u :: done -> scored y s')).
Proof.
  intros Hu [[Hv Hr] Hdone].
  destruct Hv as (V1 & V2 & V3 & V4 & V5 & V6 & V7 & V8 & V9).
  (* the bounding slices exist: a node is a label of the volume *)
  destruct (find_objects_first (eq_scalar frag u)) as [bb|] eqn:Ebb.
  2:{ exfalso. rewrite Hnodes in Hu. apply label_of_node in Hu.
      destruct Hu as (p & Hp & Hup).
      pose proof (proj1 (find_objects_first_none _) Ebb p Hp) as H0.
      unfold eq_scalar, bool_to_Z in H0. cbn [adata] in H0.
      rewrite Hup, Z.eqb_refl in H0. discriminate. }
  set (roi := let r := Roi.mk (fst <$> bb) ((fun sl => snd sl - fst sl) <$> bb) in
              Roi.snap_to_grid r (replicate (Roi.dims r) (downsample (lsd_extractor s)))).
  assert (Hini : initial_region frag (lsd_extractor s1) u roi).
  { exists bb. split; [exact Ebb|]. unfold roi. now rewrite V4. }
  destruct (initial_region_proper frag _ u roi Hini Hd) as [Hp Hlo].
  rewrite Hfrag, Hn in Hp, Hlo.
  unfold bind at 1. cbn [lift_opt ret].
  unfold bind at 1. rewrite slice_to_roi_done. fold roi.
  unfold bind at 1. rewrite set_node_roi_done by congruence.
  match goal with |- context [bind (compute_node_score u) _ ?S] => set (s2 := S) end.
  destruct (Hex (slice_of (segmentation s2) (window_off sh roi) (window_shape sh roi))
              None [u]) as (d & Hd1 & Hd2).
  destruct (compute_node_score_returns u s2 roi sh C d n) as (x & s3 & E3).
  { cbn. apply lookup_insert_eq. }
  { cbn. congruence. }
  { exact Hn. }
  { now apply proper_dim. }
  { exact HC. }
  { cbn. congruence. }
  { cbn. congruence. }
  { cbn [s2 lsd_extractor voxel_size set_rag]. rewrite V4, V6. exact Hd1. }
  { exact Hd2. }
  pose proof (frames_compute_node_score u s2) as F. rewrite E3 in F.
  destruct F as [[(F1 & F2 & F3 & F4 & F5 & F6 & F7 & F8 & F9) F10] _].
  unfold bind at 1. rewrite E3.
  unfold bind at 1. rewrite set_node_score_done by (rewrite F7; cbn; congruence).
  rewrite set_node_labels_done by (cbn; rewrite F7; cbn; congruence).
  eexists. split; [reflexivity|]. cbn [rag set_rag nodes edges node_roi node_score].
  rewrite F10. cbn [s2 rag set_rag nodes edges node_roi node_score node_labels edge_weight].
  split; [split|].
  - unfold same_volume.
    cbn [set_rag segmentation fragments target_lsds lsd_extractor context voxel_size rag
         nodes edges lsds].
    cbn [s2 set_rag segmentation fragments target_lsds lsd_extractor context voxel_size
         lsds] in F1, F2, F3, F4, F5, F6, F9.
    repeat split; congruence.
  - intros y r Hy. cbn [rag set_rag node_roi] in Hy.
    destruct (decide (y = u)) as [->|Hne].
    + rewrite lookup_insert_eq in Hy. now injection Hy as <-.
    + rewrite lookup_insert_ne in Hy by congruence. now apply Hr.
  - intros y Hy. unfold scored. cbn [rag set_rag node_roi node_score].
    destruct (decide (y = u)) as [->|Hne].
    + rewrite !lookup_insert_eq. split; eexists; reflexivity.
    + rewrite !lookup_insert_ne by congruence.
      apply elem_of_cons in Hy. destruct Hy as [Hy|Hy]; [congruence|]. now apply Hdone.
Qed.

(** One round of the loop over the edges returns. *)
Lemma score_edge_returns (done : list (Z * Z)) (e : Z * Z) (s : state) :
  e ∈ rag_edges (rag s1) ->
  initialising frag s1 s /\ (forall y, y ∈ nodes (rag s1) -> scored y s) /\
  (forall e', e' ∈ done -> weighted e' s) ->
  exists s',
    (score <- score_merge (fst e) (snd e) ;;
     set_edge_weight (fst e) (snd e) score) s = Done tt s' /\
    (initialising frag s1 s' /\ (forall y, y ∈ nodes (rag s1) -> scored y s') /\
     (forall e', e' ∈ e :: done -> weighted e' s')).
Proof.
  intros He ([Hv Hr] & Hsc & Hdone). destruct e as [a b]. cbn [fst snd].
  destruct Hv as (V1 & V2 & V3 & V4 & V5 & V6 & V7 & V8 & V9).
  destruct (edge_ends_here a b He) as (Ha & Hb & Hhe).
  destruct (Hsc a Ha) as [[roi_a Ea] _]. destruct (Hsc b Hb) as [[roi_b Eb] _].
  destruct (initial_region_proper frag _ a roi_a (Hr a roi_a Ea) Hd) as [Hpa Hla].
  destruct (initial_region_proper frag _ b roi_b (Hr b roi_b Eb) Hd) as [Hpb Hlb].
  rewrite Hfrag, Hn in Hpa, Hla, Hpb, Hlb.
  destruct (compute_edge_score_returns a b s roi_a roi_b sh c C n) as (x & Ex);
    try assumption; try congruence.
  { intros k Hk. split; [now apply Hla|now apply Hlb]. }
  { intros seg r. rewrite V4, V6. apply (Hex seg (Some r) [b]). }
  assert (Esm : score_merge a b s = Done x s).
  { unfold score_merge. unfold call at 1. unfold compute_edge_score at 1.
    rewrite call_set_locals. fold (compute_edge_score a b). rewrite Ex. now destruct s. }
  unfold bind. rewrite Esm.
  rewrite set_edge_weight_done by (unfold has_edge in *; now rewrite V8).
  eexists. split; [reflexivity|]. split; [split|split].
  - repeat split; cbn; congruence.
  - intros y r Hy. now apply Hr.
  - intros y Hy. exact (Hsc y Hy).
  - intros e' He'. unfold weighted. cbn [rag set_rag edge_weight].
    destruct (decide (ekey (fst e') (snd e') = ekey a b)) as [->|Hne].
    + rewrite lookup_insert_eq. eexists; reflexivity.
    + rewrite lookup_insert_ne by congruence.
      apply elem_of_cons in He'. destruct He' as [->|He']; [now destruct Hne|].
      now apply Hdone.
Qed.

(** Both loops return; every node is scored and every edge weighted. *)
Lemma initialize_loops_return :
  (forall y roi, node_roi (rag s1) !! y = Some roi ->
     initial_region frag (lsd_extractor s1) y roi) ->
  exists s',
    (for_each (nodes (rag s1)) (fun u =>
       bb <- lift_opt IndexError (find_objects_first (eq_scalar frag u)) ;;
       roi <- slice_to_roi bb ;;
       set_node_roi u roi ;;;
       score <- compute_node_score u ;;
       set_node_score u score ;;;
       set_node_labels u [u]) ;;;
     for_each (rag_edges (rag s1)) (fun e =>
       score <- score_merge (fst e) (snd e) ;;
       set_edge_weight (fst e) (snd e) score)) s1 = Done tt s' /\
    initialising frag s1 s' /\
    (forall y, y ∈ nodes (rag s1) -> scored y s') /\
    (forall e, e ∈ edges (rag s1) -> weighted e s').
Proof.
  intros H0.
  destruct (for_each_returns
              (fun done s => initialising frag s1 s /\ (forall y, y ∈ done -> scored y s))
              (fun u =>
                 bb <- lift_opt IndexError (find_objects_first (eq_scalar frag u)) ;;
                 roi <- slice_to_roi bb ;;
                 set_node_roi u roi ;;;
                 score <- compute_node_score u ;;
                 set_node_score u score ;;;
                 set_node_labels u [u])
              (nodes (rag s1))
              (fun done u s Hu HI => initialize_node_returns done u s Hu HI) [] s1)
    as (s2 & E2 & H2 & H2').
  { split; [split; [repeat split|exact H0]|]. intros y Hy. now apply elem_of_nil in Hy. }
  destruct (for_each_returns
              (fun done s => initialising frag s1 s /\
                             (forall y, y ∈ nodes (rag s1) -> scored y s) /\
                             (forall e', e' ∈ done -> weighted e' s))
              (fun e =>
                 score <- score_merge (fst e) (snd e) ;;
                 set_edge_weight (fst e) (snd e) score)
              (rag_edges (rag s1))
              (fun done e s He HI => score_edge_returns done e s He HI) [] s2)
    as (s3 & E3 & H3 & H3' & H3'').
  { split; [exact H2|]. split.
    - intros y Hy. apply H2'. rewrite app_nil_r. now apply elem_of_reverse.
    - intros e He. now apply elem_of_nil in He. }
  exists s3. split; [rewrite (bind_done _ _ _ _ _ E2); exact E3|].
  split; [exact H3|]. split; [exact H3'|].
  intros [a b] He.
  assert (Hab : a ∈ nodes (rag s1) /\ b ∈ nodes (rag s1)).
  { rewrite Hnodes. apply edge_ends_RAG_new. now rewrite <- Hedges. }
  destruct (rag_edges_complete (rag s1) a b) as [Hy|Hy]; try tauto.
  { apply has_edge_spec. now left. }
  - apply H3''. rewrite app_nil_r. now apply elem_of_reverse.
  - assert (Hw : weighted (b, a) s3)
      by (apply H3''; rewrite app_nil_r; now apply elem_of_reverse).
    unfold weighted in *. cbn [fst snd] in *. now rewrite ekey_comm.
Qed.

Hypothesis Hsegf : arr_equiv frag (segmentation s1).

(** One round of the loop over the nodes, with what it computes. *)
Lemma initialize_node_result (done : list Z) (u : Z) (s : state) :
  u ∈ nodes (rag s1) ->
  (initialising frag s1 s /\ (forall y, y ∈ done -> scored y s)) /\
  described (segmentation s1) (target_lsds s1) (lsd_extractor s1) (voxel_size s1) C done s ->
  exists s',
    (bb <- lift_opt IndexError (find_objects_first (eq_scalar frag u)) ;;
     roi <- slice_to_roi bb ;;
     set_node_roi u roi ;;;
     score <- compute_node_score u ;;
     set_node_score u score ;;;
     set_node_labels u [u]) s = Done tt s' /\
    ((initialising frag s1 s' /\ (forall y, y ∈ u :: done -> scored y s')) /\
     described (segmentation s1) (target_lsds s1) (lsd_extractor s1) (voxel_size s1) C (u :: done) s').
Proof.
  intros Hu [HI [HD1 HD0]].
  destruct (initialize_node_returns done u s Hu HI) as (s' & E & HI').
  exists s'. split; [exact E|]. split; [exact HI'|].
  destruct HI as [[Hv Hr] Hdone].
  destruct Hv as (V1 & V2 & V3 & V4 & V5 & V6 & V7 & V8 & V9).
  destruct (find_objects_first (eq_scalar frag u)) as [bb|] eqn:Ebb; [|discriminate E].
  set (roi := let r := Roi.mk (fst <$> bb) ((fun sl => snd sl - fst sl) <$> bb) in
              Roi.snap_to_grid r (replicate (Roi.dims r) (downsample (lsd_extractor s)))).
  assert (Hini : initial_region frag (lsd_extractor s1) u roi).
  { exists bb. split; [exact Ebb|]. unfold roi. now rewrite V4. }
  destruct (initial_region_proper frag _ u roi Hini Hd) as [Hp Hlo].
  pose proof (initial_region_spec frag _ u roi Hini Hd) as [Hdim Hbox].
  rewrite Hfrag, Hn in Hp, Hlo, Hdim, Hbox.
  unfold bind at 1 in E. cbn [lift_opt ret] in E.
  unfold bind at 1 in E. rewrite slice_to_roi_done in E. fold roi in E.
  unfold bind at 1 in E. rewrite set_node_roi_done in E by congruence.
  match type of E with context [bind (compute_node_score u) _ ?S] => set (s2 := S) in E end.
  destruct (Hex (slice_of (segmentation s2) (window_off sh roi) (window_shape sh roi))
              None [u]) as (d & Hd1 & Hd2).
  destruct (compute_node_score_done u s2 roi sh C d n) as (s3 & E3 & S3 & _ & Hval).
  { cbn. apply lookup_insert_eq. }
  { cbn. congruence. }
  { exact Hn. }
  { exact Hdim. }
  { intros k Hk. split; [now apply Hsh0|]. split; [now apply Hlo|].
    destruct Hp as (_ & _ & Hpos). specialize (Hpos k Hk). lia. }
  { intros p Hp' Hpu. cbn [s2 segmentation set_rag] in Hpu. rewrite V1 in Hpu.
    destruct Hsegf as [_ Hpt]. rewrite Hfrag in Hpt. rewrite <- (Hpt p Hp') in Hpu.
    apply (containsb_spec roi p n Hdim). split.
    - apply in_shape_length in Hp'. congruence.
    - intros k Hk. destruct (Hbox k Hk) as [Hin _]. apply Hin. split; [congruence|exact Hpu]. }
  { exact HC. }
  { cbn. congruence. }
  { cbn. congruence. }
  { unfold roi_slice. cbn [s2 lsd_extractor voxel_size set_rag segmentation].
    cbn [s2 lsd_extractor voxel_size set_rag segmentation] in Hd1.
    rewrite V1, Hseg. rewrite V1 in Hd1. rewrite V4, V6. exact Hd1. }
  { unfold roi_slice. replace (ashape (segmentation s2)) with sh by (cbn; congruence).
    exact Hd2. }
  assert (Hseg2 : segmentation s2 = segmentation s1) by (cbn; congruence).
  assert (Hl3 : forall ch p, in_shape (C :: sh) (ch :: p) = true ->
            adata (lsds s3) (ch :: p)
            = if adata (segmentation s1) p =? u then adata d (ch :: csub p (Roi.get_begin roi))
              else adata (lsds s) (ch :: p)).
  { intros ch p Hp'. rewrite (Hval ch p Hp'), Hseg2. reflexivity. }
  assert (Hdu : get_descriptors (lsd_extractor s1) (roi_slice (segmentation s1) roi) None [u]
                  (voxel_size s1) = Some d).
  { unfold roi_slice. rewrite Hseg. rewrite <- Hseg2. exact Hd1. }
  assert (R2 : node_roi (rag s2) = <[u := roi]> (node_roi (rag s))) by reflexivity.
  assert (Sc2 : node_score (rag s2) = node_score (rag s)) by reflexivity.
  assert (T2 : target_lsds s2 = target_lsds s1) by (cbn; congruence).
  assert (F : rag s3 = rag s2 /\ nodes (rag s2) = nodes (rag s1))
    by (split; [now rewrite S3|cbn; congruence]).
  destruct F as [F1 F2].
  remember (squared_error (target_lsds s2) d (Roi.get_begin roi) C
              (voxels_labeled (segmentation s2) roi [u])) as x eqn:Hx in E3.
  rewrite T2, Hseg2 in Hx.
  clear Hval Hd1 Hd2 S3 T2 Hseg2. clearbody s2 roi.
  unfold bind at 1 in E. rewrite E3 in E.
  unfold bind at 1 in E. rewrite set_node_score_done in E by (rewrite F1, F2; exact Hu).
  rewrite set_node_labels_done in E by (cbn; rewrite F1, F2; exact Hu).
  injection E as <-. unfold described.
  cbn [rag set_rag nodes edges node_roi node_score node_labels edge_weight lsds].
  rewrite F1, R2, Sc2.
  split.
  - intros y roi' d' Hy Hroi' Hd'.
    destruct (decide (y = u)) as [->|Hne].
    + rewrite lookup_insert_eq in Hroi'. injection Hroi' as <-.
      rewrite Hdu in Hd'. injection Hd' as <-.
      rewrite lookup_insert_eq. split.
      * now rewrite Hx.
      * intros ch p Hp' Hpu. rewrite Hseg in Hp'. rewrite (Hl3 ch p Hp'), Hpu, Z.eqb_refl.
        reflexivity.
    + rewrite lookup_insert_ne in Hroi' by congruence.
      rewrite lookup_insert_ne by congruence.
      apply elem_of_cons in Hy. destruct Hy as [Hy|Hy]; [congruence|].
      destruct (HD1 y roi' d' Hy Hroi' Hd') as [Hs Hl'].
      split; [exact Hs|].
      intros ch p Hp' Hpy. rewrite <- (Hl' ch p Hp' Hpy). rewrite Hseg in Hp'.
      rewrite (Hl3 ch p Hp'), Hpy.
      destruct (y =? u) eqn:Eyu; [apply Z.eqb_eq in Eyu; congruence|reflexivity].
  - intros ch p Hp' Hnot. rewrite <- (HD0 ch p Hp').
    + rewrite Hseg in Hp'. rewrite (Hl3 ch p Hp').
      destruct (adata (segmentation s1) p =? u) eqn:Epu; [|reflexivity].
      apply Z.eqb_eq in Epu. exfalso. apply Hnot. rewrite Epu. left.
    + intros Hin. apply Hnot. now right.
Qed.

(** Both loops return, with the descriptors and the scores of all nodes. *)
Lemma initialize_loops_result :
  (forall y roi, node_roi (rag s1) !! y = Some roi ->
     initial_region frag (lsd_extractor s1) y roi) ->
  (forall i, adata (lsds s1) i = 0) ->
  exists s',
    (for_each (nodes (rag s1)) (fun u =>
       bb <- lift_opt IndexError (find_objects_first (eq_scalar frag u)) ;;
       roi <- slice_to_roi bb ;;
       set_node_roi u roi ;;;
       score <- compute_node_score u ;;
       set_node_score u score ;;;
       set_node_labels u [u]) ;;;
     for_each (rag_edges (rag s1)) (fun e =>
       score <- score_merge (fst e) (snd e) ;;
       set_edge_weight (fst e) (snd e) score)) s1 = Done tt s' /\
    initialising frag s1 s' /\
    described (segmentation s1) (target_lsds s1) (lsd_extractor s1) (voxel_size s1) C
      (nodes (rag s1)) s'.
Proof.
  intros H0 Hz.
  destruct (initialize_loops_return H0) as (s' & E & Hini & _).
  exists s'. split; [exact E|]. split; [exact Hini|].
  destruct (for_each_returns
              (fun done s =>
                 (initialising frag s1 s /\ (forall y, y ∈ done -> scored y s)) /\
                 described (segmentation s1) (target_lsds s1) (lsd_extractor s1)
                   (voxel_size s1) C done s)
              (fun u =>
                 bb <- lift_opt IndexError (find_objects_first (eq_scalar frag u)) ;;
                 roi <- slice_to_roi bb ;;
                 set_node_roi u roi ;;;
                 score <- compute_node_score u ;;
                 set_node_score u score ;;;
                 set_node_labels u [u])
              (nodes (rag s1))
              (fun done u s Hu HI => initialize_node_result done u s Hu HI) [] s1)
    as (s2 & E2 & _ & H2).
  { split; [split; [split; [repeat split|exact H0]|]|split].
    - intros y Hy. now apply elem_of_nil in Hy.
    - intros y roi d Hy. now apply elem_of_nil in Hy.
    - intros ch p _ _. apply Hz. }
  rewrite (bind_done _ _ _ _ _ E2) in E.
  pose proof (frames_for_each same_scores same_scores_trans same_scores_nl
                (rag_edges (rag s1))
                (fun e => score <- score_merge (fst e) (snd e) ;;
                          set_edge_weight (fst e) (snd e) score)
                (fun e _ => frames_score_edge e) s2) as F.
  rewrite E in F. destruct F as [F _].
  apply (described_ext _ _ _ _ _ (reverse (nodes (rag s1)) ++ []) _ s2); [|exact F|exact H2].
  intros y. rewrite app_nil_r. symmetry. apply elem_of_reverse.
Qed.

Hypothesis Hresp : extractor_respects (lsd_extractor s1).

(** The score of an edge of the graph, in every state of the loops. *)
Lemma edge_score_value (a b : Z) (s : state) :
  (a, b) ∈ rag_edges (rag s1) ->
  initialising frag s1 s -> (forall y, y ∈ nodes (rag s1) -> scored y s) ->
  exists roi_a roi_b d,
    node_roi (rag s) !! a = Some roi_a /\ node_roi (rag s) !! b = Some roi_b /\
    let rois := lsds_edge_rois roi_a roi_b (total_roi_of (segmentation s1)) c in
    let rel := Roi.sub (fst rois) (Roi.get_begin (snd rois)) in
    let voxels := voxels_labeled (segmentation s1) (fst rois) [a; b] in
    get_descriptors (lsd_extractor s1)
      (relabel (roi_slice (segmentation s1) (snd rois)) a b) (Some rel) [b] (voxel_size s1)
    = Some d /\
    compute_edge_score a b s
    = Done (squared_error (target_lsds s1) d (Roi.get_begin (fst rois)) C voxels
            - squared_error (target_lsds s1) (lsds s) (zeros n) C voxels) s.
Proof.
  intros He [Hv Hr] Hsc.
  destruct Hv as (V1 & V2 & V3 & V4 & V5 & V6 & V7 & V8 & V9).
  destruct (edge_ends_here a b He) as (Ha & Hb & Hhe).
  destruct (Hsc a Ha) as [[roi_a Ea] _]. destruct (Hsc b Hb) as [[roi_b Eb] _].
  destruct (initial_region_proper frag _ a roi_a (Hr a roi_a Ea) Hd) as [Hpa Hla].
  destruct (initial_region_proper frag _ b roi_b (Hr b roi_b Eb) Hd) as [Hpb Hlb].
  rewrite Hfrag, Hn in Hpa, Hla, Hpb, Hlb.
  set (rois := lsds_edge_rois roi_a roi_b (total_roi_of (segmentation s1)) c).
  set (rel := Roi.sub (fst rois) (Roi.get_begin (snd rois))).
  destruct (Hex (relabel (roi_slice (segmentation s1) (snd rois)) a b) (Some rel) [b])
    as (d & Hd1 & Hd2).
  exists roi_a, roi_b, d. split; [exact Ea|]. split; [exact Eb|]. split; [exact Hd1|].
  pose proof (compute_edge_score_done a b s roi_a roi_b sh c C d n Ea Eb Hpa Hpb) as Hval.
  cbv zeta in Hval. rewrite V1, V3, V4, V5, V6 in Hval.
  apply Hval; try assumption.
  - intros k Hk. split; [now apply Hla|now apply Hlb].
  - congruence.
Qed.

(** The score of an edge depends on the regions of the nodes and on the
    live descriptors only. *)
Lemma edge_score_stable (a b w : Z) (s s' : state) :
  (a, b) ∈ rag_edges (rag s1) ->
  initialising frag s1 s -> (forall y, y ∈ nodes (rag s1) -> scored y s) ->
  initialising frag s1 s' -> (forall y, y ∈ nodes (rag s1) -> scored y s') ->
  node_roi (rag s') = node_roi (rag s) -> lsds s' = lsds s ->
  compute_edge_score a b s = Done w s -> compute_edge_score a b s' = Done w s'.
Proof.
  intros He Hi Hs Hi' Hs' HR HL H.
  destruct (edge_score_value a b s He Hi Hs) as (ra & rb & d & Ea & Eb & Hd0 & Hv).
  destruct (edge_score_value a b s' He Hi' Hs') as (ra' & rb' & d' & Ea' & Eb' & Hd' & Hv').
  cbv zeta in Hd0, Hv, Hd', Hv'.
  rewrite HR, Ea in Ea'. injection Ea' as <-.
  rewrite HR, Eb in Eb'. injection Eb' as <-.
  rewrite Hd0 in Hd'. injection Hd' as <-.
  rewrite Hv in H. injection H as <-.
  rewrite Hv', HL. reflexivity.
Qed.

(** One round of the loop over the edges, with the weight it stores. *)
Lemma score_edge_result (done : list (Z * Z)) (e : Z * Z) (s : state) :
  e ∈ rag_edges (rag s1) ->
  (initialising frag s1 s /\ (forall y, y ∈ nodes (rag s1) -> scored y s) /\
   (forall e', e' ∈ done -> weighted e' s)) /\
  (forall e', e' ∈ done ->
     e' ∈ rag_edges (rag s1) /\
     exists w, compute_edge_score (fst e') (snd e') s = Done w s /\
               edge_weight (rag s) !! ekey (fst e') (snd e') = Some w) ->
  exists s',
    (score <- score_merge (fst e) (snd e) ;;
     set_edge_weight (fst e) (snd e) score) s = Done tt s' /\
    ((initialising frag s1 s' /\ (forall y, y ∈ nodes (rag s1) -> scored y s') /\
      (forall e', e' ∈ e :: done -> weighted e' s')) /\
     (forall e', e' ∈ e :: done ->
        e' ∈ rag_edges (rag s1) /\
        exists w, compute_edge_score (fst e') (snd e') s' = Done w s' /\
                  edge_weight (rag s') !! ekey (fst e') (snd e') = Some w)).
Proof.
  intros He [HI HW].
  destruct (score_edge_returns done e s He HI) as (s' & E & HI').
  exists s'. split; [exact E|]. split; [exact HI'|].
  destruct HI as (Hi & Hs & _). destruct HI' as (Hi' & Hs' & _).
  destruct e as [a b]. cbn [fst snd] in E.
  destruct (edge_score_value a b s He Hi Hs) as (ra & rb & d & _ & _ & _ & Ex).
  cbv zeta in Ex.
  match type of Ex with _ = Done ?X _ => set (x := X) in Ex end. clearbody x.
  assert (Esm : score_merge a b s = Done x s).
  { unfold score_merge. unfold call at 1. unfold compute_edge_score at 1.
    rewrite call_set_locals. fold (compute_edge_score a b). rewrite Ex. now destruct s. }
  unfold bind in E. rewrite Esm in E.
  rewrite set_edge_weight_done in E.
  2:{ destruct (edge_ends_here a b He) as (_ & _ & Hhe). destruct Hi as [Hv _].
      destruct Hv as (_ & _ & _ & _ & _ & _ & _ & V8 & _).
      unfold has_edge in *. now rewrite V8. }
  injection E as Es'.
  assert (HR : node_roi (rag s') = node_roi (rag s)) by (now rewrite <- Es').
  assert (HL : lsds s' = lsds s) by (now rewrite <- Es').
  assert (HE : edge_weight (rag s') = <[ekey a b := x]> (edge_weight (rag s)))
    by (now rewrite <- Es').
  clear Es'.
  assert (Ex' : compute_edge_score a b s' = Done x s')
    by (now apply (edge_score_stable a b x s s')).
  intros e' He'. apply elem_of_cons in He'. destruct He' as [->|He'].
  - split; [exact He|]. exists x. cbn [fst snd]. split; [exact Ex'|].
    rewrite HE. apply lookup_insert_eq.
  - destruct (HW e' He') as (Hin & w & Hw1 & Hw2). split; [exact Hin|].
    destruct (decide (ekey (fst e') (snd e') = ekey a b)) as [Hk|Hk].
    + assert (e' = (a, b)) as ->.
      { now apply (rag_edges_distinct (rag s1)). }
      cbn [fst snd] in *. exists x. split; [exact Ex'|]. rewrite HE. apply lookup_insert_eq.
    + exists w. split.
      * destruct e' as [a' b']. cbn [fst snd] in *.
        now apply (edge_score_stable a' b' w s s').
      * rewrite HE, lookup_insert_ne by congruence. exact Hw2.
Qed.

(** Both loops return, and every edge has as its weight the score that
    the edge has in the state they leave. *)
Lemma initialize_loops_weights :
  (forall y roi, node_roi (rag s1) !! y = Some roi ->
     initial_region frag (lsd_extractor s1) y roi) ->
  exists s',
    (for_each (nodes (rag s1)) (fun u =>
       bb <- lift_opt IndexError (find_objects_first (eq_scalar frag u)) ;;
       roi <- slice_to_roi bb ;;
       set_node_roi u roi ;;;
       score <- compute_node_score u ;;
       set_node_score u score ;;;
       set_node_labels u [u]) ;;;
     for_each (rag_edges (rag s1)) (fun e =>
       score <- score_merge (fst e) (snd e) ;;
       set_edge_weight (fst e) (snd e) score)) s1 = Done tt s' /\
    initialising frag s1 s' /\
    (forall e, e ∈ rag_edges (rag s1) ->
       exists w, compute_edge_score (fst e) (snd e) s' = Done w s' /\
                 edge_weight (rag s') !! ekey (fst e) (snd e) = Some w).
Proof.
  intros H0.
  destruct (for_each_returns
              (fun done s => initialising frag s1 s /\ (forall y, y ∈ done -> scored y s))
              (fun u =>
                 bb <- lift_opt IndexError (find_objects_first (eq_scalar frag u)) ;;
                 roi <- slice_to_roi bb ;;
                 set_node_roi u roi ;;;
                 score <- compute_node_score u ;;
                 set_node_score u score ;;;
                 set_node_labels u [u])
              (nodes (rag s1))
              (fun done u s Hu HI => initialize_node_returns done u s Hu HI) [] s1)
    as (s2 & E2 & H2 & H2').
  { split; [split; [repeat split|exact H0]|]. intros y Hy. now apply elem_of_nil in Hy. }
  destruct (for_each_returns
              (fun done s =>
                 (initialising frag s1 s /\
                  (forall y, y ∈ nodes (rag s1) -> scored y s) /\
                  (forall e', e' ∈ done -> weighted e' s)) /\
                 (forall e', e' ∈ done ->
                    e' ∈ rag_edges (rag s1) /\
                    exists w, compute_edge_score (fst e') (snd e') s = Done w s /\
                              edge_weight (rag s) !! ekey (fst e') (snd e') = Some w))
              (fun e =>
                 score <- score_merge (fst e) (snd e) ;;
                 set_edge_weight (fst e) (snd e) score)
              (rag_edges (rag s1))
              (fun done e s He HI => score_edge_result done e s He HI) [] s2)
    as (s3 & E3 & (H3 & _) & H3').
  { split; [split; [exact H2|split]|].
    - intros y Hy. apply H2'. rewrite app_nil_r. now apply elem_of_reverse.
    - intros e He. now apply elem_of_nil in He.
    - intros e He. now apply elem_of_nil in He. }
  exists s3. split; [rewrite (bind_done _ _ _ _ _ E2); exact E3|].
  split; [exact H3|].
  intros e He. apply H3'. rewrite app_nil_r. now apply elem_of_reverse.
Qed.
End Construction.

(** X15: the construction completes when the target has the shape of the
    fragments behind a channel axis, the downsampling factor is positive,
    no voxel size is zero, the context is not negative and the extractor
    answers every request with descriptors of the requested shape; then
    every node of the graph has its region and its score and every edge
    has its weight. *)
Theorem init_completes (frag target : ndarray) (ex : LsdExtractor) (vs : option coord)
    (sh c : coord) (C : Z) (n : nat) :
  ashape frag = sh -> length sh = n ->
  (forall k : nat, (k < n)%nat -> 0 <= ax sh k) ->
  0 <= C -> ashape target = C :: sh ->
  0 < downsample ex ->
  let vsz := match vs with
             | None => replicate (length (ashape frag)) 1
             | Some v => v
             end in
  voxel_context (get_context ex) vsz = Some c -> length c = n ->
  (forall k : nat, (k < n)%nat -> 0 <= ax c k) ->
  well_shaped ex C vsz ->
  exists s',
    init frag target ex vs = Done tt s' /\
    (forall u, u ∈ nodes (rag s') -> scored u s') /\
    (forall e, e ∈ edges (rag s') -> weighted e s').
Proof.
  intros Hsh Hn Hsh0 HC Ht Hd vsz Hc Hcl Hc0 Hex.
  unfold init, initialize_rag, call.
  rewrite (bind_done _ _ _ _ _ (whole_done Fragments _ _ eq_refl)).
  do 3 (erewrite bind_done; [|reflexivity]).
  match goal with
  | |- context [RAG_new (view_val ?S ?V) 2 ] => set (frag' := view_val S V)
  end.
  match goal with
  | |- context [bind (for_each _ _) _ ?S] => set (s1 := S)
  end.
  destruct (initialize_loops_return frag' s1 sh C c n) as (s' & E & [Hv _] & Hs & Hw);
    try assumption; try reflexivity.
  { intros y roi Hy. cbn [s1 rag set_rag] in Hy.
    destruct (bare_RAG_new frag' 2) as [B _]. rewrite B in Hy.
    now rewrite lookup_empty in Hy. }
  rewrite E.
  eexists. split; [reflexivity|].
  destruct Hv as (_ & _ & _ & _ & _ & _ & V7 & V8 & _).
  split.
  - intros u Hu. apply Hs. cbn [rag set_locals] in Hu. now rewrite <- V7.
  - intros e He. apply Hw. cbn [rag set_locals] in He. now rewrite <- V8.
Qed.

Lemma init_completes_witness :
  exists s',
    init two_fragments constant_target indicator_extractor None = Done tt s' /\
    (forall u, u ∈ nodes (rag s') -> scored u s') /\
    (forall e, e ∈ edges (rag s') -> weighted e s').
Proof.
  apply (init_completes two_fragments constant_target indicator_extractor None
           [2; 4] [1; 1] 2 2).
  - reflexivity.
  - reflexivity.
  - intros [|[|k]] Hk; vm_compute; try discriminate; lia.
  - lia.
  - reflexivity.
  - reflexivity.
  - reflexivity.
  - reflexivity.
  - intros [|[|k]] Hk; vm_compute; try discriminate; lia.
  - intros seg roi labels. eexists. split; [reflexivity|]. now destruct roi.
Defined.

(** X17: what the construction computes.  Under the conditions under which
    it completes, every node [u] of the graph, with [roi] its stored region
    and [d] the descriptors the extractor gives for the fragment [u] alone
    in the slice [roi] of the fragments, has as its score the squared
    error of [d] against the target over the voxels of [u], summed over
    the channels, and the live descriptors returned by [get_lsds] hold [d]
    at the voxels of [u]; at the voxels of a label that is not a node they
    are zero. *)
Theorem init_result (frag target : ndarray) (ex : LsdExtractor) (vs : option coord)
    (sh c : coord) (C : Z) (n : nat) :
  ashape frag = sh -> length sh = n ->
  (forall k : nat, (k < n)%nat -> 0 <= ax sh k) ->
  0 <= C -> ashape target = C :: sh ->
  0 < downsample ex ->
  let vsz := match vs with
             | None => replicate (length (ashape frag)) 1
             | Some v => v
             end in
  voxel_context (get_context ex) vsz = Some c -> length c = n ->
  (forall k : nat, (k < n)%nat -> 0 <= ax c k) ->
  well_shaped ex C vsz ->
  exists s',
    init frag target ex vs = Done tt s' /\
    (forall u roi d, u ∈ nodes (rag s') -> node_roi (rag s') !! u = Some roi ->
       get_descriptors ex (roi_slice frag roi) None [u] vsz = Some d ->
       node_score (rag s') !! u
       = Some (squared_error target d (Roi.get_begin roi) C (voxels_labeled frag roi [u])) /\
       forall ch p, in_shape (C :: sh) (ch :: p) = true -> adata frag p = u ->
         adata (get_lsds s') (ch :: p) = adata d (ch :: csub p (Roi.get_begin roi))) /\
    (forall ch p, in_shape (C :: sh) (ch :: p) = true -> adata frag p ∉ nodes (rag s') ->
       adata (get_lsds s') (ch :: p) = 0).
Proof.
  intros Hsh Hn Hsh0 HC Ht Hd vsz Hc Hcl Hc0 Hex.
  unfold init, initialize_rag, call.
  rewrite (bind_done _ _ _ _ _ (whole_done Fragments _ _ eq_refl)).
  do 3 (erewrite bind_done; [|reflexivity]).
  match goal with
  | |- context [RAG_new (view_val ?S ?V) 2 ] => set (frag' := view_val S V)
  end.
  match goal with
  | |- context [bind (for_each _ _) _ ?S] => set (s1 := S)
  end.
  destruct (initialize_loops_result frag' s1 sh C c n) as (s' & E & [Hv _] & [H1 H0]);
    try assumption; try reflexivity.
  { apply whole_equiv. }
  { intros y roi Hy. cbn [s1 rag set_rag] in Hy.
    destruct (bare_RAG_new frag' 2) as [B _]. rewrite B in Hy.
    now rewrite lookup_empty in Hy. }
  rewrite E.
  eexists. split; [reflexivity|].
  destruct Hv as (_ & _ & _ & _ & _ & _ & V7 & _).
  unfold get_lsds. cbn [rag lsds set_locals]. rewrite V7.
  change (segmentation s1) with frag in H1, H0.
  change (target_lsds s1) with target in H1.
  change (lsd_extractor s1) with ex in H1.
  change (voxel_size s1) with vsz in H1.
  rewrite Hsh in H1, H0. split; [exact H1|exact H0].
Qed.

Lemma init_result_witness :
  exists s',
    init two_fragments constant_target indicator_extractor None = Done tt s' /\
    described two_fragments constant_target indicator_extractor [1; 1] 2 (nodes (rag s')) s'.
Proof.
  destruct (init_result two_fragments constant_target indicator_extractor None
              [2; 4] [1; 1] 2 2) as (s' & E & H1 & H0).
  - reflexivity.
  - reflexivity.
  - intros [|[|k]] Hk; vm_compute; try discriminate; lia.
  - lia.
  - reflexivity.
  - reflexivity.
  - reflexivity.
  - reflexivity.
  - intros [|[|k]] Hk; vm_compute; try discriminate; lia.
  - intros seg roi labels. eexists. split; [reflexivity|]. now destruct roi.
  - exists s'. split; [exact E|]. split; [exact H1|exact H0].
Defined.

(** X18: the weights the construction stores.  Under the conditions under
    which it completes, and with an extractor that is a function of the
    content of the array it is given, every edge [(a, b)] that
    [rag.edges()] yields, in the direction in which it yields it, carries
    as its weight exactly the score that [compute_edge_score a b] returns
    on the constructed object: no weight was computed from descriptors or
    regions that changed afterwards, and no weight was overwritten by the
    score of another edge. *)
Theorem init_edge_weights (frag target : ndarray) (ex : LsdExtractor) (vs : option coord)
    (sh c : coord) (C : Z) (n : nat) :
  ashape frag = sh -> length sh = n ->
  (forall k : nat, (k < n)%nat -> 0 <= ax sh k) ->
  0 <= C -> ashape target = C :: sh ->
  0 < downsample ex ->
  let vsz := match vs with
             | None => replicate (length (ashape frag)) 1
             | Some v => v
             end in
  voxel_context (get_context ex) vsz = Some c -> length c = n ->
  (forall k : nat, (k < n)%nat -> 0 <= ax c k) ->
  well_shaped ex C vsz -> extractor_respects ex ->
  exists s',
    init frag target ex vs = Done tt s' /\
    forall a b, (a, b) ∈ rag_edges (rag s') ->
      exists w, compute_edge_score a b s' = Done w s' /\
                edge_weight (rag s') !! ekey a b = Some w.
Proof.
  intros Hsh Hn Hsh0 HC Ht Hd vsz Hc Hcl Hc0 Hex Hresp.
  unfold init, initialize_rag, call.
  rewrite (bind_done _ _ _ _ _ (whole_done Fragments _ _ eq_refl)).
  do 3 (erewrite bind_done; [|reflexivity]).
  match goal with
  | |- context [RAG_new (view_val ?S ?V) 2 ] => set (frag' := view_val S V)
  end.
  match goal with
  | |- context [bind (for_each _ _) _ ?S] => set (s1 := S)
  end.
  destruct (initialize_loops_weights frag' s1 sh C c n) as (s' & E & [Hv _] & Hw);
    try assumption; try reflexivity.
  { intros y roi Hy. cbn [s1 rag set_rag] in Hy.
    destruct (bare_RAG_new frag' 2) as [B _]. rewrite B in Hy.
    now rewrite lookup_empty in Hy. }
  rewrite E.
  eexists. split; [reflexivity|].
  destruct Hv as (_ & _ & _ & _ & _ & _ & V7 & V8 & _).
  intros a b Hab. cbn [rag set_locals] in Hab.
  rewrite (rag_edges_ext (rag s1) (rag s') V7 V8) in Hab.
  destruct (Hw (a, b) Hab) as (w & Hw1 & Hw2). cbn [fst snd] in Hw1, Hw2.
  exists w. split; [|exact Hw2].
  now apply compute_edge_score_locals.
Qed.

Lemma init_edge_weights_witness :
  exists s',
    init two_fragments constant_target indicator_extractor None = Done tt s' /\
    exists w, compute_edge_score 1 2 s' = Done w s' /\
              edge_weight (rag s') !! ekey 1 2 = Some w.
Proof.
  destruct (init_edge_weights two_fragments constant_target indicator_extractor None
              [2; 4] [1; 1] 2 2) as (s' & E & H).
  - reflexivity.
  - reflexivity.
  - intros [|[|k]] Hk; vm_compute; try discriminate; lia.
  - lia.
  - reflexivity.
  - reflexivity.
  - reflexivity.
  - reflexivity.
  - intros [|[|k]] Hk; vm_compute; try discriminate; lia.
  - intros seg roi labels. eexists. split; [reflexivity|]. now destruct roi.
  - exact indicator_extractor_respects.
  - exists s'. split; [exact E|]. apply H.
    assert (Es : rag_edges (rag s') = [(1, 2)]).
    { vm_compute in E. injection E as <-. reflexivity. }
    rewrite Es. left.
Defined.

(** ** Regions that bound their fragments *)

Lemma containsb_union (a b : Roi.t) (n : nat) (p : coord) :
  roi_dim n a -> roi_dim n b ->
  Roi.containsb a p = true \/ Roi.containsb b p = true ->
  Roi.containsb (Roi.union a b) p = true.
Proof.
  intros Ha Hb H. destruct (union_spec a b n Ha Hb) as [Hd Hu].
  apply (containsb_spec _ p n Hd).
  destruct H as [H|H]; [apply (containsb_spec a p n Ha) in H|apply (containsb_spec b p n Hb) in H];
    destruct H as [Hl H]; (split; [exact Hl|]); intros k Hk;
    specialize (H k Hk); destruct (Hu k Hk) as [U1 U2]; lia.
Qed.

Lemma union_proper (a b : Roi.t) (n : nat) :
  Roi.proper n a -> Roi.proper n b ->
  (forall k : nat, (k < n)%nat -> 0 <= lo a k /\ 0 <= lo b k) ->
  Roi.proper n (Roi.union a b) /\ forall k : nat, (k < n)%nat -> 0 <= lo (Roi.union a b) k.
Proof.
  intros Ha Hb Hlo.
  destruct (union_spec a b n (proper_dim _ _ Ha) (proper_dim _ _ Hb)) as [[Ho Hs] Hu].
  destruct Ha as (_ & _ & Hpa). destruct Hb as (_ & _ & Hpb).
  split; [split; [exact Ho|split; [exact Hs|]]|].
  - intros k Hk. destruct (Hu k Hk) as [U1 U2]. specialize (Hpa k Hk). specialize (Hpb k Hk).
    unfold lo, hi in *. lia.
  - intros k Hk. destruct (Hu k Hk) as [U1 _]. specialize (Hlo k Hk). lia.
Qed.

(** A merge keeps the regions touching: the region of the merged node is
    the union of the two regions, and it touches every region that one of
    them touched. *)
Lemma regions_touch_union (sh : coord) (a b x : Roi.t) (n : nat) :
  roi_dim n a -> roi_dim n x -> regions_touch sh a b ->
  regions_touch sh (Roi.union x a) b.
Proof.
  intros Ha Hx (p & q & Hp & Hq & Hpa & Hqb & Hpq).
  exists p, q. repeat split; try assumption.
  - apply (containsb_union x a n p Hx Ha). now right.
  - now apply Hpq.
  - now apply Hpq.
Qed.

Lemma regions_touch_sym (sh : coord) (a b : Roi.t) :
  regions_touch sh a b -> regions_touch sh b a.
Proof.
  intros (p & q & Hp & Hq & Hpa & Hqb & Hpq).
  exists q, p. repeat split; try assumption; specialize (Hpq i H); lia.
Qed.


(** X16: a completed merge keeps the regions of the graph bounding their
    fragments.  When every stored region is a proper box with a
    non-negative begin that contains all voxels of its node's label, the
    same holds after [merge_nodes u v] for two different nodes: the region
    of [v] has grown to the union and contains the voxels relabelled from
    [u], and no voxel carries [u] any more. *)
Theorem merge_nodes_keeps_regions_bound (u v su sv w : Z) (s : state)
    (roi_u roi_v : Roi.t) (sh c : coord) (C : Z) (d : ndarray) (n : nat) :
  node_roi (rag s) !! u = Some roi_u -> node_roi (rag s) !! v = Some roi_v ->
  u <> v -> u ∈ nodes (rag s) -> regions_bound n s ->
  ashape (segmentation s) = sh -> length sh = n ->
  (forall k : nat, (k < n)%nat -> 0 <= ax sh k) ->
  voxel_context (context s) (voxel_size s) = Some c -> length c = n ->
  (forall k : nat, (k < n)%nat -> 0 <= ax c k) ->
  0 <= C -> ashape (lsds s) = C :: sh ->
  v ∈ nodes (rag s) ->
  node_score (rag s) !! u = Some su -> node_score (rag s) !! v = Some sv ->
  edge_weight (rag s) !! ekey u v = Some w ->
  let rois := lsds_edge_rois roi_u roi_v (total_roi_of (segmentation s)) c in
  let rel := Roi.sub (fst rois) (Roi.get_begin (snd rois)) in
  let seg1 := segmentation (final_state (merge_segmentation u v s)) in
  get_descriptors (lsd_extractor s) (roi_slice seg1 (snd rois)) (Some rel) [v] (voxel_size s)
  = Some d ->
  ashape d = C :: Roi.shape rel ->
  exists s',
    merge_nodes u v s = Done tt s' /\ regions_bound n s' /\
    forall p, in_shape sh p = true -> adata (segmentation s') p <> u.
Proof.
  intros Hu Hv Huv Hun Hb Hsh Hn Hsh0 Hc Hcl Hc0 HC Hl Hvn Hsu Hsv Hw rois rel seg1 Hd Hds.
  destruct (Hb u roi_u Hun Hu) as (Hpu & Hlu & Hbu).
  destruct (Hb v roi_v Hvn Hv) as (Hpv & Hlv & Hbv).
  rewrite Hsh in Hbu, Hbv.
  assert (Hlo : forall k : nat, (k < n)%nat -> 0 <= lo roi_u k /\ 0 <= lo roi_v k)
    by (intros k Hk; split; [now apply Hlu|now apply Hlv]).
  destruct (merge_nodes_done u v su sv w s roi_u roi_v sh c C d n) as
    (s' & Hrun & Hseg & _ & _ & Hrag & _); try assumption.
  fold seg1 in Hseg.
  pose proof (proper_dim _ _ Hpu) as Hdu. pose proof (proper_dim _ _ Hpv) as Hdv.
  destruct (merge_segmentation_spec u v s roi_u sh n Hu Hsh Hn Hdu) as (_ & Hsh1 & Hpt).
  { intros k Hk. specialize (Hlu k Hk). specialize (Hsh0 k Hk).
    destruct Hpu as (_ & _ & Hpos). specialize (Hpos k Hk). lia. }
  fold seg1 in Hsh1, Hpt.
  assert (Hlab : forall p, in_shape sh p = true ->
            adata seg1 p = if adata (segmentation s) p =? u then v else adata (segmentation s) p).
  { intros p Hp. rewrite (Hpt p Hp).
    destruct (adata (segmentation s) p =? u) eqn:E; [|now rewrite andb_false_r].
    apply Z.eqb_eq in E. now rewrite (Hbu p Hp E). }
  exists s'. split; [exact Hrun|]. split.
  - intros x r Hxn Hx. rewrite Hrag in Hx, Hxn. cbn [node_roi nodes] in Hx, Hxn.
    rewrite Hseg, Hsh1.
    destruct (decide (x = v)) as [->|Hxv].
    + rewrite lookup_insert_eq in Hx. injection Hx as <-.
      destruct (union_proper roi_u roi_v n Hpu Hpv Hlo) as [Hp1 Hp2].
      split; [exact Hp1|]. split; [exact Hp2|].
      intros p Hp Hpv'. rewrite (Hlab p Hp) in Hpv'.
      apply (containsb_union roi_u roi_v n p Hdu Hdv).
      destruct (adata (segmentation s) p =? u) eqn:E.
      * left. apply Z.eqb_eq in E. now apply Hbu.
      * right. now apply Hbv.
    + rewrite lookup_insert_ne in Hx by congruence.
      destruct (Hb x r Hxn Hx) as (Hpx & Hlx & Hbx). rewrite Hsh in Hbx.
      split; [exact Hpx|]. split; [exact Hlx|].
      intros p Hp Hpx'. rewrite (Hlab p Hp) in Hpx'.
      destruct (adata (segmentation s) p =? u) eqn:E; [congruence|]. now apply Hbx.
  - intros p Hp. rewrite Hseg, (Hlab p Hp).
    destruct (adata (segmentation s) p =? u) eqn:E; [congruence|]. now apply Z.eqb_neq.
Qed.

Lemma merge_nodes_keeps_regions_bound_witness :
  exists s',
    merge_nodes 1 2 two_fragments_state = Done tt s' /\ regions_bound 2 s' /\
    adata (segmentation s') [0; 0] <> 1.
Proof.
  pose (rois := lsds_edge_rois (Roi.mk [0; 0] [2; 2]) (Roi.mk [0; 2] [2; 2])
                  (total_roi_of two_fragments) [1; 1]).
  pose (seg1 := segmentation (final_state (merge_segmentation 1 2 two_fragments_state))).
  pose (rel := Roi.sub (fst rois) (Roi.get_begin (snd rois))).
  destruct (merge_nodes_keeps_regions_bound 1 2 4 4 0 two_fragments_state
              (Roi.mk [0; 0] [2; 2]) (Roi.mk [0; 2] [2; 2]) [2; 4] [1; 1] 2
              (descriptors_of indicator_extractor (roi_slice seg1 (snd rois)) (Some rel)
                 [2] [1; 1]) 2) as (s' & H1 & H2 & H3).
  - vm_compute. reflexivity.
  - vm_compute. reflexivity.
  - discriminate.
  - vm_compute. repeat constructor.
  - intros w r Hw Hr. vm_compute in Hw.
    repeat (apply elem_of_cons in Hw; destruct Hw as [->|Hw]);
      [..|now apply elem_of_nil in Hw];
      vm_compute in Hr; injection Hr as <-;
      (split; [split; [reflexivity|split; [reflexivity|]]|split]);
      try (intros [|[|k]] Hk; [vm_compute; try reflexivity; try discriminate..|exfalso; lia]);
      intros p Hp E;
      change (ashape (segmentation two_fragments_state)) with [2; 4] in Hp;
      enum_indices Hp; vm_compute in E; try discriminate; reflexivity.
  - reflexivity.
  - reflexivity.
  - intros [|[|k]] Hk; vm_compute; try discriminate; lia.
  - reflexivity.
  - reflexivity.
  - intros [|[|k]] Hk; vm_compute; try discriminate; lia.
  - lia.
  - reflexivity.
  - vm_compute. repeat constructor.
  - vm_compute. reflexivity.
  - vm_compute. reflexivity.
  - vm_compute. reflexivity.
  - reflexivity.
  - reflexivity.
  - exists s'. split; [exact H1|]. split; [exact H2|]. apply H3. reflexivity.
Defined.
